(** * dagre: the layered layout pipeline (lib/layout.js, lib/rank.js)

    A shallow embedding of the layout pipeline of dagre and of its rank
    phase.  The working graph is a graphlib [CDigraph]; its nodes and
    edges are kept in insertion order, node identifiers are JavaScript
    strings, and the value objects attached to edges live in a store of
    their own, because the source shares one value object between
    several edges and between an edge and the dummy nodes that stand for
    it. *)

From Stdlib Require Import ZArith QArith Lia.
From stdpp Require Import base tactics option list strings pretty.
Close Scope Q_scope.

Set Default Proof Using "Type".

(** ** Errors and results *)

Inductive Error :=
  | NotAcyclic          (* "Input graph is not acyclic" (rank.js, initRank) *)
  | NoEnterEdge         (* "No edge found from outside of tree to inside" *)
  | TypeError           (* property access on [undefined] *)
  | GraphError          (* an exception raised by the graph library *)
  | StageError (name : string) (* an exception raised by an external phase *)
  | OutOfFuel.

Inductive Result (A : Type) :=
  | Ok (a : A)
  | Err (err : Error).
Arguments Ok {A} a.
Arguments Err {A} err.

Definition bindR {A B} (r : Result A) (k : A → Result B) : Result B :=
  match r with
  | Ok a => k a
  | Err err => Err err
  end.

#[global] Instance Result_bind : MBind Result := λ A B k r, bindR r k.
#[global] Instance Result_ret : MRet Result := λ A a, Ok a.

Fixpoint foldR {A B} (f : A → B → Result A) (l : list B) (a : A) : Result A :=
  match l with
  | [] => Ok a
  | b :: l' => a' ← f a b; foldR f l' a'
  end.

(** ** Values attached to nodes and edges *)

Abbreviation NodeId := string (only parsing).
Abbreviation EdgeId := string (only parsing).

(** A control point [{x, y, ul, ur, dl, dr}]; a coordinate that was never
    written is [undefined]. *)
Record Point := mkPoint {
  px : option Q; py : option Q;
  pul : option Q; pur : option Q; pdl : option Q; pdr : option Q }.

Definition noPoint : Point := mkPoint None None None None None None.

(** A rank constraint: a number, or a string such as "min" and "max". *)
Inductive PrefRank :=
  | PRNum (z : Z)
  | PRStr (s : string).

(** [edge: { id: e, source: s, target: t, attrs: a }] of a dummy node;
    [attrs] is a reference to the value object of the original edge. *)
Record EdgeRef := mkEdgeRef {
  ref_id : EdgeId; ref_source : NodeId; ref_target : NodeId; ref_attrs : nat }.

Record NodeValue := mkNodeValue {
  nv_width : option Q;
  nv_height : option Q;
  nv_rank : option Z;
  nv_prefRank : option PrefRank;
  nv_dummy : bool;
  nv_edge : option EdgeRef;
  nv_index : option nat;
  nv_order : option nat;
  nv_pos : Point;
  (* written by lib/rank.js *)
  nv_originalNodes : option (list NodeId);
  nv_low : option Z;
  nv_lim : option Z }.

Record EdgeValue := mkEdgeValue {
  ev_e : option EdgeId;
  ev_minLen : option Z;
  ev_width : option Q;
  ev_height : option Q;
  ev_points : option (list (option Point));
  ev_reversed : bool }.

(** The object literal [{}]. *)
Definition emptyValue : EdgeValue := mkEdgeValue None None None None None false.

Definition set_rank (r : option Z) (a : NodeValue) : NodeValue :=
  mkNodeValue (nv_width a) (nv_height a) r (nv_prefRank a) (nv_dummy a)
    (nv_edge a) (nv_index a) (nv_order a) (nv_pos a)
    (nv_originalNodes a) (nv_low a) (nv_lim a).

Definition set_order (o : option nat) (a : NodeValue) : NodeValue :=
  mkNodeValue (nv_width a) (nv_height a) (nv_rank a) (nv_prefRank a) (nv_dummy a)
    (nv_edge a) (nv_index a) o (nv_pos a)
    (nv_originalNodes a) (nv_low a) (nv_lim a).

Definition set_pos (p : Point) (a : NodeValue) : NodeValue :=
  mkNodeValue (nv_width a) (nv_height a) (nv_rank a) (nv_prefRank a) (nv_dummy a)
    (nv_edge a) (nv_index a) (nv_order a) p
    (nv_originalNodes a) (nv_low a) (nv_lim a).

Definition set_originalNodes (l : option (list NodeId)) (a : NodeValue) : NodeValue :=
  mkNodeValue (nv_width a) (nv_height a) (nv_rank a) (nv_prefRank a) (nv_dummy a)
    (nv_edge a) (nv_index a) (nv_order a) (nv_pos a)
    l (nv_low a) (nv_lim a).

Definition set_lowlim (low lim : option Z) (a : NodeValue) : NodeValue :=
  mkNodeValue (nv_width a) (nv_height a) (nv_rank a) (nv_prefRank a) (nv_dummy a)
    (nv_edge a) (nv_index a) (nv_order a) (nv_pos a)
    (nv_originalNodes a) low lim.

(** A node value that has the given dimensions and nothing else. *)
Definition plainNode (w h : option Q) : NodeValue :=
  mkNodeValue w h None None false None None None noPoint None None None.

Definition set_minLen (m : option Z) (a : EdgeValue) : EdgeValue :=
  mkEdgeValue (ev_e a) m (ev_width a) (ev_height a) (ev_points a) (ev_reversed a).

Definition set_points (p : option (list (option Point))) (a : EdgeValue) : EdgeValue :=
  mkEdgeValue (ev_e a) (ev_minLen a) (ev_width a) (ev_height a) p (ev_reversed a).

Definition set_reversed (b : bool) (a : EdgeValue) : EdgeValue :=
  mkEdgeValue (ev_e a) (ev_minLen a) (ev_width a) (ev_height a) (ev_points a) b.

Definition set_e (i : option EdgeId) (a : EdgeValue) : EdgeValue :=
  mkEdgeValue i (ev_minLen a) (ev_width a) (ev_height a) (ev_points a) (ev_reversed a).

(** ** The graph library

    Modelled from the spec: graphlib is an external collaborator and is
    not under src.  The spec asks for a directed multigraph with node
    add/delete, edge add/delete with an optional id, iteration in insertion
    order, edge endpoint accessors and values attached to nodes and
    edges.  An edge added without an id gets the next generated id
    ["_" + n]. *)

Record Edge := mkEdge {
  eid : EdgeId; esource : NodeId; etarget : NodeId;
  evalue : nat (* reference to the value object of the edge *) }.

Record Graph := mkGraph {
  nodes : list (NodeId * NodeValue);
  edges : list Edge;
  values : list EdgeValue;
  nextId : nat }.

Definition emptyGraph : Graph := mkGraph [] [] [] 0.

Definition autoId (n : nat) : string := "_" +:+ pretty n.

Definition nodeIds (g : Graph) : list NodeId := fst <$> nodes g.
Definition edgeIds (g : Graph) : list EdgeId := eid <$> edges g.

Fixpoint assoc {A} (u : string) (l : list (string * A)) : option A :=
  match l with
  | [] => None
  | (k, a) :: l' => if String.eqb k u then Some a else assoc u l'
  end.

Definition node (g : Graph) (u : NodeId) : option NodeValue := assoc u (nodes g).

Definition order (g : Graph) : nat := length (nodes g).

Definition addNode (g : Graph) (u : NodeId) (a : NodeValue) : Graph :=
  mkGraph (nodes g ++ [(u, a)]) (edges g) (values g) (nextId g).

Definition edgeById (g : Graph) (i : EdgeId) : option Edge :=
  find (λ ed, String.eqb (eid ed) i) (edges g).

Definition hasEdge (g : Graph) (i : EdgeId) : bool :=
  match edgeById g i with Some _ => true | None => false end.

(** [g.edge(e)]: the value object of edge [e]. *)
Definition edgeValue (g : Graph) (ed : Edge) : EdgeValue :=
  default emptyValue (values g !! evalue ed).

(** A fresh value object. *)
Definition newValue (g : Graph) (a : EdgeValue) : Graph * nat :=
  (mkGraph (nodes g) (edges g) (values g ++ [a]) (nextId g), length (values g)).

(** [g.addEdge(null, u, v, a)] where [a] is the object at reference [r]. *)
Definition addEdge (g : Graph) (u v : NodeId) (r : nat) : Graph :=
  mkGraph (nodes g)
    (edges g ++ [mkEdge (autoId (S (nextId g))) u v r])
    (values g) (S (nextId g)).

(** [g.addEdge(i, u, v, a)] with an explicit id. *)
Definition addEdgeAs (g : Graph) (i : EdgeId) (u v : NodeId) (r : nat) : Graph :=
  mkGraph (nodes g) (edges g ++ [mkEdge i u v r]) (values g) (nextId g).

(** [g.addEdge(null, u, v, {})]. *)
Definition addEdgeEmpty (g : Graph) (u v : NodeId) : Graph :=
  let '(g1, r) := newValue g emptyValue in addEdge g1 u v r.

Definition delEdge (g : Graph) (i : EdgeId) : Graph :=
  mkGraph (nodes g)
    (filter (λ ed, eid ed ≠ i) (edges g))
    (values g) (nextId g).

(** [g.delNode(u)] also removes the edges incident on [u]. *)
Definition delNode (g : Graph) (u : NodeId) : Graph :=
  mkGraph (filter (λ p, p.1 ≠ u) (nodes g))
    (filter (λ ed, esource ed ≠ u ∧ etarget ed ≠ u) (edges g))
    (values g) (nextId g).

(** Assignment to a property of the value object at reference [r]. *)
Definition updValue (g : Graph) (r : nat) (f : EdgeValue → EdgeValue) : Graph :=
  mkGraph (nodes g) (edges g) (alter f r (values g)) (nextId g).

Definition updNode (g : Graph) (u : NodeId) (f : NodeValue → NodeValue) : Graph :=
  mkGraph (map (λ p, if String.eqb p.1 u then (p.1, f p.2) else p) (nodes g))
    (edges g) (values g) (nextId g).

(** ** lib/layout.js *)

(** *** normalize *)

Definition dummyName (n : nat) : NodeId := "_D" +:+ pretty n.

Definition rankOf (g : Graph) (u : NodeId) : option Z :=
  a ← node g u; nv_rank a.

(** The object literal [node] that the loop of [normalize] builds for a
    dummy node at [rank], the [i]-th of its chain. *)
Definition dummyNode (ed : Edge) (a : EdgeValue) (rank : Z) (i : nat)
    (targetRank : Z) : NodeValue :=
  mkNodeValue (ev_width a) (ev_height a) (Some rank) None true
    (Some (mkEdgeRef (eid ed) (esource ed) (etarget ed) (evalue ed)))
    (if Nat.eqb i 0 then Some 0
     else if (rank + 1 =? targetRank)%Z then Some 1 else None)
    None noPoint None None None.

(** The body of the [for] loop of [normalize]: [n] bounds the number of
    iterations, [u], [rank] and [i] are the loop variables. *)
Fixpoint normalizeChain (n : nat) (g : Graph) (dummyCount : nat)
    (ed : Edge) (a : EdgeValue) (u : NodeId) (rank : Z) (i : nat)
    (targetRank : Z) : Graph * nat * NodeId :=
  match n with
  | 0 => (g, dummyCount, u)
  | S n' =>
    if (rank <? targetRank)%Z then
      let dummyCount := S dummyCount in
      let v := dummyName dummyCount in
      let node := dummyNode ed a rank i targetRank in
      let g := addNode g v node in
      let g := addEdgeEmpty g u v in
      normalizeChain n' g dummyCount ed a v (rank + 1)%Z (S i) targetRank
    else (g, dummyCount, u)
  end.

(** The callback of [g.eachEdge] in [normalize]. *)
Definition normalizeEdge (st : Graph * nat) (ed : Edge) : Graph * nat :=
  let '(g, dummyCount) := st in
  match rankOf g (esource ed), rankOf g (etarget ed) with
  | Some sourceRank, Some targetRank =>
    if (sourceRank + 1 <? targetRank)%Z then
      let '(g1, dummyCount1, u) :=
        normalizeChain (Z.to_nat (targetRank - sourceRank)) g dummyCount ed
          (edgeValue g ed) (esource ed) (sourceRank + 1)%Z 0 targetRank in
      let g2 := addEdgeEmpty g1 u (etarget ed) in
      (delEdge g2 (eid ed), dummyCount1)
    else st
  | _, _ => st
  end.

(** [eachEdge] visits the edges that the graph has when the loop starts;
    the edges added by the callback join consecutive ranks and would be
    left alone if they were visited. *)
Definition normalize (g : Graph) : Graph :=
  (fold_left normalizeEdge (edges g) (g, 0)).1.

(** *** undoNormalize *)

(** [points[i] = p] on a JavaScript array: a write past the end extends
    the array, leaving holes. *)
Definition arraySet (points : list (option Point)) (i : nat) (p : Point)
    : list (option Point) :=
  if decide (i < length points) then <[i := Some p]> points
  else points ++ replicate (i - length points) None ++ [Some p].

(** The callback of [g.eachNode] in [undoNormalize]; [a] is the value of
    node [u]. *)
Definition undoNormalizeNode (g : Graph) (ua : NodeId * NodeValue) : Result Graph :=
  let '(u, a) := ua in
  match nv_dummy a, nv_index a with
  | true, Some index =>
    match nv_edge a with
    | None => Err TypeError
    | Some edge =>
      let g1 :=
        if hasEdge g (ref_id edge) then g
        else addEdgeAs g (ref_id edge) (ref_source edge) (ref_target edge)
               (ref_attrs edge) in
      match edgeById g1 (ref_id edge) with
      | None => Err GraphError
      | Some ed =>
        match ev_points (edgeValue g1 ed) with
        | None => Err TypeError
        | Some points =>
          let g2 :=
            updValue g1 (evalue ed)
              (set_points (Some (arraySet points index (nv_pos a)))) in
          Ok (delNode g2 u)
        end
      end
    end
  | _, _ => Ok g
  end.

(** [eachNode] visits the nodes that the graph has when the loop starts;
    the callback removes none but the node it is called on. *)
Definition undoNormalize (g : Graph) : Result Graph :=
  foldR undoNormalizeNode (nodes g) g.

(** *** fixupEdgePoints *)

Definition fixupEdge (g : Graph) (ed : Edge) : Result Graph :=
  let a := edgeValue g ed in
  if ev_reversed a then
    match ev_points a with
    | None => Err TypeError
    | Some points => Ok (updValue g (evalue ed) (set_points (Some (reverse points))))
    end
  else Ok g.

Definition fixupEdgePoints (g : Graph) : Result Graph :=
  foldR fixupEdge (edges g) g.

(** *** removeDupEdges *)

Definition removeDupEdge (st : Graph * list (option EdgeId)) (ed : Edge)
    : Graph * list (option EdgeId) :=
  let '(g, visited) := st in
  let value := edgeValue g ed in
  let g1 := if bool_decide (ev_e value ∈ visited) then delEdge g (eid ed) else g in
  (g1, ev_e value :: visited).

Definition removeDupEdges (g : Graph) : Graph :=
  (fold_left removeDupEdge (edges g) (g, [])).1.

(** *** initLayoutGraph *)

(** The input graph: a plain graphlib graph (no [parent] method, so the
    subgraph set-up of [initLayoutGraph] is skipped and no node of the
    working graph has children).  A [rank] property of a node, when
    present, holds a number or a string. *)
Record InputNode := mkInputNode {
  in_width : option Q; in_height : option Q; in_rank : option PrefRank }.

Record InputEdge := mkInputEdge {
  ie_id : EdgeId; ie_source : NodeId; ie_target : NodeId;
  ie_minLen : option Z; ie_width : option Q; ie_height : option Q }.

Record InputGraph := mkInputGraph {
  isDirected : bool;
  in_nodes : list (NodeId * InputNode);
  in_edges : list InputEdge }.

(** [value.minLen || 1] *)
Definition orOne (m : option Z) : Z :=
  match m with
  | None => 1
  | Some z => if (z =? 0)%Z then 1 else z
  end%Z.

(** [value.width || 0] *)
Definition orZero (w : option Q) : Q := default 0%Q w.

Definition initNode (g : Graph) (uv : NodeId * InputNode) : Graph :=
  let '(u, value) := uv in
  addNode g u
    (mkNodeValue (in_width value) (in_height value) None (in_rank value)
       false None None None noPoint None None None).

Definition initEdge (directed : bool) (g : Graph) (ie : InputEdge) : Graph :=
  let '(g1, newValue) :=
    newValue g
      (mkEdgeValue (Some (ie_id ie)) (Some (orOne (ie_minLen ie)))
         (Some (orZero (ie_width ie))) (Some (orZero (ie_height ie)))
         (Some []) false) in
  let g2 := addEdge g1 (ie_source ie) (ie_target ie) newValue in
  if directed then g2 else addEdge g2 (ie_target ie) (ie_source ie) newValue.

Definition initLayoutGraph (inputGraph : InputGraph) : Graph :=
  fold_left (initEdge (isDirected inputGraph)) (in_edges inputGraph)
    (fold_left initNode (in_nodes inputGraph) emptyGraph).

(** *** createFinalGraph *)

(** The graph returned by [run]: a [CDigraph] when [directed], a [CGraph]
    otherwise. *)
Record LayoutGraph := mkLayoutGraph { directed : bool; graph : Graph }.

(** The callback of [g.eachEdge] in [createFinalGraph]: the edges of
    [out] so far and the store of value objects are threaded through.
    [out.addEdge] raises an exception when the id is taken. *)
Definition finalEdge (st : list Edge * list EdgeValue) (ed : Edge)
    : Result (list Edge * list EdgeValue) :=
  let '(out, vals) := st in
  let value := default emptyValue (vals !! evalue ed) in
  let i := match ev_e value with Some x => x | None => eid ed end in
  if bool_decide (i ∈ eid <$> out) then Err GraphError
  else Ok (out ++ [mkEdge i (esource ed) (etarget ed) (evalue ed)],
           alter (set_e None) (evalue ed) vals).

Definition createFinalGraph (g : Graph) (isDirected : bool) : Result LayoutGraph :=
  st ← foldR finalEdge (edges g) ([], values g);
  Ok (mkLayoutGraph isDirected (mkGraph (nodes g) st.1 st.2 0)).

(** ** lib/rank.js *)

(** The graphs of the rank phase ([g.filterNodes(...)], [g.copy()], the
    component subgraphs and the spanning tree) share the value objects of
    the nodes and edges of the working graph.  A [View] holds the node
    ids and the edges of one such graph; the node value objects are kept
    in a [Store] keyed by node id, the edge value objects in the store of
    the working graph. *)
Record View := mkView {
  v_nodes : list NodeId;
  v_edges : list Edge;
  v_compoundNodes : option (list NodeId);   (* [g.graph().compoundNodes] *)
  v_nextId : nat }.

Abbreviation Store := (list (NodeId * NodeValue)) (only parsing).

(** The external acyclic phase, as a function of the node ids, the edges
    and the edge value objects of the graph it is run on. *)
Definition AcyclicFn :=
  list NodeId → list Edge → list EdgeValue → Result (list Edge * list EdgeValue).

(** Ranks are JavaScript numbers: [None] stands for [undefined] and NaN. *)
Definition nadd (a b : option Z) : option Z := x ← a; y ← b; Some (x + y)%Z.
Definition nsub (a b : option Z) : option Z := x ← a; y ← b; Some (x - y)%Z.
Definition nmax (a b : option Z) : option Z := x ← a; y ← b; Some (Z.max x y).
Definition nabs (a : option Z) : option Z := Z.abs <$> a.

Definition storeUpd (s : Store) (u : NodeId) (f : NodeValue → NodeValue) : Store :=
  map (λ p, if String.eqb p.1 u then (p.1, f p.2) else p) s.

Definition rankIn (s : Store) (u : NodeId) : option Z := a ← assoc u s; nv_rank a.

Definition inEdges (es : list Edge) (u : NodeId) : list Edge :=
  filter (λ ed, etarget ed = u) es.

Definition outEdges (es : list Edge) (u : NodeId) : list Edge :=
  filter (λ ed, esource ed = u) es.

(** ["minLen" in value ? value.minLen : 1] *)
Definition minLenOf (vals : list EdgeValue) (ed : Edge) : Z :=
  default 1%Z (ev_minLen (default emptyValue (vals !! evalue ed))).

(** *** The priority queue

    Modelled from the spec: cp-data's [PriorityQueue] is an external
    collaborator; the spec asks for insert, decrease-key and extract-min.
    [min] returns the first key, in insertion order, among those of
    minimum priority. *)
Abbreviation PQ := (list (NodeId * Z)) (only parsing).

Definition pqAdd (pq : PQ) (u : NodeId) (p : Z) : PQ := pq ++ [(u, p)].

Definition pqPriority (pq : PQ) (u : NodeId) : Z := default 0%Z (assoc u pq).

Fixpoint pqBest (best : NodeId * Z) (pq : PQ) : NodeId * Z :=
  match pq with
  | [] => best
  | kp :: pq' => pqBest (if (kp.2 <? best.2)%Z then kp else best) pq'
  end.

Definition pqMin (pq : PQ) : option NodeId :=
  match pq with
  | [] => None
  | kp :: pq' => Some (pqBest kp pq').1
  end.

Definition pqRemove (pq : PQ) (u : NodeId) : PQ := filter (λ kp, kp.1 ≠ u) pq.

Definition pqDecrease (pq : PQ) (u : NodeId) (p : Z) : PQ :=
  map (λ kp, if String.eqb kp.1 u then (kp.1, p) else kp) pq.

(** *** initRank *)

Abbreviation MinRank := (list (NodeId * option Z)) (only parsing).

Definition minRankOf (minRank : MinRank) (u : NodeId) : option Z :=
  mjoin (assoc u minRank).

Definition minRankSet (minRank : MinRank) (u : NodeId) (r : option Z) : MinRank :=
  map (λ kr, if String.eqb kr.1 u then (kr.1, r) else kr) minRank.

Definition updateTargetNode (vals : list EdgeValue) (store : Store)
    (st : MinRank * PQ) (e : Edge) : MinRank * PQ :=
  let '(minRank, pq) := st in
  let rank := rankIn store (esource e) in
  let target := etarget e in
  let minLen := minLenOf vals e in
  (minRankSet minRank target
     (nmax (minRankOf minRank target) (nadd rank (Some minLen))),
   pqDecrease pq target (pqPriority pq target - 1)%Z).

(** The [while (pq.size() > 0)] loop; each iteration removes one key, so
    [fuel] is the size of the queue. *)
Fixpoint initRankLoop (fuel : nat) (g : View) (vals : list EdgeValue)
    (store : Store) (minRank : MinRank) (pq : PQ) : Result Store :=
  match pqMin pq with
  | None => Ok store
  | Some minId =>
    match fuel with
    | 0 => Err OutOfFuel
    | S fuel' =>
      if (0 <? pqPriority pq minId)%Z then Err NotAcyclic
      else
        let pq1 := pqRemove pq minId in
        let rank := minRankOf minRank minId in
        let store1 := storeUpd store minId (set_rank rank) in
        let '(minRank2, pq2) :=
          fold_left (updateTargetNode vals store1) (outEdges (v_edges g) minId)
            (minRank, pq1) in
        initRankLoop fuel' g vals store1 minRank2 pq2
    end
  end.

Definition initRank (g : View) (vals : list EdgeValue) (store : Store) : Result Store :=
  let pq := fold_left (λ pq u, pqAdd pq u (Z.of_nat (length (inEdges (v_edges g) u))))
              (v_nodes g) [] in
  let minRank := (λ u, (u, Some 0%Z)) <$> v_nodes g in
  initRankLoop (length (v_nodes g)) g vals store minRank pq.

(** *** feasibleTree *)

(** The spanning tree: a [Digraph] whose nodes share the node value
    objects and whose edges carry a [cutValue]. *)
Record TEdge := mkTEdge {
  te_id : EdgeId; te_source : NodeId; te_target : NodeId;
  te_cutValue : option Z }.

Record Tree := mkTree {
  t_nodes : list NodeId;
  t_edges : list TEdge;
  t_root : NodeId }.

(** [incidenceId(u, v)] *)
Definition incidenceId (u v : NodeId) : string :=
  if String.ltb u v
  then pretty (String.length u) +:+ ":" +:+ u +:+ "-" +:+ v
  else pretty (String.length v) +:+ ":" +:+ v +:+ "-" +:+ u.

(** An entry [{ e, u, v, len }] of the [minLen] array. *)
Record MinLenEntry := mkMLE {
  mle_e : EdgeId; mle_u : NodeId; mle_v : NodeId; mle_len : Z }.

(** The [minLen] array together with [minLenMap]: the entries in the
    order they were pushed, each under its incidence id. *)
Definition collapseEdge (vals : list EdgeValue)
    (minLen : list (string * MinLenEntry)) (ed : Edge)
    : list (string * MinLenEntry) :=
  let id := incidenceId (esource ed) (etarget ed) in
  let minLen1 :=
    match assoc id minLen with
    | Some _ => minLen
    | None => minLen ++ [(id, mkMLE (eid ed) (esource ed) (etarget ed) 0)]
    end in
  map (λ p, if String.eqb p.1 id
            then (p.1, mkMLE (mle_e p.2) (mle_u p.2) (mle_v p.2)
                         (Z.max (mle_len p.2) (minLenOf vals ed)))
            else p) minLen1.

Definition slack (store : Store) (mle : MinLenEntry) : option Z :=
  nsub (nabs (nsub (rankIn store (mle_u mle)) (rankIn store (mle_v mle))))
       (Some (mle_len mle)).

(** The object returned by [findMinSlack]. *)
Record MinSlack := mkMinSlack {
  ms_mle : MinLenEntry; ms_treeNode : NodeId; ms_graphNode : NodeId; ms_len : Z }.

Definition has (remaining : list NodeId) (u : NodeId) : bool :=
  bool_decide (u ∈ remaining).

(** [mleSlack < eSlack], where [eSlack] starts as positive infinity
    ([None]) and a comparison with NaN is false. *)
Definition lessThan (mleSlack : option Z) (eSlack : option Z) : bool :=
  match mleSlack, eSlack with
  | Some a, Some b => (a <? b)%Z
  | Some _, None => true
  | None, _ => false
  end.

Definition findMinSlackStep (store : Store) (remaining : list NodeId)
    (st : option MinSlack * option Z) (mle : MinLenEntry)
    : option MinSlack * option Z :=
  let '(result, eSlack) := st in
  if negb (Bool.eqb (has remaining (mle_u mle)) (has remaining (mle_v mle))) then
    let mleSlack := slack store mle in
    if lessThan mleSlack eSlack then
      (Some (if negb (has remaining (mle_u mle))
             then mkMinSlack mle (mle_u mle) (mle_v mle) (mle_len mle)
             else mkMinSlack mle (mle_v mle) (mle_u mle) (- mle_len mle)%Z),
       mleSlack)
    else st
  else st.

Definition findMinSlack (store : Store) (remaining : list NodeId)
    (minLen : list MinLenEntry) : option MinSlack :=
  (fold_left (findMinSlackStep store remaining) minLen (None, None)).1.

(** The [while (remaining.size() > 0)] loop; each iteration removes one
    node from [remaining]. *)
Fixpoint feasibleTreeLoop (fuel : nat) (minLen : list MinLenEntry)
    (store : Store) (remaining : list NodeId) (tree : Tree)
    : Result (Store * Tree) :=
  match remaining with
  | [] => Ok (store, tree)
  | _ :: _ =>
    match fuel with
    | 0 => Err OutOfFuel
    | S fuel' =>
      match findMinSlack store remaining minLen with
      | None => Err TypeError
      | Some result =>
        let remaining1 := filter (λ u, u ≠ ms_graphNode result) remaining in
        let tree1 :=
          mkTree (t_nodes tree ++ [ms_graphNode result])
            (t_edges tree ++
               [mkTEdge (mle_e (ms_mle result)) (ms_treeNode result)
                  (ms_graphNode result) None])
            (t_root tree) in
        let store1 :=
          storeUpd store (ms_graphNode result)
            (set_rank (nadd (rankIn store (ms_treeNode result))
                            (Some (ms_len result)))) in
        feasibleTreeLoop fuel' minLen store1 remaining1 tree1
      end
    end
  end.

Definition feasibleTree (g : View) (vals : list EdgeValue) (store : Store)
    : Result (Store * Tree) :=
  let minLen := (fold_left (collapseEdge vals) (v_edges g) []).*2 in
  match v_nodes g with
  | [] => Err TypeError
  | root :: _ =>
    feasibleTreeLoop (length (v_nodes g)) minLen store
      (filter (λ u, u ≠ root) (v_nodes g))
      (mkTree [root] [] root)
  end.

(** *** normalize (of lib/rank.js) *)

(** [util.min] of the ranks of the nodes: NaN ([None]) when some node has
    no rank. *)
Definition minRankIn (store : Store) (us : list NodeId) : option Z :=
  if forallb (λ u, bool_decide (is_Some (rankIn store u))) us then
    match omap (rankIn store) us with
    | [] => None
    | r :: rs => Some (fold_left Z.min rs r)
    end
  else None.

Definition normalizeRanks (g : View) (store : Store) : Store :=
  let m := minRankIn store (v_nodes g) in
  fold_left (λ s u, storeUpd s u (λ a, set_rank (nsub (nv_rank a) m) a))
    (v_nodes g) store.

(** *** components and filterNodes

    Modelled from the spec: graphlib's [alg.components] and [filterNodes]
    are external; the spec asks for connected components and a
    filter-by-predicate view. *)
Definition neighbours (es : list Edge) (us : list NodeId) : list NodeId :=
  flat_map (λ ed,
    (if has us (esource ed) then [etarget ed] else []) ++
    (if has us (etarget ed) then [esource ed] else [])) es.

Fixpoint closure (fuel : nat) (es : list Edge) (us : list NodeId) : list NodeId :=
  match fuel with
  | 0 => us
  | S fuel' => closure fuel' es (us ++ filter (λ v, v ∉ us) (neighbours es us))
  end.

Definition components (g : View) : list (list NodeId) :=
  fold_left (λ cs u,
    if bool_decide (Exists (λ c, u ∈ c) cs) then cs
    else cs ++ [closure (length (v_nodes g)) (v_edges g) [u]])
    (v_nodes g) [].

Definition filterNodes (g : View) (keep : NodeId → bool) : View :=
  mkView (filter (λ u, keep u = true) (v_nodes g))
    (filter (λ ed, keep (esource ed) = true ∧ keep (etarget ed) = true) (v_edges g))
    (v_compoundNodes g) (v_nextId g).

(** *** combineRanks *)

Definition vAddEdge (g : View) (u v : NodeId) (r : nat) : View :=
  mkView (v_nodes g)
    (v_edges g ++ [mkEdge (autoId (S (v_nextId g))) u v r])
    (v_compoundNodes g) (S (v_nextId g)).

Definition vDelEdge (g : View) (i : EdgeId) : View :=
  mkView (v_nodes g) (filter (λ ed, eid ed ≠ i) (v_edges g))
    (v_compoundNodes g) (v_nextId g).

Definition vDelNode (g : View) (u : NodeId) : View :=
  mkView (filter (λ v, v ≠ u) (v_nodes g))
    (filter (λ ed, esource ed ≠ u ∧ etarget ed ≠ u) (v_edges g))
    (v_compoundNodes g) (v_nextId g).

(** The property name under which [prefRankToNode] files a rank. *)
Definition prefKey (rank : PrefRank) : string :=
  match rank with
  | PRNum z => pretty z
  | PRStr s => s
  end.

Definition isStr (rank : PrefRank) (s : string) : bool :=
  match rank with
  | PRStr s' => String.eqb s' s
  | PRNum _ => false
  end.

(** The callbacks of [g.inEdges(u).forEach] and [g.outEdges(u).forEach]. *)
Definition redirectIn (rank : PrefRank) (newU : NodeId) (g : View) (e : Edge) : View :=
  let g1 :=
    if isStr rank "min" then vAddEdge g newU (esource e) (evalue e)
    else vAddEdge g (esource e) newU (evalue e) in
  vDelEdge g1 (eid e).

Definition redirectOut (rank : PrefRank) (newU : NodeId) (g : View) (e : Edge) : View :=
  let g1 :=
    if isStr rank "max" then vAddEdge g (etarget e) newU (evalue e)
    else vAddEdge g newU (etarget e) (evalue e) in
  vDelEdge g1 (eid e).

Definition pushOriginal (u : NodeId) (a : NodeValue) : NodeValue :=
  set_originalNodes (Some (default [] (nv_originalNodes a) ++ [u])) a.

(** The callback of [g.eachNode] in [combineRanks]; the state is the
    reduced graph, the node value objects and [prefRankToNode].  The
    keys of [prefRankToNode] are taken to be its own: a [prefRank] named
    like a member of [Object.prototype] is not modelled. *)
Definition combineNode (st : View * Store * list (string * NodeId)) (u : NodeId)
    : View * Store * list (string * NodeId) :=
  let '(g, store, prefRankToNode) := st in
  match a ← assoc u store; nv_prefRank a with
  | None => st
  | Some rank =>
    let '(g1, store1, prefRankToNode1, newU) :=
      match assoc (prefKey rank) prefRankToNode with
      | Some newU => (g, store, prefRankToNode, newU)
      | None =>
        let newU := autoId (S (v_nextId g)) in
        (mkView (v_nodes g ++ [newU]) (v_edges g)
           (Some (default [] (v_compoundNodes g) ++ [newU])) (S (v_nextId g)),
         store ++ [(newU, set_originalNodes (Some []) (plainNode None None))],
         prefRankToNode ++ [(prefKey rank, newU)],
         newU)
      end in
    let g2 := fold_left (redirectIn rank newU) (inEdges (v_edges g1) u) g1 in
    let g3 := fold_left (redirectOut rank newU) (outEdges (v_edges g2) u) g2 in
    let store2 := storeUpd store1 newU (pushOriginal u) in
    (vDelNode g3 u, store2, prefRankToNode1)
  end.

(** [g.nodes().forEach(function(u) { g.addEdge(null, minNode, u, { minLen: 0 }); })] *)
Definition zeroLen : EdgeValue := mkEdgeValue None (Some 0%Z) None None None false.

Definition addZeroEdge (mk : NodeId → NodeId * NodeId)
    (st : View * list EdgeValue) (u : NodeId) : View * list EdgeValue :=
  let '(g, vals) := st in
  (vAddEdge g (mk u).1 (mk u).2 (length vals), vals ++ [zeroLen]).

Definition combineRanks (acyclic : AcyclicFn) (g : View) (store : Store)
    (vals : list EdgeValue) : Result (View * Store * list EdgeValue) :=
  let needsReduction :=
    existsb (λ u, bool_decide (is_Some (a ← assoc u store; nv_prefRank a))) (v_nodes g) in
  if negb needsReduction then Ok (g, store, vals)
  else
    let g0 := mkView (v_nodes g) (v_edges g) (Some []) (v_nextId g) in
    let '(g1, store1, prefRankToNode) :=
      fold_left combineNode (v_nodes g0) (g0, store, []) in
    let '(g2, vals2) :=
      match assoc "min" prefRankToNode with
      | Some minNode => fold_left (addZeroEdge (λ u, (minNode, u))) (v_nodes g1) (g1, vals)
      | None => (g1, vals)
      end in
    let '(g3, vals3) :=
      match assoc "max" prefRankToNode with
      | Some maxNode => fold_left (addZeroEdge (λ u, (u, maxNode))) (v_nodes g2) (g2, vals2)
      | None => (g2, vals2)
      end in
    r ← acyclic (v_nodes g3) (v_edges g3) vals3;
    Ok (mkView (v_nodes g3) r.1 (v_compoundNodes g3) (v_nextId g3), store1, r.2).

(** *** expandRanks *)

Definition expandCompound (store : Store) (u : NodeId) : Store :=
  match assoc u store with
  | None => store
  | Some value =>
    fold_left (λ s v, storeUpd s v (set_rank (nv_rank value)))
      (default [] (nv_originalNodes value)) store
  end.

Definition expandRanks (g : View) (store : Store) : Store :=
  match v_compoundNodes g with
  | Some compoundNodes => fold_left expandCompound compoundNodes store
  | None => store
  end.

(** *** rank

    [rank(g)] as lib/layout.js calls it: [useSimplex] is [undefined], so
    the network simplex loop is skipped.  No node of the working graph has
    children, so [g.filterNodes(util.filterNonSubgraphs(g))] keeps every
    node. *)
Definition rankComponent (reduced : View) (vals : list EdgeValue)
    (store : Store) (cmpt : list NodeId) : Result Store :=
  let subgraph := filterNodes reduced (has cmpt) in
  st ← feasibleTree subgraph vals store;
  Ok (normalizeRanks subgraph st.1).

Definition rank (acyclic : AcyclicFn) (g : Graph) : Result Graph :=
  let g0 := mkView (nodeIds g) (edges g) None (nextId g) in
  r ← combineRanks acyclic g0 (nodes g) (values g);
  let '(reduced, store, vals) := r in
  store1 ← initRank reduced vals store;
  store2 ← foldR (rankComponent reduced vals) (components reduced) store1;
  let store3 := expandRanks reduced store2 in
  Ok (mkGraph (omap (λ u, pair u <$> assoc u store3) (nodeIds g))
        (edges g) vals (nextId g)).

(** *** computeLowLim, inSubtree, leaveEdge, enterEdge *)

Definition lowIn (s : Store) (u : NodeId) : option Z := a ← assoc u s; nv_low a.
Definition limIn (s : Store) (u : NodeId) : option Z := a ← assoc u s; nv_lim a.

Definition successors (tree : Tree) (n : NodeId) : list NodeId :=
  te_target <$> filter (λ te, te_source te = n) (t_edges tree).

Definition nmin (a b : option Z) : option Z := x ← a; y ← b; Some (Z.min x y).

(** [dfs] of [computeLowLim]; the state is the node value objects and
    [postOrderNum].  The depth of the recursion is bounded by [fuel]. *)
Fixpoint lowLimDfs (fuel : nat) (tree : Tree) (n : NodeId) (st : Store * Z)
    : Store * Z :=
  match fuel with
  | 0 => st
  | S fuel' =>
    let children := successors tree n in
    let '(st1, low) :=
      fold_left (λ (acc : Store * Z * option Z) child,
                   let st' := lowLimDfs fuel' tree child acc.1 in
                   (st', nmin acc.2 (lowIn st'.1 child)))
        children (st, Some st.2) in
    (storeUpd st1.1 n (set_lowlim low (Some st1.2)), (st1.2 + 1)%Z)
  end.

Definition computeLowLim (tree : Tree) (store : Store) : Store :=
  (lowLimDfs (length (t_nodes tree)) tree (t_root tree) (store, 0%Z)).1.

(** Comparisons of JavaScript numbers; a comparison with [undefined] is
    false. *)
Definition nle (a b : option Z) : bool :=
  match a, b with
  | Some x, Some y => (x <=? y)%Z
  | _, _ => false
  end.

Definition nlt (a b : option Z) : bool :=
  match a, b with
  | Some x, Some y => (x <? y)%Z
  | _, _ => false
  end.

Definition inSubtree (store : Store) (n root : NodeId) : bool :=
  nle (lowIn store root) (limIn store n) && nle (limIn store n) (limIn store root).

Definition leaveEdge (tree : Tree) : option EdgeId :=
  te_id <$> find (λ te, nlt (te_cutValue te) (Some 0%Z)) (t_edges tree).

(** The slack that [enterEdge] computes for a graph edge. *)
Definition edgeSlack (vals : list EdgeValue) (store : Store) (ed : Edge) : option Z :=
  nsub (nabs (nsub (rankIn store (esource ed)) (rankIn store (etarget ed))))
       (Some (orOne (ev_minLen (default emptyValue (vals !! evalue ed))))).

(** The test that selects the candidates of [enterEdge]. *)
Definition crosses (store : Store) (aligned : bool) (lower : NodeId) (e : EdgeId)
    (ed : Edge) : bool :=
  negb (String.eqb (eid ed) e) &&
  (if aligned
   then inSubtree store (esource ed) lower && negb (inSubtree store (etarget ed) lower)
   else negb (inSubtree store (esource ed) lower) && inSubtree store (etarget ed) lower).

(** The callback of [graph.eachEdge] in [enterEdge]; the state is
    [minSlack] ([None] is positive infinity) and [minSlackEdge]. *)
Definition enterEdgeStep (vals : list EdgeValue) (store : Store) (aligned : bool)
    (lower : NodeId) (e : EdgeId) (st : option Z * option EdgeId) (ed : Edge)
    : option Z * option EdgeId :=
  if crosses store aligned lower e ed then
    let slack := edgeSlack vals store ed in
    if lessThan slack st.1 then (slack, Some (eid ed)) else st
  else st.

Definition lowerOf (store : Store) (source target : NodeId) : NodeId :=
  if nlt (limIn store target) (limIn store source) then target else source.

Definition enterEdge (graph : View) (vals : list EdgeValue) (store : Store)
    (tree : Tree) (e : EdgeId) : Result EdgeId :=
  match find (λ te, String.eqb (te_id te) e) (t_edges tree),
        find (λ ed, String.eqb (eid ed) e) (v_edges graph) with
  | Some te, Some ge =>
    let lower := lowerOf store (te_source te) (te_target te) in
    let aligned := String.eqb (te_source te) (esource ge) in
    match (fold_left (enterEdgeStep vals store aligned lower e)
             (v_edges graph) (None, None)).2 with
    | None => Err NoEnterEdge
    | Some minSlackEdge => Ok minSlackEdge
    end
  | _, _ => Err GraphError
  end.

(** ** The external phases *)

Definition UndoFn :=
  list Edge → list EdgeValue → Result (list Edge * list EdgeValue).

(** The phases that lib/layout.js requires from other modules.  The
    order phase assigns [order] to nodes and the position phase assigns
    coordinates to nodes (it reads its own [rankSep] setting); each may
    raise an exception. *)
Record Phases := mkPhases {
  ph_acyclic : AcyclicFn;
  ph_undo : UndoFn;
  ph_order : Graph → Result (list (NodeId * nat));
  ph_position : Q → Graph → Result (list (NodeId * Point)) }.

Definition applyAcyclic (f : AcyclicFn) (g : Graph) : Result Graph :=
  r ← f (nodeIds g) (edges g) (values g);
  Ok (mkGraph (nodes g) r.1 r.2 (nextId g)).

Definition applyUndo (f : UndoFn) (g : Graph) : Result Graph :=
  r ← f (edges g) (values g);
  Ok (mkGraph (nodes g) r.1 r.2 (nextId g)).

(** The graph with the [order] of its nodes as the order phase computed
    them, and with their coordinates as the position phase did. *)
Definition withOrder (os : list (NodeId * nat)) (g : Graph) : Graph :=
  mkGraph (map (λ p, (p.1, set_order (from_option Some (nv_order p.2) (assoc p.1 os)) p.2))
             (nodes g))
    (edges g) (values g) (nextId g).

Definition withPositions (ps : list (NodeId * Point)) (g : Graph) : Graph :=
  mkGraph (map (λ p, (p.1, set_pos (default (nv_pos p.2) (assoc p.1 ps)) p.2))
             (nodes g))
    (edges g) (values g) (nextId g).

Definition applyOrder (f : Graph → Result (list (NodeId * nat))) (g : Graph)
    : Result Graph :=
  os ← f g; Ok (withOrder os g).

Definition applyPosition (f : Graph → Result (list (NodeId * Point))) (g : Graph)
    : Result Graph :=
  ps ← f g; Ok (withPositions ps g).

(** *** acyclic and acyclic.undo

    Modelled from the spec: lib/acyclic.js is not under src.  The spec
    asks that self-loops be removed, that the edges of a feedback set be
    reversed and carry [reversed = true], and that [acyclic.undo] revert
    every edge marked [reversed] and clear the flag.  The feedback set
    chosen here is the set of back edges of a depth-first search that
    visits the nodes and their out-edges in insertion order.  The spec
    re-attaches the self-loops when the output is emitted; here they
    stay removed, and nothing below runs the phase on a self-loop. *)
Record DfsState := mkDfs {
  dfs_visited : list NodeId; dfs_onStack : list NodeId; dfs_reversed : list EdgeId }.

Fixpoint acyclicDfs (fuel : nat) (es : list Edge) (u : NodeId) (st : DfsState)
    : DfsState :=
  match fuel with
  | 0 => st
  | S fuel' =>
    if has (dfs_visited st) u then st
    else
      let st1 := mkDfs (u :: dfs_visited st) (u :: dfs_onStack st) (dfs_reversed st) in
      let st2 :=
        fold_left (λ st e,
          if has (dfs_onStack st) (etarget e)
          then mkDfs (dfs_visited st) (dfs_onStack st) (dfs_reversed st ++ [eid e])
          else acyclicDfs fuel' es (etarget e) st)
          (outEdges es u) st1 in
      mkDfs (dfs_visited st2) (filter (λ v, v ≠ u) (dfs_onStack st2)) (dfs_reversed st2)
  end.

Definition feedbackSet (us : list NodeId) (es : list Edge) : list EdgeId :=
  dfs_reversed (fold_left (λ st u, acyclicDfs (S (length us)) es u st) us (mkDfs [] [] [])).

Definition reverseEdge (st : list Edge * list EdgeValue) (ed : Edge)
    : list Edge * list EdgeValue :=
  (st.1 ++ [mkEdge (eid ed) (etarget ed) (esource ed) (evalue ed)],
   alter (set_reversed true) (evalue ed) st.2).

Definition acyclic : AcyclicFn := λ us es vals,
  let es0 := filter (λ ed, esource ed ≠ etarget ed) es in
  let fs := feedbackSet us es0 in
  Ok (fold_left (λ st ed, if has fs (eid ed) then reverseEdge st ed
                          else (st.1 ++ [ed], st.2)) es0 ([], vals)).

Definition undoEdge (st : list Edge * list EdgeValue) (ed : Edge)
    : list Edge * list EdgeValue :=
  if ev_reversed (default emptyValue (st.2 !! evalue ed))
  then (st.1 ++ [mkEdge (eid ed) (etarget ed) (esource ed) (evalue ed)],
        alter (set_reversed false) (evalue ed) st.2)
  else (st.1 ++ [ed], st.2).

Definition acyclicUndo : UndoFn := λ es vals, Ok (fold_left undoEdge es ([], vals)).

(** *** run *)

(** What [run] reads and writes besides its graph: the [rankSep] setting
    of the position phase and the log of [util.time]. *)
Record World := mkWorld { rankSep : Q; timeLog : list string }.

Definition M (A : Type) : Type := World → Result A * World.

Definition retM {A} (a : A) : M A := λ w, (Ok a, w).

Definition bindM {A B} (m : M A) (k : A → M B) : M B := λ w,
  match m w with
  | (Ok a, w1) => k a w1
  | (Err err, w1) => (Err err, w1)
  end.

Notation "'do' x <- m ; k" := (bindM m (λ x, k))
  (at level 10, x name, m at level 100, k at level 200).

(** [util.time(f)(...)]: runs the phase and logs its name. *)
Definition time {A} (name : string) (r : Result A) : M A := λ w,
  (r, mkWorld (rankSep w) (timeLog w ++ [name])).

(** [self.rankSep()] and [self.rankSep(x)] *)
Definition getRankSep : M Q := λ w, (Ok (rankSep w), w).
Definition setRankSep (x : Q) : M unit := λ w, (Ok tt, mkWorld x (timeLog w)).

(** [try { body } finally { fin }] *)
Definition tryFinally {A} (body : M A) (fin : M unit) : M A := λ w,
  let '(r, w1) := body w in
  match fin w1 with
  | (Ok _, w2) => (r, w2)
  | (Err err, w2) => (Err err, w2)
  end.

(** [g.eachEdge(function(e, s, t, a) { a.minLen *= 2; })] *)
Definition doubleMinLen (g : Graph) : Graph :=
  fold_left (λ g ed, updValue g (evalue ed)
               (λ a, set_minLen (Z.mul 2 <$> ev_minLen a) a))
    (edges g) g.

Definition run (ph : Phases) (inputGraph : InputGraph) : M LayoutGraph :=
  do rankSep <- getRankSep;
  tryFinally
    (do g <- time "initLayoutGraph" (Ok (initLayoutGraph inputGraph));
     if Nat.eqb (order g) 0 then retM (mkLayoutGraph true g)
     else
       let g := doubleMinLen g in
       do _ <- setRankSep (rankSep / 2)%Q;
       do g <- time "acyclic" (applyAcyclic (ph_acyclic ph) g);
       let g := if isDirected inputGraph then g else removeDupEdges g in
       do g <- time "rank" (rank (ph_acyclic ph) g);
       do g <- time "normalize" (Ok (normalize g));
       do g <- time "order" (applyOrder (ph_order ph) g);
       do halved <- getRankSep;
       do g <- time "position" (applyPosition (ph_position ph halved) g);
       do g <- time "undoNormalize" (undoNormalize g);
       do g <- time "fixupEdgePoints" (fixupEdgePoints g);
       do g <- time "acyclic.undo" (applyUndo (ph_undo ph) g);
       time "createFinalGraph" (createFinalGraph g (isDirected inputGraph)))
    (setRankSep rankSep).

(** *** Stand-ins for the order and position phases

    Modelled from the spec: lib/order.js and lib/position.js are not
    under src; the spec asks that the order phase assign within-rank
    positions and that the position phase assign coordinates.  Here a
    node is placed after the earlier nodes of its rank, at [x = order]
    and [y = rank * rankSep]. *)
Fixpoint orderNodes (seen : list (option Z)) (l : list (NodeId * NodeValue))
    : list (NodeId * nat) :=
  match l with
  | [] => []
  | (u, a) :: l' =>
    (u, length (filter (λ r, r = nv_rank a) seen)) :: orderNodes (nv_rank a :: seen) l'
  end.

Definition simpleOrder (g : Graph) : Result (list (NodeId * nat)) :=
  Ok (orderNodes [] (nodes g)).

Definition simplePosition (rankSep : Q) (g : Graph) : Result (list (NodeId * Point)) :=
  Ok (map (λ p, (p.1, mkPoint (inject_Z <$> (Z.of_nat <$> nv_order p.2))
                       ((λ r, inject_Z r * rankSep)%Q <$> nv_rank p.2)
                       None None None None))
        (nodes g)).

Definition simplePhases : Phases :=
  mkPhases acyclic acyclicUndo simpleOrder simplePosition.

(** ** Well-formed inputs *)

(** The edges of a graphlib graph join nodes of the graph. *)
Definition wfInput (ig : InputGraph) : Prop :=
  Forall (λ ie, ie_source ie ∈ (in_nodes ig).*1 ∧ ie_target ie ∈ (in_nodes ig).*1)
    (in_edges ig).

#[global] Instance wfInput_dec ig : Decision (wfInput ig).
Proof. unfold wfInput. apply _. Defined.

(** ** Example inputs *)

Definition plain : InputNode := mkInputNode None None None.

(** The directed graph [a → b] whose edge has the given [minLen]. *)
Definition oneEdge (minLen : Z) : InputGraph :=
  mkInputGraph true [("a", plain); ("b", plain)]
    [mkInputEdge "ab" "a" "b" (Some minLen) None None].

(** The directed graph [r → n], [t → n], [t → m], [m → n] where [m → n]
    has [minLen] 3 and the other edges the default. *)
Definition fourNodes : InputGraph :=
  mkInputGraph true [("r", plain); ("n", plain); ("m", plain); ("t", plain)]
    [mkInputEdge "rn" "r" "n" None None None;
     mkInputEdge "tn" "t" "n" None None None;
     mkInputEdge "tm" "t" "m" None None None;
     mkInputEdge "mn" "m" "n" (Some 3%Z) None None].

Definition world0 : World := mkWorld (50 # 1) [].

(** ** The properties that the spec states *)

(** Feasibility of a ranking: [rank(v) − rank(u) ≥ minLen(u,v)] for every
    edge. *)
Definition feasibleEdge (g : Graph) (ed : Edge) : bool :=
  match rankOf g (esource ed), rankOf g (etarget ed) with
  | Some ru, Some rv => (minLenOf (values g) ed <=? rv - ru)%Z
  | _, _ => false
  end.

Definition feasible (g : Graph) : bool := forallb (feasibleEdge g) (edges g).

(** The edges of a graph as [(id, source, target)]. *)
Definition edgeTriples (g : Graph) : list (EdgeId * NodeId * NodeId) :=
  (λ ed, (eid ed, esource ed, etarget ed)) <$> edges g.

Definition inputTriples (ig : InputGraph) : list (EdgeId * NodeId * NodeId) :=
  (λ ie, (ie_id ie, ie_source ie, ie_target ie)) <$> in_edges ig.

Definition dummies (g : Graph) : list NodeId :=
  (filter (λ p, nv_dummy p.2 = true) (nodes g)).*1.

(** The length of [points] of the edge with the given id. *)
Definition pointsLength (g : Graph) (i : EdgeId) : option nat :=
  ed ← edgeById g i; length <$> ev_points (edgeValue g ed).

(** *** initCutValues and setCutValue *)

(** [graph.source(e)] for an edge id; graphlib raises an exception when
    the graph has no such edge. *)
Definition sourceOf (graph : View) (e : EdgeId) : Result NodeId :=
  match find (λ ed, String.eqb (eid ed) e) (v_edges graph) with
  | Some ed => Ok (esource ed)
  | None => Err GraphError
  end.

Definition countIf {A} (f : A → bool) (l : list A) : Z := Z.of_nat (length (filter (λ x, f x = true) l)).

Definition sumZ (l : list Z) : Z := fold_left Z.add l 0%Z.

Definition setTreeCutValue (tree : Tree) (e : EdgeId) (cv : option Z) : Tree :=
  mkTree (t_nodes tree)
    (map (λ te, if String.eqb (te_id te) e
                then mkTEdge (te_id te) (te_source te) (te_target te) cv else te)
       (t_edges tree))
    (t_root tree).

Definition setCutValue (graph : View) (store : Store) (tree : Tree) (child : NodeId)
    : Result Tree :=
  match filter (λ te, te_target te = child) (t_edges tree) with
  | [] => Err TypeError
  | parentEdge :: _ =>
    let grandchildEdges := filter (λ te, te_source te = child) (t_edges tree) in
    let grandchildren := te_target <$> grandchildEdges in
    let outs := outEdges (v_edges graph) child in
    let E := sumZ ((λ oe, countIf (λ gc, inSubtree store (etarget oe) gc) grandchildren) <$> outs) in
    let G := countIf (λ oe, negb (inSubtree store (etarget oe) child)) outs in
    let ins := inEdges (v_edges graph) child in
    let F := sumZ ((λ ie, countIf (λ gc, inSubtree store (esource ie) gc) grandchildren) <$> ins) in
    let H := countIf (λ ie, negb (inSubtree store (esource ie) child)) ins in
    grandchildCutSum ←
      foldR (λ (sum : option Z) gce,
               s ← sourceOf graph (te_id gce);
               Ok (if String.eqb (te_source gce) s
                   then nadd sum (te_cutValue gce)
                   else nsub sum (te_cutValue gce)))
        grandchildEdges (Some 0%Z);
    s ← sourceOf graph (te_id parentEdge);
    let total := (λ x, x - E + F - G + H)%Z <$> grandchildCutSum in
    let cutValue :=
      if String.eqb (te_source parentEdge) s then nadd (Some 0%Z) total
      else nsub (Some 0%Z) total in
    Ok (setTreeCutValue tree (te_id parentEdge) cutValue)
  end.

(** [dfs] of [initCutValues]; the depth of the recursion is bounded by
    [fuel]. *)
Fixpoint cutValuesDfs (fuel : nat) (graph : View) (store : Store) (n : NodeId)
    (tree : Tree) : Result Tree :=
  match fuel with
  | 0 => Err OutOfFuel
  | S fuel' =>
    tree1 ← foldR (λ t child, cutValuesDfs fuel' graph store child t)
              (successors tree n) tree;
    if String.eqb n (t_root tree) then Ok tree1
    else setCutValue graph store tree1 n
  end.

Definition initCutValues (graph : View) (store : Store) (tree : Tree)
    : Result (Store * Tree) :=
  let store1 := computeLowLim tree store in
  let tree0 :=
    mkTree (t_nodes tree)
      (map (λ te, mkTEdge (te_id te) (te_source te) (te_target te) (Some 0%Z))
         (t_edges tree))
      (t_root tree) in
  tree1 ← cutValuesDfs (length (t_nodes tree)) graph store1 (t_root tree) tree0;
  Ok (store1, tree1).

(** ** The candidates of enterEdge *)

(** An edge that runs from inside the subtree of [lower] to outside of
    it, and one that runs from outside to inside. *)
Definition leavesSubtree (store : Store) (lower : NodeId) (ed : Edge) : Prop :=
  inSubtree store (esource ed) lower = true ∧ inSubtree store (etarget ed) lower = false.

Definition entersSubtree (store : Store) (lower : NodeId) (ed : Edge) : Prop :=
  inSubtree store (esource ed) lower = false ∧ inSubtree store (etarget ed) lower = true.

Definition isTreeEdge (tree : Tree) (ed : Edge) : Prop :=
  eid ed ∈ te_id <$> t_edges tree.

(** The candidates as the source selects them: the non-tree edges that
    leave the subtree when the tree edge is aligned with its graph edge,
    and those that enter it otherwise. *)
Definition candidate (store : Store) (tree : Tree) (aligned : bool)
    (lower : NodeId) (ed : Edge) : Prop :=
  ¬ isTreeEdge tree ed ∧
  if aligned then leavesSubtree store lower ed else entersSubtree store lower ed.

(** The candidates in the words of the spec: entering when aligned,
    leaving otherwise. *)
Definition candidateOfSpec (store : Store) (tree : Tree) (aligned : bool)
    (lower : NodeId) (ed : Edge) : Prop :=
  ¬ isTreeEdge tree ed ∧
  if aligned then entersSubtree store lower ed else leavesSubtree store lower ed.

(** Removing the tree edge [e] splits the tree in two: no other tree edge
    joins the subtree of [lower] and the rest. *)
Definition treeCut (graph : View) (store : Store) (tree : Tree) (lower : NodeId)
    (e : EdgeId) : Prop :=
  Forall (λ ed, isTreeEdge tree ed → eid ed ≠ e →
                inSubtree store (esource ed) lower = inSubtree store (etarget ed) lower)
    (v_edges graph).

(** Every edge joins ranked nodes. *)
Definition allRanked (graph : View) (store : Store) : Prop :=
  Forall (λ ed, is_Some (rankIn store (esource ed)) ∧ is_Some (rankIn store (etarget ed)))
    (v_edges graph).

(** The directed graph [p → x], [x → y], [x → z], [p → y], [p → z] where
    the edges from [p] to [y] and [z] have [minLen] 3. *)
Definition pivotInput : InputGraph :=
  mkInputGraph true [("p", plain); ("x", plain); ("y", plain); ("z", plain)]
    [mkInputEdge "px" "p" "x" None None None;
     mkInputEdge "xy" "x" "y" None None None;
     mkInputEdge "xz" "x" "z" None None None;
     mkInputEdge "py" "p" "y" (Some 3%Z) None None;
     mkInputEdge "pz" "p" "z" (Some 3%Z) None None].

(** The state in which [rank(g, true)] first calls [enterEdge] on a
    working graph: after [initRank], [feasibleTree] and [initCutValues]. *)
Definition simplexState (g : Graph) : Result (View * Store * Tree) :=
  let g0 := mkView (nodeIds g) (edges g) None (nextId g) in
  store1 ← initRank g0 (values g) (nodes g);
  st ← feasibleTree g0 (values g) store1;
  st' ← initCutValues g0 st.1 st.2;
  Ok (g0, st'.1, st'.2).

(** What [enterEdge] returns, for a given notion of candidate: an edge of
    minimum slack among the candidates, and the error exactly when there
    is no candidate. *)
Definition enterEdgeSpec
    (cand : Store → Tree → bool → NodeId → Edge → Prop)
    (graph : View) (vals : list EdgeValue) (store : Store) (tree : Tree)
    (e : EdgeId) (aligned : bool) (lower : NodeId) : Prop :=
  match enterEdge graph vals store tree e with
  | Ok f =>
    ∃ ed s, ed ∈ v_edges graph ∧ eid ed = f ∧ cand store tree aligned lower ed ∧
      edgeSlack vals store ed = Some s ∧
      ∀ ed' s', ed' ∈ v_edges graph → cand store tree aligned lower ed' →
        edgeSlack vals store ed' = Some s' → (s ≤ s')%Z
  | Err err =>
    err = NoEnterEdge ∧
    ∀ ed, ed ∈ v_edges graph → ¬ cand store tree aligned lower ed
  end.

(** What the loop of [enterEdge] knows after the edges [seen]. *)
Definition minSoFar (vals : list EdgeValue) (store : Store) (aligned : bool)
    (lower : NodeId) (e : EdgeId) (seen : list Edge)
    (st : option Z * option EdgeId) : Prop :=
  match st with
  | (None, None) =>
    ∀ ed, ed ∈ seen → crosses store aligned lower e ed = true →
          edgeSlack vals store ed = None
  | (Some s, Some f) =>
    (∃ ed, ed ∈ seen ∧ eid ed = f ∧ crosses store aligned lower e ed = true ∧
           edgeSlack vals store ed = Some s) ∧
    ∀ ed' s', ed' ∈ seen → crosses store aligned lower e ed' = true →
              edgeSlack vals store ed' = Some s' → (s ≤ s')%Z
  | _ => False
  end.

(** The first call of [enterEdge] when [rank(g, true)] is run on the
    working graph of [pivotInput]. *)
Definition pivotGraph : Graph := initLayoutGraph pivotInput.

Definition pivotState : View * Store * Tree :=
  match simplexState pivotGraph with
  | Ok st => st
  | Err _ => (mkView [] [] None 0, [], mkTree [] [] "")
  end.

Definition pivotView : View := pivotState.1.1.
Definition pivotStore : Store := pivotState.1.2.
Definition pivotTree : Tree := pivotState.2.

(** The value object that [initLayoutGraph] creates for an input edge. *)
Definition initValue (ie : InputEdge) : EdgeValue :=
  mkEdgeValue (Some (ie_id ie)) (Some (orOne (ie_minLen ie)))
    (Some (orZero (ie_width ie))) (Some (orZero (ie_height ie))) (Some []) false.

(** The second half of the claim, in the words of the spec: in the graph
    that [run] returns, every edge has the [minLen] of the input edge it
    comes from. *)
Definition minLenRestored (ig : InputGraph) (out : LayoutGraph) : Prop :=
  ∀ ie ed, ie ∈ in_edges ig → ed ∈ edges (graph out) → eid ed = ie_id ie →
    ev_minLen (edgeValue (graph out) ed) = Some (orOne (ie_minLen ie)).

(** ** Reading the store of node values *)

Definition prefIn (s : Store) (u : NodeId) : option PrefRank :=
  a ← assoc u s; nv_prefRank a.

Definition originalsIn (s : Store) (c : NodeId) : list NodeId :=
  default [] (a ← assoc c s; nv_originalNodes a).

(** Two stores that differ in the ranks of their nodes at most. *)
Definition rankOnly (s s' : Store) : Prop :=
  Forall2 (λ p p', p'.1 = p.1 ∧ set_rank None p'.2 = set_rank None p.2) s s'.

(** Node ids that the graph library did not generate: a generated id
    starts with an underscore. *)
Definition userIds (us : list NodeId) : Prop :=
  Forall (λ u, String.prefix "_" u = false) us.

(** What the loop of [combineRanks] has built after the nodes [seen]:
    the node value objects are those of the original nodes, [store0],
    followed by those of the compound nodes; [prefRankToNode] maps the
    key of each rank met so far to a compound node of its own, whose
    [originalNodes] are the nodes met so far that have this rank. *)
Definition combineInv (store0 : Store) (seen : list NodeId)
    (st : View * Store * list (string * NodeId)) : Prop :=
  ∃ cstore ns,
    st.1.2 = store0 ++ cstore ∧ cstore.*1 = st.2.*2 ∧
    v_compoundNodes st.1.1 = Some st.2.*2 ∧
    NoDup st.2.*1 ∧
    st.2.*2 = autoId <$> ns ∧ Forall (λ n, n ≤ v_nextId st.1.1) ns ∧ NoDup ns ∧
    (∀ key c o, (key, c) ∈ st.2 →
       o ∈ originalsIn st.1.2 c ↔ o ∈ seen ∧ prefKey <$> prefIn store0 o = Some key) ∧
    (∀ o r, o ∈ seen → prefIn store0 o = Some r → ∃ c, (prefKey r, c) ∈ st.2).

(** The directed graph [a → b → c → d] where [a] and [c] have rank 1. *)
Definition sameRankInput : InputGraph :=
  mkInputGraph true
    [("a", mkInputNode None None (Some (PRNum 1))); ("b", plain);
     ("c", mkInputNode None None (Some (PRNum 1))); ("d", plain)]
    [mkInputEdge "ab" "a" "b" None None None;
     mkInputEdge "bc" "b" "c" None None None;
     mkInputEdge "cd" "c" "d" None None None].

(** ** Directed paths and cycles *)

(** A directed path of at least one edge. *)
Inductive path (es : list Edge) : NodeId → NodeId → Prop :=
  | path_edge e : e ∈ es → path es (esource e) (etarget e)
  | path_cons e v : e ∈ es → path es (etarget e) v → path es (esource e) v.

(** The graph is acyclic: no node reaches itself. *)
Definition noCycle (es : list Edge) : Prop := ∀ u, ¬ path es u u.

(** The edges of a graph join nodes of the graph, and node ids are
    unique. *)
Definition wfView (g : View) : Prop :=
  NoDup (v_nodes g) ∧
  Forall (λ e, esource e ∈ v_nodes g ∧ etarget e ∈ v_nodes g) (v_edges g).

(** A walk against the direction of the edges: each node is followed by
    one of its predecessors. *)
Fixpoint backWalk (es : list Edge) (l : list NodeId) : Prop :=
  match l with
  | v :: (p :: _) as l' =>
    (∃ e, e ∈ es ∧ esource e = p ∧ etarget e = v) ∧ backWalk es l'
  | _ => True
  end.

(** The edges into [u] whose source is among [us]. *)
Definition inFrom (es : list Edge) (us : list NodeId) (u : NodeId) : list Edge :=
  filter (λ e, etarget e = u ∧ esource e ∈ us) es.

(** What holds of the queue, [minRank] and the ranks at the head of the
    loop of [initRank]: the nodes that left the queue have a rank, and the
    priority of a node in the queue is the number of its in-edges that
    come from nodes still in the queue. *)
Definition kahnInv (g : View) (store : Store) (minRank : MinRank) (pq : PQ) : Prop :=
  NoDup pq.*1 ∧
  (∀ u, u ∈ v_nodes g → u ∈ pq.*1 ∨ is_Some (rankIn store u)) ∧
  (∀ u, u ∈ pq.*1 →
     pqPriority pq u = Z.of_nat (length (inFrom (v_edges g) pq.*1 u))) ∧
  (∀ u, u ∈ v_nodes g → is_Some (minRankOf minRank u)) ∧
  (∀ u, u ∈ v_nodes g → u ∈ store.*1) ∧
  (∀ u, u ∈ pq.*1 → u ∈ v_nodes g).

(** The directed graph [a → b], [b → a], and an acyclic phase that
    leaves every edge as it is. *)
Definition twoCycle : InputGraph :=
  mkInputGraph true [("a", plain); ("b", plain)]
    [mkInputEdge "ab" "a" "b" None None None;
     mkInputEdge "ba" "b" "a" None None None].

Definition keepEdges : AcyclicFn := λ _ es vals, Ok (es, vals).

(** The graph of the rank phase for a working graph without rank
    constraints. *)
Definition viewOf (g : Graph) : View := mkView (nodeIds g) (edges g) None (nextId g).

(** ** What normalize adds to a graph *)

(** The well-formed graphs of the graph library: edge ids are unique, the
    generated ids in use are not above [nextId], and edges join nodes of
    the graph.  No node is named like a dummy node. *)
Definition wfGraph (g : Graph) : Prop :=
  NoDup (edgeIds g) ∧
  (∀ ed n, ed ∈ edges g → nextId g < n → eid ed ≠ autoId n) ∧
  Forall (λ ed, esource ed ∈ nodeIds g ∧ etarget ed ∈ nodeIds g) (edges g) ∧
  Forall (λ u, String.prefix "_D" u = false) (nodeIds g).

(** The ranks of the ends of an edge that [normalize] splits. *)
Definition isLong (g : Graph) (ed : Edge) : option (Z * Z) :=
  match rankOf g (esource ed), rankOf g (etarget ed) with
  | Some sourceRank, Some targetRank =>
    if (sourceRank + 1 <? targetRank)%Z then Some (sourceRank, targetRank) else None
  | _, _ => None
  end.

(** The number of dummy nodes on an edge from rank [rs] to rank [rt]. *)
Definition dummiesBetween (rs rt : Z) : nat := Z.to_nat (rt - rs - 1).

(** The [m] dummy nodes that the loop of [normalize] adds, and the edges
    that lead from [u] through them. *)
Fixpoint chainNodes (m : nat) (ed : Edge) (a : EdgeValue) (dc : nat) (rank : Z)
    (i : nat) (targetRank : Z) : list (NodeId * NodeValue) :=
  match m with
  | 0 => []
  | S m' =>
    (dummyName (S dc), dummyNode ed a rank i targetRank)
    :: chainNodes m' ed a (S dc) (rank + 1)%Z (S i) targetRank
  end.

Fixpoint chainLinks (m : nat) (u : NodeId) (dc nid vlen : nat) : list Edge :=
  match m with
  | 0 => []
  | S m' =>
    mkEdge (autoId (S nid)) u (dummyName (S dc)) vlen
    :: chainLinks m' (dummyName (S dc)) (S dc) (S nid) (S vlen)
  end.

Definition chainEnd (m : nat) (u : NodeId) (dc : nat) : NodeId :=
  match m with
  | 0 => u
  | S _ => dummyName (dc + m)
  end.

(** All the edges that replace a long edge: the links and the edge into
    the target. *)
Definition chainEdges (ed : Edge) (k dc nid vlen : nat) : list Edge :=
  chainLinks k (esource ed) dc nid vlen
  ++ [mkEdge (autoId (S (nid + k))) (chainEnd k (esource ed) dc) (etarget ed) (vlen + k)].

(** The nodes and edges that [normalize] adds for the edges [es] of [g0],
    when [dc] dummy nodes, [nid] generated ids and [vlen] value objects
    exist already. *)
Fixpoint planNodes (g0 : Graph) (es : list Edge) (dc : nat) : list (NodeId * NodeValue) :=
  match es with
  | [] => []
  | ed :: es' =>
    match isLong g0 ed with
    | Some (rs, rt) =>
      chainNodes (dummiesBetween rs rt) ed (edgeValue g0 ed) dc (rs + 1)%Z 0 rt
      ++ planNodes g0 es' (dc + dummiesBetween rs rt)
    | None => planNodes g0 es' dc
    end
  end.

Fixpoint planEdges (g0 : Graph) (es : list Edge) (dc nid vlen : nat) : list Edge :=
  match es with
  | [] => []
  | ed :: es' =>
    match isLong g0 ed with
    | Some (rs, rt) =>
      let k := dummiesBetween rs rt in
      chainEdges ed k dc nid vlen
      ++ planEdges g0 es' (dc + k) (nid + S k) (vlen + S k)
    | None => planEdges g0 es' dc nid vlen
    end
  end.

(** The number of edges, and so of generated ids and value objects, that
    [normalize] adds. *)
Fixpoint planSize (g0 : Graph) (es : list Edge) : nat :=
  match es with
  | [] => 0
  | ed :: es' =>
    match isLong g0 ed with
    | Some (rs, rt) => S (dummiesBetween rs rt) + planSize g0 es'
    | None => planSize g0 es'
    end
  end.

Fixpoint planDummies (g0 : Graph) (es : list Edge) : nat :=
  match es with
  | [] => 0
  | ed :: es' =>
    match isLong g0 ed with
    | Some (rs, rt) => dummiesBetween rs rt + planDummies g0 es'
    | None => planDummies g0 es'
    end
  end.

Definition longIds (g0 : Graph) (es : list Edge) : list EdgeId :=
  eid <$> filter (λ ed, is_Some (isLong g0 ed)) es.

(** [s → d1 → … → dk → t] among the edges [es]. *)
Fixpoint isChain (es : list Edge) (u : NodeId) (ds : list NodeId) (t : NodeId) : Prop :=
  match ds with
  | [] => ∃ ed, ed ∈ es ∧ esource ed = u ∧ etarget ed = t
  | d :: ds' => (∃ ed, ed ∈ es ∧ esource ed = u ∧ etarget ed = d) ∧ isChain es d ds' t
  end.

(** The graph [a → b] with [a] at rank 0 and [b] at the given rank, as
    the rank phase hands it to [normalize]. *)
Definition rankedEdge (rank : Z) : Graph :=
  mkGraph
    [("a", set_rank (Some 0%Z) (plainNode None None));
     ("b", set_rank (Some rank) (plainNode None None))]
    [mkEdge "_1" "a" "b" 0]
    [mkEdgeValue (Some "ab") (Some rank) (Some 0%Q) (Some 0%Q) (Some []) false]
    1.

(** *** Dummy nodes and the points of an edge *)

(** The [edge] record that the dummy nodes of the edge [ed] carry. *)
Definition refOf (ed : Edge) : EdgeRef :=
  mkEdgeRef (eid ed) (esource ed) (etarget ed) (evalue ed).

(** The index that [normalize] gives the dummy node at rank [r] of an
    edge from rank [rs] to rank [rt]: 0 at the first rank of the chain;
    1 at its last rank, when that is not the first; none in between. *)
Definition dummyIndex (rs rt r : Z) : option nat :=
  if (r =? rs + 1)%Z then Some 0
  else if (r =? rt - 1)%Z then Some 1 else None.

(** A node that [undoNormalize] visits: a dummy node is not a node of
    [g] and stands for an edge of [g]. *)
Definition okNode (g : Graph) (ua : NodeId * NodeValue) : Prop :=
  nv_dummy ua.2 = true →
  (ua.1 ∉ nodeIds g) ∧ ∃ ed, ed ∈ edges g ∧ nv_edge ua.2 = Some (refOf ed).

(** What the loop of [undoNormalize] maintains of the graph [h] that it
    works on: an edge that has the id of an edge of [g] is that edge, and
    the value objects of the edges of [g] have a [points] array. *)
Definition undoInv (g h : Graph) : Prop :=
  (∀ x ed, x ∈ edges h → ed ∈ edges g → eid x = eid ed → x = ed) ∧
  (∀ ed, ed ∈ edges g → is_Some (values h !! evalue ed ≫= ev_points)).

(** The length of [points] of the value object at reference [r]. *)
Definition ptsLen (vs : list EdgeValue) (r : nat) : nat :=
  length (default [] (vs !! r ≫= ev_points)).

(** The least length of [points] of the object at [r] after the write
    of the node [ua]. *)
Definition written (r : nat) (ua : NodeId * NodeValue) : nat :=
  match nv_dummy ua.2, nv_index ua.2, nv_edge ua.2 with
  | true, Some i, Some edge => if decide (ref_attrs edge = r) then S i else 0
  | _, _, _ => 0
  end.

Fixpoint topIndex (r : nat) (l : list (NodeId * NodeValue)) : nat :=
  match l with
  | [] => 0
  | ua :: l' => written r ua `max` topIndex r l'
  end.

(** The number of points of an edge of [g] after [undoNormalize]. *)
Definition pointsOf (g : Graph) (ed : Edge) : nat :=
  match isLong g ed with
  | Some (rs, rt) => dummiesBetween rs rt `min` 2
  | None => 0
  end.

(** The number of points that the spec gives an edge from rank [rs] to
    rank [rt]; [tagged] tells whether dummy nodes with the indices 0 and
    1 exist. *)
Definition specPoints (rs rt : Z) (tagged : bool) : nat :=
  Z.to_nat (Z.max 0 (rt - rs - 1)) + (if tagged then 2 else 0).

#[global] Instance EdgeRef_eq_dec : EqDecision EdgeRef.
Proof. solve_decision. Defined.

(** Whether dummy nodes of the edge [ed] with the indices 0 and 1 are
    among the nodes of [g]. *)
Definition hasIndex (g : Graph) (ed : Edge) (i : nat) : bool :=
  existsb (λ p, nv_dummy p.2 && bool_decide (nv_edge p.2 = Some (refOf ed))
                && bool_decide (nv_index p.2 = Some i)) (nodes g).

Definition tagged (g : Graph) (ed : Edge) : bool :=
  hasIndex g ed 0 && hasIndex g ed 1.

(** The graph that [run] hands to [normalize], with the acyclic phase of
    [simplePhases]. *)
Definition rankedPipeline (ig : InputGraph) : Result Graph :=
  g ← applyAcyclic acyclic (doubleMinLen (initLayoutGraph ig));
  rank acyclic (if isDirected ig then g else removeDupEdges g).

(** The dummy nodes among [l] that [undoNormalize] deletes: those that
    carry an [index]. *)
Definition indexedDummies (l : list (NodeId * NodeValue)) : list NodeId :=
  (filter (λ p, nv_dummy p.2 = true ∧ is_Some (nv_index p.2)) l).*1.

(** What the loop of [initRank] keeps of [minRank] and the ranks: a node
    that left the queue has the rank that [minRank] holds for it, and no
    edge enters it from the queue; [minRank] of the target of an edge
    whose source left the queue is at least the rank of the source plus
    the [minLen] of the edge; and [minRank] of a node is 0 or is reached
    by such an edge. *)
Definition rankInv (g : View) (vals : list EdgeValue) (store : Store)
    (minRank : MinRank) (pq : PQ) : Prop :=
  (∀ u, u ∈ v_nodes g → u ∉ pq.*1 →
     rankIn store u = minRankOf minRank u ∧ inFrom (v_edges g) pq.*1 u = []) ∧
  (∀ e, e ∈ v_edges g → esource e ∉ pq.*1 →
     ∃ r t, rankIn store (esource e) = Some r ∧
            minRankOf minRank (etarget e) = Some t ∧ (r + minLenOf vals e ≤ t)%Z) ∧
  (∀ u, u ∈ v_nodes g →
     ∃ t, minRankOf minRank u = Some t ∧ (0 ≤ t)%Z ∧
          (t = 0%Z ∨
           ∃ e r, e ∈ v_edges g ∧ etarget e = u ∧ (esource e ∉ pq.*1) ∧
                  rankIn store (esource e) = Some r ∧ t = (r + minLenOf vals e)%Z)).

(** A string without a colon, such as the decimal digits of a number. *)
Fixpoint noColon (s : string) : Prop :=
  match s with
  | EmptyString => True
  | String c s' => String c "" ≠ ":" ∧ noColon s'
  end.

(** What the loop of [feasibleTree] over the edges has built after the
    edges [seen]: [minLenMap] has one entry for each incidence id met,
    the entry of an edge is at least as long as the edge, and the [len] of
    an entry is 0 or the [minLen] of one of its edges. *)
Definition collapseInv (vals : list EdgeValue) (seen : list Edge)
    (l : list (string * MinLenEntry)) : Prop :=
  NoDup l.*1 ∧
  (∀ id mle, (id, mle) ∈ l → id = incidenceId (mle_u mle) (mle_v mle)) ∧
  (∀ ed, ed ∈ seen →
     ∃ mle, (incidenceId (esource ed) (etarget ed), mle) ∈ l ∧
            (minLenOf vals ed ≤ mle_len mle)%Z) ∧
  (∀ id mle, (id, mle) ∈ l →
     (0 ≤ mle_len mle)%Z ∧
     (∃ ed, ed ∈ seen ∧ mle_e mle = eid ed ∧ mle_u mle = esource ed ∧
            mle_v mle = etarget ed) ∧
     (mle_len mle = 0%Z ∨
      ∃ ed, ed ∈ seen ∧ incidenceId (esource ed) (etarget ed) = id ∧
            mle_len mle = minLenOf vals ed)).

(** Two edges that join the same two nodes, in either direction. *)
Definition sameEnds (u v : NodeId) (ed : Edge) : Prop :=
  (esource ed = u ∧ etarget ed = v) ∨ (esource ed = v ∧ etarget ed = u).

(** What the loop of [feasibleTree] keeps: the tree and [remaining]
    share the nodes of the graph between them, the tree has one edge
    less than it has nodes, and every tree edge stands for an entry of
    the [minLen] array that joins two tree nodes and has slack 0. *)
Definition treeInv (vnodes : list NodeId) (minLen : list MinLenEntry)
    (store : Store) (remaining : list NodeId) (tree : Tree) : Prop :=
  NoDup (t_nodes tree) ∧
  (∀ u, u ∈ t_nodes tree → u ∉ remaining) ∧
  (∀ u, u ∈ vnodes ↔ u ∈ t_nodes tree ∨ u ∈ remaining) ∧
  length (t_edges tree) + 1 = length (t_nodes tree) ∧
  (∀ te, te ∈ t_edges tree →
     ∃ mle, mle ∈ minLen ∧ te_id te = mle_e mle ∧
       ((te_source te = mle_u mle ∧ te_target te = mle_v mle) ∨
        (te_source te = mle_v mle ∧ te_target te = mle_u mle)) ∧
       mle_u mle ∈ t_nodes tree ∧ mle_v mle ∈ t_nodes tree ∧
       slack store mle = Some 0%Z).

(** The edges that [removeDupEdges] keeps of [l]: those whose [e] is not
    [visited] and is not the [e] of an earlier edge of [l]. *)
Fixpoint keepFirst (key : Edge → option EdgeId) (visited : list (option EdgeId))
    (l : list Edge) : list Edge :=
  match l with
  | [] => []
  | ed :: l' =>
    if bool_decide (key ed ∈ visited) then keepFirst key (key ed :: visited) l'
    else ed :: keepFirst key (key ed :: visited) l'
  end.

(** The undirected graph with the one edge [a — b]. *)
Definition undirectedEdge (minLen : option Z) : InputGraph :=
  mkInputGraph false [("a", plain); ("b", plain)]
    [mkInputEdge "ab" "a" "b" minLen None None].

(** The id under which [createFinalGraph] adds an edge to the output:
    the [e] of its value object, or its own id when there is none. *)
Definition finalId (vals : list EdgeValue) (ed : Edge) : EdgeId :=
  default (eid ed) (ev_e (default emptyValue (vals !! evalue ed))).

(** What [fixupEdgePoints] does to a value object. *)
Definition flipPoints (a : EdgeValue) : EdgeValue :=
  if ev_reversed a then set_points (reverse <$> ev_points a) a else a.


(** ** The labels of computeLowLim *)

(** The nodes that [dfs] of [computeLowLim] visits from [n], in the
    order in which it numbers them; the depth of the recursion is
    bounded by [fuel]. *)
Fixpoint postorder (fuel : nat) (tree : Tree) (n : NodeId) : list NodeId :=
  match fuel with
  | 0 => []
  | S fuel' => (successors tree n ≫= postorder fuel' tree) ++ [n]
  end.

(** The recursion of [dfs] from [n] ends within the depth [fuel]. *)
Fixpoint withinDepth (fuel : nat) (tree : Tree) (n : NodeId) : bool :=
  match fuel with
  | 0 => false
  | S fuel' => forallb (withinDepth fuel' tree) (successors tree n)
  end.

(** [v] is [u] or is reached from [u] along tree edges. *)
Inductive descendant (tree : Tree) : NodeId → NodeId → Prop :=
  | descendant_refl u : descendant tree u u
  | descendant_step u w v :
      w ∈ successors tree u → descendant tree w v → descendant tree u v.

(** Consecutive numberings: each node of [cs] is numbered from where the
    one before it ended. *)
Fixpoint numberedFrom (P : Z → NodeId → Prop) (size : NodeId → Z) (k : Z)
    (cs : list NodeId) : Prop :=
  match cs with
  | [] => True
  | c :: cs' => P k c ∧ numberedFrom P size (k + size c)%Z cs'
  end.

(** The labels of the nodes visited from [n] when the traversal reaches
    [n] with [postOrderNum = k]: [low] is [k], [lim] is the number of
    the node in post-order. *)
Fixpoint numbered (fuel : nat) (tree : Tree) (st : Store) (k : Z) (n : NodeId) : Prop :=
  match fuel with
  | 0 => True
  | S fuel' =>
    lowIn st n = Some k ∧
    limIn st n = Some (k + Z.of_nat (length (successors tree n ≫= postorder fuel' tree)))%Z ∧
    numberedFrom (numbered fuel' tree st) (λ c, Z.of_nat (length (postorder fuel' tree c))) k
      (successors tree n)
  end.

(** The labels of [x] lie in the interval from [a] to [b]. *)
Definition inRange (st : Store) (x : NodeId) (a b : Z) : Prop :=
  ∃ lo li, lowIn st x = Some lo ∧ limIn st x = Some li ∧
           (a ≤ lo)%Z ∧ (lo ≤ li)%Z ∧ (li < b)%Z.

(** The callback of the loop over the children in [dfs] of
    [computeLowLim]. *)
Definition lowLimChild (fuel : nat) (tree : Tree) (acc : Store * Z * option Z)
    (child : NodeId) : Store * Z * option Z :=
  let st' := lowLimDfs fuel tree child acc.1 in
  (st', nmin acc.2 (lowIn st'.1 child)).

(** The nodes that [computeLowLim] numbers, in the order of their
    numbers. *)
Definition postorderOf (tree : Tree) : list NodeId :=
  postorder (length (t_nodes tree)) tree (t_root tree).

(** The tree [a → b], [a → c], [b → d] with root [a]. *)
Definition smallTree : Tree :=
  mkTree ["a"; "b"; "c"; "d"]
    [mkTEdge "ab" "a" "b" None; mkTEdge "ac" "a" "c" None; mkTEdge "bd" "b" "d" None]
    "a".

Definition smallStore : Store :=
  [("a", plainNode None None); ("b", plainNode None None);
   ("c", plainNode None None); ("d", plainNode None None)].


(** ** Connected graphs *)

(** Two nodes that an edge joins, in either direction. *)
Definition linked (es : list Edge) (u v : NodeId) : Prop :=
  ∃ ed, ed ∈ es ∧ sameEnds u v ed.

(** [v] is reached from [u] along edges taken in either direction. *)
Inductive connectedTo (es : list Edge) (u : NodeId) : NodeId → Prop :=
  | connected_refl : connectedTo es u u
  | connected_step w v : connectedTo es u w → linked es w v → connectedTo es u v.

(** An entry of the [minLen] array that [findMinSlack] considers: one of
    its ends is in the tree, the other is not. *)
Definition crossing (remaining : list NodeId) (mle : MinLenEntry) : Prop :=
  has remaining (mle_u mle) ≠ has remaining (mle_v mle).

(** The graph [a → b] with ranks 0 and 1. *)
Definition twoNodes : View := mkView ["a"; "b"] [mkEdge "ab" "a" "b" 0] None 0.

Definition twoRanks : Store :=
  [("a", set_rank (Some 0%Z) (plainNode None None));
   ("b", set_rank (Some 1%Z) (plainNode None None))].


(** ** Trees grown leaf by leaf *)

(** A tree grown from its root one leaf at a time, as the loop of
    [feasibleTree] does: each edge runs from a node of the tree so far
    to a new node. *)
Inductive grown (root : NodeId) : list NodeId → list TEdge → Prop :=
  | grown_root : grown root [root] []
  | grown_leaf nodes edges te :
      grown root nodes edges → te_source te ∈ nodes → te_target te ∉ nodes →
      grown root (nodes ++ [te_target te]) (edges ++ [te]).


(** ** The reduced graph *)

(** The nodes that keep their place in the reduced graph: those without
    a [prefRank]. *)
Definition unranked (store : Store) (us : list NodeId) : list NodeId :=
  filter (λ u, prefIn store u = None) us.

(** ** Graphs with a cycle *)

(** The directed graph with an isolated node [a] and the cycle [b → c],
    [c → b]. *)
Definition isolatedCycle : InputGraph :=
  mkInputGraph true [("a", plain); ("b", plain); ("c", plain)]
    [mkInputEdge "bc" "b" "c" None None None;
     mkInputEdge "cb" "c" "b" None None None].

(** * Properties *)

(** ** run: the empty graph and the scoped settings *)

Lemma tryFinally_setRankSep {A} (body : M A) (x : Q) (w : World) :
  tryFinally body (setRankSep x) w
  = ((body w).1, mkWorld x (timeLog (body w).2)).
Proof. unfold tryFinally, setRankSep. by destruct (body w). Qed.

Lemma run_unfold (ph : Phases) (ig : InputGraph) (w : World) :
  rankSep (run ph ig w).2 = rankSep w.
Proof.
  unfold run, bindM at 1, getRankSep. simpl.
  by rewrite tryFinally_setRankSep.
Qed.

(** C10. For an input graph without nodes, [run] returns right after
    [initLayoutGraph]: whatever the phases are, the only phase logged is
    [initLayoutGraph], [rankSep] is what it was, and the graph returned
    is the empty working graph, which is directed even when the input
    graph is not. *)
Theorem run_empty_input (ph : Phases) (ig : InputGraph) (w : World) :
  in_nodes ig = [] →
  wfInput ig →
  run ph ig w
  = (Ok (mkLayoutGraph true emptyGraph),
     mkWorld (rankSep w) (timeLog w ++ ["initLayoutGraph"]))
  ∧ initLayoutGraph ig = emptyGraph.
Proof.
  intros Hn Hwf.
  assert (in_edges ig = []) as He.
  { unfold wfInput in Hwf. rewrite Hn in Hwf.
    destruct (in_edges ig) as [|ie l]; [done|].
    apply Forall_cons in Hwf as [[Hs _] _]. by apply elem_of_nil in Hs. }
  assert (initLayoutGraph ig = emptyGraph) as Hg.
  { unfold initLayoutGraph. by rewrite Hn, He. }
  split; [|done].
  unfold run, bindM at 1, getRankSep. simpl.
  rewrite tryFinally_setRankSep.
  unfold bindM, time. simpl. by rewrite Hg.
Qed.

Lemma run_empty_input_witness :
  let ig := mkInputGraph false [] [] in
  let w := mkWorld (50 # 1) [] in
  run simplePhases ig w
  = (Ok (mkLayoutGraph true emptyGraph), mkWorld (50 # 1) ["initLayoutGraph"])
  ∧ initLayoutGraph ig = emptyGraph.
Proof.
  intros ig w.
  apply (run_empty_input simplePhases ig w); [reflexivity | by apply Forall_nil].
Defined.

(** *** The working graph built by initLayoutGraph *)

Lemma initNodes_edges (l : list (NodeId * InputNode)) (g : Graph) :
  edges (fold_left initNode l g) = edges g
  ∧ values (fold_left initNode l g) = values g
  ∧ nextId (fold_left initNode l g) = nextId g.
Proof.
  revert g. induction l as [|[u a] l IH]; intros g; simpl; [done|].
  by destruct (IH (addNode g u
    (mkNodeValue (in_width a) (in_height a) None (in_rank a) false None None
       None noPoint None None None))) as (-> & -> & ->).
Qed.

Lemma initEdges_directed (l : list InputEdge) (g : Graph) :
  fold_left (initEdge true) l g
  = mkGraph (nodes g)
      (edges g ++ imap (λ k ie, mkEdge (autoId (S (nextId g + k))) (ie_source ie)
                                  (ie_target ie) (length (values g) + k)) l)
      (values g ++ (initValue <$> l))
      (nextId g + length l).
Proof.
  revert g. induction l as [|ie l IH]; intros g; simpl.
  - rewrite !app_nil_r, Nat.add_0_r. by destruct g.
  - rewrite IH. unfold initEdge, newValue, addEdge. simpl.
    rewrite <- !app_assoc, length_app. simpl. f_equal.
    + f_equal. rewrite !Nat.add_0_r. f_equal.
      apply imap_ext. intros k x _. simpl.
      by rewrite !Nat.add_succ_r, Nat.add_0_r.
    + lia.
Qed.

Lemma doubleMinLen_fold (f : EdgeValue → EdgeValue) (es : list Edge) (g : Graph) :
  fold_left (λ g ed, updValue g (evalue ed) f) es g
  = mkGraph (nodes g) (edges g)
      (fold_left (λ vs ed, alter f (evalue ed) vs) es (values g)) (nextId g).
Proof.
  revert g. induction es as [|ed es IH]; intros g; simpl; [by destruct g|].
  by rewrite IH.
Qed.

Lemma alter_refs_seq (f : EdgeValue → EdgeValue) {A} (mk : nat → A → Edge)
    (l : list A) (pre vs : list EdgeValue) :
  (∀ k x, evalue (mk k x) = length pre + k) →
  length vs = length l →
  fold_left (λ vs ed, alter f (evalue ed) vs) (imap mk l) (pre ++ vs)
  = pre ++ (f <$> vs).
Proof.
  revert mk pre vs. induction l as [|x l IH]; intros mk pre vs Hmk Hlen.
  - destruct vs; [done|discriminate].
  - destruct vs as [|v vs]; [discriminate|]. simpl.
    rewrite Hmk, Nat.add_0_r.
    replace (alter f (length pre) (pre ++ v :: vs)) with ((pre ++ [f v]) ++ vs).
    2:{ rewrite <- app_assoc. simpl.
        rewrite (alter_app_r_alt f pre (v :: vs) (length pre)) by lia.
        by rewrite Nat.sub_diag. }
    rewrite (IH (mk ∘ S) (pre ++ [f v]) vs).
    + by rewrite <- app_assoc.
    + intros k y. simpl. rewrite Hmk, length_app. simpl. lia.
    + simpl in Hlen. lia.
Qed.

(** ** C6: the scoped settings of run *)

(** C6, counterexample. For the graph with the single edge [a → b] of
    [minLen] 1, [run] returns an edge whose [minLen] is still the doubled
    value 2: nothing in [run] restores it. *)
Lemma run_minLen_not_restored :
  ¬ (∀ ph ig w out w', run ph ig w = (Ok out, w') → minLenRestored ig out).
Proof.
  intros H.
  pose (ie := mkInputEdge "ab" "a" "b" (Some 1%Z) None None).
  pose (ig := mkInputGraph true
                [("a", mkInputNode None None None); ("b", mkInputNode None None None)]
                [ie]).
  destruct (run simplePhases ig (mkWorld (50 # 1) [])) as [[out|err] w'] eqn:Hrun;
    [|by vm_compute in Hrun].
  pose proof (H _ _ _ _ _ Hrun ie (mkEdge "ab" "a" "b" 0)) as Hm.
  vm_compute in Hrun. injection Hrun as <- <-.
  specialize (Hm ltac:(by left) ltac:(by left) eq_refl).
  vm_compute in Hm. discriminate.
Qed.

(** C6, amended. On every exit path of [run], an error raised by a phase
    included, [rankSep] is what it was on entry.  The [minLen] of the
    edges is doubled on the value objects that [initLayoutGraph] creates
    for the working graph, and these carry the doubled value from then on:
    for a directed input graph, each edge of the graph handed to the
    acyclic phase has twice the [minLen] (or 1) of its input edge. *)
Theorem run_restores_rankSep (ph : Phases) (ig : InputGraph) (w : World) :
  rankSep (run ph ig w).2 = rankSep w
  ∧ (isDirected ig = true →
     Forall2 (λ ie ed,
        ev_minLen (edgeValue (doubleMinLen (initLayoutGraph ig)) ed)
        = Some (2 * orOne (ie_minLen ie))%Z)
       (in_edges ig) (edges (doubleMinLen (initLayoutGraph ig)))).
Proof.
  split; [apply run_unfold|].
  intros Hd. unfold initLayoutGraph. rewrite Hd, initEdges_directed.
  unfold doubleMinLen. rewrite doubleMinLen_fold. simpl.
  set (g0 := fold_left initNode (in_nodes ig) emptyGraph).
  assert (edges g0 = [] ∧ values g0 = [] ∧ nextId g0 = 0) as (He & Hv & Hn).
  { unfold g0. destruct (initNodes_edges (in_nodes ig) emptyGraph) as (-> & -> & ->). done. }
  rewrite He, Hv, Hn. simpl.
  match goal with
  | |- context [fold_left (λ vs ed, alter ?f (evalue ed) vs) (imap ?mk _) _] =>
    pose proof (alter_refs_seq f mk (in_edges ig) [] (initValue <$> in_edges ig)
                  (λ _ _, eq_refl) (length_fmap _ _)) as Hfold
  end.
  simpl in Hfold. rewrite Hfold. clear Hfold.
  unfold edgeValue. simpl.
  apply Forall2_same_length_lookup_2.
  - by rewrite length_imap.
  - intros i ie ed Hie Hed.
    rewrite list_lookup_imap, Hie in Hed. simpl in Hed. injection Hed as <-. simpl.
    rewrite !list_lookup_fmap, Hie. reflexivity.
Qed.

Lemma run_restores_rankSep_witness :
  let ig := mkInputGraph true
              [("a", mkInputNode None None None); ("b", mkInputNode None None None)]
              [mkInputEdge "ab" "a" "b" (Some 3%Z) None None] in
  let w := mkWorld (50 # 1) [] in
  rankSep (run simplePhases ig w).2 = (50 # 1)%Q
  ∧ Forall2 (λ ie ed,
        ev_minLen (edgeValue (doubleMinLen (initLayoutGraph ig)) ed)
        = Some (2 * orOne (ie_minLen ie))%Z)
       (in_edges ig) (edges (doubleMinLen (initLayoutGraph ig))).
Proof.
  intros ig w.
  destruct (run_restores_rankSep simplePhases ig w) as [H1 H2].
  split; [exact H1 | apply H2; reflexivity].
Defined.

(** ** Evaluations of the pipeline *)

Ltac run_phases H :=
  unfold run, tryFinally, bindM, time, getRankSep, setRankSep, retM in H;
  vm_compute in H;
  match type of H with
  | context [ph_order ?ph ?g] => destruct (ph_order ph g); [|discriminate]
  | context [?ord ?g] =>
    match type of (ord g) with
    | Result (list (NodeId * nat)) => destruct (ord g); [|discriminate]
    end
  end;
  vm_compute in H;
  match type of H with
  | context [?pos ?q ?g] =>
    match type of (pos q g) with
    | Result (list (NodeId * Point)) => destruct (pos q g); [|discriminate]
    end
  end;
  vm_compute in H.

(** C1. On the graph [fourNodes] the rank phase returns a ranking in
    which the edge [t → m] runs upwards: [initRank] yields the feasible
    ranks [r = 0], [t = 0], [m = 1], [n = 4], and [feasibleTree], which
    moves one node at a time next to the tree, leaves [t] two ranks below
    [m]. *)
Theorem rank_fourNodes_infeasible :
  let g := initLayoutGraph fourNodes in
  let g0 := mkView (nodeIds g) (edges g) None (nextId g) in
  (∃ store, initRank g0 (values g) (nodes g) = Ok store ∧
      (λ u, rankIn store u) <$> ["r"; "n"; "m"; "t"]
      = [Some 0; Some 4; Some 1; Some 0]%Z)
  ∧ ∃ g', rank acyclic g = Ok g' ∧
      (λ u, rankOf g' u) <$> ["r"; "n"; "m"; "t"]
      = [Some 2; Some 3; Some 0; Some 2]%Z ∧
      mkEdge "_3" "t" "m" 2 ∈ edges g' ∧
      minLenOf (values g') (mkEdge "_3" "t" "m" 2) = 1%Z ∧
      feasible g' = false.
Proof.
  split.
  - eexists. split; vm_compute; reflexivity.
  - eexists. split; [vm_compute; reflexivity|].
    repeat split; try (vm_compute; reflexivity).
    apply (list_elem_of_lookup_2 _ 2). reflexivity.
Qed.

(** The same ranking in the pipeline: whatever the order and position
    phases do, the graph that [run] returns for [fourNodes] has [t] at
    rank 4 and [m] at rank 0, although the edge [t → m] has [minLen] 2
    there. *)
Lemma run_fourNodes_infeasible ord pos out w' :
  run (mkPhases acyclic acyclicUndo ord pos) fourNodes world0 = (Ok out, w') →
  rankOf (graph out) "t" = Some 4%Z ∧ rankOf (graph out) "m" = Some 0%Z ∧
  ("tm", "t", "m") ∈ edgeTriples (graph out) ∧
  (ed ← edgeById (graph out) "tm"; ev_minLen (edgeValue (graph out) ed)) = Some 2%Z.
Proof.
  intros H. run_phases H. injection H as <- <-.
  repeat split; try (vm_compute; reflexivity).
  apply (list_elem_of_lookup_2 _ 0). reflexivity.
Qed.

(** C2. Whatever the order and position phases do, the graph that [run]
    returns for the edge [a → b] of [minLen] 2 still has the dummy node
    [_D2]: the edge spans four ranks, its middle dummy node carries no
    [index], and [undoNormalize] removes only dummy nodes that carry
    one. *)
Theorem run_keeps_interior_dummy ord pos out w' :
  run (mkPhases acyclic acyclicUndo ord pos) (oneEdge 2) world0 = (Ok out, w') →
  dummies (graph out) = ["_D2"].
Proof.
  intros H. run_phases H. by injection H as <- <-.
Qed.

Lemma run_keeps_interior_dummy_witness :
  ∃ out w', run simplePhases (oneEdge 2) world0 = (Ok out, w')
            ∧ dummies (graph out) = ["_D2"].
Proof.
  destruct (run simplePhases (oneEdge 2) world0) as [[out|err] w'] eqn:Hrun;
    [|by vm_compute in Hrun].
  exists out, w'. split; [done|].
  exact (run_keeps_interior_dummy simpleOrder simplePosition out w' Hrun).
Defined.

(** C3. Whatever the order and position phases do, the graph that [run]
    returns for the edge [a → b] of [minLen] 3 has, besides that edge, the
    edges [_D2 → _D3] and [_D3 → _D4] between the dummy nodes that
    [undoNormalize] left behind: its edges are not those of the
    input. *)
Theorem run_keeps_dummy_edges ord pos out w' :
  run (mkPhases acyclic acyclicUndo ord pos) (oneEdge 3) world0 = (Ok out, w') →
  edgeTriples (graph out)
  = [("_4", "_D2", "_D3"); ("_5", "_D3", "_D4"); ("ab", "a", "b")]
  ∧ inputTriples (oneEdge 3) = [("ab", "a", "b")].
Proof.
  intros H. run_phases H. by injection H as <- <-.
Qed.

Lemma run_keeps_dummy_edges_witness :
  ∃ out w', run simplePhases (oneEdge 3) world0 = (Ok out, w')
            ∧ edgeTriples (graph out)
              = [("_4", "_D2", "_D3"); ("_5", "_D3", "_D4"); ("ab", "a", "b")].
Proof.
  destruct (run simplePhases (oneEdge 3) world0) as [[out|err] w'] eqn:Hrun;
    [|by vm_compute in Hrun].
  exists out, w'. split; [done|].
  exact (proj1 (run_keeps_dummy_edges simpleOrder simplePosition out w' Hrun)).
Defined.

(** ** C8: enterEdge *)

Ltac split_seen :=
  intros;
  match goal with
  | H : _ ∈ _ ++ [_] |- _ =>
    apply elem_of_app in H as [H | H%list_elem_of_singleton]; subst
  end.

Section enterEdge.
Context (vals : list EdgeValue) (store : Store) (aligned : bool)
        (lower : NodeId) (e : EdgeId).

Lemma minSoFar_step seen st ed :
  minSoFar vals store aligned lower e seen st →
  minSoFar vals store aligned lower e (seen ++ [ed])
    (enterEdgeStep vals store aligned lower e st ed).
Proof.
  unfold enterEdgeStep, minSoFar.
  destruct st as [[s|] [f|]]; try done; simpl;
    destruct (crosses store aligned lower e ed) eqn:Hce; simpl;
    destruct (edgeSlack vals store ed) as [s1|] eqn:Hs1; simpl;
    try destruct (Z.ltb_spec s1 s); simpl.
  all: try (intros [(ed0 & Hin & Hid & Hc & Hs) Hmin]; split;
            [ first [ by (exists ed; rewrite elem_of_app, list_elem_of_singleton; eauto)
                    | by (exists ed0; rewrite elem_of_app; eauto) ]
            | split_seen; simplify_eq; try congruence;
              try (match goal with
                   | H1 : _ ∈ _ |- _ => specialize (Hmin _ _ H1 ltac:(done) ltac:(done))
                   end); lia ]).
  all: intros Hnone.
  - split.
    + exists ed. rewrite elem_of_app, list_elem_of_singleton. eauto.
    + split_seen; simplify_eq; [|lia].
      match goal with
      | H1 : _ ∈ _, H2 : crosses _ _ _ _ _ = true |- _ =>
        rewrite (Hnone _ H1 H2) in *; done
      end.
  - split_seen; eauto.
  - split_seen; eauto; congruence.
  - split_seen; eauto; congruence.
Qed.

Lemma minSoFar_fold es seen st :
  minSoFar vals store aligned lower e seen st →
  minSoFar vals store aligned lower e (seen ++ es)
    (fold_left (enterEdgeStep vals store aligned lower e) es st).
Proof.
  revert seen st. induction es as [|ed es IH]; intros seen st H; simpl.
  - by rewrite app_nil_r.
  - replace (seen ++ ed :: es) with ((seen ++ [ed]) ++ es)
      by (by rewrite <- app_assoc).
    by apply IH, minSoFar_step.
Qed.
End enterEdge.

Lemma edgeSlack_ranked graph vals store ed :
  allRanked graph store → ed ∈ v_edges graph → is_Some (edgeSlack vals store ed).
Proof.
  intros Hr Hin. unfold allRanked in Hr. rewrite Forall_forall in Hr.
  destruct (Hr _ Hin) as [[r1 H1] [r2 H2]].
  unfold edgeSlack. rewrite H1, H2. simpl. eauto.
Qed.

Lemma crosses_candidate graph store tree aligned lower e ed :
  e ∈ te_id <$> t_edges tree →
  treeCut graph store tree lower e →
  ed ∈ v_edges graph →
  crosses store aligned lower e ed = true ↔ candidate store tree aligned lower ed.
Proof.
  intros He Hcut Hin. unfold treeCut in Hcut. rewrite Forall_forall in Hcut.
  specialize (Hcut _ Hin).
  unfold crosses, candidate, leavesSubtree, entersSubtree, isTreeEdge in *.
  rewrite andb_true_iff, negb_true_iff, String.eqb_neq.
  split.
  - intros [Hne Hdir]. split.
    + intros Ht. specialize (Hcut Ht Hne).
      destruct aligned; rewrite Hcut in Hdir;
        by destruct (inSubtree store (etarget ed) lower).
    + destruct aligned; apply andb_true_iff in Hdir as [H1 H2];
        apply negb_true_iff in H1 || apply negb_true_iff in H2; done.
  - intros [Hnt Hdir]. split.
    + intros Heq. by rewrite Heq in Hnt.
    + by destruct aligned, Hdir as [-> ->].
Qed.

(** C8, amended. [enterEdge] returns, among the non-tree edges of the
    graph that run from inside the subtree of the lower endpoint of the
    leaving edge to outside of it when the leaving tree edge is aligned
    with its graph edge, and from outside to inside otherwise, an edge of
    minimum slack; it raises its error exactly when there is no such
    edge. *)
Theorem enterEdge_min_slack graph vals store tree e te ge :
  find (λ te, String.eqb (te_id te) e) (t_edges tree) = Some te →
  find (λ ed, String.eqb (eid ed) e) (v_edges graph) = Some ge →
  allRanked graph store →
  treeCut graph store tree (lowerOf store (te_source te) (te_target te)) e →
  enterEdgeSpec candidate graph vals store tree e
    (String.eqb (te_source te) (esource ge))
    (lowerOf store (te_source te) (te_target te)).
Proof.
  intros Hte Hge Hr Hcut.
  assert (e ∈ te_id <$> t_edges tree) as He.
  { apply find_some in Hte as [Hin Heq]. apply String.eqb_eq in Heq as <-.
    apply list_elem_of_fmap. exists te. by rewrite list_elem_of_In. }
  unfold enterEdgeSpec, enterEdge. rewrite Hte, Hge.
  set (lower := lowerOf store (te_source te) (te_target te)) in *.
  set (aligned := String.eqb (te_source te) (esource ge)).
  assert (minSoFar vals store aligned lower e (v_edges graph)
            (fold_left (enterEdgeStep vals store aligned lower e) (v_edges graph)
               (None, None))) as Hfold.
  { apply (minSoFar_fold vals store aligned lower e (v_edges graph) [] (None, None)).
    by intros ? []%elem_of_nil. }
  destruct (fold_left (enterEdgeStep vals store aligned lower e) (v_edges graph)
              (None, None)) as [[s|] [f|]]; simpl in *; try done.
  - destruct Hfold as [(ed & Hin & Hid & Hc & Hs) Hmin].
    exists ed, s. split; [done|]. split; [done|].
    split; [by apply (crosses_candidate graph store tree aligned lower e ed)|].
    split; [done|].
    intros ed' s' Hin' Hc' Hs'. apply (Hmin ed' s' Hin'); [|done].
    by apply (crosses_candidate graph store tree aligned lower e ed').
  - split; [done|]. intros ed Hin Hc.
    apply (crosses_candidate graph store tree aligned lower e ed) in Hc; try done.
    destruct (edgeSlack_ranked graph vals store ed Hr Hin) as [s Hs].
    by rewrite (Hfold _ Hin Hc) in Hs.
Qed.

Lemma pivot_state :
  simplexState pivotGraph = Ok (pivotView, pivotStore, pivotTree)
  ∧ leaveEdge pivotTree = Some "_1"
  ∧ find (λ te, String.eqb (te_id te) "_1") (t_edges pivotTree)
    = Some (mkTEdge "_1" "p" "x" (Some (-1)%Z))
  ∧ find (λ ed, String.eqb (eid ed) "_1") (v_edges pivotView)
    = Some (mkEdge "_1" "p" "x" 0)
  ∧ lowerOf pivotStore "p" "x" = "x"
  ∧ enterEdge pivotView (values pivotGraph) pivotStore pivotTree "_1" = Ok "_2"
  ∧ v_edges pivotView
    = [mkEdge "_1" "p" "x" 0; mkEdge "_2" "x" "y" 1; mkEdge "_3" "x" "z" 2;
       mkEdge "_4" "p" "y" 3; mkEdge "_5" "p" "z" 4].
Proof. split_and!; vm_compute; reflexivity. Qed.

Lemma pivot_allRanked : allRanked pivotView pivotStore.
Proof.
  unfold allRanked. destruct pivot_state as (_ & _ & _ & _ & _ & _ & ->).
  repeat (constructor; [split; vm_compute; eauto|]). constructor.
Qed.

Lemma pivot_treeCut : treeCut pivotView pivotStore pivotTree "x" "_1".
Proof.
  unfold treeCut. destruct pivot_state as (_ & _ & _ & _ & _ & _ & ->).
  repeat (constructor;
          [intros Ht Hne; vm_compute in Ht |- *;
           first [ done
                 | by apply list_elem_of_In in Ht; simpl in Ht; intuition discriminate ] |]).
  constructor.
Qed.

(** C8, counterexample. On the working graph of [pivotInput] the tree
    edge [p → x] has cut value -1 and is aligned with its graph edge; no
    non-tree edge enters the subtree of [x], so by the spec [enterEdge]
    would raise its error, yet it returns the edge [x → y], which leaves
    the subtree. *)
Lemma enterEdge_direction_counterexample :
  leaveEdge pivotTree = Some "_1"
  ∧ allRanked pivotView pivotStore
  ∧ treeCut pivotView pivotStore pivotTree "x" "_1"
  ∧ ¬ enterEdgeSpec candidateOfSpec pivotView (values pivotGraph) pivotStore
        pivotTree "_1" true "x".
Proof.
  split; [apply pivot_state|]. split; [apply pivot_allRanked|].
  split; [apply pivot_treeCut|].
  unfold enterEdgeSpec.
  destruct pivot_state as (_ & _ & _ & _ & _ & -> & ->).
  intros (ed & s & Hin & Hid & [_ [Hsrc _]] & _).
  repeat (apply elem_of_cons in Hin as [-> | Hin]; [by vm_compute in Hid, Hsrc|]).
  by apply elem_of_nil in Hin.
Qed.

Lemma enterEdge_min_slack_witness :
  enterEdgeSpec candidate pivotView (values pivotGraph) pivotStore pivotTree
    "_1" true "x".
Proof.
  exact (enterEdge_min_slack pivotView (values pivotGraph) pivotStore pivotTree "_1"
           (mkTEdge "_1" "p" "x" (Some (-1)%Z)) (mkEdge "_1" "p" "x" 0)
           (proj1 (proj2 (proj2 pivot_state)))
           (proj1 (proj2 (proj2 (proj2 pivot_state))))
           pivot_allRanked pivot_treeCut).
Defined.

(** ** Association lists and stores *)

Lemma assoc_app {A} (x : string) (l1 l2 : list (string * A)) :
  assoc x (l1 ++ l2) = match assoc x l1 with Some a => Some a | None => assoc x l2 end.
Proof.
  induction l1 as [|[k a] l1 IH]; simpl; [done|].
  by destruct (String.eqb k x).
Qed.

Lemma assoc_None {A} (x : string) (l : list (string * A)) :
  assoc x l = None ↔ x ∉ l.*1.
Proof.
  induction l as [|[k a] l IH]; simpl.
  - split; [intros _ []%elem_of_nil | done].
  - destruct (String.eqb_spec k x) as [->|Hne].
    + split; [done|]. intros H. exfalso. apply H. by left.
    + rewrite IH, not_elem_of_cons. simpl. intuition congruence.
Qed.


Lemma assoc_storeUpd (s : Store) (u x : NodeId) f :
  assoc x (storeUpd s u f) = if String.eqb u x then f <$> assoc x s else assoc x s.
Proof.
  unfold storeUpd. induction s as [|[k a] s IH]; simpl.
  - by destruct (String.eqb u x).
  - destruct (String.eqb_spec k u) as [->|Hku]; simpl.
    + destruct (String.eqb_spec u x) as [->|Hux]; simpl; done.
    + destruct (String.eqb_spec k x) as [->|Hkx]; simpl; [|done].
      by rewrite (proj2 (String.eqb_neq u x)) by done.
Qed.

Lemma storeUpd_keys (s : Store) u f : (storeUpd s u f).*1 = s.*1.
Proof.
  unfold storeUpd. induction s as [|[k a] s IH]; simpl; [done|].
  f_equal; [by destruct (String.eqb k u) | apply IH].
Qed.

Lemma storeUpd_app (s1 s2 : Store) u f :
  storeUpd (s1 ++ s2) u f = storeUpd s1 u f ++ storeUpd s2 u f.
Proof. unfold storeUpd. apply map_app. Qed.

Lemma storeUpd_absent (s : Store) u f : u ∉ s.*1 → storeUpd s u f = s.
Proof.
  unfold storeUpd. induction s as [|[k a] s IH]; simpl; [done|].
  rewrite not_elem_of_cons. intros [Hne Hn].
  rewrite IH by done. by rewrite (proj2 (String.eqb_neq k u)) by done.
Qed.

Lemma set_rank_twice r r' a : set_rank r (set_rank r' a) = set_rank r a.
Proof. done. Qed.

Lemma rankOnly_refl s : rankOnly s s.
Proof. unfold rankOnly. induction s; constructor; done. Qed.

Lemma rankOnly_trans s1 s2 s3 : rankOnly s1 s2 → rankOnly s2 s3 → rankOnly s1 s3.
Proof.
  unfold rankOnly. intros H12. revert s3.
  induction H12 as [|p p' s1 s2 [Hk Hv] _ IH]; intros s3 H23.
  - by inversion H23.
  - inversion H23 as [|? p'' ? s3' [Hk' Hv'] H23']. subst.
    constructor; [|by apply IH]. split; congruence.
Qed.

Lemma rankOnly_storeUpd s u f :
  (∀ a, set_rank None (f a) = set_rank None a) → rankOnly s (storeUpd s u f).
Proof.
  intros Hf. unfold rankOnly, storeUpd.
  induction s as [|[k a] s IH]; simpl; constructor; [|done].
  destruct (String.eqb k u); simpl; [|done]. by rewrite Hf.
Qed.

Lemma rankOnly_keys s s' : rankOnly s s' → s'.*1 = s.*1.
Proof.
  induction 1 as [|p p' s s' [Hk _] _ IH]; csimpl; [done|]. by rewrite Hk, IH.
Qed.

Lemma rankOnly_assoc s s' x :
  rankOnly s s' →
  (set_rank None <$> assoc x s') = (set_rank None <$> assoc x s).
Proof.
  induction 1 as [|[k a] [k' a'] s s' [Hk Hv] _ IH]; simpl in *; [done|].
  subst k'. destruct (String.eqb k x); simpl; [by rewrite Hv | done].
Qed.


Lemma rankOnly_pref s s' u : rankOnly s s' → prefIn s' u = prefIn s u.
Proof.
  intros H. pose proof (rankOnly_assoc s s' u H) as Ha.
  apply (f_equal (fmap nv_prefRank)) in Ha.
  unfold prefIn. destruct (assoc u s') as [a'|], (assoc u s) as [a|];
    simpl in *; congruence.
Qed.

(** ** The rank phase writes ranks only *)




Lemma feasibleTreeLoop_rankOnly fuel minLen store remaining tree st :
  feasibleTreeLoop fuel minLen store remaining tree = Ok st → rankOnly store st.1.
Proof.
  revert store remaining tree.
  induction fuel as [|fuel IH]; intros store remaining tree; simpl.
  - destruct remaining; [|done]. intros [= <-]. apply rankOnly_refl.
  - destruct remaining as [|u remaining]; [intros [= <-]; apply rankOnly_refl|].
    destruct (findMinSlack _ _ _) as [result|]; [|done]. intros H%IH.
    eapply rankOnly_trans; [|exact H]. by apply rankOnly_storeUpd.
Qed.




(** ** expandRanks gives the members of a compound node one rank *)


Lemma rankIn_storeUpd s u x r :
  rankIn (storeUpd s u (set_rank r)) x
  = if String.eqb u x then (assoc x s ≫= λ _, r) else rankIn s x.
Proof.
  unfold rankIn. rewrite assoc_storeUpd.
  destruct (String.eqb u x); [|done]. by destruct (assoc x s).
Qed.



(** ** combineRanks files the nodes of one rank under one compound node *)

Lemma autoId_inj n m : autoId n = autoId m → n = m.
Proof. unfold autoId. simpl. intros [= H]. by apply (inj pretty). Qed.

Lemma autoId_prefix n : String.prefix "_" (autoId n) = true.
Proof. unfold autoId. simpl. by destruct (pretty n). Qed.

Lemma userIds_not_auto us n : userIds us → autoId n ∉ us.
Proof.
  intros Hus Hin. unfold userIds in Hus. rewrite Forall_forall in Hus.
  specialize (Hus _ Hin). by rewrite autoId_prefix in Hus.
Qed.

Lemma assoc_elem {A} (l : list (string * A)) k a :
  assoc k l = Some a → (k, a) ∈ l.
Proof.
  induction l as [|[k' a'] l IH]; simpl; [done|].
  destruct (String.eqb_spec k' k) as [->|Hne].
  - intros [= ->]. by left.
  - intros H. right. by apply IH.
Qed.

Lemma assoc_NoDup {A} (l : list (string * A)) k a :
  NoDup l.*1 → (k, a) ∈ l → assoc k l = Some a.
Proof.
  induction l as [|[k' a'] l IH]; csimpl; [by intros _ []%elem_of_nil|].
  rewrite NoDup_cons. intros [Hk' Hnd] [[= -> ->]|Hin]%elem_of_cons.
  - by rewrite String.eqb_refl.
  - destruct (String.eqb_spec k' k) as [->|Hne]; [|by apply IH].
    exfalso. apply Hk'. apply list_elem_of_fmap. by exists (k, a).
Qed.

Lemma redirectIn_fold rank newU es g :
  let g' := fold_left (redirectIn rank newU) es g in
  v_compoundNodes g' = v_compoundNodes g ∧ v_nextId g ≤ v_nextId g'.
Proof.
  revert g. induction es as [|e es IH]; intros g; simpl; [done|].
  destruct (IH (redirectIn rank newU g e)) as [-> Hle]. split.
  - unfold redirectIn. by destruct (isStr rank "min").
  - etrans; [|exact Hle]. unfold redirectIn. destruct (isStr rank "min"); simpl; lia.
Qed.

Lemma redirectOut_fold rank newU es g :
  let g' := fold_left (redirectOut rank newU) es g in
  v_compoundNodes g' = v_compoundNodes g ∧ v_nextId g ≤ v_nextId g'.
Proof.
  revert g. induction es as [|e es IH]; intros g; simpl; [done|].
  destruct (IH (redirectOut rank newU g e)) as [-> Hle]. split.
  - unfold redirectOut. by destruct (isStr rank "max").
  - etrans; [|exact Hle]. unfold redirectOut. destruct (isStr rank "max"); simpl; lia.
Qed.

Lemma combineNode_shape g store m u :
  match prefIn store u with
  | None => combineNode (g, store, m) u = (g, store, m)
  | Some rank =>
    ∃ g',
      match assoc (prefKey rank) m with
      | Some c =>
        combineNode (g, store, m) u = (g', storeUpd store c (pushOriginal u), m) ∧
        v_compoundNodes g' = v_compoundNodes g ∧ v_nextId g ≤ v_nextId g'
      | None =>
        let newU := autoId (S (v_nextId g)) in
        combineNode (g, store, m) u
        = (g',
           storeUpd (store ++ [(newU, set_originalNodes (Some []) (plainNode None None))])
             newU (pushOriginal u),
           m ++ [(prefKey rank, newU)]) ∧
        v_compoundNodes g' = Some (default [] (v_compoundNodes g) ++ [newU]) ∧
        S (v_nextId g) ≤ v_nextId g'
      end
  end.
Proof.
  unfold combineNode, prefIn.
  destruct (assoc u store ≫= nv_prefRank) as [rank|]; [|done].
  destruct (assoc (prefKey rank) m) as [c|].
  - eexists. split; [reflexivity|]. simpl.
    match goal with
    | |- context [fold_left (redirectOut rank c) ?es ?g2] =>
      destruct (redirectOut_fold rank c es g2) as [-> Hle2]
    end.
    match goal with
    | |- context [fold_left (redirectIn rank c) ?es ?g1] =>
      destruct (redirectIn_fold rank c es g1) as [-> Hle1]
    end.
    split; [done|]. lia.
  - eexists. split; [reflexivity|]. simpl.
    match goal with
    | |- context [fold_left (redirectOut rank ?c) ?es ?g2] =>
      destruct (redirectOut_fold rank c es g2) as [-> Hle2]
    end.
    match goal with
    | |- context [fold_left (redirectIn rank ?c) ?es ?g1] =>
      destruct (redirectIn_fold rank c es g1) as [-> Hle1]
    end.
    split; [done|]. simpl in *. lia.
Qed.

Lemma prefIn_app_l s1 s2 u : u ∈ s1.*1 → prefIn (s1 ++ s2) u = prefIn s1 u.
Proof.
  intros Hu. unfold prefIn. rewrite assoc_app.
  destruct (assoc u s1) eqn:Ha; [done|]. by apply assoc_None in Ha.
Qed.

Lemma originalsIn_app_r s1 s2 c : c ∉ s1.*1 → originalsIn (s1 ++ s2) c = originalsIn s2 c.
Proof.
  intros Hc. unfold originalsIn. rewrite assoc_app.
  by rewrite (proj2 (assoc_None c s1) Hc).
Qed.

Lemma originalsIn_push s c c' u :
  c ∈ s.*1 →
  originalsIn (storeUpd s c (pushOriginal u)) c'
  = if String.eqb c c' then originalsIn s c ++ [u] else originalsIn s c'.
Proof.
  intros Hc. unfold originalsIn. rewrite assoc_storeUpd.
  destruct (String.eqb_spec c c') as [<-|Hne]; [|done].
  destruct (assoc c s) as [a|] eqn:Ha; [done|]. by apply assoc_None in Ha.
Qed.

Lemma originalsIn_snoc s c c' a :
  c ∉ s.*1 →
  originalsIn (s ++ [(c, a)]) c'
  = if String.eqb c c' then default [] (nv_originalNodes a) else originalsIn s c'.
Proof.
  intros Hc. unfold originalsIn. rewrite assoc_app. simpl.
  destruct (String.eqb_spec c c') as [<-|Hne].
  - by rewrite (proj2 (assoc_None c s) Hc).
  - by destruct (assoc c' s).
Qed.

Lemma NoDup_snd_inj {A B} (l : list (A * B)) k k' a :
  NoDup l.*2 → (k, a) ∈ l → (k', a) ∈ l → k = k'.
Proof.
  induction l as [|[k0 a0] l IH]; csimpl; [by intros _ []%elem_of_nil|].
  rewrite NoDup_cons. intros [Ha0 Hnd] [[= -> ->]|Hin]%elem_of_cons
    [[= ->]|Hin']%elem_of_cons; try done.
  - exfalso. apply Ha0. apply list_elem_of_fmap. by exists (k', a0).
  - simplify_eq. exfalso. apply Ha0. apply list_elem_of_fmap. by exists (k, a0).
  - by apply IH.
Qed.

Lemma storeUpd_new (s0 cs : Store) c a f :
  c ∉ s0.*1 → c ∉ cs.*1 →
  storeUpd ((s0 ++ cs) ++ [(c, a)]) c f = s0 ++ (cs ++ [(c, f a)]).
Proof.
  intros H0 H1. rewrite !storeUpd_app, (storeUpd_absent s0), (storeUpd_absent cs) by done.
  rewrite <- app_assoc. do 2 f_equal. unfold storeUpd. simpl.
  by rewrite String.eqb_refl.
Qed.

Lemma combineInv_step store0 seen st u :
  userIds store0.*1 → u ∈ store0.*1 →
  combineInv store0 seen st → combineInv store0 (seen ++ [u]) (combineNode st u).
Proof.
  intros Hus Hu. destruct st as [[g store] m]. intros Hinv.
  unfold combineInv in Hinv. simpl in Hinv.
  destruct Hinv as (cstore & ns & -> & Hkeys & HcN & Hnd & Hm2 & Hle & Hndns & Horig & Hseen).
  pose proof (combineNode_shape g (store0 ++ cstore) m u) as Hshape.
  rewrite (prefIn_app_l store0 cstore u Hu) in Hshape.
  assert (∀ key c, (key, c) ∈ m → c ∈ cstore.*1 ∧ c ∉ store0.*1) as Hcomp.
  { intros key c Hin. assert (c ∈ m.*2) as Hc.
    { apply list_elem_of_fmap. by exists (key, c). }
    split; [by rewrite Hkeys|]. rewrite Hm2 in Hc.
    apply list_elem_of_fmap in Hc as (n & -> & _). by apply userIds_not_auto. }
  destruct (prefIn store0 u) as [rank|] eqn:Hr.
  2:{ rewrite Hshape. unfold combineInv. simpl. exists cstore, ns. split_and!; try done.
      - intros key c o Hin. rewrite (Horig key c o Hin), elem_of_app, list_elem_of_singleton.
        split; [tauto|]. intros [[?| ->] Hk]; [done|]. by rewrite Hr in Hk.
      - intros o r [?| ->%list_elem_of_singleton]%elem_of_app Ho; [eauto|congruence]. }
  destruct Hshape as [g' Hshape].
  destruct (assoc (prefKey rank) m) as [c|] eqn:Hassoc.
  - destruct Hshape as (-> & HcN' & Hle'). unfold combineInv. simpl.
    pose proof (assoc_elem _ _ _ Hassoc) as Hin.
    destruct (Hcomp _ _ Hin) as [Hc1 Hc0].
    exists (storeUpd cstore c (pushOriginal u)), ns. split_and!; try done.
    + by rewrite storeUpd_app, (storeUpd_absent store0).
    + by rewrite storeUpd_keys.
    + congruence.
    + eapply Forall_impl; [exact Hle|]. simpl. lia.
    + intros key c' o Hin'. destruct (Hcomp _ _ Hin') as [Hc1' Hc0'].
      rewrite storeUpd_app, (storeUpd_absent store0) by done.
      rewrite originalsIn_app_r, originalsIn_push by done.
      specialize (Horig key c' o Hin'). rewrite originalsIn_app_r in Horig by done.
      rewrite elem_of_app, list_elem_of_singleton.
      destruct (String.eqb_spec c c') as [<-|Hne].
      * assert (key = prefKey rank) as ->.
        { apply (NoDup_snd_inj m _ _ c); [|done..].
          rewrite Hm2. apply NoDup_fmap_2; [|done]. intros ??. apply autoId_inj. }
        rewrite elem_of_app, list_elem_of_singleton, Horig.
        split; [intros [[??]| ->]; [tauto|by rewrite Hr; auto] | tauto].
      * rewrite Horig. split; [tauto|]. intros [[?| ->] Hk]; [done|].
        rewrite Hr in Hk. simpl in Hk. injection Hk as <-.
        apply (assoc_NoDup _ _ _ Hnd) in Hin'. congruence.
    + intros o r [?| ->%list_elem_of_singleton]%elem_of_app Ho; [eauto|].
      exists c. congruence.
  - destruct Hshape as (-> & HcN' & Hle'). unfold combineInv. simpl.
    set (newU := autoId (S (v_nextId g))) in *.
    set (init := set_originalNodes (Some []) (plainNode None None)).
    assert (S (v_nextId g) ∉ ns) as Hfresh.
    { intros Hin. rewrite Forall_forall in Hle. specialize (Hle _ Hin). simpl in Hle. lia. }
    assert (newU ∉ cstore.*1) as Hn1.
    { rewrite Hkeys, Hm2. intros (n & Heq & Hn)%list_elem_of_fmap.
      apply autoId_inj in Heq as <-. done. }
    assert (newU ∉ store0.*1) as Hn0 by by apply userIds_not_auto.
    assert (prefKey rank ∉ m.*1) as Hkey by by apply assoc_None.
    exists (cstore ++ [(newU, pushOriginal u init)]), (ns ++ [S (v_nextId g)]).
    split_and!.
    + by apply storeUpd_new.
    + rewrite !fmap_app. by rewrite Hkeys.
    + rewrite HcN', HcN, fmap_app. done.
    + rewrite fmap_app. apply NoDup_app. split; [done|]. split.
      * intros k Hk ->%list_elem_of_singleton. done.
      * apply NoDup_singleton.
    + rewrite !fmap_app. by rewrite Hm2.
    + apply Forall_app. split.
      * eapply Forall_impl; [exact Hle|]. simpl. lia.
      * by apply Forall_singleton.
    + apply NoDup_app. split; [done|]. split.
      * intros n Hn ->%list_elem_of_singleton. done.
      * apply NoDup_singleton.
    + intros key c' o [Hin'|[= -> ->]%list_elem_of_singleton]%elem_of_app.
      * destruct (Hcomp _ _ Hin') as [Hc1' Hc0'].
        specialize (Horig key c' o Hin'). rewrite originalsIn_app_r in Horig by done.
        rewrite storeUpd_new, originalsIn_app_r, originalsIn_snoc by done.
        destruct (String.eqb_spec newU c') as [<-|Hne]; [done|].
        rewrite Horig, elem_of_app, list_elem_of_singleton.
        split; [tauto|]. intros [[?| ->] Hk]; [done|].
        rewrite Hr in Hk. simpl in Hk. injection Hk as <-.
        exfalso. apply Hkey. apply list_elem_of_fmap. by exists (prefKey rank, c').
      * rewrite storeUpd_new, originalsIn_app_r, originalsIn_snoc by done.
        rewrite String.eqb_refl. simpl.
        rewrite list_elem_of_singleton, elem_of_app, list_elem_of_singleton.
        split; [intros ->; by rewrite Hr; auto|].
        intros [[Ho| ->] Hk]; [|done].
        destruct (prefIn store0 o) as [r|] eqn:Hro; [|done].
        simpl in Hk. injection Hk as Hk.
        destruct (Hseen o r Ho Hro) as [c Hc]. rewrite Hk in Hc.
        exfalso. apply Hkey. apply list_elem_of_fmap. by exists (prefKey rank, c).
    + intros o r [Ho| ->%list_elem_of_singleton]%elem_of_app Hro.
      * destruct (Hseen o r Ho Hro) as [c Hc]. exists c. apply elem_of_app. by left.
      * exists newU. rewrite elem_of_app, list_elem_of_singleton. right.
        rewrite Hr in Hro. by injection Hro as <-.
Qed.


Lemma addZeroEdge_fold mk us g vals :
  v_compoundNodes (fold_left (addZeroEdge mk) us (g, vals)).1 = v_compoundNodes g.
Proof.
  revert g vals. induction us as [|u us IH]; intros g vals; simpl; [done|].
  by rewrite IH.
Qed.

Lemma is_Some_assoc {A} (l : list (string * A)) k : k ∈ l.*1 → is_Some (assoc k l).
Proof.
  intros Hk. destruct (assoc k l) eqn:Ha; [eauto|]. by apply assoc_None in Ha.
Qed.



(** ** C9: the members of a rank class share their rank *)



(** ** C7: initRank on acyclic graphs *)

Lemma path_snoc es u v e :
  path es u v → e ∈ es → esource e = v → path es u (etarget e).
Proof.
  intros Hp He Hs. induction Hp as [e0 He0|e0 w He0 Hp IH].
  - apply path_cons; [done|]. rewrite <- Hs. by apply path_edge.
  - apply path_cons; [done|]. by apply IH.
Qed.

Lemma backWalk_path es v l w : backWalk es (v :: l) → w ∈ l → path es w v.
Proof.
  revert v. induction l as [|p l IH]; intros v Hw Hin; [by apply elem_of_nil in Hin|].
  simpl in Hw. destruct Hw as [(e & He & <- & <-) Hw].
  apply elem_of_cons in Hin as [->|Hin]; [by apply path_edge|].
  eapply path_snoc; [by apply IH|done..].
Qed.

Lemma backWalk_NoDup es l : noCycle es → backWalk es l → NoDup l.
Proof.
  intros Hdag. induction l as [|v l IH]; intros Hw; [constructor|].
  constructor.
  - intros Hin. apply (Hdag v). by eapply backWalk_path.
  - apply IH. destruct l; [done|]. by destruct Hw.
Qed.

Lemma backWalk_extend es (us : list NodeId) :
  (∀ v, v ∈ us → ∃ e, e ∈ es ∧ etarget e = v ∧ esource e ∈ us) →
  ∀ n v, v ∈ us → ∃ l, length l = n ∧ backWalk es (v :: l) ∧ Forall (λ w, w ∈ us) l.
Proof.
  intros Hpred n. induction n as [|n IH]; intros v Hv.
  - by exists [].
  - destruct (Hpred v Hv) as (e & He & Ht & Hs).
    destruct (IH _ Hs) as (l & Hlen & Hw & Hall).
    exists (esource e :: l). simpl. split; [by rewrite Hlen|]. split.
    + split; [by exists e | done].
    + by constructor.
Qed.

(** Among finitely many nodes of an acyclic graph, one has no
    predecessor among them. *)
Lemma noCycle_source es (us : list NodeId) :
  noCycle es → us ≠ [] →
  ∃ u, u ∈ us ∧ inFrom es us u = [].
Proof.
  intros Hdag Hne.
  destruct (decide (Exists (λ u, inFrom es us u = []) us)) as [Hex|Hnex].
  { apply Exists_exists in Hex. done. }
  exfalso. apply not_Exists_Forall in Hnex; [|apply _].
  rewrite Forall_forall in Hnex.
  assert (∀ v, v ∈ us → ∃ e, e ∈ es ∧ etarget e = v ∧ esource e ∈ us) as Hpred.
  { intros v Hv. specialize (Hnex v Hv). simpl in Hnex. unfold inFrom in Hnex.
    destruct (filter _ es) as [|e l] eqn:Hf; [done|].
    assert (e ∈ filter (λ e, etarget e = v ∧ esource e ∈ us) es) as Hin
      by (rewrite Hf; by left).
    apply list_elem_of_filter in Hin as [[??] ?]. by exists e. }
  destruct us as [|v us']; [done|].
  destruct (backWalk_extend es (v :: us') Hpred (length (v :: us')) v ltac:(by left))
    as (l & Hlen & Hw & Hall).
  pose proof (backWalk_NoDup es (v :: l) Hdag Hw) as Hnd.
  assert (length (v :: l) ≤ length (v :: us')) as Hle.
  { apply submseteq_length, NoDup_submseteq; [done|].
    intros w [->|Hin]%elem_of_cons; [by left|].
    rewrite Forall_forall in Hall. by apply Hall. }
  simpl in Hle, Hlen. lia.
Qed.

Lemma assoc_upd {A} (l : list (string * A)) (u x : string) (f : A → A) :
  assoc x (map (λ p, if String.eqb p.1 u then (p.1, f p.2) else p) l)
  = if String.eqb u x then f <$> assoc x l else assoc x l.
Proof.
  induction l as [|[k a] l IH]; simpl.
  - by destruct (String.eqb u x).
  - destruct (String.eqb_spec k u) as [->|Hku]; simpl.
    + destruct (String.eqb_spec u x) as [->|Hux]; simpl; done.
    + destruct (String.eqb_spec k x) as [->|Hkx]; simpl; [|done].
      by rewrite (proj2 (String.eqb_neq u x)) by done.
Qed.

Lemma upd_keys {A} (l : list (string * A)) (u : string) (f : A → A) :
  (map (λ p, if String.eqb p.1 u then (p.1, f p.2) else p) l).*1 = l.*1.
Proof.
  induction l as [|[k a] l IH]; simpl; [done|].
  f_equal; [by destruct (String.eqb k u) | apply IH].
Qed.

Lemma pqRemove_keys pq m : (pqRemove pq m).*1 = filter (λ u, u ≠ m) pq.*1.
Proof.
  unfold pqRemove. induction pq as [|[k p] pq IH]; [done|]. csimpl.
  destruct (decide (k ≠ m)) as [Hk|Hk].
  - rewrite (filter_cons_True (λ kp, kp.1 ≠ m)), (filter_cons_True (λ u, u ≠ m)) by done.
    csimpl. by rewrite IH.
  - rewrite (filter_cons_False (λ kp, kp.1 ≠ m)), (filter_cons_False (λ u, u ≠ m)) by done.
    done.
Qed.

Lemma pqRemove_priority pq m u : u ≠ m → pqPriority (pqRemove pq m) u = pqPriority pq u.
Proof.
  intros Hne. unfold pqPriority, pqRemove. f_equal.
  induction pq as [|[k p] pq IH]; [done|].
  destruct (decide (k ≠ m)) as [Hk|Hk].
  - rewrite (filter_cons_True (λ kp, kp.1 ≠ m)) by done. simpl. by rewrite IH.
  - rewrite (filter_cons_False (λ kp, kp.1 ≠ m)) by done. simpl.
    apply dec_stable in Hk as ->. by rewrite (proj2 (String.eqb_neq m u)) by done.
Qed.

Lemma pqBest_spec best pq :
  (pqBest best pq = best ∨ pqBest best pq ∈ pq) ∧
  ((pqBest best pq).2 ≤ best.2)%Z ∧
  ∀ kp, kp ∈ pq → ((pqBest best pq).2 ≤ kp.2)%Z.
Proof.
  revert best. induction pq as [|kp pq IH]; intros best; simpl.
  - split; [by left|]. split; [lia|]. by intros ? []%elem_of_nil.
  - destruct (IH (if (kp.2 <? best.2)%Z then kp else best)) as (Hin & Hle & Hall).
    destruct (Z.ltb_spec kp.2 best.2); split_and!.
    + destruct Hin as [->|Hin]; right; [by left | by right].
    + lia.
    + intros kp' [->|Hin']%elem_of_cons; [done | by apply Hall].
    + destruct Hin as [->|Hin]; [by left | right; by right].
    + done.
    + intros kp' [->|Hin']%elem_of_cons; [lia | by apply Hall].
Qed.

Lemma pqPriority_elem pq u p : NoDup pq.*1 → (u, p) ∈ pq → pqPriority pq u = p.
Proof. intros Hnd Hin. unfold pqPriority. by rewrite (assoc_NoDup pq u p). Qed.

Lemma pqMin_spec pq m :
  NoDup pq.*1 → pqMin pq = Some m →
  m ∈ pq.*1 ∧ ∀ u, u ∈ pq.*1 → (pqPriority pq m ≤ pqPriority pq u)%Z.
Proof.
  intros Hnd. unfold pqMin. destruct pq as [|kp pq]; [done|]. intros [= <-].
  destruct (pqBest_spec kp pq) as (Hin & Hle & Hall).
  assert (pqBest kp pq ∈ kp :: pq) as Hin'.
  { destruct Hin as [->|Hin]; [by left | by right]. }
  split.
  - apply list_elem_of_fmap. by exists (pqBest kp pq).
  - destruct (pqBest kp pq) as [m p] eqn:Hbest.
    change ((m, p).1) with m.
    rewrite (pqPriority_elem (kp :: pq) m p Hnd Hin').
    intros u ([u' p'] & -> & Hu)%list_elem_of_fmap.
    change ((u', p').1) with u'.
    rewrite (pqPriority_elem (kp :: pq) u' p' Hnd Hu).
    apply elem_of_cons in Hu as [<-|Hu]; [done|]. by apply (Hall (u', p')).
Qed.

Lemma pqMin_None pq : pqMin pq = None → pq = [].
Proof. by destruct pq. Qed.

Lemma pqAdd_fold (f : NodeId → Z) (us : list NodeId) (pq : PQ) :
  fold_left (λ pq u, pqAdd pq u (f u)) us pq = pq ++ ((λ u, (u, f u)) <$> us).
Proof.
  revert pq. induction us as [|u us IH]; intros pq; simpl.
  - by rewrite app_nil_r.
  - rewrite IH. unfold pqAdd. by rewrite <- app_assoc.
Qed.

Lemma inFrom_remove es (us : list NodeId) m u :
  m ∈ us →
  length (inFrom es us u)
  = length (inFrom es (filter (λ v, v ≠ m) us) u)
    + length (filter (λ e, etarget e = u) (outEdges es m)).
Proof.
  intros Hm. unfold inFrom, outEdges.
  induction es as [|e es IH]; [done|].
  rewrite !filter_cons.
  destruct (decide (etarget e = u ∧ esource e ∈ us)) as [[Ht Hs]|Hn];
    destruct (decide (etarget e = u ∧ esource e ∈ filter (λ v, v ≠ m) us))
      as [[Ht' Hs']|Hn'];
    destruct (decide (esource e = m)) as [Hsm|Hsm];
    rewrite ?filter_cons; repeat case_decide; simpl; rewrite ?IH; try lia.
  all: exfalso.
  all: repeat match goal with
              | H : _ ∈ filter _ _ |- _ => apply list_elem_of_filter in H as [??]
              | H : ¬ (_ ∧ _ ∈ filter _ _) |- _ => rewrite list_elem_of_filter in H
              end.
  all: subst; tauto.
Qed.

Lemma updateTarget_fold vals store outs minRank pq :
  (∀ e, e ∈ outs → is_Some (rankIn store (esource e))) →
  ∃ minRank' pq',
    fold_left (updateTargetNode vals store) outs (minRank, pq) = (minRank', pq') ∧
    pq'.*1 = pq.*1 ∧
    (∀ u, u ∈ pq.*1 →
       pqPriority pq' u
       = (pqPriority pq u - Z.of_nat (length (filter (λ e, etarget e = u) outs)))%Z) ∧
    (∀ u, is_Some (minRankOf minRank u) → is_Some (minRankOf minRank' u)).
Proof.
  revert minRank pq. induction outs as [|e outs IH]; intros minRank pq Hr; simpl.
  - exists minRank, pq. split_and!; try done. intros u _. lia.
  - set (t := etarget e).
    set (mr1 := minRankSet minRank t _). set (pq1 := pqDecrease pq t _).
    destruct (IH mr1 pq1) as (mr' & pq' & Hfold & Hkeys & Hprio & Hmr).
    { intros e' He'. apply Hr. by right. }
    exists mr', pq'. split; [done|].
    assert (pq1.*1 = pq.*1) as Hk1
      by apply (upd_keys pq t (λ _, (pqPriority pq t - 1)%Z)).
    split; [congruence|]. split.
    + intros u Hu. rewrite Hprio by by rewrite Hk1.
      rewrite filter_cons. unfold pq1, pqPriority, pqDecrease.
      rewrite (assoc_upd pq t u (λ _, (default 0 (assoc t pq) - 1)%Z)).
      destruct (is_Some_assoc pq u Hu) as [p Hp]. fold t.
      destruct (decide (t = u)) as [Heq|Hne].
      * rewrite Heq, String.eqb_refl, Hp. simpl. lia.
      * rewrite (proj2 (String.eqb_neq t u)) by done. simpl. lia.
    + intros u Hu. apply Hmr. unfold mr1, minRankOf, minRankSet.
      match goal with
      | |- context [map (λ kr, if String.eqb kr.1 t then (kr.1, ?x) else kr) minRank] =>
        rewrite (assoc_upd minRank t u (λ _, x))
      end.
      destruct (String.eqb_spec t u) as [Heq|Hne]; [|done].
      destruct Hu as [r Hu]. unfold minRankOf in Hu.
      destruct (assoc u minRank) as [[r'|]|] eqn:Ha; try done. simpl.
      destruct (Hr e ltac:(by left)) as [rs ->]. simpl.
      unfold minRankOf. rewrite Heq, Ha. simpl. eauto.
Qed.

Lemma filter_ext_elem {A} (P Q : A → Prop) `{∀ x, Decision (P x)} `{∀ x, Decision (Q x)}
    (l : list A) :
  (∀ x, x ∈ l → P x ↔ Q x) → filter P l = filter Q l.
Proof.
  induction l as [|x l IH]; intros Hpq; [done|].
  rewrite !filter_cons.
  assert (P x ↔ Q x) as Hx by (apply Hpq; by left).
  rewrite IH by (intros y Hy; apply Hpq; by right).
  destruct (decide (P x)), (decide (Q x)); tauto.
Qed.

Lemma kahnInv_init g store :
  wfView g → (∀ u, u ∈ v_nodes g → u ∈ store.*1) →
  kahnInv g store ((λ u, (u, Some 0%Z)) <$> v_nodes g)
    (fold_left (λ pq u, pqAdd pq u (Z.of_nat (length (inEdges (v_edges g) u))))
       (v_nodes g) []).
Proof.
  intros [Hnd Hclosed] Hstore. rewrite pqAdd_fold. simpl.
  set (pq := (λ u, (u, Z.of_nat (length (inEdges (v_edges g) u)))) <$> v_nodes g).
  assert (pq.*1 = v_nodes g) as Hkeys.
  { unfold pq. rewrite <- list_fmap_compose. apply list_fmap_id. }
  unfold kahnInv. rewrite Hkeys. split_and!; try done.
  - intros u Hu. by left.
  - intros u Hu. unfold pq.
    rewrite (pqPriority_elem _ u (Z.of_nat (length (inEdges (v_edges g) u)))).
    + do 2 f_equal. unfold inEdges, inFrom. apply filter_ext_elem.
      intros e He. split; [|tauto]. intros Ht. split; [done|].
      rewrite Forall_forall in Hclosed. by apply Hclosed.
    + fold pq. by rewrite Hkeys.
    + apply list_elem_of_fmap. by exists u.
  - intros u Hu. unfold minRankOf.
    rewrite (assoc_NoDup _ u (Some 0%Z)); [by eexists| |].
    + rewrite <- list_fmap_compose. by rewrite list_fmap_id.
    + apply list_elem_of_fmap. by exists u.
Qed.

Lemma initRankLoop_total fuel g vals store minRank pq :
  wfView g → noCycle (v_edges g) →
  kahnInv g store minRank pq → length pq ≤ fuel →
  ∃ store', initRankLoop fuel g vals store minRank pq = Ok store' ∧
            ∀ u, u ∈ v_nodes g → is_Some (rankIn store' u).
Proof.
  intros Hwf Hdag. revert store minRank pq.
  induction fuel as [|fuel IH]; intros store minRank pq Hinv Hlen.
  - destruct pq; [|simpl in Hlen; lia]. simpl. exists store. split; [done|].
    intros u Hu. destruct Hinv as (_ & Hranked & _).
    destruct (Hranked u Hu) as [[]%elem_of_nil|]; done.
  - destruct Hinv as (Hnd & Hranked & Hprio & Hmr & Hstore & Hsub).
    simpl. destruct (pqMin pq) as [m|] eqn:Hmin.
    2:{ apply pqMin_None in Hmin as ->. exists store. split; [done|].
        intros u Hu. destruct (Hranked u Hu) as [[]%elem_of_nil|]; done. }
    destruct (pqMin_spec pq m Hnd Hmin) as [Hm Hleast].
    assert (pqPriority pq m = 0%Z) as Hzero.
    { destruct (noCycle_source (v_edges g) pq.*1 Hdag) as (u0 & Hu0 & Hsrc).
      { intros Heq. rewrite Heq in Hm. by apply elem_of_nil in Hm. }
      pose proof (Hleast u0 Hu0) as Hle. rewrite (Hprio u0 Hu0), Hsrc in Hle.
      rewrite (Hprio m Hm) in *. simpl in Hle. lia. }
    rewrite Hzero. simpl.
    destruct (Hmr m (Hsub m Hm)) as [r Hr].
    set (store1 := storeUpd store m (set_rank (minRankOf minRank m))).
    assert (rankIn store1 m = Some r) as Hrm.
    { unfold store1. rewrite rankIn_storeUpd, String.eqb_refl, Hr.
      by destruct (is_Some_assoc store m (Hstore m (Hsub m Hm))) as [a ->]. }
    destruct (updateTarget_fold vals store1 (outEdges (v_edges g) m) minRank
                (pqRemove pq m)) as (mr' & pq' & Hfold & Hkeys & Hprio' & Hmr').
    { intros e [-> _]%list_elem_of_filter. eauto. }
    rewrite Hfold. rewrite pqRemove_keys in Hkeys.
    apply IH.
    + unfold kahnInv. rewrite Hkeys. split_and!.
      * by apply NoDup_filter.
      * intros u Hu. destruct (decide (u = m)) as [->|Hne]; [right; eauto|].
        destruct (Hranked u Hu) as [Hin|Hrk].
        -- left. by apply list_elem_of_filter.
        -- right. unfold store1. rewrite rankIn_storeUpd.
           by rewrite (proj2 (String.eqb_neq m u)) by done.
      * intros u [Hne Hu]%list_elem_of_filter.
        rewrite Hprio' by (rewrite pqRemove_keys; by apply list_elem_of_filter).
        rewrite pqRemove_priority, (Hprio u Hu) by done.
        rewrite (inFrom_remove (v_edges g) pq.*1 m u Hm). lia.
      * intros u Hu. by apply Hmr', Hmr.
      * intros u Hu. unfold store1. rewrite storeUpd_keys. by apply Hstore.
      * intros u [_ Hu]%list_elem_of_filter. by apply Hsub.
    + assert (length pq' = length pq'.*1) as -> by by rewrite length_fmap.
      rewrite Hkeys.
      pose proof (length_filter_lt (λ u, u ≠ m) pq.*1 m Hm ltac:(tauto)) as Hlt.
      rewrite length_fmap in Hlt. lia.
Qed.

Lemma noCycle_of_order es (f : NodeId → Z) :
  Forall (λ e, (f (esource e) < f (etarget e))%Z) es → noCycle es.
Proof.
  intros Hall. rewrite Forall_forall in Hall.
  assert (∀ u v, path es u v → (f u < f v)%Z) as Hlt.
  { intros u v Hp. induction Hp as [e He|e w He Hp IH].
    - by apply Hall.
    - specialize (Hall e He). lia. }
  intros u Hp. specialize (Hlt u u Hp). lia.
Qed.

Lemma fourNodes_wfView : wfView (viewOf (initLayoutGraph fourNodes)).
Proof.
  split.
  - apply (bool_decide_unpack _). by vm_compute.
  - apply (bool_decide_unpack _). by vm_compute.
Qed.

Lemma fourNodes_noCycle : noCycle (edges (initLayoutGraph fourNodes)).
Proof.
  apply (noCycle_of_order _
           (λ u, default 0%Z (assoc u [("r", 0); ("t", 0); ("m", 1); ("n", 4)]%Z))).
  vm_compute. repeat constructor.
Qed.

(** ** C4: normalize *)

Lemma graph_eta g : mkGraph (nodes g) (edges g) (values g) (nextId g) = g.
Proof. by destruct g. Qed.

Lemma normalizeChain_closed n m g dc ed a u rank i targetRank :
  m = Z.to_nat (targetRank - rank) → m ≤ n →
  normalizeChain n g dc ed a u rank i targetRank
  = (mkGraph (nodes g ++ chainNodes m ed a dc rank i targetRank)
       (edges g ++ chainLinks m u dc (nextId g) (length (values g)))
       (values g ++ replicate m emptyValue)
       (nextId g + m),
     dc + m, chainEnd m u dc).
Proof.
  revert m g dc u rank i.
  induction n as [|n IH]; intros m g dc u rank i Hm Hle.
  - assert (m = 0) as -> by lia. simpl.
    by rewrite !app_nil_r, !Nat.add_0_r, graph_eta.
  - simpl. destruct (Z.ltb_spec rank targetRank) as [Hlt|Hge].
    + destruct m as [|m]; [lia|].
      rewrite (IH m) by (simpl; lia).
      unfold addEdgeEmpty, newValue, addEdge, addNode. simpl.
      rewrite <- !app_assoc, length_app. simpl.
      rewrite ?Nat.add_1_r, ?Nat.add_succ_r, ?Nat.add_0_r.
      f_equal. destruct m; simpl; by rewrite ?Nat.add_1_r, ?Nat.add_succ_r, ?Nat.add_0_r.
    + assert (m = 0) as -> by lia. simpl.
      by rewrite !app_nil_r, !Nat.add_0_r, graph_eta.
Qed.

Lemma normalizeEdge_closed g dc ed :
  normalizeEdge (g, dc) ed
  = match isLong g ed with
    | Some (rs, rt) =>
      let k := dummiesBetween rs rt in
      (mkGraph (nodes g ++ chainNodes k ed (edgeValue g ed) dc (rs + 1)%Z 0 rt)
         (filter (λ e, eid e ≠ eid ed)
            (edges g ++ chainEdges ed k dc (nextId g) (length (values g))))
         (values g ++ replicate (S k) emptyValue)
         (nextId g + S k),
       dc + k)
    | None => (g, dc)
    end.
Proof.
  unfold normalizeEdge, isLong.
  destruct (rankOf g (esource ed)) as [rs|]; [|done].
  destruct (rankOf g (etarget ed)) as [rt|]; [|done].
  destruct (Z.ltb_spec (rs + 1) rt) as [Hlt|Hge]; [|done].
  rewrite (normalizeChain_closed _ (dummiesBetween rs rt))
    by (unfold dummiesBetween; lia).
  unfold addEdgeEmpty, newValue, addEdge, delEdge, chainEdges. simpl.
  rewrite length_app, length_replicate, <- !app_assoc.
  rewrite ?Nat.add_1_r, ?Nat.add_succ_r, ?Nat.add_0_r.
  change (emptyValue :: replicate (dummiesBetween rs rt) emptyValue)
    with (replicate (S (dummiesBetween rs rt)) emptyValue).
  by rewrite replicate_S_end.
Qed.

Lemma filter_all {A} (P : A → Prop) `{∀ x, Decision (P x)} (l : list A) :
  Forall P l → filter P l = l.
Proof.
  induction 1 as [|x l Hx _ IH]; [done|].
  by rewrite filter_cons_True, IH.
Qed.

Lemma rankOf_ext g0 g u :
  (∃ X, nodes g = nodes g0 ++ X) → u ∈ nodeIds g0 → rankOf g u = rankOf g0 u.
Proof.
  intros [X HX] Hu. unfold rankOf, node. rewrite HX, assoc_app.
  by destruct (is_Some_assoc (nodes g0) u Hu) as [a ->].
Qed.

Lemma isLong_ext g0 g ed :
  (∃ X, nodes g = nodes g0 ++ X) →
  esource ed ∈ nodeIds g0 → etarget ed ∈ nodeIds g0 →
  isLong g ed = isLong g0 ed.
Proof.
  intros HX Hs Ht. unfold isLong.
  by rewrite (rankOf_ext g0 g _ HX Hs), (rankOf_ext g0 g _ HX Ht).
Qed.

Lemma edgeValue_ext g0 g ed :
  (∃ n, values g = values g0 ++ replicate n emptyValue) →
  edgeValue g ed = edgeValue g0 ed.
Proof.
  intros [n Hn]. unfold edgeValue. rewrite Hn.
  destruct (decide (evalue ed < length (values g0))) as [Hlt|Hge].
  - by rewrite lookup_app_l.
  - rewrite lookup_app_r, (lookup_ge_None_2 (values g0)) by lia. simpl.
    destruct (replicate n emptyValue !! _) as [a|] eqn:Ha; [|done].
    by apply lookup_replicate in Ha as [-> _].
Qed.

Lemma chainLinks_fresh m u dc nid vlen ed :
  ed ∈ chainLinks m u dc nid vlen → ∃ n, nid < n ≤ nid + m ∧ eid ed = autoId n.
Proof.
  revert u dc nid vlen. induction m as [|m IH]; intros u dc nid vlen; simpl.
  - by intros []%elem_of_nil.
  - intros [->|Hin]%elem_of_cons.
    + exists (S nid). simpl. split; [lia|done].
    + destruct (IH _ _ _ _ Hin) as (n & Hn & ->). exists n. split; [lia|done].
Qed.

Lemma chainEdges_fresh e k dc nid vlen ed :
  ed ∈ chainEdges e k dc nid vlen → ∃ n, nid < n ≤ nid + S k ∧ eid ed = autoId n.
Proof.
  unfold chainEdges. intros [Hin| ->%list_elem_of_singleton]%elem_of_app.
  - destruct (chainLinks_fresh _ _ _ _ _ _ Hin) as (n & Hn & ->).
    exists n. split; [lia|done].
  - exists (S (nid + k)). simpl. split; [lia|done].
Qed.

Lemma planEdges_fresh g0 es dc nid vlen ed :
  ed ∈ planEdges g0 es dc nid vlen →
  ∃ n, nid < n ≤ nid + planSize g0 es ∧ eid ed = autoId n.
Proof.
  revert dc nid vlen. induction es as [|e es IH]; intros dc nid vlen; simpl.
  - by intros []%elem_of_nil.
  - destruct (isLong g0 e) as [[rs rt]|]; [|intros Hin; by apply IH in Hin].
    intros [Hin|Hin]%elem_of_app.
    + destruct (chainEdges_fresh _ _ _ _ _ _ Hin) as (n & Hn & ->).
      exists n. split; [lia|done].
    + destruct (IH _ _ _ Hin) as (n & Hn & ->). exists n. split; [lia|done].
Qed.

Lemma longIds_cons g0 ed es :
  longIds g0 (ed :: es)
  = match isLong g0 ed with
    | Some _ => eid ed :: longIds g0 es
    | None => longIds g0 es
    end.
Proof.
  unfold longIds. destruct (isLong g0 ed) as [p|] eqn:Hl.
  - rewrite filter_cons_True by (rewrite Hl; eauto). done.
  - rewrite filter_cons_False; [done|]. rewrite Hl. by intros [? [=]].
Qed.

Lemma longIds_elem g0 es i :
  i ∈ longIds g0 es → ∃ ed, ed ∈ es ∧ eid ed = i ∧ is_Some (isLong g0 ed).
Proof.
  unfold longIds. intros (ed & -> & [Hl Hin]%list_elem_of_filter)%list_elem_of_fmap.
  by exists ed.
Qed.

Lemma normalize_fold_closed g0 es g dc :
  (∃ X, nodes g = nodes g0 ++ X) →
  (∃ n, values g = values g0 ++ replicate n emptyValue) →
  nextId g0 ≤ nextId g →
  (∀ ed, ed ∈ es → esource ed ∈ nodeIds g0 ∧ etarget ed ∈ nodeIds g0) →
  (∀ ed n, ed ∈ es → nextId g0 < n → eid ed ≠ autoId n) →
  fold_left normalizeEdge es (g, dc)
  = (mkGraph (nodes g ++ planNodes g0 es dc)
       (filter (λ e, eid e ∉ longIds g0 es) (edges g)
        ++ planEdges g0 es dc (nextId g) (length (values g)))
       (values g ++ replicate (planSize g0 es) emptyValue)
       (nextId g + planSize g0 es),
     dc + planDummies g0 es).
Proof.
  revert g dc. induction es as [|ed es IH]; intros g dc HX HV Hnid Hclosed Hbound.
  - simpl. rewrite !app_nil_r, !Nat.add_0_r.
    rewrite filter_all by (apply Forall_forall; intros ?? []%elem_of_nil).
    by rewrite graph_eta.
  - change (fold_left normalizeEdge (ed :: es) (g, dc))
      with (fold_left normalizeEdge es (normalizeEdge (g, dc) ed)).
    rewrite normalizeEdge_closed.
    destruct (Hclosed ed ltac:(by left)) as [Hs Ht].
    rewrite (isLong_ext g0 g ed HX Hs Ht), longIds_cons.
    destruct (isLong g0 ed) as [[rs rt]|] eqn:Hlong.
    + cbn [planNodes planEdges planSize planDummies]. rewrite Hlong.
      cbv zeta. set (k := dummiesBetween rs rt).
      rewrite (edgeValue_ext g0 g ed HV).
      rewrite IH; cbn [nodes edges values nextId].
      * rewrite length_app, length_replicate, <- !app_assoc.
        rewrite replicate_add, !Nat.add_assoc.
        assert (filter (λ e, eid e ∉ longIds g0 es)
                  (filter (λ e, eid e ≠ eid ed)
                     (edges g ++ chainEdges ed k dc (nextId g) (length (values g))))
                = filter (λ e, eid e ∉ eid ed :: longIds g0 es) (edges g)
                  ++ chainEdges ed k dc (nextId g) (length (values g))) as Hedges.
        2:{ rewrite Hedges, <- app_assoc. done. }
        rewrite !filter_app. f_equal.
        -- rewrite list_filter_filter. apply filter_ext_elem.
           intros e _. rewrite not_elem_of_cons. tauto.
        -- rewrite (filter_all (λ e, eid e ≠ eid ed)).
           ++ apply filter_all, Forall_forall. intros e He.
              destruct (chainEdges_fresh _ _ _ _ _ _ He) as (n & Hn & ->).
              intros (ed' & Hed' & Heq & _)%longIds_elem.
              apply (Hbound ed' n); [by right | lia | done].
           ++ apply Forall_forall. intros e He.
              destruct (chainEdges_fresh _ _ _ _ _ _ He) as (n & Hn & ->).
              intros Heq. apply (Hbound ed n); [by left | lia | done].
      * destruct HX as [X ->]. exists (X ++ chainNodes k ed (edgeValue g0 ed) dc (rs + 1) 0 rt).
        by rewrite app_assoc.
      * destruct HV as [n ->]. exists (n + S k). by rewrite replicate_add, app_assoc.
      * lia.
      * intros e He. apply Hclosed. by right.
      * intros e n He. apply Hbound. by right.
    + cbn [planNodes planEdges planSize planDummies]. rewrite Hlong.
      apply IH; try done.
      * intros e He. apply Hclosed. by right.
      * intros e n He. apply Hbound. by right.
Qed.

Lemma normalize_closed g :
  wfGraph g →
  normalize g
  = mkGraph (nodes g ++ planNodes g (edges g) 0)
      (filter (λ e, eid e ∉ longIds g (edges g)) (edges g)
       ++ planEdges g (edges g) 0 (nextId g) (length (values g)))
      (values g ++ replicate (planSize g (edges g)) emptyValue)
      (nextId g + planSize g (edges g)).
Proof.
  intros (Hnd & Hbound & Hclosed & Huser). unfold normalize.
  rewrite (normalize_fold_closed g); [done| | |done| |done].
  - exists []. by rewrite app_nil_r.
  - exists 0. by rewrite app_nil_r.
  - by apply Forall_forall.
Qed.

Lemma dummyName_inj n m : dummyName n = dummyName m → n = m.
Proof. unfold dummyName. simpl. intros [= H]. by apply (inj pretty). Qed.

Lemma dummyName_prefix n : String.prefix "_D" (dummyName n) = true.
Proof. unfold dummyName. simpl. by destruct (pretty n). Qed.

Lemma chainNodes_keys m ed a dc rank i targetRank :
  (chainNodes m ed a dc rank i targetRank).*1 = dummyName <$> seq (S dc) m.
Proof.
  revert dc rank i. induction m as [|m IH]; intros dc rank i; [done|].
  csimpl. by rewrite IH.
Qed.

Lemma planNodes_keys g0 es dc :
  (planNodes g0 es dc).*1 = dummyName <$> seq (S dc) (planDummies g0 es).
Proof.
  revert dc. induction es as [|ed es IH]; intros dc; [done|]. simpl.
  destruct (isLong g0 ed) as [[rs rt]|]; [|done].
  rewrite fmap_app, chainNodes_keys, IH, seq_app, fmap_app. done.
Qed.

Lemma chainNodes_lookup m ed a dc rank i targetRank j :
  j < m →
  chainNodes m ed a dc rank i targetRank !! j
  = Some (dummyName (S dc + j),
          dummyNode ed a (rank + Z.of_nat j) (i + j) targetRank).
Proof.
  revert dc rank i j. induction m as [|m IH]; intros dc rank i j Hj; [lia|].
  destruct j as [|j].
  - simpl. by rewrite !Nat.add_0_r, Z.add_0_r.
  - cbn [chainNodes lookup list_lookup]. rewrite IH by lia.
    replace (S (S dc) + j) with (S dc + S j) by lia.
    replace (rank + 1 + Z.of_nat j)%Z with (rank + Z.of_nat (S j))%Z by lia.
    by replace (S i + j) with (i + S j) by lia.
Qed.

Lemma isChain_mono es es' u ds t :
  (∀ ed, ed ∈ es → ed ∈ es') → isChain es u ds t → isChain es' u ds t.
Proof.
  intros Hsub. revert u. induction ds as [|d ds IH]; intros u; simpl.
  - intros (ed & Hin & ? & ?). exists ed. auto.
  - intros [(ed & Hin & ? & ?) Hc]. split; [exists ed; auto | by apply IH].
Qed.

Lemma chainLinks_isChain m u dc nid vlen i t r :
  isChain (chainLinks m u dc nid vlen ++ [mkEdge i (chainEnd m u dc) t r])
    u (dummyName <$> seq (S dc) m) t.
Proof.
  revert u dc nid vlen. induction m as [|m IH]; intros u dc nid vlen; simpl.
  - eexists. split; [by left|done].
  - split.
    + eexists. split; [by left|done].
    + assert (chainEnd (S m) u dc = chainEnd m (dummyName (S dc)) (S dc)) as Hend.
      { destruct m; simpl; f_equal; lia. }
      change (dummyName (dc + S m)) with (chainEnd (S m) u dc). rewrite Hend.
      eapply isChain_mono; [|apply IH]. intros ed Hed. by right.
Qed.

Lemma plan_locate g0 es dc nid vlen ed rs rt :
  ed ∈ es → isLong g0 ed = Some (rs, rt) →
  ∃ dc' nid' vlen',
    (∀ x, x ∈ chainNodes (dummiesBetween rs rt) ed (edgeValue g0 ed) dc' (rs + 1) 0 rt →
          x ∈ planNodes g0 es dc) ∧
    (∀ x, x ∈ chainEdges ed (dummiesBetween rs rt) dc' nid' vlen' →
          x ∈ planEdges g0 es dc nid vlen).
Proof.
  intros Hin Hlong. revert dc nid vlen.
  induction es as [|e es IH]; intros dc nid vlen; [by apply elem_of_nil in Hin|].
  apply elem_of_cons in Hin as [<-|Hin]; simpl.
  - rewrite Hlong. exists dc, nid, vlen. split; intros x Hx; apply elem_of_app; by left.
  - destruct (isLong g0 e) as [[rs' rt']|]; [|by apply IH].
    destruct (IH Hin (dc + dummiesBetween rs' rt') (nid + S (dummiesBetween rs' rt'))
                (vlen + S (dummiesBetween rs' rt'))) as (dc' & nid' & vlen' & Hn & He).
    exists dc', nid', vlen'. split; intros x Hx; apply elem_of_app; right; auto.
Qed.

Lemma hasEdge_false g i : i ∉ edgeIds g → hasEdge g i = false.
Proof.
  intros Hi. unfold hasEdge, edgeById.
  destruct (find _ (edges g)) as [ed|] eqn:Hf; [|done].
  apply find_some in Hf as [Hin Heq]. apply String.eqb_eq in Heq.
  exfalso. apply Hi. apply list_elem_of_fmap. exists ed. by rewrite list_elem_of_In.
Qed.

Lemma edge_by_id g ed ed' :
  NoDup (edgeIds g) → ed ∈ edges g → ed' ∈ edges g → eid ed = eid ed' → ed = ed'.
Proof.
  unfold edgeIds. intros Hnd. induction (edges g) as [|e es IH]; [by intros []%elem_of_nil|].
  csimpl in Hnd. apply NoDup_cons in Hnd as [He Hnd].
  intros [->|Hin]%elem_of_cons [->|Hin']%elem_of_cons Heq; [done| | |by apply IH].
  - exfalso. apply He. apply list_elem_of_fmap. by exists ed'.
  - exfalso. apply He. apply list_elem_of_fmap. by exists ed.
Qed.

(** C4. On a well-formed graph, [normalize] replaces every edge [(s,t)]
    with [rank(t) − rank(s) > 1] by a chain [s → d1 → … → dk → t] of
    exactly [rank(t) − rank(s) − 1] new dummy nodes, placed at the ranks
    [rank(s) + 1, …, rank(t) − 1], and the graph no longer has the
    original edge; an edge that spans one rank (or less) is still in the
    graph, and the nodes of the graph keep their values. *)
Theorem normalize_chains g :
  wfGraph g →
  (∀ ed rs rt,
     ed ∈ edges g →
     rankOf g (esource ed) = Some rs → rankOf g (etarget ed) = Some rt →
     (rt - rs > 1)%Z →
     hasEdge (normalize g) (eid ed) = false ∧
     ∃ ds, length ds = Z.to_nat (rt - rs - 1) ∧ NoDup ds ∧
       isChain (edges (normalize g)) (esource ed) ds (etarget ed) ∧
       ∀ j d, ds !! j = Some d →
         (d ∉ nodeIds g) ∧
         ∃ a, node (normalize g) d = Some a ∧ nv_dummy a = true ∧
              nv_rank a = Some (rs + 1 + Z.of_nat j)%Z)
  ∧ (∀ ed rs rt,
       ed ∈ edges g →
       rankOf g (esource ed) = Some rs → rankOf g (etarget ed) = Some rt →
       (rt - rs ≤ 1)%Z →
       ed ∈ edges (normalize g))
  ∧ (∀ u, u ∈ nodeIds g → node (normalize g) u = node g u).
Proof.
  intros Hwf. rewrite (normalize_closed g Hwf).
  destruct Hwf as (Hnd & Hbound & Hclosed & Huser). split_and!.
  - intros ed rs rt Hin Hrs Hrt Hspan.
    assert (isLong g ed = Some (rs, rt)) as Hlong.
    { unfold isLong. rewrite Hrs, Hrt.
      by destruct (Z.ltb_spec (rs + 1) rt); [|lia]. }
    split.
    + apply hasEdge_false. unfold edgeIds. cbn [edges].
      intros (e' & Heq & [[Hnl _]%list_elem_of_filter|Hpl]%elem_of_app)%list_elem_of_fmap.
      * apply Hnl. rewrite <- Heq. unfold longIds. apply list_elem_of_fmap.
        exists ed. split; [done|]. apply list_elem_of_filter. split; [|done].
        rewrite Hlong. eauto.
      * destruct (planEdges_fresh _ _ _ _ _ _ Hpl) as (n & Hn & Hid).
        apply (Hbound ed n Hin); [lia|congruence].
    + destruct (plan_locate g (edges g) 0 (nextId g) (length (values g)) ed rs rt
                  Hin Hlong) as (dc & nid & vlen & Hnodes & Hedges).
      set (k := dummiesBetween rs rt) in *.
      exists (dummyName <$> seq (S dc) k). split_and!.
      * by rewrite length_fmap, length_seq.
      * apply NoDup_fmap_2; [intros ??; apply dummyName_inj | apply NoDup_seq].
      * cbn [edges]. eapply isChain_mono; [|apply chainLinks_isChain].
        intros x Hx. apply elem_of_app. right. apply Hedges. exact Hx.
      * intros j d Hd. rewrite list_lookup_fmap in Hd.
        destruct (seq (S dc) k !! j) as [n|] eqn:Hn; [|done].
        apply lookup_seq in Hn as [-> Hj]. simpl in Hd. injection Hd as <-.
        assert (dummyName (S dc + j) ∉ nodeIds g) as Hfresh.
        { intros Hd. rewrite Forall_forall in Huser. specialize (Huser _ Hd).
          by rewrite dummyName_prefix in Huser. }
        split; [done|].
        exists (dummyNode ed (edgeValue g ed) (rs + 1 + Z.of_nat j) j rt).
        split; [|done].
        unfold node. cbn [nodes]. rewrite assoc_app.
        apply assoc_None in Hfresh.
        change (S dc + j) with (S (dc + j)) in Hfresh. rewrite Hfresh.
        apply assoc_NoDup.
        -- rewrite planNodes_keys.
           apply NoDup_fmap_2; [intros ??; apply dummyName_inj | apply NoDup_seq].
        -- apply Hnodes. eapply list_elem_of_lookup_2.
           by rewrite chainNodes_lookup.
  - intros ed rs rt Hin Hrs Hrt Hspan. cbn [edges].
    apply elem_of_app. left. apply list_elem_of_filter. split; [|done].
    intros (e' & Hin' & Heq & [p Hl])%longIds_elem.
    rewrite (edge_by_id g e' ed Hnd Hin' Hin Heq) in Hl.
    unfold isLong in Hl. rewrite Hrs, Hrt in Hl.
    by destruct (Z.ltb_spec (rs + 1) rt); [lia|].
  - intros u Hu. unfold node. cbn [nodes]. rewrite assoc_app.
    by destruct (is_Some_assoc (nodes g) u Hu) as [a ->].
Qed.

(** [rankedEdge] is what the pipeline makes of [oneEdge]: [run] doubles
    the [minLen] of the edge, and the rank phase puts [b] that many ranks
    below [a]. *)
Lemma rankedEdge_pipeline :
  rankedPipeline (oneEdge 1) = Ok (rankedEdge 2)
  ∧ rankedPipeline (oneEdge 2) = Ok (rankedEdge 4).
Proof. split; vm_compute; reflexivity. Qed.

Lemma rankedEdge_wfGraph rank : wfGraph (rankedEdge rank).
Proof.
  split_and!.
  - apply (NoDup_singleton "_1").
  - intros ed n ->%list_elem_of_singleton Hn Heq. cbn in Hn, Heq.
    change "_1" with (autoId 1) in Heq. apply autoId_inj in Heq. lia.
  - repeat constructor; cbn; apply list_elem_of_In; cbn; tauto.
  - by repeat constructor.
Qed.

Lemma normalize_chains_witness :
  wfGraph (rankedEdge 3) ∧
  hasEdge (normalize (rankedEdge 3)) "_1" = false ∧
  ∃ ds, length ds = 2 ∧ isChain (edges (normalize (rankedEdge 3))) "a" ds "b".
Proof.
  split; [apply rankedEdge_wfGraph|].
  destruct (normalize_chains (rankedEdge 3) (rankedEdge_wfGraph 3)) as [Hlong _].
  destruct (Hlong (mkEdge "_1" "a" "b" 0) 0%Z 3%Z) as (Hgone & ds & Hlen & _ & Hchain & _).
  - apply list_elem_of_singleton. reflexivity.
  - reflexivity.
  - reflexivity.
  - lia.
  - split; [exact Hgone|]. exists ds. split; [exact Hlen | exact Hchain].
Defined.


(** ** [undoNormalize] *)

Lemma arraySet_length points i p :
  length (arraySet points i p) = length points `max` S i.
Proof.
  unfold arraySet. case_decide.
  - rewrite length_insert. lia.
  - rewrite !length_app, length_replicate. simpl. lia.
Qed.

Lemma topIndex_ge r l ua : ua ∈ l → written r ua ≤ topIndex r l.
Proof.
  induction l as [|x l IH]; [by intros ?%elem_of_nil|].
  intros [->|Hin]%elem_of_cons; simpl; [lia|]. specialize (IH Hin). lia.
Qed.

Lemma topIndex_le r l n : (∀ ua, ua ∈ l → written r ua ≤ n) → topIndex r l ≤ n.
Proof.
  induction l as [|x l IH]; intros H; simpl; [lia|].
  pose proof (H x ltac:(by left)).
  assert (topIndex r l ≤ n) by (apply IH; intros ua Hua; apply H; by right).
  lia.
Qed.

Lemma edgeById_Some h i x : edgeById h i = Some x → x ∈ edges h ∧ eid x = i.
Proof.
  unfold edgeById. intros [Hin Heq]%find_some.
  split; [by apply list_elem_of_In|by apply String.eqb_eq].
Qed.

Lemma edgeById_None h i x : edgeById h i = None → x ∈ edges h → eid x ≠ i.
Proof.
  unfold edgeById. intros Hnone Hin%list_elem_of_In Heq.
  pose proof (find_none _ _ Hnone x Hin) as Hx. simpl in Hx.
  apply String.eqb_neq in Hx. done.
Qed.

Lemma ptsLen_alter vs r r' points points' :
  vs !! r ≫= ev_points = Some points →
  ptsLen (alter (set_points (Some points')) r vs) r'
  = if decide (r = r') then length points' else ptsLen vs r'.
Proof.
  intros Hp. unfold ptsLen. case_decide as Hr.
  - subst r'. destruct (vs !! r) as [v|] eqn:Hv; [|done].
    rewrite list_lookup_alter, Hv, decide_True by done. reflexivity.
  - by rewrite list_lookup_alter_ne.
Qed.


Lemma refOf_inj ed ed' : refOf ed = refOf ed' → ed = ed'.
Proof. destruct ed, ed'. unfold refOf. simpl. by intros [= -> -> -> ->]. Qed.

Lemma undoNormalizeNode_step g h ua :
  wfGraph g → undoInv g h → okNode g ua →
  ∃ h', undoNormalizeNode h ua = Ok h' ∧ undoInv g h' ∧
    (∀ r, ptsLen (values h') r = ptsLen (values h) r `max` written r ua) ∧
    (∀ ed, ed ∈ edges g → ed ∈ edges h → ed ∈ edges h') ∧
    (∀ ed, nv_dummy ua.2 = true → is_Some (nv_index ua.2) →
           nv_edge ua.2 = Some (refOf ed) → ed ∈ edges g → ed ∈ edges h').
Proof.
  intros (Hnd & _ & Hclosed & _) [Hid Hpts] Hok. destruct ua as [u a].
  unfold okNode in Hok. unfold undoNormalizeNode, written. simpl in *.
  destruct (nv_dummy a) eqn:Hd; cycle 1.
  { exists h. split_and!; try done. intros r. lia. }
  destruct (nv_index a) as [i|] eqn:Hi; cycle 1.
  { exists h. split_and!; try done. intros r. lia. }
  destruct (Hok eq_refl) as (Hu & e & He & Href). rewrite Href.
  cbn [refOf ref_id ref_source ref_target ref_attrs].
  set (g1 := if hasEdge h (eid e) then h
             else addEdgeAs h (eid e) (esource e) (etarget e) (evalue e)).
  assert (e ∈ edges g1 ∧ values g1 = values h ∧
          (∀ x ed, x ∈ edges g1 → ed ∈ edges g → eid x = eid ed → x = ed) ∧
          (∀ ed, ed ∈ edges h → ed ∈ edges g1)) as (He1 & Hv1 & Hid1 & Hmono).
  { unfold g1, hasEdge. destruct (edgeById h (eid e)) as [x|] eqn:Hf.
    - apply edgeById_Some in Hf as [Hin Heq].
      rewrite (Hid _ _ Hin He Heq) in Hin. done.
    - assert (mkEdge (eid e) (esource e) (etarget e) (evalue e) = e) as Heta
        by by destruct e.
      cbn [edges values addEdgeAs]. rewrite Heta. split_and!; [|done| |].
      + apply elem_of_app. right. by apply list_elem_of_singleton.
      + intros x ed [Hx| ->%list_elem_of_singleton]%elem_of_app Hed Heq.
        * by apply Hid.
        * by apply (edge_by_id g).
      + intros ed Hed. apply elem_of_app. by left. }
  assert (edgeById g1 (eid e) = Some e) as ->.
  { destruct (edgeById g1 (eid e)) as [x|] eqn:Hf.
    - apply edgeById_Some in Hf as [Hin Heq]. by rewrite (Hid1 _ _ Hin He Heq).
    - by destruct (edgeById_None _ _ _ Hf He1). }
  destruct (Hpts e He) as [points Hp].
  assert (ev_points (edgeValue g1 e) = Some points) as ->.
  { unfold edgeValue. rewrite Hv1. by destruct (values h !! evalue e). }
  eexists. split; [reflexivity|].
  rewrite Forall_forall in Hclosed.
  unfold undoInv. cbn [delNode updValue edges values nodes]. rewrite Hv1.
  split_and!.
  - intros x ed [_ Hx]%list_elem_of_filter. by apply Hid1.
  - intros ed Hed. destruct (Hpts ed Hed) as [q Hq].
    destruct (decide (evalue e = evalue ed)) as [Heq|Hne].
    + rewrite <- Heq. rewrite list_lookup_alter, decide_True by done.
      destruct (values h !! evalue e); [|done]. by eexists.
    + rewrite list_lookup_alter_ne by done. by eexists.
  - intros r. rewrite (ptsLen_alter _ _ _ points) by done.
    rewrite arraySet_length. case_decide as Hr.
    + subst r. unfold ptsLen. rewrite Hp. reflexivity.
    + lia.
  - intros ed Hed Hin. apply list_elem_of_filter.
    destruct (Hclosed ed Hed) as [Hs Ht].
    split; [|by apply Hmono]. split; intros Heq; apply Hu; congruence.
  - intros ed _ _ Hr Hed.
    assert (e = ed) as <- by (apply refOf_inj; congruence).
    apply list_elem_of_filter.
    destruct (Hclosed e He) as [Hs Ht].
    split; [|done]. split; intros Heq; apply Hu; congruence.
Qed.


Lemma undoNormalize_fold g l :
  wfGraph g → Forall (okNode g) l → ∀ h, undoInv g h →
  ∃ h', foldR undoNormalizeNode l h = Ok h' ∧ undoInv g h' ∧
    (∀ r, ptsLen (values h') r = ptsLen (values h) r `max` topIndex r l) ∧
    (∀ ed, ed ∈ edges g → ed ∈ edges h → ed ∈ edges h') ∧
    (∀ ua ed, ua ∈ l → nv_dummy ua.2 = true → is_Some (nv_index ua.2) →
              nv_edge ua.2 = Some (refOf ed) → ed ∈ edges g → ed ∈ edges h').
Proof.
  intros Hwf. induction l as [|ua l IH]; intros Hok h Hinv.
  - exists h. split_and!; try done.
    + intros r. simpl. lia.
    + by intros ua ed ?%elem_of_nil.
  - apply Forall_cons in Hok as [Hua Hok].
    destruct (undoNormalizeNode_step g h ua Hwf Hinv Hua)
      as (h1 & Hstep & Hinv1 & Hlen1 & Hmono1 & Hadd1).
    destruct (IH Hok h1 Hinv1) as (h' & Hfold & Hinv' & Hlen & Hmono & Hadd).
    exists h'. cbn [foldR]. rewrite Hstep. split_and!; try done.
    + intros r. rewrite Hlen, Hlen1. simpl. lia.
    + intros ed Hed Hin. auto.
    + intros x ed [->|Hx]%elem_of_cons Hd Hi Hr Hed.
      * apply Hmono; [done|]. by apply Hadd1.
      * by apply (Hadd x).
Qed.


Lemma chainNodes_elem m ed a dc rank i targetRank x :
  x ∈ chainNodes m ed a dc rank i targetRank →
  ∃ j, j < m ∧
       x = (dummyName (S dc + j), dummyNode ed a (rank + Z.of_nat j) (i + j) targetRank).
Proof.
  intros [j Hj]%list_elem_of_lookup_1.
  assert (j < m) as Hlt.
  { apply lookup_lt_Some in Hj.
    rewrite <- (length_fmap fst), chainNodes_keys, length_fmap, length_seq in Hj.
    done. }
  exists j. split; [done|]. rewrite chainNodes_lookup in Hj by done. congruence.
Qed.

Lemma planNodes_elem g0 es dc x :
  x ∈ planNodes g0 es dc →
  ∃ ed rs rt j n,
    ed ∈ es ∧ isLong g0 ed = Some (rs, rt) ∧ j < dummiesBetween rs rt ∧
    x = (dummyName n, dummyNode ed (edgeValue g0 ed) (rs + 1 + Z.of_nat j) j rt).
Proof.
  revert dc. induction es as [|e es IH]; intros dc; simpl.
  - by intros ?%elem_of_nil.
  - destruct (isLong g0 e) as [[rs rt]|] eqn:Hlong.
    + intros [Hx|Hx]%elem_of_app.
      * apply chainNodes_elem in Hx as (j & Hj & ->).
        exists e, rs, rt, j, (S dc + j). split_and!; try done. by left.
      * destruct (IH _ Hx) as (ed & rs' & rt' & j & n & Hin & Hl & Hj & ->).
        exists ed, rs', rt', j, n. split_and!; try done. by right.
    + intros Hx. destruct (IH _ Hx) as (ed & rs' & rt' & j & n & Hin & Hl & Hj & ->).
      exists ed, rs', rt', j, n. split_and!; try done. by right.
Qed.

(** The index of a dummy node, by its rank. *)
Lemma dummyNode_index ed a rs rt j :
  j < dummiesBetween rs rt →
  nv_index (dummyNode ed a (rs + 1 + Z.of_nat j) j rt)
  = dummyIndex rs rt (rs + 1 + Z.of_nat j).
Proof.
  unfold dummiesBetween, dummyIndex. intros Hj. cbn [dummyNode nv_index].
  destruct j as [|j].
  - simpl. by rewrite Z.add_0_r, Z.eqb_refl.
  - cbn [Nat.eqb]. destruct (Z.eqb_spec (rs + 1 + Z.of_nat (S j)) (rs + 1)); [lia|].
    destruct (Z.eqb_spec (rs + 1 + Z.of_nat (S j) + 1) rt);
      destruct (Z.eqb_spec (rs + 1 + Z.of_nat (S j)) (rt - 1)); try done; lia.
Qed.


Lemma edge_by_value (es : list Edge) ed ed' :
  NoDup (evalue <$> es) → ed ∈ es → ed' ∈ es → evalue ed = evalue ed' → ed = ed'.
Proof.
  intros Hnd. induction es as [|e es IH]; [by intros []%elem_of_nil|].
  csimpl in Hnd. apply NoDup_cons in Hnd as [He Hnd].
  intros [->|Hin]%elem_of_cons [->|Hin']%elem_of_cons Heq; [done| | |by apply IH].
  - exfalso. apply He. apply list_elem_of_fmap. by exists ed'.
  - exfalso. apply He. apply list_elem_of_fmap. by exists ed.
Qed.

Lemma isLong_span g ed rs rt : isLong g ed = Some (rs, rt) → 0 < dummiesBetween rs rt.
Proof.
  unfold isLong, dummiesBetween.
  destruct (rankOf g (esource ed)) as [r1|]; [|done].
  destruct (rankOf g (etarget ed)) as [r2|]; [|done].
  destruct (Z.ltb_spec (r1 + 1) r2); [|done]. intros [= <- <-]. lia.
Qed.

(** The order and position phases leave alone what [undoNormalize]
    reads of a node, but for the coordinates. *)
Lemma placed_nodes os ps n :
  ∃ f : NodeId * NodeValue → NodeValue,
    nodes (withPositions ps (withOrder os n)) = (λ p, (p.1, f p)) <$> nodes n ∧
    ∀ p, nv_dummy (f p) = nv_dummy p.2 ∧ nv_index (f p) = nv_index p.2 ∧
         nv_edge (f p) = nv_edge p.2.
Proof.
  exists (λ p, set_pos (default (nv_pos p.2) (assoc p.1 ps))
                 (set_order (from_option Some (nv_order p.2) (assoc p.1 os)) p.2)).
  split; [|done].
  unfold withPositions, withOrder. cbn [nodes]. rewrite map_map. reflexivity.
Qed.

Lemma written_ext r ua ua' :
  nv_dummy ua'.2 = nv_dummy ua.2 → nv_index ua'.2 = nv_index ua.2 →
  nv_edge ua'.2 = nv_edge ua.2 → written r ua' = written r ua.
Proof. unfold written. by intros -> -> ->. Qed.

Lemma topIndex_fmap r (f : NodeId * NodeValue → NodeValue) l :
  (∀ p, nv_dummy (f p) = nv_dummy p.2 ∧ nv_index (f p) = nv_index p.2 ∧
        nv_edge (f p) = nv_edge p.2) →
  topIndex r ((λ p, (p.1, f p)) <$> l) = topIndex r l.
Proof.
  intros Hf. induction l as [|p l IH]; [done|]. csimpl. rewrite IH.
  destruct (Hf p) as (Hd & Hi & He). by rewrite (written_ext r p (p.1, f p)).
Qed.

Lemma okNode_fmap g (f : NodeId * NodeValue → NodeValue) l :
  (∀ p, nv_dummy (f p) = nv_dummy p.2 ∧ nv_index (f p) = nv_index p.2 ∧
        nv_edge (f p) = nv_edge p.2) →
  Forall (okNode g) l → Forall (okNode g) ((λ p, (p.1, f p)) <$> l).
Proof.
  intros Hf Hl. apply Forall_fmap. eapply Forall_impl; [exact Hl|].
  intros p Hp. destruct (Hf p) as (Hd & Hi & He). unfold okNode in *. simpl.
  rewrite Hd, He. exact Hp.
Qed.


Lemma normalize_okNodes g :
  wfGraph g → Forall (λ p, nv_dummy p.2 = false) (nodes g) →
  Forall (okNode g) (nodes (normalize g)).
Proof.
  intros Hwf Hplain. rewrite (normalize_closed g Hwf). cbn [nodes].
  destruct Hwf as (_ & _ & _ & Huser). apply Forall_app. split.
  - eapply Forall_impl; [exact Hplain|]. intros p Hp. unfold okNode. by rewrite Hp.
  - apply Forall_forall. intros x Hx.
    apply planNodes_elem in Hx as (ed & rs & rt & j & n & Hin & _ & _ & ->).
    intros _. cbn [fst snd]. split.
    + intros Hn. rewrite Forall_forall in Huser. specialize (Huser _ Hn).
      by rewrite dummyName_prefix in Huser.
    + by exists ed.
Qed.

Lemma normalize_undoInv g h :
  wfGraph g →
  Forall (λ ed, ev_points (edgeValue g ed) = Some []) (edges g) →
  edges h = edges (normalize g) → values h = values (normalize g) →
  undoInv g h ∧ ∀ ed, ed ∈ edges g → ptsLen (values h) (evalue ed) = 0.
Proof.
  intros Hwf Hpts He Hvs. unfold undoInv. rewrite He, Hvs.
  rewrite (normalize_closed g Hwf). cbn [edges values]. clear He Hvs.
  destruct Hwf as (Hnd & Hbound & _ & _). rewrite Forall_forall in Hpts.
  assert (∀ ed, ed ∈ edges g →
            (values g ++ replicate (planSize g (edges g)) emptyValue) !! evalue ed
              ≫= ev_points = Some []) as Hlook.
  { intros ed Hed. specialize (Hpts ed Hed). unfold edgeValue in Hpts.
    destruct (values g !! evalue ed) as [v|] eqn:Hv; [|done].
    by rewrite (lookup_app_l_Some _ _ _ _ Hv). }
  split; [split|].
  - intros x ed [[_ Hx]%list_elem_of_filter|Hx]%elem_of_app Hed Heq.
    + by apply (edge_by_id g).
    + destruct (planEdges_fresh _ _ _ _ _ _ Hx) as (n & Hn & Hid).
      destruct (Hbound ed n Hed); [lia|congruence].
  - intros ed Hed. rewrite (Hlook ed Hed). by eexists.
  - intros ed Hed. unfold ptsLen. by rewrite (Hlook ed Hed).
Qed.

Lemma topIndex_plan g ed :
  wfGraph g → Forall (λ p, nv_dummy p.2 = false) (nodes g) →
  NoDup (evalue <$> edges g) → ed ∈ edges g →
  topIndex (evalue ed) (nodes (normalize g)) = pointsOf g ed.
Proof.
  intros Hwf Hplain Hrefs Hed. rewrite (normalize_closed g Hwf). cbn [nodes].
  apply Nat.le_antisymm.
  - apply topIndex_le. intros ua [Hua|Hua]%elem_of_app.
    + rewrite Forall_forall in Hplain. unfold written. rewrite (Hplain ua Hua). lia.
    + apply planNodes_elem in Hua as (e & rs & rt & j & n & Hin & Hlong & Hj & ->).
      unfold written. cbn [snd]. rewrite dummyNode_index by done.
      cbn [dummyNode nv_dummy nv_edge ref_attrs]. case_decide as Heq.
      * rewrite (edge_by_value (edges g) e ed Hrefs Hin Hed Heq) in Hlong.
        unfold pointsOf. rewrite Hlong. unfold dummyIndex, dummiesBetween in *.
        destruct (Z.eqb_spec (rs + 1 + Z.of_nat j) (rs + 1)); [lia|].
        destruct (Z.eqb_spec (rs + 1 + Z.of_nat j) (rt - 1)); lia.
      * destruct (dummyIndex rs rt (rs + 1 + Z.of_nat j)); lia.
  - unfold pointsOf. destruct (isLong g ed) as [[rs rt]|] eqn:Hlong; [|lia].
    pose proof (isLong_span g ed rs rt Hlong) as Hk.
    destruct (plan_locate g (edges g) 0 (nextId g) (length (values g)) ed rs rt
                Hed Hlong) as (dc & nid & vlen & Hnodes & _).
    set (k := dummiesBetween rs rt) in *.
    assert (∀ j, j < k →
              written (evalue ed)
                (dummyName (S dc + j),
                 dummyNode ed (edgeValue g ed) (rs + 1 + Z.of_nat j) j rt)
              ≤ topIndex (evalue ed) (nodes g ++ planNodes g (edges g) 0)) as Hge.
    { intros j Hj. apply topIndex_ge. apply elem_of_app. right. apply Hnodes.
      eapply list_elem_of_lookup_2. by rewrite chainNodes_lookup. }
    assert (∀ j, j < k →
              written (evalue ed)
                (dummyName (S dc + j),
                 dummyNode ed (edgeValue g ed) (rs + 1 + Z.of_nat j) j rt)
              = from_option S 0 (dummyIndex rs rt (rs + 1 + Z.of_nat j))) as Hw.
    { intros j Hj. unfold written. cbn [snd]. rewrite dummyNode_index by done.
      cbn [dummyNode nv_dummy nv_edge ref_attrs].
      destruct (dummyIndex rs rt (rs + 1 + Z.of_nat j)); [|done].
      by rewrite decide_True. }
    destruct (decide (k = 1)) as [Hk1|Hk1].
    + specialize (Hge 0 Hk). rewrite (Hw 0 Hk) in Hge.
      unfold dummyIndex in Hge. simpl in Hge.
      rewrite Z.add_0_r, Z.eqb_refl in Hge. simpl in Hge. lia.
    + assert (k - 1 < k) as Hlast by lia.
      specialize (Hge (k - 1) Hlast). rewrite (Hw (k - 1) Hlast) in Hge.
      unfold dummyIndex in Hge. subst k. unfold dummiesBetween in *.
      destruct (Z.eqb_spec (rs + 1 + Z.of_nat (Z.to_nat (rt - rs - 1) - 1)) (rs + 1));
        [lia|].
      destruct (Z.eqb_spec (rs + 1 + Z.of_nat (Z.to_nat (rt - rs - 1) - 1)) (rt - 1));
        [|lia].
      simpl in Hge. lia.
Qed.


Lemma normalize_keeps_short g ed :
  wfGraph g → ed ∈ edges g → isLong g ed = None → ed ∈ edges (normalize g).
Proof.
  intros Hwf Hin Hshort. rewrite (normalize_closed g Hwf). cbn [edges].
  destruct Hwf as (Hnd & _). apply elem_of_app. left.
  apply list_elem_of_filter. split; [|done].
  intros (e' & Hin' & Heq & [p Hl])%longIds_elem.
  rewrite (edge_by_id g e' ed Hnd Hin' Hin Heq) in Hl. congruence.
Qed.

Lemma edgeById_inv g h ed :
  undoInv g h → ed ∈ edges g → ed ∈ edges h → edgeById h (eid ed) = Some ed.
Proof.
  intros [Hid _] Hed Hin. destruct (edgeById h (eid ed)) as [x|] eqn:Hf.
  - apply edgeById_Some in Hf as [Hx Heq]. by rewrite (Hid _ _ Hx Hed Heq).
  - by destruct (edgeById_None _ _ _ Hf Hin).
Qed.

Lemma normalize_dummy g d a :
  wfGraph g → Forall (λ p, nv_dummy p.2 = false) (nodes g) →
  node (normalize g) d = Some a → nv_dummy a = true →
  ∃ ed rs rt r, ed ∈ edges g ∧ isLong g ed = Some (rs, rt) ∧
    nv_edge a = Some (refOf ed) ∧ nv_rank a = Some r ∧ (rs < r < rt)%Z ∧
    nv_index a = dummyIndex rs rt r.
Proof.
  intros Hwf Hplain Hnode Hd. apply assoc_elem in Hnode.
  rewrite (normalize_closed g Hwf) in Hnode. cbn [nodes] in Hnode.
  apply elem_of_app in Hnode as [Hin|Hin].
  { rewrite Forall_forall in Hplain. specialize (Hplain _ Hin). simpl in Hplain.
    congruence. }
  apply planNodes_elem in Hin as (ed & rs & rt & j & n & Hin & Hlong & Hj & [= -> ->]).
  exists ed, rs, rt, (rs + 1 + Z.of_nat j)%Z. split_and!; try done.
  - lia.
  - unfold dummiesBetween in Hj. lia.
  - by apply dummyNode_index.
Qed.


(** C5, amended. Let [g] be a well-formed ranked graph without dummy
    nodes, whose edges have value objects of their own with an empty
    [points] array.  In [normalize g] every dummy node stands for an edge
    of [g] from a rank [rs] to a rank [rt > rs + 1], lies at a rank [r]
    strictly between them and has the index [dummyIndex rs rt r]: 0 at
    rank [rs + 1]; 1 at rank [rt − 1] when that is another rank; none at
    the ranks in between.  Whatever order and coordinates the nodes are
    given, [undoNormalize] then returns a graph in which every edge of
    [g] is present and has as many points as it has indexed dummy nodes:
    [min(rt − rs − 1, 2)] for an edge that was split, none for an edge
    that spans one rank. *)
Theorem undoNormalize_points g os ps :
  wfGraph g →
  Forall (λ p, nv_dummy p.2 = false) (nodes g) →
  NoDup (evalue <$> edges g) →
  Forall (λ ed, ev_points (edgeValue g ed) = Some []) (edges g) →
  (∀ d a, node (normalize g) d = Some a → nv_dummy a = true →
     ∃ ed rs rt r, ed ∈ edges g ∧ isLong g ed = Some (rs, rt) ∧
       nv_edge a = Some (refOf ed) ∧ nv_rank a = Some r ∧ (rs < r < rt)%Z ∧
       nv_index a = dummyIndex rs rt r)
  ∧ ∃ g', undoNormalize (withPositions ps (withOrder os (normalize g))) = Ok g' ∧
      ∀ ed, ed ∈ edges g →
        pointsLength g' (eid ed) = Some (pointsOf g ed) ∧
        pointsOf g ed
        = match rankOf g (esource ed), rankOf g (etarget ed) with
          | Some rs, Some rt => Z.to_nat (Z.min (rt - rs - 1) 2)
          | _, _ => 0
          end.
Proof.
  intros Hwf Hplain Hrefs Hpts. split.
  { intros d a. by apply normalize_dummy. }
  set (G := withPositions ps (withOrder os (normalize g))).
  destruct (placed_nodes os ps (normalize g)) as (f & Hnodes & Hf).
  fold G in Hnodes.
  destruct (normalize_undoInv g G Hwf Hpts eq_refl eq_refl) as [Hinv Hzero].
  assert (Forall (okNode g) (nodes G)) as Hok.
  { rewrite Hnodes. apply okNode_fmap; [done|]. by apply normalize_okNodes. }
  destruct (undoNormalize_fold g (nodes G) Hwf Hok G Hinv)
    as (g' & Hfold & Hinv' & Hlen & Hmono & Hadd).
  exists g'. split; [exact Hfold|]. intros ed Hed. split; cycle 1.
  { unfold pointsOf, isLong, dummiesBetween.
    destruct (rankOf g (esource ed)) as [rs|]; [|done].
    destruct (rankOf g (etarget ed)) as [rt|]; [|done].
    destruct (Z.ltb_spec (rs + 1) rt); lia. }
  assert (ed ∈ edges g') as Hin.
  { destruct (isLong g ed) as [[rs rt]|] eqn:Hlong.
    - pose proof (isLong_span g ed rs rt Hlong) as Hk.
      destruct (plan_locate g (edges g) 0 (nextId g) (length (values g)) ed rs rt
                  Hed Hlong) as (dc & nid & vlen & Hchain & _).
      pose (p := (dummyName (S dc + 0),
                  dummyNode ed (edgeValue g ed) (rs + 1 + Z.of_nat 0) (0 + 0) rt)).
      destruct (Hf p) as (Hd & Hi & He).
      apply (Hadd (p.1, f p));
        [|simpl; by rewrite Hd|simpl; by rewrite Hi|simpl; by rewrite He|done].
      rewrite Hnodes. apply list_elem_of_fmap. exists p. split; [done|].
      rewrite (normalize_closed g Hwf). cbn [nodes]. apply elem_of_app. right.
      apply Hchain. eapply list_elem_of_lookup_2. by apply chainNodes_lookup.
    - apply Hmono; [done|]. by apply normalize_keeps_short. }
  unfold pointsLength. rewrite (edgeById_inv g g' ed Hinv' Hed Hin). simpl.
  destruct Hinv' as [_ Hsome]. destruct (Hsome ed Hed) as [points Hp].
  pose proof (Hlen (evalue ed)) as Hl. rewrite (Hzero ed Hed) in Hl.
  rewrite Hnodes, (topIndex_fmap _ f _ Hf), (topIndex_plan g ed) in Hl by done.
  unfold ptsLen in Hl. rewrite Hp in Hl. simpl in Hl.
  unfold edgeValue. destruct (values g' !! evalue ed) as [v|]; [|done].
  simpl in Hp. change (default emptyValue (Some v)) with v.
  rewrite Hp. simpl. f_equal. lia.
Qed.


Lemma undoNormalize_points_witness :
  wfGraph (rankedEdge 4) ∧
  ∃ g', undoNormalize (withPositions [] (withOrder [] (normalize (rankedEdge 4)))) = Ok g'
        ∧ pointsLength g' "_1" = Some 2.
Proof.
  split; [apply rankedEdge_wfGraph|].
  destruct (undoNormalize_points (rankedEdge 4) [] []) as [_ (g' & Hun & Hall)].
  - apply rankedEdge_wfGraph.
  - repeat constructor.
  - apply (NoDup_singleton 0).
  - repeat constructor.
  - exists g'. split; [exact Hun|].
    destruct (Hall (mkEdge "_1" "a" "b" 0)) as [Hp _].
    + apply list_elem_of_singleton. reflexivity.
    + exact Hp.
Defined.

(** C5, counterexample. The edge [a → b] of [rankedEdge 3] spans three
    ranks; [normalize] gives it the dummy nodes [_D1] with index 0 and
    [_D2] with index 1, and after [undoNormalize] it has the 2 points of
    these, not the [(3 − 1) + 2 = 4] of the formula.  And the one dummy
    node of the edge of [rankedEdge 2], which is the last of its chain,
    has index 0.  In the pipeline, the edge [a → b] of [minLen] 2 runs
    from rank 0 to rank 4 and comes back from [run] with 2 points. *)
Lemma undoNormalize_points_counterexample :
  ¬ (∀ g os ps g' ed rs rt,
       wfGraph g → ed ∈ edges g →
       rankOf g (esource ed) = Some rs → rankOf g (etarget ed) = Some rt →
       undoNormalize (withPositions ps (withOrder os (normalize g))) = Ok g' →
       pointsLength g' (eid ed) = Some (specPoints rs rt (tagged (normalize g) ed)))
  ∧ (dummies (normalize (rankedEdge 2)) = ["_D1"] ∧
     (node (normalize (rankedEdge 2)) "_D1" ≫= nv_index) = Some 0)
  ∧ (∃ out w', run simplePhases (oneEdge 2) world0 = (Ok out, w') ∧
       rankOf (graph out) "a" = Some 0%Z ∧ rankOf (graph out) "b" = Some 4%Z ∧
       pointsLength (graph out) "ab" = Some 2).
Proof.
  split; [|split; [split; vm_compute; reflexivity|]]; cycle 1.
  { destruct (run simplePhases (oneEdge 2) world0) as [[out|err] w'] eqn:Hrun;
      [|by vm_compute in Hrun].
    exists out, w'. split; [done|]. vm_compute in Hrun. injection Hrun as <- <-.
    split_and!; vm_compute; reflexivity. }
  intros H.
  destruct (undoNormalize (withPositions [] (withOrder [] (normalize (rankedEdge 3)))))
    as [g'|err] eqn:Hun; [|by vm_compute in Hun].
  specialize (H (rankedEdge 3) [] [] g' (mkEdge "_1" "a" "b" 0) 0%Z 3%Z
                (rankedEdge_wfGraph 3)).
  specialize (H ltac:(by apply list_elem_of_singleton) eq_refl eq_refl Hun).
  vm_compute in Hun. injection Hun as <-. vm_compute in H. discriminate.
Qed.


(** * Further properties of the pipeline *)

(** ** normalize: proper layering *)

Lemma isLong_ranks g ed rs rt :
  isLong g ed = Some (rs, rt) →
  rankOf g (esource ed) = Some rs ∧ rankOf g (etarget ed) = Some rt ∧
  rt = (rs + 1 + Z.of_nat (dummiesBetween rs rt))%Z.
Proof.
  unfold isLong, dummiesBetween.
  destruct (rankOf g (esource ed)) as [r1|]; [|done].
  destruct (rankOf g (etarget ed)) as [r2|]; [|done].
  destruct (Z.ltb_spec (r1 + 1) r2); [|done]. intros [= <- <-].
  split_and!; try done. lia.
Qed.

Lemma normalize_short g :
  (∀ ed, ed ∈ edges g → isLong g ed = None) → normalize g = g.
Proof.
  intros Hshort. unfold normalize.
  assert (∀ es, (∀ ed, ed ∈ es → isLong g ed = None) →
                fold_left normalizeEdge es (g, 0) = (g, 0)) as Hfold.
  { induction es as [|ed es IH]; intros Hes; [done|]. cbn [fold_left].
    rewrite normalizeEdge_closed, (Hes ed) by by left.
    apply IH. intros ed' Hed'. apply Hes. by right. }
  by rewrite Hfold.
Qed.

Lemma chainLinks_elem m u dc nid vlen x :
  x ∈ chainLinks m u dc nid vlen →
  ∃ j, j < m ∧
       esource x = match j with 0 => u | S _ => dummyName (dc + j) end ∧
       etarget x = dummyName (dc + S j).
Proof.
  revert u dc nid vlen. induction m as [|m IH]; intros u dc nid vlen; simpl.
  - by intros ?%elem_of_nil.
  - intros [->|Hin]%elem_of_cons.
    + exists 0. split_and!; [lia|done|]. simpl. by rewrite Nat.add_1_r.
    + destruct (IH _ _ _ _ Hin) as (j & Hj & Hs & Ht).
      exists (S j). split_and!; [lia| |].
      * rewrite Hs. destruct j; f_equal; lia.
      * rewrite Ht. f_equal. lia.
Qed.

Lemma chainEdges_elem ed k dc nid vlen x :
  x ∈ chainEdges ed k dc nid vlen →
  ∃ j, j ≤ k ∧
       esource x = match j with 0 => esource ed | S _ => dummyName (dc + j) end ∧
       etarget x = if decide (j = k) then etarget ed else dummyName (dc + S j).
Proof.
  unfold chainEdges. intros [Hin| ->%list_elem_of_singleton]%elem_of_app.
  - apply chainLinks_elem in Hin as (j & Hj & Hs & Ht).
    exists j. split_and!; [lia|done|]. by rewrite decide_False by lia.
  - exists k. split_and!; [lia| |by rewrite decide_True].
    simpl. unfold chainEnd. by destruct k.
Qed.

Lemma planEdges_elem g0 es dc nid vlen x :
  x ∈ planEdges g0 es dc nid vlen →
  ∃ ed rs rt dc' j,
    ed ∈ es ∧ isLong g0 ed = Some (rs, rt) ∧ j ≤ dummiesBetween rs rt ∧
    esource x = match j with 0 => esource ed | S _ => dummyName (dc' + j) end ∧
    etarget x = (if decide (j = dummiesBetween rs rt) then etarget ed
                 else dummyName (dc' + S j)) ∧
    ∀ i, i < dummiesBetween rs rt →
         (dummyName (S dc' + i),
          dummyNode ed (edgeValue g0 ed) (rs + 1 + Z.of_nat i) i rt)
         ∈ planNodes g0 es dc.
Proof.
  revert dc nid vlen. induction es as [|e es IH]; intros dc nid vlen; simpl.
  - by intros ?%elem_of_nil.
  - destruct (isLong g0 e) as [[rs rt]|] eqn:Hlong.
    + intros [Hx|Hx]%elem_of_app.
      * apply chainEdges_elem in Hx as (j & Hj & Hs & Ht).
        exists e, rs, rt, dc, j. split_and!; try done; [by left|].
        intros i Hi. apply elem_of_app. left.
        eapply list_elem_of_lookup_2. by rewrite chainNodes_lookup.
      * destruct (IH _ _ _ Hx) as (ed & rs' & rt' & dc' & j & Hin & Hl & Hj & Hs & Ht & Hn).
        exists ed, rs', rt', dc', j. split_and!; try done; [by right|].
        intros i Hi. apply elem_of_app. right. by apply Hn.
    + intros Hx.
      destruct (IH _ _ _ Hx) as (ed & rs' & rt' & dc' & j & Hin & Hl & Hj & Hs & Ht & Hn).
      exists ed, rs', rt', dc', j. split_and!; try done. by right.
Qed.

Lemma normalize_node_old g u :
  wfGraph g → u ∈ nodeIds g → node (normalize g) u = node g u.
Proof.
  intros Hwf Hu. rewrite (normalize_closed g Hwf). unfold node. cbn [nodes].
  rewrite assoc_app. by destruct (is_Some_assoc (nodes g) u Hu) as [a ->].
Qed.

Lemma normalize_node_dummy g n a :
  wfGraph g → (dummyName n, a) ∈ planNodes g (edges g) 0 →
  node (normalize g) (dummyName n) = Some a.
Proof.
  intros Hwf Hin. rewrite (normalize_closed g Hwf). unfold node. cbn [nodes].
  destruct Hwf as (_ & _ & _ & Huser). rewrite assoc_app.
  assert (assoc (dummyName n) (nodes g) = None) as ->.
  { apply assoc_None. intros Hn. rewrite Forall_forall in Huser.
    specialize (Huser _ Hn). by rewrite dummyName_prefix in Huser. }
  apply assoc_NoDup; [|done]. rewrite planNodes_keys.
  apply NoDup_fmap_2; [intros ??; apply dummyName_inj | apply NoDup_seq].
Qed.


Lemma normalize_all_short g ed :
  wfGraph g → ed ∈ edges (normalize g) → isLong (normalize g) ed = None.
Proof.
  intros Hwf Hed. pose proof Hed as Hed0.
  rewrite (normalize_closed g Hwf) in Hed. cbn [edges] in Hed.
  pose proof Hwf as (Hnd & _ & Hclosed & _). rewrite Forall_forall in Hclosed.
  apply elem_of_app in Hed as [[Hnl Hin]%list_elem_of_filter|Hpl].
  - destruct (Hclosed ed Hin) as [Hs Ht].
    unfold isLong, rankOf. rewrite !normalize_node_old by done.
    destruct (isLong g ed) as [p|] eqn:Hl; [|exact Hl].
    destruct Hnl. unfold longIds. apply list_elem_of_fmap. exists ed.
    split; [done|]. apply list_elem_of_filter. split; [|done]. rewrite Hl. eauto.
  - apply planEdges_elem in Hpl
      as (e & rs & rt & dc & j & Hin & Hl & Hj & Hs & Ht & Hn).
    destruct (Hclosed e Hin) as [Hes Het].
    destruct (isLong_ranks g e rs rt Hl) as (Hrs & Hrt & Hspan).
    set (k := dummiesBetween rs rt) in *.
    assert (rankOf (normalize g) (esource ed) = Some (rs + Z.of_nat j)%Z) as Hsrc.
    { rewrite Hs. destruct j as [|j].
      - unfold rankOf. rewrite normalize_node_old by done.
        fold (rankOf g (esource e)). rewrite Hrs. f_equal. lia.
      - unfold rankOf. replace (dc + S j) with (S dc + j) by lia.
        rewrite (normalize_node_dummy g _ _ Hwf (Hn j ltac:(lia))). simpl.
        f_equal. lia. }
    assert (rankOf (normalize g) (etarget ed) = Some (rs + Z.of_nat j + 1)%Z) as Htgt.
    { rewrite Ht. case_decide as Hjk.
      - unfold rankOf. rewrite normalize_node_old by done.
        fold (rankOf g (etarget e)). rewrite Hrt. f_equal. lia.
      - unfold rankOf. replace (dc + S j) with (S dc + j) by lia.
        rewrite (normalize_node_dummy g _ _ Hwf (Hn j ltac:(lia))). simpl.
        f_equal. lia. }
    unfold isLong. rewrite Hsrc, Htgt.
    by destruct (Z.ltb_spec (rs + Z.of_nat j + 1) (rs + Z.of_nat j + 1)); [lia|].
Qed.

(** X1. [normalize] makes the layering proper.  A graph in which no edge
    spans more than one rank is returned as it is.  On a well-formed
    graph, no edge of the result between ranked nodes spans more than one
    rank, and so a second [normalize] changes nothing. *)
Theorem normalize_proper g :
  ((∀ ed rs rt, ed ∈ edges g → rankOf g (esource ed) = Some rs →
      rankOf g (etarget ed) = Some rt → (rt ≤ rs + 1)%Z) →
   normalize g = g)
  ∧ (wfGraph g →
     (∀ ed rs rt, ed ∈ edges (normalize g) →
        rankOf (normalize g) (esource ed) = Some rs →
        rankOf (normalize g) (etarget ed) = Some rt → (rt ≤ rs + 1)%Z)
     ∧ normalize (normalize g) = normalize g).
Proof.
  split.
  - intros Hshort. apply normalize_short. intros ed Hed. unfold isLong.
    destruct (rankOf g (esource ed)) as [rs|] eqn:Hrs; [|done].
    destruct (rankOf g (etarget ed)) as [rt|] eqn:Hrt; [|done].
    specialize (Hshort ed rs rt Hed Hrs Hrt).
    by destruct (Z.ltb_spec (rs + 1) rt); [lia|].
  - intros Hwf. split.
    + intros ed rs rt Hed Hrs Hrt.
      pose proof (normalize_all_short g ed Hwf Hed) as Hl.
      unfold isLong in Hl. rewrite Hrs, Hrt in Hl.
      by destruct (Z.ltb_spec (rs + 1) rt); [|lia].
    + apply normalize_short. intros ed Hed. by apply normalize_all_short.
Qed.

Lemma normalize_proper_witness :
  normalize (rankedEdge 1) = rankedEdge 1
  ∧ normalize (normalize (rankedEdge 3)) = normalize (rankedEdge 3).
Proof.
  split.
  - apply (proj1 (normalize_proper (rankedEdge 1))).
    intros ed rs rt ->%list_elem_of_singleton [= <-] [= <-]. lia.
  - apply (proj2 (normalize_proper (rankedEdge 3))). apply rankedEdge_wfGraph.
Defined.


(** ** normalize: what it adds *)

Lemma chainLinks_length m u dc nid vlen : length (chainLinks m u dc nid vlen) = m.
Proof.
  revert u dc nid vlen. induction m as [|m IH]; intros u dc nid vlen; [done|].
  simpl. by rewrite IH.
Qed.

Lemma planEdges_length g0 es dc nid vlen :
  length (planEdges g0 es dc nid vlen) = planSize g0 es.
Proof.
  revert dc nid vlen. induction es as [|e es IH]; intros dc nid vlen; [done|].
  simpl. destruct (isLong g0 e) as [[rs rt]|]; [|apply IH].
  unfold chainEdges. rewrite !length_app, chainLinks_length, IH. simpl. lia.
Qed.

Lemma plan_counts g0 es :
  length (filter (λ e, isLong g0 e = None) es) + planSize g0 es
  = length es + planDummies g0 es.
Proof.
  induction es as [|e es IH]; [done|]. rewrite filter_cons. simpl.
  destruct (isLong g0 e) as [[rs rt]|] eqn:Hl.
  - rewrite decide_False by done. lia.
  - rewrite decide_True by done. simpl. lia.
Qed.

Lemma filter_longIds g :
  NoDup (edgeIds g) →
  filter (λ e, eid e ∉ longIds g (edges g)) (edges g)
  = filter (λ e, isLong g e = None) (edges g).
Proof.
  intros Hnd. apply filter_ext_elem. intros e He. split.
  - intros Hnl. destruct (isLong g e) as [p|] eqn:Hl; [|done].
    destruct Hnl. unfold longIds. apply list_elem_of_fmap. exists e.
    split; [done|]. apply list_elem_of_filter. split; [|done]. rewrite Hl. eauto.
  - intros Hl (e' & Hin' & Heq & [p Hp])%longIds_elem.
    rewrite (edge_by_id g e' e Hnd Hin' He Heq) in Hp. congruence.
Qed.

(** X2. On a well-formed graph [normalize] adds one dummy node and one
    edge for every rank that an edge skips: the nodes of the result are
    the nodes of the graph followed by the dummy nodes [_D1], [_D2], …,
    as many as [planDummies] counts (for every edge from rank [rs] to
    rank [rt > rs + 1], [rt − rs − 1] of them), and the result has as
    many edges more.  The edges that span one rank at most stay, in
    their order, before the new edges. *)
Theorem normalize_counts g :
  wfGraph g →
  nodeIds (normalize g) = nodeIds g ++ (dummyName <$> seq 1 (planDummies g (edges g)))
  ∧ length (edges (normalize g)) = length (edges g) + planDummies g (edges g)
  ∧ (∃ new, edges (normalize g) = filter (λ e, isLong g e = None) (edges g) ++ new
            ∧ Forall (λ e, ∃ n, nextId g < n ≤ nextId (normalize g) ∧ eid e = autoId n) new)
  ∧ ∀ u, u ∈ nodeIds g → node (normalize g) u = node g u.
Proof.
  intros Hwf. pose proof Hwf as (Hnd & _).
  split_and!; [| | |intros u Hu; by apply normalize_node_old].
  - rewrite (normalize_closed g Hwf). unfold nodeIds. cbn [nodes].
    by rewrite fmap_app, planNodes_keys.
  - rewrite (normalize_closed g Hwf). cbn [edges].
    rewrite length_app, planEdges_length, filter_longIds by done.
    apply plan_counts.
  - rewrite (normalize_closed g Hwf). cbn [edges nextId].
    rewrite filter_longIds by done. eexists. split; [reflexivity|].
    apply Forall_forall. intros e He.
    destruct (planEdges_fresh _ _ _ _ _ _ He) as (n & Hn & Hid). by exists n.
Qed.

Lemma normalize_counts_witness :
  nodeIds (normalize (rankedEdge 3)) = ["a"; "b"; "_D1"; "_D2"]
  ∧ length (edges (normalize (rankedEdge 3))) = 3.
Proof.
  destruct (normalize_counts (rankedEdge 3) (rankedEdge_wfGraph 3)) as (Hn & He & _).
  split; [exact Hn | exact He].
Defined.


(** ** undoNormalize: what is left of the graph *)

Lemma undoNormalizeNode_shape g h ua h1 :
  okNode g ua → undoNormalizeNode h ua = Ok h1 →
  nodes h1 = filter (λ p, p.1 ∉ indexedDummies [ua]) (nodes h) ∧
  (NoDup (edgeIds h) → NoDup (edgeIds h1)) ∧
  (∀ x, x ∈ edges h1 →
        x ∈ edges g ∨
        (x ∈ edges h ∧ (esource x ∉ indexedDummies [ua]) ∧
         (etarget x ∉ indexedDummies [ua]))).
Proof.
  intros Hok. destruct ua as [u a]. unfold okNode in Hok. simpl in Hok.
  unfold undoNormalizeNode, indexedDummies. rewrite filter_cons, filter_nil. simpl.
  assert (∀ h0 : Graph, nodes h0 = filter (λ p, p.1 ∉ @nil NodeId) (nodes h0)) as Hnil.
  { intros h0. symmetry. apply filter_all. apply Forall_forall.
    intros p _. apply not_elem_of_nil. }
  destruct (nv_dummy a) eqn:Hd; cycle 1.
  { intros [= <-]. rewrite decide_False by (intros [? _]; done).
    split_and!; [apply Hnil|done|]. intros x Hx. right.
    split_and!; [done|apply not_elem_of_nil..]. }
  destruct (nv_index a) as [i|] eqn:Hi; cycle 1.
  { intros [= <-]. rewrite decide_False by (intros [_ [? ?]]; done).
    split_and!; [apply Hnil|done|]. intros x Hx. right.
    split_and!; [done|apply not_elem_of_nil..]. }
  rewrite decide_True by (split; [done|by eexists]). simpl.
  destruct (Hok eq_refl) as (Hu & e & He & ->).
  cbn [refOf ref_id ref_source ref_target ref_attrs].
  assert (mkEdge (eid e) (esource e) (etarget e) (evalue e) = e) as Heta
    by by destruct e.
  unfold addEdgeAs. rewrite Heta.
  set (g1 := if hasEdge h (eid e) then h
             else mkGraph (nodes h) (edges h ++ [e]) (values h) (nextId h)).
  assert (nodes g1 = nodes h ∧
          (NoDup (edgeIds h) → NoDup (edgeIds g1)) ∧
          (∀ x, x ∈ edges g1 → x ∈ edges h ∨ x = e)) as (Hn1 & Hnd1 & He1).
  { unfold g1, hasEdge. destruct (edgeById h (eid e)) as [x|] eqn:Hf.
    - split_and!; [done|done|]. intros x' Hx'. by left.
    - split_and!; [done| |].
      + intros Hnd. unfold edgeIds. cbn [edges]. rewrite fmap_app.
        apply NoDup_app. split_and!; [done| |apply NoDup_singleton].
        intros i' (x & -> & Hx)%list_elem_of_fmap Heq%list_elem_of_singleton.
        by apply (edgeById_None _ _ _ Hf Hx).
      + cbn [edges]. intros x [Hx| ->%list_elem_of_singleton]%elem_of_app; eauto. }
  destruct (edgeById g1 (eid e)) as [ed|]; [|done].
  destruct (ev_points (edgeValue g1 ed)) as [points|]; [|done].
  intros [= <-]. cbn [delNode updValue nodes edges]. rewrite Hn1. split_and!.
  - apply list_filter_iff. intros p. rewrite list_elem_of_singleton. done.
  - intros Hnd. unfold edgeIds. cbn [edges].
    eapply sublist_NoDup; [exact (Hnd1 Hnd)|].
    apply fmap_sublist, sublist_filter.
  - intros x [[Hs Ht] Hx]%list_elem_of_filter.
    destruct (He1 x Hx) as [Hxh| ->]; [|by left]. right.
    rewrite !list_elem_of_singleton. done.
Qed.

Lemma indexedDummies_cons ua l x :
  x ∉ indexedDummies (ua :: l) ↔ (x ∉ indexedDummies [ua]) ∧ (x ∉ indexedDummies l).
Proof.
  unfold indexedDummies. rewrite (filter_app _ [ua] l), fmap_app, elem_of_app.
  tauto.
Qed.

Lemma undoNormalize_fold_shape g l :
  Forall (okNode g) l → ∀ h h',
  foldR undoNormalizeNode l h = Ok h' →
  nodes h' = filter (λ p, p.1 ∉ indexedDummies l) (nodes h) ∧
  (NoDup (edgeIds h) → NoDup (edgeIds h')) ∧
  (∀ x, x ∈ edges h' →
        x ∈ edges g ∨
        (x ∈ edges h ∧ (esource x ∉ indexedDummies l) ∧
         (etarget x ∉ indexedDummies l))).
Proof.
  induction l as [|ua l IH]; intros Hok h h'.
  - intros [= <-]. split_and!; [|done|].
    + symmetry. apply filter_all. apply Forall_forall. intros p _. apply not_elem_of_nil.
    + intros x Hx. right. split_and!; [done|apply not_elem_of_nil..].
  - apply Forall_cons in Hok as [Hua Hok]. cbn [foldR].
    destruct (undoNormalizeNode h ua) as [h1|] eqn:Hstep; [|done]. simpl.
    intros Hfold.
    destruct (undoNormalizeNode_shape g h ua h1 Hua Hstep) as (Hn1 & Hnd1 & He1).
    destruct (IH Hok h1 h' Hfold) as (Hn & Hnd & He).
    split_and!.
    + rewrite Hn, Hn1, list_filter_filter. apply list_filter_iff.
      intros p. pose proof (indexedDummies_cons ua l p.1). tauto.
    + auto.
    + intros x Hx. destruct (He x Hx) as [Hg|(Hx1 & Hs & Ht)]; [by left|].
      destruct (He1 x Hx1) as [Hg|(Hxh & Hs1 & Ht1)]; [by left|]. right.
      split_and!; [done|by apply indexedDummies_cons..].
Qed.


Lemma chainLinks_ids m u dc nid vlen :
  eid <$> chainLinks m u dc nid vlen = autoId <$> seq (S nid) m.
Proof.
  revert u dc nid vlen. induction m as [|m IH]; intros u dc nid vlen; [done|].
  csimpl. by rewrite IH.
Qed.

Lemma planEdges_ids g0 es dc nid vlen :
  eid <$> planEdges g0 es dc nid vlen = autoId <$> seq (S nid) (planSize g0 es).
Proof.
  revert dc nid vlen. induction es as [|e es IH]; intros dc nid vlen; [done|].
  simpl. destruct (isLong g0 e) as [[rs rt]|]; [|apply IH].
  unfold chainEdges. rewrite !fmap_app, chainLinks_ids, IH. csimpl.
  set (k := dummiesBetween rs rt). set (p := planSize g0 es).
  change (autoId (S nid) :: (autoId <$> seq (S (S nid)) (k + p)))
    with (autoId <$> seq (S nid) (S (k + p))).
  replace (S (k + p)) with (k + S p) by lia.
  rewrite seq_app, fmap_app, <- app_assoc. f_equal. csimpl.
  by rewrite Nat.add_succ_r.
Qed.

Lemma normalize_edgeIds g : wfGraph g → NoDup (edgeIds (normalize g)).
Proof.
  intros Hwf. rewrite (normalize_closed g Hwf). unfold edgeIds. cbn [edges].
  destruct Hwf as (Hnd & Hbound & _). rewrite fmap_app. apply NoDup_app. split_and!.
  - eapply sublist_NoDup; [exact Hnd|]. apply fmap_sublist, sublist_filter.
  - intros i (x & -> & [_ Hx]%list_elem_of_filter)%list_elem_of_fmap Hi.
    rewrite planEdges_ids in Hi.
    apply list_elem_of_fmap in Hi as (n & Hid & [Hn _]%elem_of_seq).
    apply (Hbound x n Hx); [lia|done].
  - rewrite planEdges_ids. apply NoDup_fmap_2; [|apply NoDup_seq].
    intros ??. apply autoId_inj.
Qed.

Lemma filter_none {A} (P : A → Prop) `{∀ x, Decision (P x)} (l : list A) :
  Forall (λ x, ¬ P x) l → filter P l = [].
Proof.
  induction 1 as [|x l Hx _ IH]; [done|].
  by rewrite filter_cons_False, IH.
Qed.


(** X3. [normalize] followed by [undoNormalize] gives back the graph
    when no edge spans more than three ranks.  Let [g] be a well-formed
    ranked graph without dummy nodes, whose edges have a [points] array,
    each spanning three ranks at most.  Whatever order and coordinates
    the nodes are given in between, [undoNormalize] returns a graph with
    the nodes of [g], in their order and none of them a dummy node, and
    with the edges of [g] (the edges that were split come last). *)
Theorem undoNormalize_round_trip g os ps :
  wfGraph g →
  Forall (λ p, nv_dummy p.2 = false) (nodes g) →
  Forall (λ ed, ev_points (edgeValue g ed) = Some []) (edges g) →
  (∀ ed rs rt, ed ∈ edges g →
     rankOf g (esource ed) = Some rs → rankOf g (etarget ed) = Some rt →
     (rt - rs ≤ 3)%Z) →
  ∃ g', undoNormalize (withPositions ps (withOrder os (normalize g))) = Ok g' ∧
        nodeIds g' = nodeIds g ∧ dummies g' = [] ∧ edges g' ≡ₚ edges g.
Proof.
  intros Hwf Hplain Hpts Hspan.
  set (G := withPositions ps (withOrder os (normalize g))).
  destruct (placed_nodes os ps (normalize g)) as (f & Hnodes & Hf).
  fold G in Hnodes.
  destruct (normalize_undoInv g G Hwf Hpts eq_refl eq_refl) as [Hinv _].
  assert (Forall (okNode g) (nodes G)) as Hok.
  { rewrite Hnodes. apply okNode_fmap; [done|]. by apply normalize_okNodes. }
  destruct (undoNormalize_fold g (nodes G) Hwf Hok G Hinv)
    as (g' & Hfold & Hinv' & _ & Hmono & Hadd).
  destruct (undoNormalize_fold_shape g (nodes G) Hok G g' Hfold) as (Hn & Hnd & He).
  exists g'. split; [exact Hfold|].
  rewrite (normalize_closed g Hwf) in Hnodes. cbn [nodes] in Hnodes.
  rewrite fmap_app in Hnodes.
  pose proof Hwf as (Hids & _ & Hclosed & Huser).
  rewrite Forall_forall in Hplain. rewrite Forall_forall in Hclosed.
  rewrite Forall_forall in Huser.
  assert (∀ n a, (dummyName n, a) ∈ planNodes g (edges g) 0 →
                 dummyName n ∈ indexedDummies (nodes G)) as Hall.
  { intros n a Hin. unfold indexedDummies. apply list_elem_of_fmap.
    exists (dummyName n, f (dummyName n, a)). split; [done|].
    apply list_elem_of_filter. split.
    - cbn [snd]. destruct (Hf (dummyName n, a)) as (-> & -> & _). cbn [snd].
      apply planNodes_elem in Hin
        as (ed & rs & rt & j & n' & Hed & Hl & Hj & [= _ ->]).
      split; [done|]. rewrite dummyNode_index by done.
      destruct (isLong_ranks g ed rs rt Hl) as (Hrs & Hrt & Hk).
      specialize (Hspan ed rs rt Hed Hrs Hrt). unfold dummyIndex.
      destruct (Z.eqb_spec (rs + 1 + Z.of_nat j) (rs + 1)); [by eexists|].
      destruct (Z.eqb_spec (rs + 1 + Z.of_nat j) (rt - 1)); [by eexists|lia].
    - rewrite Hnodes. apply elem_of_app. right. apply list_elem_of_fmap.
      by exists (dummyName n, a). }
  assert (∀ u, u ∈ indexedDummies (nodes G) → u ∉ nodeIds g) as Hnew.
  { unfold indexedDummies.
    intros u (p & -> & [[Hd _] Hp]%list_elem_of_filter)%list_elem_of_fmap Hu.
    rewrite Hnodes in Hp.
    apply elem_of_app in Hp as [(q & -> & Hq)%list_elem_of_fmap|(q & -> & Hq)%list_elem_of_fmap].
    - destruct (Hf q) as (Hdq & _). cbn [snd] in Hd. rewrite Hdq, (Hplain q Hq) in Hd.
      done.
    - apply planNodes_elem in Hq as (ed & rs & rt & j & n & _ & _ & _ & ->).
      cbn [fst] in Hu. specialize (Huser _ Hu). by rewrite dummyName_prefix in Huser. }
  assert (nodes g' = (λ p, (p.1, f p)) <$> nodes g) as Hn'.
  { rewrite Hn, Hnodes, filter_app, filter_all, filter_none, app_nil_r; [done| |].
    - apply Forall_fmap, Forall_forall. intros [u a] Hin. cbn. intros Hu. apply Hu.
      assert (u ∈ (planNodes g (edges g) 0).*1) as Hk
        by (apply list_elem_of_fmap; by exists (u, a)).
      rewrite planNodes_keys in Hk. apply list_elem_of_fmap in Hk as (n & -> & _).
      rewrite <- Hnodes. by apply (Hall n a).
    - apply Forall_fmap, Forall_forall. intros p Hin. cbn. intros Hu.
      rewrite <- Hnodes in Hu.
      apply (Hnew _ Hu). apply list_elem_of_fmap. by exists p. }
  split_and!.
  - unfold nodeIds. rewrite Hn', <- list_fmap_compose. done.
  - unfold dummies. rewrite Hn', filter_none; [done|].
    apply Forall_fmap, Forall_forall. intros p Hin. cbn.
    destruct (Hf p) as (-> & _). by rewrite (Hplain p Hin).
  - apply NoDup_Permutation.
    + eapply NoDup_fmap_1. apply Hnd. by apply normalize_edgeIds.
    + by eapply NoDup_fmap_1.
    + intros x. split.
      * intros Hx. destruct (He x Hx) as [Hg|(HxG & Hs & Ht)]; [done|].
        change (edges G) with (edges (normalize g)) in HxG.
        rewrite (normalize_closed g Hwf) in HxG. cbn [edges] in HxG.
        apply elem_of_app in HxG as [[_ Hin]%list_elem_of_filter|Hpl]; [done|].
        apply planEdges_elem in Hpl
          as (ed & rs & rt & dc & j & Hed & Hl & Hj & Hsrc & Htgt & Hin).
        pose proof (isLong_span g ed rs rt Hl) as Hk.
        destruct j as [|j].
        -- destruct Ht. rewrite Htgt, decide_False by lia.
           replace (dc + 1) with (S dc + 0) by lia. eapply Hall, (Hin 0). lia.
        -- destruct Hs. rewrite Hsrc.
           replace (dc + S j) with (S dc + j) by lia. eapply Hall, (Hin j). lia.
      * intros Hx. destruct (isLong g x) as [[rs rt]|] eqn:Hlong.
        -- pose proof (isLong_span g x rs rt Hlong) as Hk.
           destruct (plan_locate g (edges g) 0 (nextId g) (length (values g)) x rs rt
                       Hx Hlong) as (dc & nid & vlen & Hchain & _).
           pose (p := (dummyName (S dc + 0),
                       dummyNode x (edgeValue g x) (rs + 1 + Z.of_nat 0) (0 + 0) rt)).
           destruct (Hf p) as (Hd & Hi & Hr).
           apply (Hadd (p.1, f p));
             [|simpl; by rewrite Hd|simpl; by rewrite Hi|simpl; by rewrite Hr|done].
           rewrite Hnodes. apply elem_of_app. right.
           apply list_elem_of_fmap. exists p. split; [done|].
           apply Hchain. eapply list_elem_of_lookup_2. by apply chainNodes_lookup.
        -- apply Hmono; [done|]. by apply normalize_keeps_short.
Qed.

Lemma undoNormalize_round_trip_witness :
  ∃ g', undoNormalize (withPositions [] (withOrder [] (normalize (rankedEdge 3)))) = Ok g'
        ∧ nodeIds g' = ["a"; "b"] ∧ dummies g' = []
        ∧ edges g' ≡ₚ [mkEdge "_1" "a" "b" 0].
Proof.
  apply (undoNormalize_round_trip (rankedEdge 3) [] []).
  - apply rankedEdge_wfGraph.
  - repeat constructor.
  - repeat constructor.
  - intros ed rs rt ->%list_elem_of_singleton [= <-] [= <-]. lia.
Defined.


(** ** initRank: the longest-path layering *)

Lemma kahnInv_step g vals store minRank pq m mr' pq' :
  kahnInv g store minRank pq →
  pqMin pq = Some m → pqPriority pq m = 0%Z →
  fold_left (updateTargetNode vals (storeUpd store m (set_rank (minRankOf minRank m))))
    (outEdges (v_edges g) m) (minRank, pqRemove pq m) = (mr', pq') →
  kahnInv g (storeUpd store m (set_rank (minRankOf minRank m))) mr' pq'
  ∧ pq'.*1 = filter (λ u, u ≠ m) pq.*1 ∧ m ∈ pq.*1
  ∧ is_Some (rankIn (storeUpd store m (set_rank (minRankOf minRank m))) m).
Proof.
  intros (Hnd & Hranked & Hprio & Hmr & Hstore & Hsub) Hmin Hzero Hfold0.
  destruct (pqMin_spec pq m Hnd Hmin) as [Hm Hleast].
  destruct (Hmr m (Hsub m Hm)) as [r Hr].
  set (store1 := storeUpd store m (set_rank (minRankOf minRank m))) in *.
  assert (rankIn store1 m = Some r) as Hrm.
  { unfold store1. rewrite rankIn_storeUpd, String.eqb_refl, Hr.
    by destruct (is_Some_assoc store m (Hstore m (Hsub m Hm))) as [a ->]. }
  destruct (updateTarget_fold vals store1 (outEdges (v_edges g) m) minRank
              (pqRemove pq m)) as (mr2 & pq2 & Hfold & Hkeys & Hprio' & Hmr').
  { intros e [-> _]%list_elem_of_filter. eauto. }
  rewrite Hfold in Hfold0. injection Hfold0 as <- <-.
  rewrite pqRemove_keys in Hkeys.
  split_and!; [|done|done|eauto].
  unfold kahnInv. rewrite Hkeys. split_and!.
  - by apply NoDup_filter.
  - intros u Hu. destruct (decide (u = m)) as [->|Hne]; [right; eauto|].
    destruct (Hranked u Hu) as [Hin|Hrk].
    + left. by apply list_elem_of_filter.
    + right. unfold store1. rewrite rankIn_storeUpd.
      by rewrite (proj2 (String.eqb_neq m u)) by done.
  - intros u [Hne Hu]%list_elem_of_filter.
    rewrite Hprio' by (rewrite pqRemove_keys; by apply list_elem_of_filter).
    rewrite pqRemove_priority, (Hprio u Hu) by done.
    rewrite (inFrom_remove (v_edges g) pq.*1 m u Hm). lia.
  - intros u Hu. by apply Hmr', Hmr.
  - intros u Hu. unfold store1. rewrite storeUpd_keys. by apply Hstore.
  - intros u [_ Hu]%list_elem_of_filter. by apply Hsub.
Qed.


Lemma minRankOf_set (minRank : list (NodeId * option Z)) t x u :
  is_Some (assoc u minRank) →
  minRankOf (minRankSet minRank t x) u
  = if String.eqb t u then x else minRankOf minRank u.
Proof.
  intros [y Hy]. unfold minRankOf, minRankSet.
  rewrite (assoc_upd minRank t u (λ _, x)), Hy.
  by destruct (String.eqb t u).
Qed.

Lemma updateTarget_minRank vals store outs rm :
  (∀ e, e ∈ outs → rankIn store (esource e) = Some rm) →
  ∀ minRank pq mr' pq' u t0,
  fold_left (updateTargetNode vals store) outs (minRank, pq) = (mr', pq') →
  minRankOf minRank u = Some t0 →
  ∃ t, minRankOf mr' u = Some t ∧ (t0 ≤ t)%Z ∧
       (∀ e, e ∈ outs → etarget e = u → (rm + minLenOf vals e ≤ t)%Z) ∧
       (t = t0 ∨ ∃ e, e ∈ outs ∧ etarget e = u ∧ t = (rm + minLenOf vals e)%Z).
Proof.
  induction outs as [|e outs IH]; intros Hr minRank pq mr' pq' u t0; simpl.
  - intros [= <- <-] Ht0. exists t0. split_and!; [done|lia| |by left].
    by intros e ?%elem_of_nil.
  - intros Hfold Ht0.
    assert (is_Some (assoc u minRank)) as Hsome.
    { unfold minRankOf in Ht0. destruct (assoc u minRank); [eauto|done]. }
    set (t1 := if String.eqb (etarget e) u
               then Z.max t0 (rm + minLenOf vals e) else t0).
    assert (∀ e', e' ∈ outs → rankIn store (esource e') = Some rm) as Hr'
      by (intros e' He'; apply Hr; by right).
    destruct (IH Hr' _ _ mr' pq' u t1 Hfold) as (t & Ht & Hle & Hall & Hex).
    { rewrite minRankOf_set by done. unfold t1.
      destruct (String.eqb_spec (etarget e) u) as [->|Hne]; [|done].
      rewrite Ht0, (Hr e) by by left. done. }
    exists t. unfold t1 in *. split; [done|].
    destruct (String.eqb_spec (etarget e) u) as [Heq|Hne].
    + split_and!.
      * lia.
      * intros e' [->|He']%elem_of_cons Hu; [lia|by apply Hall].
      * destruct Hex as [->|(e' & He' & Hu & ->)].
        -- destruct (Z.max_spec t0 (rm + minLenOf vals e)) as [[_ ->]|[_ ->]].
           ++ right. exists e. split_and!; [by left|done|done].
           ++ by left.
        -- right. exists e'. split_and!; [by right|done|done].
    + split_and!.
      * lia.
      * intros e' [->|He']%elem_of_cons Hu; [done|by apply Hall].
      * destruct Hex as [->|(e' & He' & Hu & ->)]; [by left|].
        right. exists e'. split_and!; [by right|done|done].
Qed.


Lemma rankInv_step g vals store minRank pq m mr' pq' :
  wfView g → kahnInv g store minRank pq → rankInv g vals store minRank pq →
  pqMin pq = Some m → pqPriority pq m = 0%Z →
  fold_left (updateTargetNode vals (storeUpd store m (set_rank (minRankOf minRank m))))
    (outEdges (v_edges g) m) (minRank, pqRemove pq m) = (mr', pq') →
  rankInv g vals (storeUpd store m (set_rank (minRankOf minRank m))) mr' pq'.
Proof.
  intros [_ Hclosed] Hkahn (Hdone & Hedge & Hmin) Hm0 Hzero Hfold.
  destruct (kahnInv_step g vals store minRank pq m mr' pq' Hkahn Hm0 Hzero Hfold)
    as (_ & Hkeys & Hm & [rm Hrm]).
  destruct Hkahn as (_ & _ & Hprio & _ & Hstore & Hsub).
  rewrite Forall_forall in Hclosed.
  set (store1 := storeUpd store m (set_rank (minRankOf minRank m))) in *.
  set (outs := outEdges (v_edges g) m) in *.
  assert (inFrom (v_edges g) pq.*1 m = []) as Hsrc.
  { apply nil_length_inv. pose proof (Hprio m Hm) as Hp. rewrite Hzero in Hp. lia. }
  assert (rankIn store1 m = minRankOf minRank m) as Hrm'.
  { unfold store1. rewrite rankIn_storeUpd, String.eqb_refl.
    by destruct (is_Some_assoc store m (Hstore m (Hsub m Hm))) as [a ->]. }
  assert (∀ u, u ≠ m → rankIn store1 u = rankIn store u) as Hother.
  { intros u Hne. unfold store1. rewrite rankIn_storeUpd.
    by rewrite (proj2 (String.eqb_neq m u)) by done. }
  assert (∀ e, e ∈ outs → rankIn store1 (esource e) = Some rm) as Houts.
  { intros e [-> _]%list_elem_of_filter. done. }
  assert (∀ u e, inFrom (v_edges g) pq.*1 u = [] → e ∈ outs → etarget e ≠ u) as Hnone.
  { intros u e Hu [Hs He]%list_elem_of_filter Ht.
    assert (e ∈ inFrom (v_edges g) pq.*1 u) as Hin
      by (apply list_elem_of_filter; rewrite Hs; done).
    rewrite Hu in Hin. by apply elem_of_nil in Hin. }
  assert (∀ u, inFrom (v_edges g) pq.*1 u = [] → inFrom (v_edges g) pq'.*1 u = [])
    as Hshrink.
  { intros u Hu. apply elem_of_nil_inv. intros e [[Ht Hs] He]%list_elem_of_filter.
    rewrite Hkeys in Hs. apply list_elem_of_filter in Hs as [_ Hs].
    assert (e ∈ inFrom (v_edges g) pq.*1 u) as Hin by by apply list_elem_of_filter.
    rewrite Hu in Hin. by apply elem_of_nil in Hin. }
  assert (∀ u, u ∉ pq'.*1 → u = m ∨ u ∉ pq.*1) as Hleft.
  { intros u Hu. destruct (decide (u = m)) as [|Hne]; [by left|]. right.
    intros Hin. apply Hu. rewrite Hkeys. by apply list_elem_of_filter. }
  assert (∀ u, u ∉ pq.*1 → (u ∉ pq'.*1) ∧ u ≠ m) as Hstay.
  { intros u Hu. split; [|by intros ->].
    rewrite Hkeys. by intros [_ ?]%list_elem_of_filter. }
  assert (∀ u t0, minRankOf minRank u = Some t0 →
            inFrom (v_edges g) pq.*1 u = [] → minRankOf mr' u = Some t0) as Hsame.
  { intros u t0 Ht0 Hu.
    destruct (updateTarget_minRank vals store1 outs rm Houts _ _ _ _ u t0 Hfold Ht0)
      as (t & Ht & _ & _ & [->|(e & He & Hte & _)]); [done|].
    by destruct (Hnone u e Hu He). }
  split_and!.
  - intros u Hu Hq. destruct (Hmin u Hu) as (t0 & Ht0 & _).
    destruct (Hleft u Hq) as [->|Hold].
    + rewrite Hrm', Ht0, (Hsame m t0 Ht0 Hsrc). split; [done|]. by apply Hshrink.
    + destruct (Hdone u Hu Hold) as [Hr Hin]. destruct (Hstay u Hold) as [_ Hne].
      rewrite (Hother u Hne), Hr, Ht0, (Hsame u t0 Ht0 Hin). split; [done|].
      by apply Hshrink.
  - intros e He Hq. destruct (Hclosed e He) as [_ Ht].
    destruct (Hmin (etarget e) Ht) as (t0 & Ht0 & _).
    destruct (updateTarget_minRank vals store1 outs rm Houts _ _ _ _ (etarget e) t0
                Hfold Ht0) as (t & Htt & Hle & Hall & _).
    destruct (Hleft _ Hq) as [Heq|Hold].
    + exists rm, t. rewrite Heq. split_and!; [done|done|].
      apply Hall; [|done]. by apply list_elem_of_filter.
    + destruct (Hedge e He Hold) as (r & t0' & Hr & Ht0' & Hle').
      destruct (Hstay _ Hold) as [_ Hne].
      exists r, t. rewrite (Hother _ Hne). split_and!; [done|done|].
      rewrite Ht0 in Ht0'. injection Ht0' as <-. lia.
  - intros u Hu. destruct (Hmin u Hu) as (t0 & Ht0 & Hpos & Hwit).
    destruct (updateTarget_minRank vals store1 outs rm Houts _ _ _ _ u t0 Hfold Ht0)
      as (t & Htt & Hle & _ & Hex).
    exists t. split_and!; [done|lia|].
    destruct Hex as [->|(e & He & Hte & ->)].
    + destruct Hwit as [->|(e & r & He & Hte & Hq & Hr & ->)]; [by left|].
      destruct (Hstay _ Hq) as [Hq' Hne].
      right. exists e, r. rewrite (Hother _ Hne). done.
    + right. exists e, rm. apply list_elem_of_filter in He as [Hs He].
      split_and!; try done.
      * rewrite Hs, Hkeys. by intros [? _]%list_elem_of_filter.
      * by rewrite Hs.
Qed.


Lemma initRankLoop_feasible fuel g vals :
  wfView g → ∀ store minRank pq store',
  kahnInv g store minRank pq → rankInv g vals store minRank pq →
  initRankLoop fuel g vals store minRank pq = Ok store' →
  ∃ minRank', rankInv g vals store' minRank' [].
Proof.
  intros Hwf. induction fuel as [|fuel IH]; intros store minRank pq store' Hk Hr.
  - simpl. destruct (pqMin pq) as [m|] eqn:Hmin; [done|].
    apply pqMin_None in Hmin as ->. intros [= <-]. by exists minRank.
  - simpl. destruct (pqMin pq) as [m|] eqn:Hmin; cycle 1.
    { apply pqMin_None in Hmin as ->. intros [= <-]. by exists minRank. }
    destruct (Z.ltb_spec 0 (pqPriority pq m)) as [|Hle]; [done|].
    assert (pqPriority pq m = 0%Z) as Hzero.
    { pose proof Hk as (Hnd & _ & Hprio & _).
      destruct (pqMin_spec pq m Hnd Hmin) as [Hm _].
      rewrite (Hprio m Hm) in *. lia. }
    destruct (fold_left _ _ _) as [mr' pq'] eqn:Hfold.
    apply IH.
    + by apply (kahnInv_step g vals store minRank pq m mr' pq').
    + by apply (rankInv_step g vals store minRank pq m mr' pq').
Qed.

(** X4. When [initRank] returns, the ranks are a longest-path layering:
    for every edge [(u, v)], [rank(v) ≥ rank(u) + minLen(u, v)], where an
    edge without [minLen] counts 1; every rank is at least 0, and a node
    whose rank is not 0 has an incoming edge that is tight.  In
    particular a node without incoming edges has rank 0. *)
Theorem initRank_feasible g vals store store' :
  wfView g → (∀ u, u ∈ v_nodes g → u ∈ store.*1) →
  initRank g vals store = Ok store' →
  (∀ e, e ∈ v_edges g →
     ∃ ru rv, rankIn store' (esource e) = Some ru ∧
              rankIn store' (etarget e) = Some rv ∧
              (ru + minLenOf vals e ≤ rv)%Z)
  ∧ (∀ u, u ∈ v_nodes g →
       ∃ r, rankIn store' u = Some r ∧ (0 ≤ r)%Z ∧
            (r = 0%Z ∨
             ∃ e ru, e ∈ v_edges g ∧ etarget e = u ∧
                     rankIn store' (esource e) = Some ru ∧
                     r = (ru + minLenOf vals e)%Z)).
Proof.
  intros Hwf Hstore Hinit. unfold initRank in Hinit.
  pose proof (kahnInv_init g store Hwf Hstore) as Hk.
  set (pq0 := fold_left _ (v_nodes g) []) in *.
  set (mr0 := (λ u, (u, Some 0%Z)) <$> v_nodes g) in *.
  assert (pq0.*1 = v_nodes g) as Hkeys.
  { unfold pq0. rewrite pqAdd_fold. simpl. rewrite <- list_fmap_compose.
    apply list_fmap_id. }
  pose proof Hwf as [Hnd Hclosed]. rewrite Forall_forall in Hclosed.
  assert (rankInv g vals store mr0 pq0) as Hr.
  { unfold rankInv. rewrite Hkeys. split_and!.
    - intros u Hu Hn. done.
    - intros e He Hn. by destruct (Hclosed e He) as [Hs _].
    - intros u Hu. exists 0%Z. split_and!; [|done|by left].
      unfold minRankOf, mr0. rewrite (assoc_NoDup _ u (Some 0%Z)); [done| |].
      + rewrite <- list_fmap_compose. by rewrite list_fmap_id.
      + apply list_elem_of_fmap. by exists u. }
  destruct (initRankLoop_feasible _ g vals Hwf store mr0 pq0 store' Hk Hr Hinit)
    as (mr & Hdone & Hedge & Hmin).
  split.
  - intros e He. destruct (Hclosed e He) as [_ Ht].
    destruct (Hedge e He (not_elem_of_nil _)) as (r & t & Hr' & Ht' & Hle).
    destruct (Hdone (etarget e) Ht (not_elem_of_nil _)) as [Hrt _].
    exists r, t. by rewrite Hrt.
  - intros u Hu. destruct (Hmin u Hu) as (t & Ht & Hpos & Hwit).
    destruct (Hdone u Hu (not_elem_of_nil _)) as [Hru _].
    exists t. rewrite Hru. split_and!; [done..|].
    destruct Hwit as [->|(e & r & He & Hte & _ & Hr' & ->)]; [by left|].
    right. by exists e, r.
Qed.

Lemma initRank_feasible_witness :
  let g := initLayoutGraph fourNodes in
  ∃ store', initRank (viewOf g) (values g) (nodes g) = Ok store' ∧
    ∀ e, e ∈ v_edges (viewOf g) →
      ∃ ru rv, rankIn store' (esource e) = Some ru ∧
               rankIn store' (etarget e) = Some rv ∧
               (ru + minLenOf (values g) e ≤ rv)%Z.
Proof.
  intros g.
  destruct (initRank (viewOf g) (values g) (nodes g)) as [store'|] eqn:Hinit;
    [|by vm_compute in Hinit].
  exists store'. split; [done|].
  apply (initRank_feasible (viewOf g) (values g) (nodes g) store').
  - exact fourNodes_wfView.
  - intros u Hu. exact Hu.
  - exact Hinit.
Defined.


(** ** normalize of lib/rank.js *)

Lemma fold_min_spec (l : list Z) (a : Z) :
  (fold_left Z.min l a ≤ a)%Z ∧ (∀ x, x ∈ l → (fold_left Z.min l a ≤ x)%Z) ∧
  (fold_left Z.min l a = a ∨ fold_left Z.min l a ∈ l).
Proof.
  revert a. induction l as [|x l IH]; intros a; simpl.
  - split_and!; [lia| |by left]. by intros ? ?%elem_of_nil.
  - destruct (IH (Z.min a x)) as (Hle & Hall & Hin). split_and!.
    + lia.
    + intros y [->|Hy]%elem_of_cons; [lia|by apply Hall].
    + destruct Hin as [Heq|Hin]; [|right; by right].
      destruct (Z.min_spec a x) as [[_ Hm]|[_ Hm]].
      * left. congruence.
      * right. rewrite Heq, Hm. by left.
Qed.

Lemma omap_ranks (store : list (NodeId * NodeValue)) (us : list NodeId) :
  (∀ u, u ∈ us → is_Some (rankIn store u)) →
  Some <$> omap (rankIn store) us = rankIn store <$> us.
Proof.
  induction us as [|u us IH]; intros Hall; [done|]. csimpl.
  destruct (Hall u ltac:(by left)) as [r Hr]. rewrite Hr. csimpl.
  rewrite IH; [done|]. intros v Hv. apply Hall. by right.
Qed.

Lemma rankIn_shift us m : NoDup us → ∀ s x,
  rankIn (fold_left (λ s u, storeUpd s u (λ a, set_rank (nsub (nv_rank a) m) a)) us s) x
  = if decide (x ∈ us) then nsub (rankIn s x) m else rankIn s x.
Proof.
  induction 1 as [|u us Hu Hnd IH]; intros s x; cbn [fold_left].
  - by rewrite decide_False by apply not_elem_of_nil.
  - rewrite IH.
    assert (rankIn (storeUpd s u (λ a, set_rank (nsub (nv_rank a) m) a)) x
            = if String.eqb u x then nsub (rankIn s x) m else rankIn s x) as ->.
    { unfold rankIn. rewrite assoc_storeUpd.
      destruct (String.eqb u x); [|done]. by destruct (assoc x s). }
    destruct (String.eqb_spec u x) as [->|Hne].
    + rewrite decide_False by done. by rewrite decide_True by by left.
    + destruct (decide (x ∈ us)) as [Hin|Hnin].
      * by rewrite decide_True by by right.
      * rewrite decide_False; [done|]. by intros [?|?]%elem_of_cons.
Qed.

(** X5. [normalize] of lib/rank.js shifts the ranks of the nodes of the
    graph so that the least of them is 0: for a graph with at least one
    node, all ranked, every rank is lowered by the least rank [m] (so the
    difference of two ranks is what it was), some node has rank 0, and
    the nodes outside the graph keep their rank. *)
Theorem normalizeRanks_shift g store :
  NoDup (v_nodes g) → v_nodes g ≠ [] →
  (∀ u, u ∈ v_nodes g → is_Some (rankIn store u)) →
  ∃ m,
    (∀ u, u ∈ v_nodes g →
       ∃ r, rankIn store u = Some r ∧ (m ≤ r)%Z ∧
            rankIn (normalizeRanks g store) u = Some (r - m)%Z)
    ∧ (∃ u, u ∈ v_nodes g ∧ rankIn (normalizeRanks g store) u = Some 0%Z)
    ∧ (∀ u, u ∉ v_nodes g → rankIn (normalizeRanks g store) u = rankIn store u).
Proof.
  intros Hnd Hne Hall. unfold normalizeRanks, minRankIn.
  assert (forallb (λ u, bool_decide (is_Some (rankIn store u))) (v_nodes g) = true)
    as ->.
  { apply forallb_forall. intros u Hu%list_elem_of_In.
    by apply bool_decide_eq_true_2, Hall. }
  pose proof (omap_ranks store (v_nodes g) Hall) as Hranks.
  destruct (omap (rankIn store) (v_nodes g)) as [|r0 rs] eqn:Hom.
  { destruct (v_nodes g); [done|discriminate]. }
  set (m := fold_left Z.min rs r0).
  destruct (fold_min_spec rs r0) as (Hle & Hmin & Hatt). fold m in Hle, Hmin, Hatt.
  assert (∀ u r, u ∈ v_nodes g → rankIn store u = Some r → (m ≤ r)%Z) as Hlow.
  { intros u r Hu Hr.
    assert (Some r ∈ Some <$> r0 :: rs) as Hin.
    { rewrite Hranks, <- Hr. apply list_elem_of_fmap. by exists u. }
    apply list_elem_of_fmap in Hin as (r' & [= <-] & [->|Hin]%elem_of_cons); auto. }
  assert (∃ u, u ∈ v_nodes g ∧ rankIn store u = Some m) as (u0 & Hu0 & Hr0).
  { assert (Some m ∈ rankIn store <$> v_nodes g) as Hin.
    { rewrite <- Hranks. apply list_elem_of_fmap. exists m. split; [done|].
      destruct Hatt as [->|Hin]; [by left|by right]. }
    apply list_elem_of_fmap in Hin as (u & Hu & Hin). by exists u. }
  exists m. split_and!.
  - intros u Hu. destruct (Hall u Hu) as [r Hr]. exists r.
    split_and!; [done|by apply (Hlow u)|].
    by rewrite rankIn_shift, decide_True, Hr by done.
  - exists u0. split; [done|].
    rewrite rankIn_shift, decide_True, Hr0 by done. simpl. f_equal. lia.
  - intros u Hu. by rewrite rankIn_shift, decide_False by done.
Qed.

Lemma normalizeRanks_shift_witness :
  let g := mkView ["a"; "b"] [] None 0 in
  let store := [("a", set_rank (Some 5%Z) (plainNode None None));
                ("b", set_rank (Some 3%Z) (plainNode None None))] in
  ∃ m, (∀ u, u ∈ v_nodes g →
          ∃ r, rankIn store u = Some r ∧ (m ≤ r)%Z ∧
               rankIn (normalizeRanks g store) u = Some (r - m)%Z).
Proof.
  intros g store.
  destruct (normalizeRanks_shift g store) as (m & Hall & _).
  - apply (bool_decide_unpack _). by vm_compute.
  - done.
  - intros u Hu. repeat (apply elem_of_cons in Hu as [->|Hu]; [by eexists|]).
    by apply elem_of_nil in Hu.
  - by exists m.
Defined.


(** ** incidenceId *)

Lemma pretty_N_go_noColon x s : noColon s → noColon (pretty_N_go x s).
Proof.
  revert s. induction (N.lt_wf_0 x) as [x _ IH]; intros s Hs.
  assert (x = 0 ∨ 0 < x)%N as [->|Hpos] by lia.
  - by rewrite pretty_N_go_0.
  - rewrite pretty_N_go_step by done. apply IH.
    { by apply N.div_lt. }
    split; [|done]. unfold pretty_N_char. by repeat case_match.
Qed.

Lemma pretty_nat_noColon (n : nat) : noColon (pretty n).
Proof.
  unfold pretty, pretty_nat, pretty, pretty_N. case_decide.
  - by split.
  - by apply pretty_N_go_noColon.
Qed.

Lemma append_nil s : "" +:+ s = s.
Proof. reflexivity. Qed.

Lemma append_cons c a s : String c a +:+ s = String c (a +:+ s).
Proof. reflexivity. Qed.

Lemma split_colon d d' r r' :
  noColon d → noColon d' → d +:+ ":" +:+ r = d' +:+ ":" +:+ r' → d = d' ∧ r = r'.
Proof.
  revert d'. induction d as [|c d IH]; intros [|c' d'];
    rewrite ?append_nil, ?append_cons, ?append_nil; simpl.
  - intros _ _ [= ->]. done.
  - intros _ [Hc _] [= <-]. done.
  - intros [Hc _] _ [= ->]. done.
  - intros [_ Hd] [_ Hd'] [= -> Heq]. destruct (IH d' Hd Hd' Heq) as [-> ->]. done.
Qed.

Lemma split_length a a' r r' :
  String.length a = String.length a' → a +:+ r = a' +:+ r' → a = a' ∧ r = r'.
Proof.
  revert a'. induction a as [|c a IH]; intros [|c' a'];
    rewrite ?append_nil, ?append_cons; simpl; try done.
  intros [= Hlen] [= -> Heq]. destruct (IH a' Hlen Heq) as [-> ->]. done.
Qed.

Lemma incidence_inj a b a' b' :
  pretty (String.length a) +:+ ":" +:+ a +:+ "-" +:+ b
  = pretty (String.length a') +:+ ":" +:+ a' +:+ "-" +:+ b' →
  a = a' ∧ b = b'.
Proof.
  intros [Hlen Hrest]%split_colon; [|apply pretty_nat_noColon..].
  apply (inj pretty) in Hlen.
  apply split_length in Hrest as [-> Hb]; [|done].
  rewrite !append_cons, !append_nil in Hb. by injection Hb as ->.
Qed.

Lemma ltb_cases u v :
  (String.ltb u v = true ∧ String.ltb v u = false) ∨
  (String.ltb u v = false ∧ String.ltb v u = true) ∨
  (String.ltb u v = false ∧ String.ltb v u = false ∧ u = v).
Proof.
  unfold String.ltb. rewrite (String.compare_antisym v u).
  destruct (String.compare u v) eqn:Hc; simpl; [|tauto..].
  right. right. apply String.compare_eq_iff in Hc. done.
Qed.

(** X6. [incidenceId] names the unordered pair of its arguments: two
    calls return the same id exactly when they are given the same two
    nodes, in either order.  (The length that the id starts with makes
    it unambiguous, whatever characters the node ids contain.) *)
Theorem incidenceId_pair u v u' v' :
  incidenceId u v = incidenceId u' v' ↔ (u = u' ∧ v = v') ∨ (u = v' ∧ v = u').
Proof.
  unfold incidenceId. split.
  - destruct (String.ltb u v), (String.ltb u' v');
      intros [-> ->]%incidence_inj; tauto.
  - intros [[-> ->]|[-> ->]]; [done|].
    destruct (ltb_cases u' v') as [[-> ->]|[[-> ->]|(-> & -> & ->)]]; done.
Qed.


(** ** feasibleTree: the minLen array *)

Lemma incidenceId_sym u v : incidenceId u v = incidenceId v u.
Proof.
  unfold incidenceId.
  destruct (ltb_cases u v) as [[-> ->]|[[-> ->]|(-> & -> & ->)]]; done.
Qed.

Lemma incidenceId_inv u v u' v' :
  incidenceId u v = incidenceId u' v' → (u = u' ∧ v = v') ∨ (u = v' ∧ v = u').
Proof.
  unfold incidenceId.
  destruct (String.ltb u v), (String.ltb u' v');
    intros [-> ->]%incidence_inj; tauto.
Qed.

Lemma collapseInv_step vals seen l ed :
  collapseInv vals seen l → collapseInv vals (seen ++ [ed]) (collapseEdge vals l ed).
Proof.
  intros (Hnd & Hid & Hcov & Hent). unfold collapseEdge.
  set (id := incidenceId (esource ed) (etarget ed)).
  set (l1 := match assoc id l with
             | Some _ => l
             | None => l ++ [(id, mkMLE (eid ed) (esource ed) (etarget ed) 0)]
             end).
  set (f := λ m, mkMLE (mle_e m) (mle_u m) (mle_v m)
                   (Z.max (mle_len m) (minLenOf vals ed))).
  change (map _ l1) with (map (λ p, if String.eqb p.1 id then (p.1, f p.2) else p) l1).
  assert (NoDup l1.*1 ∧ (∀ p, p ∈ l → p ∈ l1) ∧
          (∃ m, (id, m) ∈ l1) ∧
          (∀ k m, (k, m) ∈ l1 →
                  (k, m) ∈ l ∨ (k, m) = (id, mkMLE (eid ed) (esource ed) (etarget ed) 0)))
    as (Hnd1 & Hsub & [m0 Hm0] & Hl1).
  { unfold l1. destruct (assoc id l) as [m|] eqn:Ha.
    - split_and!; [done|done| |by left]. exists m. by apply assoc_elem.
    - apply assoc_None in Ha. split_and!.
      + rewrite fmap_app. apply NoDup_app. split_and!; [done| |apply NoDup_singleton].
        intros k Hk ->%list_elem_of_singleton. done.
      + intros p Hp. apply elem_of_app. by left.
      + eexists. apply elem_of_app. right. by apply list_elem_of_singleton.
      + intros k m [?| ->%list_elem_of_singleton]%elem_of_app; [by left|by right]. }
  assert (∀ k m', (k, m') ∈ map (λ p, if String.eqb p.1 id then (p.1, f p.2) else p) l1 ↔
                  ∃ m, (k, m) ∈ l1 ∧ m' = if String.eqb k id then f m else m) as Hmap.
  { intros k m'. change (map ?g l1) with (g <$> l1). rewrite list_elem_of_fmap. split.
    - intros ([k0 m] & Heq & Hin). simpl in Heq.
      destruct (String.eqb k0 id) eqn:Hk; injection Heq as -> ->;
        exists m; by rewrite Hk.
    - intros (m & Hin & ->). exists (k, m). split; [|done]. simpl.
      by destruct (String.eqb k id). }
  split_and!.
  - by rewrite upd_keys.
  - intros k m' (m & Hin & ->)%Hmap.
    assert (k = incidenceId (mle_u m) (mle_v m)) as Hk.
    { destruct (Hl1 k m Hin) as [Hold|[= -> ->]]; [by apply Hid|done]. }
    by destruct (String.eqb k id).
  - intros ed' [Hed'| ->%list_elem_of_singleton]%elem_of_app.
    + destruct (Hcov ed' Hed') as (m & Hin & Hle).
      eexists. split; [apply Hmap; exists m; split; [by apply Hsub|done]|].
      destruct (String.eqb _ id); simpl; lia.
    + eexists. split; [apply Hmap; exists m0; split; [done|reflexivity]|].
      fold id. rewrite String.eqb_refl. simpl. lia.
  - intros k m' (m & Hin & ->)%Hmap.
    assert ((0 ≤ mle_len m)%Z ∧
            (∃ ed0, ed0 ∈ seen ++ [ed] ∧ mle_e m = eid ed0 ∧ mle_u m = esource ed0 ∧
                    mle_v m = etarget ed0) ∧
            (mle_len m = 0%Z ∨
             ∃ ed0, ed0 ∈ seen ++ [ed] ∧
                    incidenceId (esource ed0) (etarget ed0) = k ∧
                    mle_len m = minLenOf vals ed0)) as (Hpos & Hrep & Hwit).
    { destruct (Hl1 k m Hin) as [Hold|[= -> ->]].
      - destruct (Hent k m Hold) as (Hpos & (e0 & He0 & Hq) & Hwit).
        split_and!; [done| |].
        + exists e0. split; [apply elem_of_app; by left|done].
        + destruct Hwit as [?|(e1 & He1 & Hq1)]; [by left|]. right.
          exists e1. split; [apply elem_of_app; by left|done].
      - simpl. split_and!; [done| |by left].
        exists ed. split; [apply elem_of_app; right; by apply list_elem_of_singleton|done]. }
    destruct (String.eqb_spec k id) as [->|Hne]; [|done].
    unfold f. simpl. split_and!; [lia|done|].
    destruct (Z.max_spec (mle_len m) (minLenOf vals ed)) as [[_ ->]|[_ ->]]; [|done].
    right. exists ed.
    split; [apply elem_of_app; right; by apply list_elem_of_singleton|done].
Qed.

Lemma collapseInv_fold vals es seen l :
  collapseInv vals seen l →
  collapseInv vals (seen ++ es) (fold_left (collapseEdge vals) es l).
Proof.
  revert seen l. induction es as [|ed es IH]; intros seen l Hinv; simpl.
  - by rewrite app_nil_r.
  - rewrite (cons_middle ed seen es), app_assoc. apply IH.
    by apply collapseInv_step.
Qed.


Lemma collapseInv_all vals es :
  collapseInv vals es (fold_left (collapseEdge vals) es []).
Proof.
  apply (collapseInv_fold vals es [] []). split_and!.
  - constructor.
  - by intros ?? ?%elem_of_nil.
  - by intros ? ?%elem_of_nil.
  - by intros ?? ?%elem_of_nil.
Qed.

Lemma elem_of_snd {A B} (l : list (A * B)) b : b ∈ l.*2 ↔ ∃ a, (a, b) ∈ l.
Proof.
  rewrite list_elem_of_fmap. split.
  - intros ([a b'] & -> & Hin). by exists a.
  - intros [a Hin]. by exists (a, b).
Qed.

(** X7. The [minLen] array that [feasibleTree] builds collapses the
    multi-edges: it has exactly one entry for every pair of nodes that
    some edge joins, in either direction.  The entry carries the id and
    the ends of the first such edge, and its [len] is the greatest
    [minLen] of these edges (an edge without [minLen] counts 1), but not
    less than 0. *)
Theorem collapseEdge_groups vals es :
  let minLen := (fold_left (collapseEdge vals) es []).*2 in
  (∀ ed, ed ∈ es →
     ∃ mle, mle ∈ minLen ∧ sameEnds (mle_u mle) (mle_v mle) ed ∧
            (minLenOf vals ed ≤ mle_len mle)%Z)
  ∧ (∀ mle, mle ∈ minLen →
       (0 ≤ mle_len mle)%Z ∧
       (∃ ed, ed ∈ es ∧ eid ed = mle_e mle ∧ esource ed = mle_u mle ∧
              etarget ed = mle_v mle) ∧
       (mle_len mle = 0%Z ∨
        ∃ ed, ed ∈ es ∧ sameEnds (mle_u mle) (mle_v mle) ed ∧
              mle_len mle = minLenOf vals ed))
  ∧ (∀ mle mle', mle ∈ minLen → mle' ∈ minLen →
       (mle_u mle = mle_u mle' ∧ mle_v mle = mle_v mle') ∨
       (mle_u mle = mle_v mle' ∧ mle_v mle = mle_u mle') →
       mle = mle').
Proof.
  intros minLen. unfold minLen.
  destruct (collapseInv_all vals es) as (Hnd & Hid & Hcov & Hent). split_and!.
  - intros ed Hed. destruct (Hcov ed Hed) as (mle & Hin & Hle).
    exists mle. split_and!; [apply elem_of_snd; eauto| |done].
    apply Hid in Hin. unfold sameEnds.
    destruct (incidenceId_inv _ _ _ _ Hin) as [[-> ->]|[-> ->]]; tauto.
  - intros mle [id Hin]%elem_of_snd.
    destruct (Hent id mle Hin) as (Hpos & (e0 & He0 & Hq1 & Hq2 & Hq3) & Hwit).
    split_and!; [done|by exists e0|].
    destruct Hwit as [?|(e1 & He1 & Hk & Hl)]; [by left|]. right.
    exists e1. split_and!; [done| |done].
    rewrite (Hid id mle Hin) in Hk. unfold sameEnds.
    destruct (incidenceId_inv _ _ _ _ Hk) as [[-> ->]|[-> ->]]; tauto.
  - intros mle mle' [id Hin]%elem_of_snd [id' Hin']%elem_of_snd Hpair.
    assert (id = id') as <-.
    { rewrite (Hid id mle Hin), (Hid id' mle' Hin').
      destruct Hpair as [[-> ->]|[-> ->]]; [done|apply incidenceId_sym]. }
    pose proof (assoc_NoDup _ _ _ Hnd Hin) as H1.
    pose proof (assoc_NoDup _ _ _ Hnd Hin') as H2. congruence.
Qed.


(** ** feasibleTree: the spanning tree *)

Lemma findMinSlack_Some store remaining minLen res :
  findMinSlack store remaining minLen = Some res →
  ms_mle res ∈ minLen ∧ (ms_treeNode res ∉ remaining) ∧ ms_graphNode res ∈ remaining ∧
  ((ms_treeNode res = mle_u (ms_mle res) ∧ ms_graphNode res = mle_v (ms_mle res) ∧
    ms_len res = mle_len (ms_mle res)) ∨
   (ms_treeNode res = mle_v (ms_mle res) ∧ ms_graphNode res = mle_u (ms_mle res) ∧
    ms_len res = (- mle_len (ms_mle res))%Z)) ∧
  is_Some (slack store (ms_mle res)).
Proof.
  unfold findMinSlack.
  set (P := λ (seen : list MinLenEntry) (st : option MinSlack * option Z),
    ∀ res, st.1 = Some res →
      ms_mle res ∈ seen ∧ (ms_treeNode res ∉ remaining) ∧ ms_graphNode res ∈ remaining ∧
      ((ms_treeNode res = mle_u (ms_mle res) ∧ ms_graphNode res = mle_v (ms_mle res) ∧
        ms_len res = mle_len (ms_mle res)) ∨
       (ms_treeNode res = mle_v (ms_mle res) ∧ ms_graphNode res = mle_u (ms_mle res) ∧
        ms_len res = (- mle_len (ms_mle res))%Z)) ∧
      is_Some (slack store (ms_mle res))).
  assert (∀ l seen st, P seen st →
            P (seen ++ l) (fold_left (findMinSlackStep store remaining) l st)) as Hfold.
  { induction l as [|mle l IH]; intros seen st Hst; simpl.
    - by rewrite app_nil_r.
    - rewrite (cons_middle mle seen l), app_assoc. apply IH.
      destruct st as [result eSlack]. unfold findMinSlackStep, has.
      assert (P (seen ++ [mle]) (result, eSlack)) as Hkeep.
      { intros r Hr. destruct (Hst r Hr) as (Hin & Hrest).
        split; [apply elem_of_app; by left|done]. }
      destruct (bool_decide (mle_u mle ∈ remaining)) eqn:Hu;
        destruct (bool_decide (mle_v mle ∈ remaining)) eqn:Hv; simpl; try done.
      + destruct (lessThan (slack store mle) eSlack) eqn:Hlt; [|done].
        intros r [= <-]. simpl.
        apply bool_decide_eq_true in Hu. apply bool_decide_eq_false in Hv.
        split_and!; [apply elem_of_app; right; by apply list_elem_of_singleton
                    |done|done|by right|].
        destruct (slack store mle); [by eexists|done].
      + destruct (lessThan (slack store mle) eSlack) eqn:Hlt; [|done].
        intros r [= <-]. simpl.
        apply bool_decide_eq_false in Hu. apply bool_decide_eq_true in Hv.
        split_and!; [apply elem_of_app; right; by apply list_elem_of_singleton
                    |done|done|by left|].
        destruct (slack store mle); [by eexists|done]. }
  intros Hres. apply (Hfold minLen [] (None, None)); [|done]. by intros r.
Qed.

Lemma slack_zero store mle ru rv :
  rankIn store (mle_u mle) = Some ru → rankIn store (mle_v mle) = Some rv →
  slack store mle = Some (Z.abs (ru - rv) - mle_len mle)%Z.
Proof. intros Hu Hv. unfold slack. by rewrite Hu, Hv. Qed.

Lemma slack_Some store mle :
  is_Some (slack store mle) →
  ∃ ru rv, rankIn store (mle_u mle) = Some ru ∧ rankIn store (mle_v mle) = Some rv.
Proof.
  unfold slack. intros [s Hs].
  destruct (rankIn store (mle_u mle)) as [ru|]; [|done].
  destruct (rankIn store (mle_v mle)) as [rv|]; [|done]. eauto.
Qed.


Lemma feasibleTreeLoop_inv fuel vnodes minLen :
  (∀ mle, mle ∈ minLen →
          (0 ≤ mle_len mle)%Z ∧ mle_u mle ∈ vnodes ∧ mle_v mle ∈ vnodes) →
  ∀ store remaining tree store' tree',
  treeInv vnodes minLen store remaining tree →
  feasibleTreeLoop fuel minLen store remaining tree = Ok (store', tree') →
  treeInv vnodes minLen store' [] tree' ∧ t_root tree' = t_root tree ∧
  (∀ u, u ∈ t_nodes tree → rankIn store' u = rankIn store u).
Proof.
  intros Hml. induction fuel as [|fuel IH]; intros store remaining tree store' tree' Hinv.
  - simpl. destruct remaining; [|done]. by intros [= <- <-].
  - simpl. destruct remaining as [|r0 rs] eqn:Hrem; [by intros [= <- <-]|].
    rewrite <- Hrem in *. clear Hrem.
    destruct (findMinSlack store remaining minLen) as [res|] eqn:Hmin; [|done].
    apply findMinSlack_Some in Hmin as (Hmle & Htn & Hgn & Hdir & Hslack).
    destruct Hinv as (Hnd & Hdisj & Hcover & Hlen & Hedges).
    destruct (Hml _ Hmle) as (Hpos & Hu & Hv).
    set (gn := ms_graphNode res) in *. set (tn := ms_treeNode res) in *.
    set (mle := ms_mle res) in *.
    set (store1 := storeUpd store gn _).
    assert (gn ∉ t_nodes tree) as Hgn' by (intros Hin; by apply (Hdisj gn)).
    assert (tn ∈ t_nodes tree) as Htn'.
    { assert (tn ∈ vnodes) as Hin by (destruct Hdir as [(-> & _)|(-> & _)]; done).
      apply Hcover in Hin as [?|?]; done. }
    assert (∀ x, x ≠ gn → rankIn store1 x = rankIn store x) as Hother.
    { intros x Hne. unfold store1. rewrite rankIn_storeUpd.
      by rewrite (proj2 (String.eqb_neq gn x)) by done. }
    destruct (slack_Some store mle Hslack) as (ru & rv & Hru & Hrv).
    intros Hloop. apply IH in Hloop as (Hinv' & Hroot & Hranks).
    + split_and!; [done|done|].
      intros u Hu'. rewrite Hranks by (simpl; apply elem_of_app; by left).
      apply Hother. by intros ->.
    + unfold treeInv. cbn [t_nodes t_edges]. split_and!.
      * apply NoDup_app. split_and!; [done| |apply NoDup_singleton].
        intros x Hx ->%list_elem_of_singleton. done.
      * intros x [Hx| ->%list_elem_of_singleton]%elem_of_app
          [Hne Hin]%list_elem_of_filter; [by apply (Hdisj x)|done].
      * intros x. rewrite Hcover, elem_of_app, list_elem_of_singleton,
          list_elem_of_filter.
        destruct (decide (x = gn)) as [->|Hne]; [tauto|]. tauto.
      * rewrite !length_app. simpl. lia.
      * intros te [Hte| ->%list_elem_of_singleton]%elem_of_app.
        -- destruct (Hedges te Hte) as (m & Hm & Hid & Hends & Hmu & Hmv & Hs).
           exists m. split_and!; try done; try (apply elem_of_app; by left).
           destruct (slack_Some store m) as (ru' & rv' & Hru' & Hrv');
             [by rewrite Hs|].
           rewrite (slack_zero store m ru' rv') in Hs by done.
           rewrite (slack_zero store1 m ru' rv'); [done| |].
           ++ rewrite Hother; [done|]. intros Heq. by rewrite Heq in Hmu.
           ++ rewrite Hother; [done|]. intros Heq. by rewrite Heq in Hmv.
        -- exists mle. cbn [te_id te_source te_target].
           assert (gn ≠ tn) as Hne by (intros Heq; rewrite Heq in Hgn; done).
           assert (rankIn store1 gn
                   = nadd (rankIn store tn) (Some (ms_len res))) as Hgr.
           { unfold store1. rewrite rankIn_storeUpd, String.eqb_refl.
             assert (is_Some (assoc gn store)) as [a ->]; [|done].
             destruct Hdir as [(_ & Hg & _)|(_ & Hg & _)]; fold gn in Hg;
               unfold rankIn in Hru, Hrv; rewrite Hg;
               [destruct (assoc (mle_v mle) store)|destruct (assoc (mle_u mle) store)];
               eauto; done. }
           split_and!; [done|done| | | |].
           ++ destruct Hdir as [(-> & -> & _)|(-> & -> & _)]; tauto.
           ++ apply elem_of_app.
              destruct Hdir as [(Ht & Hg & _)|(Ht & Hg & _)]; fold tn in Ht; fold gn in Hg.
              ** left. by rewrite <- Ht.
              ** right. rewrite <- Hg. by apply list_elem_of_singleton.
           ++ apply elem_of_app.
              destruct Hdir as [(Ht & Hg & _)|(Ht & Hg & _)]; fold tn in Ht; fold gn in Hg.
              ** right. rewrite <- Hg. by apply list_elem_of_singleton.
              ** left. by rewrite <- Ht.
           ++ destruct Hdir as [(Ht & Hg & Hl)|(Ht & Hg & Hl)];
                fold tn in Ht; fold gn in Hg; rewrite Hl in Hgr.
              ** rewrite (slack_zero store1 mle ru (ru + mle_len mle)).
                 --- f_equal. lia.
                 --- rewrite <- Ht, Hother by done. by rewrite Ht.
                 --- rewrite <- Hg, Hgr, Ht, Hru. done.
              ** rewrite (slack_zero store1 mle (rv - mle_len mle) rv).
                 --- f_equal. lia.
                 --- by rewrite <- Hg, Hgr, Ht, Hrv.
                 --- rewrite <- Ht, Hother by done. by rewrite Ht.
Qed.


Lemma sameEnds_sym u v ed : sameEnds u v ed ↔ sameEnds v u ed.
Proof. unfold sameEnds. tauto. Qed.

Lemma sameEnds_id u v ed :
  sameEnds u v ed ↔ incidenceId (esource ed) (etarget ed) = incidenceId u v.
Proof.
  unfold sameEnds. split.
  - intros [[-> ->]|[-> ->]]; [done|apply incidenceId_sym].
  - intros Heq. destruct (incidenceId_inv _ _ _ _ Heq); tauto.
Qed.

(** X8. When [feasibleTree] returns, the tree spans the graph and its
    edges are tight.  The tree has the nodes of the graph, the first of
    them as its root, and one edge less than nodes; the root keeps its
    rank.  Every tree edge carries the id of a graph edge between its two
    ends, and the distance in rank of its ends is the [len] of the
    collapsed multi-edge: at least the [minLen] of every graph edge
    between the two nodes, in either direction, and equal to one of
    them unless it is 0. *)
Theorem feasibleTree_tight g vals store store' tree :
  wfView g → feasibleTree g vals store = Ok (store', tree) →
  head (v_nodes g) = Some (t_root tree)
  ∧ rankIn store' (t_root tree) = rankIn store (t_root tree)
  ∧ t_nodes tree ≡ₚ v_nodes g
  ∧ length (t_edges tree) + 1 = length (v_nodes g)
  ∧ ∀ te, te ∈ t_edges tree →
      ∃ ed rs rt,
        ed ∈ v_edges g ∧ eid ed = te_id te ∧
        sameEnds (te_source te) (te_target te) ed ∧
        rankIn store' (te_source te) = Some rs ∧
        rankIn store' (te_target te) = Some rt ∧
        (∀ ed', ed' ∈ v_edges g → sameEnds (te_source te) (te_target te) ed' →
                (minLenOf vals ed' ≤ Z.abs (rs - rt))%Z) ∧
        (Z.abs (rs - rt) = 0%Z ∨
         ∃ ed', ed' ∈ v_edges g ∧ sameEnds (te_source te) (te_target te) ed' ∧
                Z.abs (rs - rt) = minLenOf vals ed').
Proof.
  intros [Hndg Hclosed] Hft. unfold feasibleTree in Hft.
  rewrite Forall_forall in Hclosed.
  destruct (v_nodes g) as [|root rest] eqn:Hnodes; [done|].
  destruct (collapseInv_all vals (v_edges g)) as (Hnd & Hid & Hcov & Hent).
  set (l := fold_left (collapseEdge vals) (v_edges g) []) in *.
  assert (∀ mle, mle ∈ l.*2 →
            (0 ≤ mle_len mle)%Z ∧ mle_u mle ∈ root :: rest ∧ mle_v mle ∈ root :: rest)
    as Hml.
  { intros mle [id Hin]%elem_of_snd.
    destruct (Hent id mle Hin) as (Hpos & (e0 & He0 & _ & -> & ->) & _).
    destruct (Hclosed e0 He0). done. }
  apply (feasibleTreeLoop_inv _ (root :: rest) l.*2 Hml) in Hft
    as ((HndT & _ & Hcover & Hlen & Hedges) & Hroot & Hranks); cycle 1.
  { unfold treeInv. cbn [t_nodes t_edges]. split_and!.
    - apply NoDup_singleton.
    - intros u ->%list_elem_of_singleton [Hne _]%list_elem_of_filter. done.
    - intros u. rewrite list_elem_of_singleton, list_elem_of_filter.
      destruct (decide (u = root)) as [->|Hne]; [|tauto].
      split; [tauto|]. intros _. by left.
    - done.
    - by intros te ?%elem_of_nil. }
  cbn [t_root t_nodes] in Hroot, Hranks.
  assert (t_nodes tree ≡ₚ root :: rest) as Hperm.
  { apply NoDup_Permutation; [done|done|]. intros x. rewrite Hcover.
    split; [tauto|]. intros [?|?%elem_of_nil]; done. }
  split_and!.
  - by rewrite Hroot.
  - rewrite Hroot. apply Hranks. by apply list_elem_of_singleton.
  - done.
  - rewrite Hlen. by apply Permutation_length.
  - intros te Hte.
    destruct (Hedges te Hte) as (mle & [id Hin]%elem_of_snd & Hteid & Hends & _ & _ & Hs).
    destruct (Hent id mle Hin) as (Hpos & (e0 & He0 & Hq1 & Hq2 & Hq3) & Hwit).
    pose proof (Hid id mle Hin) as Hkey.
    destruct (slack_Some store' mle) as (ru & rv & Hru & Hrv); [by rewrite Hs|].
    rewrite (slack_zero store' mle ru rv) in Hs by done.
    assert (Z.abs (ru - rv) = mle_len mle) as Habs by (injection Hs; lia).
    assert (∀ ed', ed' ∈ v_edges g → sameEnds (mle_u mle) (mle_v mle) ed' →
                   (minLenOf vals ed' ≤ mle_len mle)%Z) as Hmax.
    { intros ed' Hed' Hsame%sameEnds_id.
      destruct (Hcov ed' Hed') as (mle' & Hin' & Hle). rewrite Hsame, <- Hkey in Hin'.
      pose proof (assoc_NoDup _ _ _ Hnd Hin) as H1.
      pose proof (assoc_NoDup _ _ _ Hnd Hin') as H2.
      assert (mle' = mle) as -> by congruence. done. }
    assert (mle_len mle = 0%Z ∨
            ∃ ed', ed' ∈ v_edges g ∧ sameEnds (mle_u mle) (mle_v mle) ed' ∧
                   mle_len mle = minLenOf vals ed') as Hatt.
    { destruct Hwit as [?|(e1 & He1 & Hk & Hl)]; [by left|]. right.
      exists e1. split_and!; [done| |done]. apply sameEnds_id. congruence. }
    assert (sameEnds (mle_u mle) (mle_v mle) e0) as Hrep
      by (left; by rewrite Hq2, Hq3).
    destruct Hends as [[Hs1 Ht1]|[Hs1 Ht1]]; rewrite Hs1, Ht1.
    + exists e0, ru, rv. rewrite Habs. split_and!; try done. congruence.
    + exists e0, rv, ru.
      replace (Z.abs (rv - ru)) with (mle_len mle) by lia.
      split_and!; try done.
      * congruence.
      * by apply sameEnds_sym.
      * intros ed' Hed' Hsame%sameEnds_sym. by apply Hmax.
      * destruct Hatt as [?|(e1 & He1 & Hsame & Hl)]; [by left|]. right.
        exists e1. split_and!; [done|by apply sameEnds_sym|done].
Qed.

Lemma feasibleTree_tight_witness :
  let g := initLayoutGraph fourNodes in
  ∃ store0 store' tree,
    initRank (viewOf g) (values g) (nodes g) = Ok store0 ∧
    feasibleTree (viewOf g) (values g) store0 = Ok (store', tree) ∧
    t_nodes tree ≡ₚ v_nodes (viewOf g) ∧ length (t_edges tree) = 3.
Proof.
  intros g.
  destruct (initRank (viewOf g) (values g) (nodes g)) as [store0|] eqn:Hinit;
    [|by vm_compute in Hinit].
  destruct (feasibleTree (viewOf g) (values g) store0) as [[store' tree]|] eqn:Hft;
    [|vm_compute in Hinit; injection Hinit as <-; by vm_compute in Hft].
  exists store0, store', tree. split; [done|]. split; [done|].
  destruct (feasibleTree_tight (viewOf g) (values g) store0 store' tree
              fourNodes_wfView Hft) as (_ & _ & Hperm & Hlen & _).
  split; [exact Hperm|]. simpl in Hlen. lia.
Defined.


(** ** removeDupEdges *)

Lemma filter_drop_one (kept rest : list Edge) ed :
  NoDup (eid <$> kept ++ ed :: rest) →
  filter (λ e, eid e ≠ eid ed) (kept ++ ed :: rest) = kept ++ rest.
Proof.
  intros Hnd. rewrite fmap_app in Hnd. csimpl in Hnd.
  apply NoDup_app in Hnd as (Hk & Hdisj & [Hed Hr]%NoDup_cons).
  rewrite filter_app, filter_cons_False by (intros H; by apply H).
  rewrite !filter_all; [done| |].
  - apply Forall_forall. intros e He Heq. apply Hed. rewrite <- Heq.
    apply list_elem_of_fmap. by exists e.
  - apply Forall_forall. intros e He Heq. apply (Hdisj (eid e)).
    + apply list_elem_of_fmap. by exists e.
    + rewrite Heq. by left.
Qed.

Lemma removeDupEdges_fold rest : ∀ kept visited h,
  edges h = kept ++ rest → NoDup (eid <$> kept ++ rest) →
  let r := fold_left removeDupEdge rest (h, visited) in
  edges r.1 = kept ++ keepFirst (λ ed, ev_e (edgeValue h ed)) visited rest ∧
  nodes r.1 = nodes h ∧ values r.1 = values h ∧ nextId r.1 = nextId h.
Proof.
  induction rest as [|ed rest IH]; intros kept visited h Hedges Hnd; simpl.
  - by rewrite Hedges.
  - destruct (bool_decide (ev_e (edgeValue h ed) ∈ visited)) eqn:Hv.
    + destruct (IH kept (ev_e (edgeValue h ed) :: visited) (delEdge h (eid ed)))
        as (He & Hn & Hvals & Hid).
      * cbn [delEdge edges]. rewrite Hedges. by apply filter_drop_one.
      * rewrite fmap_app in *. csimpl in Hnd.
        apply NoDup_app in Hnd as (Hk & Hdisj & [Hed Hr]%NoDup_cons).
        apply NoDup_app. split_and!; [done| |done].
        intros x Hx Hx'. apply (Hdisj x Hx). by right.
      * split_and!; [|done..]. rewrite He. done.
    + destruct (IH (kept ++ [ed]) (ev_e (edgeValue h ed) :: visited) h)
        as (He & Hn & Hvals & Hid).
      * by rewrite <- app_assoc.
      * by rewrite <- app_assoc.
      * split_and!; [|done..]. rewrite He, <- app_assoc. done.
Qed.

Lemma keepFirst_elem key visited l x :
  x ∈ keepFirst key visited l ↔
  ∃ l1 l2, l = l1 ++ x :: l2 ∧ (key x ∉ visited) ∧ (key x ∉ key <$> l1).
Proof.
  split.
  - revert visited. induction l as [|y l IH]; intros visited; simpl.
    + by intros ?%elem_of_nil.
    + destruct (bool_decide_reflect (key y ∈ visited)) as [Hy|Hy].
      * intros Hx. destruct (IH _ Hx) as (l1 & l2 & -> & Hv & Hl1).
        exists (y :: l1), l2. split_and!; [done| |].
        -- intros Hin. apply Hv. by right.
        -- csimpl. intros [Heq|Hin]%elem_of_cons; [|done].
           apply Hv. rewrite Heq. by left.
      * intros [->|Hx]%elem_of_cons.
        -- exists [], l. split_and!; [done|done|apply not_elem_of_nil].
        -- destruct (IH _ Hx) as (l1 & l2 & -> & Hv & Hl1).
           exists (y :: l1), l2. split_and!; [done| |].
           ++ intros Hin. apply Hv. by right.
           ++ csimpl. intros [Heq|Hin]%elem_of_cons; [|done].
              apply Hv. rewrite Heq. by left.
  - intros (l1 & l2 & -> & Hv & Hl1). revert visited Hv.
    induction l1 as [|y l1 IH]; intros visited Hv; simpl.
    + rewrite bool_decide_eq_false_2 by done. by left.
    + csimpl in Hl1. apply not_elem_of_cons in Hl1 as [Hne Hl1].
      assert (x ∈ keepFirst key (key y :: visited) (l1 ++ x :: l2)) as Hin.
      { apply IH; [done|]. by intros [?|?]%elem_of_cons. }
      destruct (bool_decide (key y ∈ visited)); [done|by right].
Qed.

Lemma keepFirst_sublist key visited l : keepFirst key visited l `sublist_of` l.
Proof.
  revert visited. induction l as [|y l IH]; intros visited; simpl; [done|].
  destruct (bool_decide (key y ∈ visited)).
  - by apply sublist_cons.
  - by apply sublist_skip.
Qed.

Lemma keepFirst_NoDup key visited l :
  NoDup (key <$> keepFirst key visited l) ∧
  ∀ k, k ∈ key <$> keepFirst key visited l → k ∉ visited.
Proof.
  revert visited. induction l as [|y l IH]; intros visited; simpl.
  - split; [constructor|]. by intros ? ?%elem_of_nil.
  - destruct (IH (key y :: visited)) as [Hnd Hout].
    destruct (bool_decide_reflect (key y ∈ visited)) as [Hy|Hy].
    + split; [done|]. intros k Hk Hin. apply (Hout k Hk). by right.
    + csimpl. split.
      * apply NoDup_cons. split; [|done]. intros Hin. apply (Hout _ Hin). by left.
      * intros k [->|Hk]%elem_of_cons; [done|].
        intros Hin. apply (Hout k Hk). by right.
Qed.

(** X9. [removeDupEdges] keeps, of the edges that share one [e], the
    first: an edge of the graph is an edge of the result exactly when no
    earlier edge has its [e]; the edges kept are in their order, their
    [e]s are distinct, and nothing else of the graph changes.  (Edge ids
    are unique in a graph.) *)
Theorem removeDupEdges_first g :
  NoDup (edgeIds g) →
  let key := λ ed, ev_e (edgeValue g ed) in
  nodes (removeDupEdges g) = nodes g ∧ values (removeDupEdges g) = values g
  ∧ edges (removeDupEdges g) `sublist_of` edges g
  ∧ NoDup (key <$> edges (removeDupEdges g))
  ∧ ∀ x, x ∈ edges (removeDupEdges g) ↔
         ∃ l1 l2, edges g = l1 ++ x :: l2 ∧ (key x ∉ key <$> l1).
Proof.
  intros Hnd key. unfold removeDupEdges.
  destruct (removeDupEdges_fold (edges g) [] [] g eq_refl Hnd) as (He & Hn & Hv & _).
  cbn [app] in He. rewrite He. split_and!; [done|done| | |].
  - apply keepFirst_sublist.
  - apply keepFirst_NoDup.
  - intros x. rewrite keepFirst_elem. split.
    + intros (l1 & l2 & Heq & _ & Hl1). by exists l1, l2.
    + intros (l1 & l2 & Heq & Hl1). exists l1, l2.
      split_and!; [done|apply not_elem_of_nil|done].
Qed.


Lemma removeDupEdges_first_witness :
  let g := initLayoutGraph (undirectedEdge None) in
  edges g = [mkEdge "_1" "a" "b" 0; mkEdge "_2" "b" "a" 0]
  ∧ mkEdge "_1" "a" "b" 0 ∈ edges (removeDupEdges g)
  ∧ mkEdge "_2" "b" "a" 0 ∉ edges (removeDupEdges g).
Proof.
  intros g. split; [reflexivity|].
  assert (NoDup (edgeIds g)) as Hnd by (apply (bool_decide_unpack _); by vm_compute).
  destruct (removeDupEdges_first g Hnd) as (_ & _ & _ & Hkeys & Hiff). split.
  - apply Hiff. exists [], [mkEdge "_2" "b" "a" 0]. split; [reflexivity|].
    apply not_elem_of_nil.
  - intros (l1 & l2 & Heq & Hl1)%Hiff.
    destruct l1 as [|y [|z l1]]; [discriminate| |by destruct l1].
    injection Heq as <- _. apply Hl1. by left.
Defined.


(** ** initLayoutGraph *)

Lemma initNodes_nodes (l : list (NodeId * InputNode)) (g : Graph) :
  nodes (fold_left initNode l g)
  = nodes g ++
    ((λ p, (p.1, mkNodeValue (in_width p.2) (in_height p.2) None (in_rank p.2)
                   false None None None noPoint None None None)) <$> l).
Proof.
  revert g. induction l as [|[u a] l IH]; intros g; simpl.
  - by rewrite app_nil_r.
  - rewrite IH. unfold addNode. simpl. by rewrite <- app_assoc.
Qed.

Lemma initLayoutGraph_directed ig :
  isDirected ig = true →
  initLayoutGraph ig
  = mkGraph
      ((λ p, (p.1, mkNodeValue (in_width p.2) (in_height p.2) None (in_rank p.2)
                     false None None None noPoint None None None)) <$> in_nodes ig)
      (imap (λ k ie, mkEdge (autoId (S k)) (ie_source ie) (ie_target ie) k)
         (in_edges ig))
      (initValue <$> in_edges ig)
      (length (in_edges ig)).
Proof.
  intros Hd. unfold initLayoutGraph. rewrite Hd, initEdges_directed.
  rewrite initNodes_nodes.
  destruct (initNodes_edges (in_nodes ig) emptyGraph) as (-> & -> & ->).
  reflexivity.
Qed.

(** X10. The working graph that [initLayoutGraph] builds for a directed
    input graph.  When the edges of the input join nodes of the input and
    no node is named like a dummy node, the working graph is well formed:
    it has the nodes of the input, in their order, none ranked and none
    a dummy node; its edges are those of the input, in their order, under
    the generated ids [_1], [_2], …; and each edge has a value object of
    its own that records the id of the input edge as [e], has [minLen]
    [value.minLen || 1] and an empty [points] array. *)
Theorem initLayoutGraph_wfGraph ig :
  isDirected ig = true → wfInput ig →
  Forall (λ u, String.prefix "_D" u = false) (in_nodes ig).*1 →
  let g := initLayoutGraph ig in
  wfGraph g
  ∧ nodeIds g = (in_nodes ig).*1
  ∧ Forall (λ p, nv_dummy p.2 = false ∧ nv_rank p.2 = None) (nodes g)
  ∧ edgeIds g = autoId <$> seq 1 (length (in_edges ig))
  ∧ NoDup (evalue <$> edges g)
  ∧ Forall2 (λ ie ed, esource ed = ie_source ie ∧ etarget ed = ie_target ie ∧
                      edgeValue g ed = initValue ie)
      (in_edges ig) (edges g).
Proof.
  intros Hd Hwf Huser g. unfold g. rewrite (initLayoutGraph_directed ig Hd).
  set (mk := λ k ie, mkEdge (autoId (S k)) (ie_source ie) (ie_target ie) k).
  assert (eid <$> imap mk (in_edges ig) = autoId <$> seq 1 (length (in_edges ig)))
    as Hids.
  { rewrite fmap_imap. rewrite (imap_ext _ (λ j _, autoId (S j))) by done.
    by rewrite imap_seq_0, <- fmap_S_seq, <- list_fmap_compose. }
  assert (evalue <$> imap mk (in_edges ig) = seq 0 (length (in_edges ig))) as Hrefs.
  { rewrite fmap_imap. rewrite (imap_ext _ (λ j _, j)) by done.
    by rewrite imap_seq_0, list_fmap_id. }
  assert (nodeIds
            (mkGraph
               ((λ p, (p.1, mkNodeValue (in_width p.2) (in_height p.2) None (in_rank p.2)
                              false None None None noPoint None None None))
                  <$> in_nodes ig)
               (imap mk (in_edges ig)) (initValue <$> in_edges ig)
               (length (in_edges ig)))
          = (in_nodes ig).*1) as Hnodes.
  { unfold nodeIds. cbn [nodes]. by rewrite <- list_fmap_compose. }
  split_and!.
  - unfold wfGraph, edgeIds. rewrite Hnodes. cbn [edges nextId]. split_and!.
    + rewrite Hids. apply NoDup_fmap_2; [|apply NoDup_seq]. intros ??. apply autoId_inj.
    + intros ed n (k & ie & -> & Hk)%elem_of_lookup_imap Hn Heq.
      apply lookup_lt_Some in Hk. apply autoId_inj in Heq. lia.
    + apply Forall_forall. intros ed (k & ie & -> & Hk)%elem_of_lookup_imap.
      unfold wfInput in Hwf. rewrite Forall_forall in Hwf.
      apply (Hwf ie). by eapply list_elem_of_lookup_2.
    + done.
  - done.
  - cbn [nodes]. apply Forall_fmap, Forall_forall. done.
  - done.
  - cbn [edges]. rewrite Hrefs. apply NoDup_seq.
  - cbn [edges]. apply Forall2_same_length_lookup_2.
    + by rewrite length_imap.
    + intros i ie ed Hie Hed.
      rewrite list_lookup_imap, Hie in Hed. simpl in Hed. injection Hed as <-.
      unfold edgeValue. cbn [values mk evalue esource etarget].
      by rewrite list_lookup_fmap, Hie.
Qed.

Lemma initLayoutGraph_wfGraph_witness :
  wfGraph (initLayoutGraph fourNodes)
  ∧ edgeIds (initLayoutGraph fourNodes) = ["_1"; "_2"; "_3"; "_4"].
Proof.
  destruct (initLayoutGraph_wfGraph fourNodes) as (Hwf & _ & _ & Hids & _).
  - reflexivity.
  - apply (bool_decide_unpack _). by vm_compute.
  - repeat constructor.
  - split; [exact Hwf|exact Hids].
Defined.


Lemma initEdges_undirected (l : list InputEdge) (g : Graph) :
  fold_left (initEdge false) l g
  = mkGraph (nodes g)
      (edges g ++ concat (imap (λ k ie,
         [mkEdge (autoId (S (nextId g + 2 * k))) (ie_source ie) (ie_target ie)
            (length (values g) + k);
          mkEdge (autoId (S (S (nextId g + 2 * k)))) (ie_target ie) (ie_source ie)
            (length (values g) + k)]) l))
      (values g ++ (initValue <$> l))
      (nextId g + 2 * length l).
Proof.
  revert g. induction l as [|ie l IH]; intros g.
  - simpl. rewrite !app_nil_r, Nat.add_0_r. by destruct g.
  - cbn [fold_left]. rewrite IH. unfold initEdge, newValue, addEdge.
    cbn [nodes edges values nextId]. rewrite imap_cons. cbn [concat].
    rewrite <- !app_assoc, length_app. cbn [length fmap list_fmap app].
    f_equal.
    + f_equal. change (2 * 0) with 0. rewrite !Nat.add_0_r. do 3 f_equal.
      apply imap_ext. intros k x _. unfold compose.
      replace (S (S (nextId g)) + 2 * k) with (nextId g + 2 * S k) by lia.
      replace (length (values g) + 1 + k) with (length (values g) + S k) by lia.
      reflexivity.
    + lia.
Qed.

Lemma alter_refs_pairs (f : EdgeValue → EdgeValue) {A} (mk : nat → A → list Edge)
    (l : list A) (pre vs : list EdgeValue) :
  (∀ k x, ∃ e1 e2, mk k x = [e1; e2] ∧ evalue e1 = length pre + k ∧
                   evalue e2 = length pre + k) →
  length vs = length l →
  fold_left (λ vs ed, alter f (evalue ed) vs) (concat (imap mk l)) (pre ++ vs)
  = pre ++ ((f ∘ f) <$> vs).
Proof.
  revert mk pre vs. induction l as [|x l IH]; intros mk pre vs Hmk Hlen.
  - destruct vs; [done|discriminate].
  - destruct vs as [|v vs]; [discriminate|]. rewrite imap_cons. cbn [concat].
    destruct (Hmk 0 x) as (e1 & e2 & -> & H1 & H2).
    cbn [app fold_left]. rewrite H1, H2, Nat.add_0_r.
    replace (alter f (length pre) (alter f (length pre) (pre ++ v :: vs)))
      with ((pre ++ [f (f v)]) ++ vs).
    2:{ rewrite <- app_assoc. simpl.
        rewrite (alter_app_r_alt f pre (v :: vs) (length pre)) by lia.
        rewrite Nat.sub_diag. simpl.
        rewrite (alter_app_r_alt f pre (f v :: vs) (length pre)) by lia.
        by rewrite Nat.sub_diag. }
    rewrite (IH (mk ∘ S) (pre ++ [f (f v)]) vs).
    + by rewrite <- app_assoc.
    + intros k y. destruct (Hmk (S k) y) as (a1 & a2 & Heq & Ha1 & Ha2).
      exists a1, a2. rewrite length_app. simpl. split_and!; [done|lia|lia].
    + simpl in Hlen. lia.
Qed.

(** X11. For an undirected input graph [run] multiplies every [minLen]
    by 4, not by 2.  [initLayoutGraph] gives the two edges [u → v] and
    [v → u] that it makes of an input edge one value object, and the loop
    that doubles [minLen] visits both: in the graph handed to the acyclic
    phase the two edges of a pair have the [minLen]
    [4 * (value.minLen || 1)]. *)
Theorem doubleMinLen_undirected ig :
  isDirected ig = false →
  let g := doubleMinLen (initLayoutGraph ig) in
  length (edges g) = 2 * length (in_edges ig)
  ∧ (∀ ed, ed ∈ edges g →
       ∃ ie, ie ∈ in_edges ig ∧ sameEnds (ie_source ie) (ie_target ie) ed ∧
             edgeValue g ed
             = set_minLen (Some (4 * orOne (ie_minLen ie))%Z) (initValue ie))
  ∧ (∀ ie, ie ∈ in_edges ig →
       ∃ e1 e2, e1 ∈ edges g ∧ e2 ∈ edges g ∧ evalue e1 = evalue e2 ∧
                esource e1 = ie_source ie ∧ etarget e1 = ie_target ie ∧
                esource e2 = ie_target ie ∧ etarget e2 = ie_source ie).
Proof.
  intros Hd g. unfold g, initLayoutGraph. rewrite Hd, initEdges_undirected.
  unfold doubleMinLen. rewrite doubleMinLen_fold.
  destruct (initNodes_edges (in_nodes ig) emptyGraph) as (-> & -> & ->).
  cbn [edges values nodes nextId emptyGraph app length Nat.add].
  set (mk := λ k ie,
         [mkEdge (autoId (S (2 * k))) (ie_source ie) (ie_target ie) k;
          mkEdge (autoId (S (S (2 * k)))) (ie_target ie) (ie_source ie) k]).
  set (f := λ a, set_minLen (Z.mul 2 <$> ev_minLen a) a).
  pose proof (alter_refs_pairs f mk (in_edges ig) [] (initValue <$> in_edges ig)) as Hfold.
  cbn [app length Nat.add] in Hfold. rewrite Hfold; cycle 1.
  { intros k x. by eexists _, _. }
  { by rewrite length_fmap. }
  clear Hfold.
  assert (∀ ed, ed ∈ concat (imap mk (in_edges ig)) ↔
                ∃ k ie, in_edges ig !! k = Some ie ∧ ed ∈ mk k ie) as Hin.
  { intros ed. rewrite list_elem_of_In, in_concat. split.
    - intros (es & Hes%list_elem_of_In & Hed%list_elem_of_In).
      apply elem_of_lookup_imap in Hes as (k & ie & -> & Hk). eauto.
    - intros (k & ie & Hk & Hed). exists (mk k ie).
      split; apply list_elem_of_In; [|done]. by eapply elem_of_lookup_imap_2. }
  split_and!.
  - assert (∀ (mk' : nat → InputEdge → list Edge) l,
              (∀ k x, length (mk' k x) = 2) →
              length (concat (imap mk' l)) = 2 * length l) as Hlen.
    { intros mk' l. revert mk'. induction l as [|ie l IH]; intros mk' Hmk'; [done|].
      rewrite imap_cons. cbn [concat]. rewrite length_app, IH, Hmk'; [simpl; lia|].
      intros k x. apply Hmk'. }
    by apply Hlen.
  - intros ed (k & ie & Hk & Hed)%Hin. exists ie.
    split; [by eapply list_elem_of_lookup_2|].
    assert (evalue ed = k ∧ sameEnds (ie_source ie) (ie_target ie) ed) as [Hv Hs].
    { unfold mk in Hed.
      apply elem_of_cons in Hed as [->|[->|[]%elem_of_nil]%elem_of_cons];
        unfold sameEnds; simpl; tauto. }
    split; [done|]. unfold edgeValue. cbn [values].
    rewrite Hv, !list_lookup_fmap, Hk. simpl. unfold f, set_minLen. simpl.
    do 2 f_equal. lia.
  - intros ie [k Hk]%list_elem_of_lookup_1.
    exists (mkEdge (autoId (S (2 * k))) (ie_source ie) (ie_target ie) k),
           (mkEdge (autoId (S (S (2 * k)))) (ie_target ie) (ie_source ie) k).
    split_and!; try done; apply Hin; exists k, ie; (split; [done|]); unfold mk.
    + by left.
    + right. by left.
Qed.

Lemma doubleMinLen_undirected_witness :
  let g := doubleMinLen (initLayoutGraph (undirectedEdge (Some 3%Z))) in
  Forall (λ ed, ev_minLen (edgeValue g ed) = Some 12%Z) (edges g).
Proof.
  intros g. apply Forall_forall. intros ed Hed.
  destruct (doubleMinLen_undirected (undirectedEdge (Some 3%Z)) eq_refl)
    as (_ & Hall & _).
  destruct (Hall ed Hed) as (ie & Hie & _ & Hv).
  fold g in Hv. rewrite Hv.
  apply list_elem_of_singleton in Hie. rewrite Hie. reflexivity.
Defined.


(** ** createFinalGraph *)

Lemma finalId_alter vals r f ed :
  evalue ed ≠ r → finalId (alter f r vals) ed = finalId vals ed.
Proof. intros Hne. unfold finalId. by rewrite list_lookup_alter_ne. Qed.

Lemma finalEdge_step out vals ed :
  finalEdge (out, vals) ed
  = if bool_decide (finalId vals ed ∈ eid <$> out) then Err GraphError
    else Ok (out ++ [mkEdge (finalId vals ed) (esource ed) (etarget ed) (evalue ed)],
             alter (set_e None) (evalue ed) vals).
Proof. reflexivity. Qed.

Lemma finalEdge_ok es : ∀ out vals,
  NoDup (evalue <$> es) →
  NoDup ((eid <$> out) ++ (finalId vals <$> es)) →
  foldR finalEdge es (out, vals)
  = Ok (out ++ ((λ ed, mkEdge (finalId vals ed) (esource ed) (etarget ed) (evalue ed))
                  <$> es),
        fold_left (λ vs ed, alter (set_e None) (evalue ed) vs) es vals).
Proof.
  induction es as [|ed es IH]; intros out vals Hrefs Hids.
  - simpl. by rewrite app_nil_r.
  - csimpl in Hrefs. apply NoDup_cons in Hrefs as [Hr Hrefs].
    cbn [foldR]. rewrite finalEdge_step.
    assert (finalId vals ed ∉ eid <$> out) as Hnew.
    { apply NoDup_app in Hids as (_ & Hdisj & _). intros Hin.
      apply (Hdisj _ Hin). csimpl. by left. }
    rewrite bool_decide_eq_false_2 by done. simpl.
    assert (finalId (alter (set_e None) (evalue ed) vals) <$> es = finalId vals <$> es)
      as Hsame.
    { apply list_fmap_ext. intros i e He. apply finalId_alter. intros Heq.
      apply Hr. rewrite <- Heq. apply list_elem_of_fmap. exists e.
      split; [done|]. by eapply list_elem_of_lookup_2. }
    assert ((λ e, mkEdge (finalId (alter (set_e None) (evalue ed) vals) e)
                    (esource e) (etarget e) (evalue e)) <$> es
            = (λ e, mkEdge (finalId vals e) (esource e) (etarget e) (evalue e)) <$> es)
      as Hmap.
    { apply list_fmap_ext. intros i e He. f_equal. apply finalId_alter. intros Heq.
      apply Hr. rewrite <- Heq. apply list_elem_of_fmap. exists e.
      split; [done|]. by eapply list_elem_of_lookup_2. }
    rewrite IH; [|done|].
    + rewrite Hmap, <- app_assoc. reflexivity.
    + rewrite Hsame, fmap_app, <- app_assoc. exact Hids.
Qed.

Lemma finalEdge_err es : ∀ out vals,
  NoDup (evalue <$> es) → NoDup (eid <$> out) →
  ¬ NoDup ((eid <$> out) ++ (finalId vals <$> es)) →
  foldR finalEdge es (out, vals) = Err GraphError.
Proof.
  induction es as [|ed es IH]; intros out vals Hrefs Hout Hids.
  - destruct Hids. by rewrite app_nil_r.
  - csimpl in Hrefs. apply NoDup_cons in Hrefs as [Hr Hrefs].
    cbn [foldR]. rewrite finalEdge_step.
    destruct (bool_decide_reflect (finalId vals ed ∈ eid <$> out)) as [Hin|Hnew];
      [done|].
    simpl. apply IH; [done| |].
    + rewrite fmap_app. apply NoDup_app.
      split_and!; [done| |apply NoDup_singleton].
      intros x Hx ->%list_elem_of_singleton. done.
    + intros Hnd. apply Hids. rewrite fmap_app, <- app_assoc in Hnd. csimpl in Hnd.
      assert (finalId (alter (set_e None) (evalue ed) vals) <$> es
              = finalId vals <$> es) as Hsame.
      { apply list_fmap_ext. intros i e He. apply finalId_alter. intros Heq.
        apply Hr. rewrite <- Heq. apply list_elem_of_fmap. exists e.
        split; [done|]. by eapply list_elem_of_lookup_2. }
      by rewrite Hsame in Hnd.
Qed.

Lemma clear_e_lookup (es : list Edge) (vals : list EdgeValue) (r : nat) :
  default emptyValue (fold_left (λ vs ed, alter (set_e None) (evalue ed) vs) es vals !! r)
  = if decide (r ∈ evalue <$> es) then set_e None (default emptyValue (vals !! r))
    else default emptyValue (vals !! r).
Proof.
  revert vals. induction es as [|ed es IH]; intros vals.
  - cbn [fold_left]. rewrite decide_False; [done|]. rewrite fmap_nil.
    apply not_elem_of_nil.
  - cbn [fold_left]. rewrite IH, fmap_cons.
    destruct (decide (evalue ed = r)) as [<-|Hne].
    + rewrite list_lookup_alter.
      rewrite (decide_True (P := evalue ed = evalue ed)) by done.
      rewrite (decide_True (P := evalue ed ∈ evalue ed :: (evalue <$> es))) by by left.
      destruct (vals !! evalue ed) as [a|]; simpl; by case_decide.
    + rewrite list_lookup_alter_ne by done.
      destruct (decide (r ∈ evalue <$> es)) as [Hin|Hnin].
      * by rewrite decide_True by by right.
      * rewrite decide_False; [done|]. by intros [?|?]%elem_of_cons.
Qed.


(** X12. [createFinalGraph] names the edges of the output after their
    [e].  For a graph whose edges have value objects of their own: when
    the ids [finalId] (the [e] of an edge, or its own id when it has no
    [e]) are distinct, [createFinalGraph] returns a graph with the nodes
    of the working graph and with its edges, in their order and with
    their ends, under these ids, and every value object has lost its
    [e]; when two edges have the same such id, adding the second one
    raises the exception of the graph library. *)
Theorem createFinalGraph_ids g d :
  NoDup (evalue <$> edges g) →
  (NoDup (finalId (values g) <$> edges g) →
     ∃ out, createFinalGraph g d = Ok out ∧ directed out = d ∧
       nodes (graph out) = nodes g ∧
       edges (graph out)
       = (λ ed, mkEdge (finalId (values g) ed) (esource ed) (etarget ed) (evalue ed))
           <$> edges g ∧
       ∀ ed, ed ∈ edges g → edgeValue (graph out) ed = set_e None (edgeValue g ed))
  ∧ (¬ NoDup (finalId (values g) <$> edges g) →
     createFinalGraph g d = Err GraphError).
Proof.
  intros Hrefs. unfold createFinalGraph. split.
  - intros Hids. rewrite (finalEdge_ok (edges g) [] (values g) Hrefs Hids).
    eexists. split; [reflexivity|]. cbn. split_and!; try done.
    intros ed Hed. unfold edgeValue. cbn [values]. rewrite clear_e_lookup.
    rewrite decide_True; [done|]. apply list_elem_of_fmap. by exists ed.
  - intros Hids. rewrite (finalEdge_err (edges g) [] (values g) Hrefs); [done| |done].
    constructor.
Qed.

Lemma createFinalGraph_ids_witness :
  ∃ out, createFinalGraph (initLayoutGraph fourNodes) true = Ok out ∧
         edgeIds (graph out) = ["rn"; "tn"; "tm"; "mn"].
Proof.
  destruct (createFinalGraph_ids (initLayoutGraph fourNodes) true) as [Hok _].
  - apply (bool_decide_unpack _). by vm_compute.
  - destruct Hok as (out & Hout & _ & _ & Hedges & _).
    + apply (bool_decide_unpack _). by vm_compute.
    + exists out. split; [exact Hout|]. unfold edgeIds. rewrite Hedges. reflexivity.
Defined.

(** X13. [createFinalGraph] undoes the renaming of [initLayoutGraph].
    For a directed input graph whose edge ids are distinct,
    [createFinalGraph] applied to the graph that [initLayoutGraph]
    builds returns a directed graph with the nodes of the input and with
    its edges: the same ids, the same ends, the same order. *)
Theorem createFinalGraph_initLayoutGraph ig :
  isDirected ig = true → NoDup (ie_id <$> in_edges ig) →
  ∃ out, createFinalGraph (initLayoutGraph ig) true = Ok out ∧ directed out = true ∧
         nodeIds (graph out) = (in_nodes ig).*1 ∧
         edgeTriples (graph out) = inputTriples ig.
Proof.
  intros Hd Hids. rewrite (initLayoutGraph_directed ig Hd). unfold createFinalGraph.
  cbn [edges values nodes].
  set (mk := λ k ie, mkEdge (autoId (S k)) (ie_source ie) (ie_target ie) k).
  assert (∀ k ie, in_edges ig !! k = Some ie →
                  finalId (initValue <$> in_edges ig) (mk k ie) = ie_id ie) as Hfinal.
  { intros k ie Hk. unfold finalId. cbn [mk evalue]. by rewrite list_lookup_fmap, Hk. }
  assert (finalId (initValue <$> in_edges ig) <$> imap mk (in_edges ig)
          = ie_id <$> in_edges ig) as Hfids.
  { apply list_eq. intros k. rewrite !list_lookup_fmap, list_lookup_imap.
    destruct (in_edges ig !! k) as [ie|] eqn:Hk; [|done]. simpl.
    by rewrite (Hfinal k ie Hk). }
  rewrite finalEdge_ok; cycle 1.
  { rewrite fmap_imap. rewrite (imap_ext _ (λ j _, j)) by done.
    rewrite imap_seq_0, list_fmap_id. apply NoDup_seq. }
  { cbn [app fmap list_fmap]. by rewrite Hfids. }
  eexists. split; [reflexivity|]. cbn. split_and!; [done| |].
  - unfold nodeIds. cbn [nodes]. by rewrite <- list_fmap_compose.
  - unfold edgeTriples, inputTriples. cbn [edges].
    apply list_eq. intros k. rewrite !list_lookup_fmap, list_lookup_imap.
    destruct (in_edges ig !! k) as [ie|] eqn:Hk; [|done]. simpl.
    by rewrite (Hfinal k ie Hk).
Qed.

Lemma createFinalGraph_initLayoutGraph_witness :
  ∃ out, createFinalGraph (initLayoutGraph fourNodes) true = Ok out ∧
         edgeTriples (graph out) = inputTriples fourNodes.
Proof.
  destruct (createFinalGraph_initLayoutGraph fourNodes) as (out & Hout & _ & _ & He).
  - reflexivity.
  - apply (bool_decide_unpack _). by vm_compute.
  - by exists out.
Defined.


(** ** fixupEdgePoints *)

Lemma flipPoints_twice a : flipPoints (flipPoints a) = a.
Proof.
  destruct a as [e m w h [l|] []]; unfold flipPoints, set_points; simpl;
    rewrite ?reverse_involutive; done.
Qed.

Lemma fixupEdge_fold es : ∀ g,
  NoDup (evalue <$> es) →
  (∀ ed, ed ∈ es → ev_reversed (edgeValue g ed) = true →
         is_Some (ev_points (edgeValue g ed))) →
  ∃ g', foldR fixupEdge es g = Ok g' ∧
        nodes g' = nodes g ∧ edges g' = edges g ∧ nextId g' = nextId g ∧
        ∀ r, default emptyValue (values g' !! r)
             = if decide (r ∈ evalue <$> es)
               then flipPoints (default emptyValue (values g !! r))
               else default emptyValue (values g !! r).
Proof.
  induction es as [|ed es IH]; intros g Hrefs Hpts.
  - exists g. by split_and!.
  - rewrite fmap_cons in Hrefs. apply NoDup_cons in Hrefs as [Hr Hrefs].
    cbn [foldR].
    assert (∃ g1, fixupEdge g ed = Ok g1 ∧
                  nodes g1 = nodes g ∧ edges g1 = edges g ∧ nextId g1 = nextId g ∧
                  ∀ r, default emptyValue (values g1 !! r)
                       = if decide (r = evalue ed)
                         then flipPoints (default emptyValue (values g !! r))
                         else default emptyValue (values g !! r))
      as (g1 & -> & Hn1 & He1 & Hi1 & Hv1).
    { unfold fixupEdge. destruct (ev_reversed (edgeValue g ed)) eqn:Hrev.
      - destruct (Hpts ed ltac:(by left) Hrev) as [points Hp]. rewrite Hp.
        eexists. split; [reflexivity|]. split_and!; try done.
        intros r. cbn [updValue values]. unfold edgeValue in Hrev, Hp.
        destruct (decide (r = evalue ed)) as [->|Hne].
        + rewrite list_lookup_alter, decide_True by done.
          destruct (values g !! evalue ed) as [a|]; [|done]. simpl in *.
          unfold flipPoints. by rewrite Hrev, Hp.
        + by rewrite list_lookup_alter_ne.
      - exists g. split_and!; try done. intros r. case_decide as Hr'; [|done].
        subst r. unfold flipPoints. fold (edgeValue g ed). by rewrite Hrev. }
    simpl.
    assert (∀ e, e ∈ es → edgeValue g1 e = edgeValue g e) as Hsame.
    { intros e He. unfold edgeValue. rewrite Hv1, decide_False; [done|].
      intros Heq. apply Hr. rewrite <- Heq. apply list_elem_of_fmap. by exists e. }
    destruct (IH g1 Hrefs) as (g' & Hfold & Hn & He & Hi & Hv).
    { intros e He. rewrite (Hsame e He). apply Hpts. by right. }
    exists g'. split_and!; try congruence.
    intros r. rewrite Hv, Hv1.
    destruct (decide (r = evalue ed)) as [->|Hne].
    + rewrite decide_False by done. by rewrite decide_True by by left.
    + destruct (decide (r ∈ evalue <$> es)) as [Hin|Hnin].
      * by rewrite decide_True by by right.
      * rewrite decide_False; [done|]. by intros [?|?]%elem_of_cons.
Qed.


Lemma fixupEdge_fold_err es : ∀ g,
  NoDup (evalue <$> es) →
  (∃ ed, ed ∈ es ∧ ev_reversed (edgeValue g ed) = true ∧
         ev_points (edgeValue g ed) = None) →
  foldR fixupEdge es g = Err TypeError.
Proof.
  induction es as [|ed es IH]; intros g Hrefs (bad & Hbad & Hrev & Hnone).
  - by apply elem_of_nil in Hbad.
  - rewrite fmap_cons in Hrefs. apply NoDup_cons in Hrefs as [Hr Hrefs].
    cbn [foldR].
    apply elem_of_cons in Hbad as [->|Hbad].
    { assert (fixupEdge g ed = Err TypeError) as ->; [|done].
      unfold fixupEdge. by rewrite Hrev, Hnone. }
    assert (fixupEdge g ed = Err TypeError ∨
            ∃ g1, fixupEdge g ed = Ok g1 ∧ edgeValue g1 bad = edgeValue g bad)
      as [->|(g1 & -> & Hsame)]; [|done|].
    { unfold fixupEdge.
      destruct (ev_reversed (edgeValue g ed)); [|right; by eexists].
      destruct (ev_points (edgeValue g ed)) as [points|]; [|by left].
      right. eexists. split; [done|].
      unfold edgeValue. cbn [updValue values]. rewrite list_lookup_alter_ne; [done|].
      intros Heq. apply Hr. rewrite Heq. apply list_elem_of_fmap. by exists bad. }
    simpl. apply IH; [done|]. exists bad. by rewrite Hsame.
Qed.

(** X14. [fixupEdgePoints] reverses the [points] of the reversed edges
    and of no others.  For a graph whose edges have value objects of
    their own: when every reversed edge has a [points] array, the result
    has the nodes and edges of the graph, each value object is what
    [flipPoints] makes of it ([points] reversed when [reversed] is set),
    and a second [fixupEdgePoints] gives the value objects back; when a
    reversed edge has no [points], [a.points.reverse()] raises a
    TypeError. *)
Theorem fixupEdgePoints_flip g :
  NoDup (evalue <$> edges g) →
  ((∀ ed, ed ∈ edges g → ev_reversed (edgeValue g ed) = true →
          is_Some (ev_points (edgeValue g ed))) →
   ∃ g', fixupEdgePoints g = Ok g' ∧ nodes g' = nodes g ∧ edges g' = edges g ∧
         (∀ ed, ed ∈ edges g → edgeValue g' ed = flipPoints (edgeValue g ed)) ∧
         ∃ g'', fixupEdgePoints g' = Ok g'' ∧
                ∀ ed, ed ∈ edges g → edgeValue g'' ed = edgeValue g ed)
  ∧ ((∃ ed, ed ∈ edges g ∧ ev_reversed (edgeValue g ed) = true ∧
            ev_points (edgeValue g ed) = None) →
     fixupEdgePoints g = Err TypeError).
Proof.
  intros Hrefs. unfold fixupEdgePoints. split; [|by apply fixupEdge_fold_err].
  intros Hpts.
  destruct (fixupEdge_fold (edges g) g Hrefs Hpts) as (g' & Hfold & Hn & He & _ & Hv).
  assert (∀ ed, ed ∈ edges g → edgeValue g' ed = flipPoints (edgeValue g ed)) as Hflip.
  { intros ed Hed. unfold edgeValue. rewrite Hv, decide_True; [done|].
    apply list_elem_of_fmap. by exists ed. }
  exists g'. split_and!; try done. rewrite He.
  destruct (fixupEdge_fold (edges g) g' Hrefs) as (g'' & Hfold' & _ & _ & _ & Hv').
  { intros ed Hed. rewrite (Hflip ed Hed). unfold flipPoints.
    destruct (ev_reversed (edgeValue g ed)) eqn:Hrev; [|congruence].
    intros _. destruct (Hpts ed Hed Hrev) as [points Hp]. simpl. rewrite Hp.
    by eexists. }
  exists g''. split; [done|]. intros ed Hed.
  pose proof (Hflip ed Hed) as Hf. unfold edgeValue in *.
  rewrite Hv', decide_True, Hf; [apply flipPoints_twice|].
  apply list_elem_of_fmap. by exists ed.
Qed.

Lemma fixupEdgePoints_flip_witness :
  let p := mkPoint (Some 1%Q) None None None None None in
  let g := mkGraph [("a", plainNode None None); ("b", plainNode None None)]
             [mkEdge "_1" "b" "a" 0]
             [mkEdgeValue (Some "ab") (Some 1%Z) None None (Some [Some p; None]) true] 1 in
  ∃ g', fixupEdgePoints g = Ok g' ∧
        ev_points (edgeValue g' (mkEdge "_1" "b" "a" 0)) = Some [None; Some p].
Proof.
  intros p g.
  destruct (fixupEdgePoints_flip g) as [Hok _].
  - apply (NoDup_singleton 0).
  - destruct Hok as (g' & Hfix & _ & _ & Hflip & _).
    + intros ed ->%list_elem_of_singleton _. by eexists.
    + exists g'. split; [exact Hfix|].
      rewrite (Hflip (mkEdge "_1" "b" "a" 0)); [reflexivity|].
      by apply list_elem_of_singleton.
Defined.









(** ** computeLowLim and inSubtree *)

Lemma postorder_self fuel tree n :
  withinDepth fuel tree n = true → n ∈ postorder fuel tree n.
Proof.
  destruct fuel; [done|]. intros _. simpl. apply elem_of_app. right. by left.
Qed.

Lemma withinDepth_child fuel tree n c :
  withinDepth (S fuel) tree n = true → c ∈ successors tree n →
  withinDepth fuel tree c = true.
Proof.
  simpl. intros H Hc. rewrite forallb_forall in H. apply H. by apply list_elem_of_In.
Qed.

Lemma postorder_elem fuel tree n x :
  x ∈ postorder (S fuel) tree n ↔
  x = n ∨ ∃ c, c ∈ successors tree n ∧ x ∈ postorder fuel tree c.
Proof.
  simpl. rewrite elem_of_app, list_elem_of_singleton, list_elem_of_bind.
  split; [intros [(c & ? & ?)|?]|intros [?|(c & ? & ?)]]; eauto.
Qed.

Lemma postorder_step fuel tree n u w :
  withinDepth fuel tree n = true →
  u ∈ postorder fuel tree n → w ∈ successors tree u → w ∈ postorder fuel tree n.
Proof.
  revert n. induction fuel as [|fuel IH]; intros n Hd Hu Hw; [done|].
  apply postorder_elem in Hu as [->|(c & Hc & Hu)]; apply postorder_elem; right.
  - exists w. split; [done|]. apply postorder_self. by eapply withinDepth_child.
  - exists c. split; [done|]. apply IH; [by eapply withinDepth_child|done..].
Qed.

Lemma postorder_closed fuel tree n u v :
  withinDepth fuel tree n = true →
  u ∈ postorder fuel tree n → descendant tree u v → v ∈ postorder fuel tree n.
Proof.
  intros Hd Hu Hdesc. induction Hdesc as [u|u w v Hw _ IH]; [done|].
  apply IH. by eapply postorder_step.
Qed.

Lemma postorder_descendant fuel tree n v :
  withinDepth fuel tree n = true → v ∈ postorder fuel tree n → descendant tree n v.
Proof.
  revert n. induction fuel as [|fuel IH]; intros n Hd Hv; [done|].
  apply postorder_elem in Hv as [->|(c & Hc & Hv)]; [constructor|].
  eapply descendant_step; [done|]. apply IH; [by eapply withinDepth_child|done].
Qed.

Lemma numberedFrom_impl (P Q : Z → NodeId → Prop) size cs :
  (∀ c k, c ∈ cs → P k c → Q k c) →
  ∀ k, numberedFrom P size k cs → numberedFrom Q size k cs.
Proof.
  induction cs as [|c cs IH]; intros HPQ k; [done|]. simpl. intros [Hc Hcs].
  split; [apply HPQ; [by left|done]|].
  apply IH; [|done]. intros c' k' Hc'. apply HPQ. by right.
Qed.

Lemma numbered_ext fuel tree st st' : ∀ k n,
  (∀ x, x ∈ postorder fuel tree n → assoc x st' = assoc x st) →
  numbered fuel tree st k n → numbered fuel tree st' k n.
Proof.
  induction fuel as [|fuel IH]; intros k n Hsame; [done|].
  intros (Hlo & Hli & Hcs).
  assert (assoc n st' = assoc n st) as Hn.
  { apply Hsame, postorder_elem. by left. }
  split_and!.
  - unfold lowIn in *. by rewrite Hn.
  - unfold limIn in *. by rewrite Hn.
  - eapply numberedFrom_impl; [|exact Hcs]. intros c k' Hc. apply IH.
    intros x Hx. apply Hsame, postorder_elem. right. by exists c.
Qed.

Lemma inRange_weaken st x a b a' b' :
  (a' ≤ a)%Z → (b ≤ b')%Z → inRange st x a b → inRange st x a' b'.
Proof.
  intros Ha Hb (lo & li & ? & ? & ? & ? & ?). exists lo, li. split_and!; try done; lia.
Qed.

Lemma numberedFrom_range st (P : Z → NodeId → Prop) (visit : NodeId → list NodeId) cs :
  (∀ c k x, c ∈ cs → P k c → x ∈ visit c →
     inRange st x k (k + Z.of_nat (length (visit c)))) →
  ∀ k x, numberedFrom P (λ c, Z.of_nat (length (visit c))) k cs →
    x ∈ cs ≫= visit → inRange st x k (k + Z.of_nat (length (cs ≫= visit))).
Proof.
  induction cs as [|c cs IH]; intros Hr k x; [by intros _ ?%elem_of_nil|].
  cbn [numberedFrom]. intros [Hc Hcs]. rewrite bind_cons, elem_of_app, length_app.
  intros [Hx|Hx].
  - eapply inRange_weaken; [| |apply (Hr c k x); [by left|done..]]; lia.
  - eapply inRange_weaken; [| |apply (IH (λ c' k' x' Hc', Hr c' k' x' (list_elem_of_further _ _ _ Hc')) _ x Hcs Hx)]; lia.
Qed.

Lemma numbered_range fuel tree st : ∀ k n x,
  withinDepth fuel tree n = true → numbered fuel tree st k n →
  x ∈ postorder fuel tree n →
  inRange st x k (k + Z.of_nat (length (postorder fuel tree n))).
Proof.
  induction fuel as [|fuel IH]; intros k n x Hd; [done|].
  intros (Hlo & Hli & Hcs) Hx. cbn [postorder]. rewrite length_app. cbn [length].
  apply elem_of_app in Hx as [Hx| ->%list_elem_of_singleton].
  - eapply inRange_weaken;
      [| |apply (numberedFrom_range st (numbered fuel tree st) (postorder fuel tree)
                   (successors tree n)); [|exact Hcs|exact Hx]]; [lia..|].
    intros c k' x' Hc. apply IH. by eapply withinDepth_child.
  - eexists _, _. split_and!; [done..|lia|lia|lia].
Qed.

Lemma inSubtree_later st u v a b li :
  inRange st u a b → limIn st v = Some li → (b ≤ li)%Z → inSubtree st v u = false.
Proof.
  intros (lo & li' & Hlo & Hli & ? & ? & ?) Hli' ?.
  unfold inSubtree. rewrite Hlo, Hli, Hli'. simpl.
  apply andb_false_iff. right. apply Z.leb_gt. lia.
Qed.

Lemma inSubtree_earlier st u v a b c :
  inRange st u b c → inRange st v a b → inSubtree st v u = false.
Proof.
  intros (lo & li & Hlo & Hli & ? & ? & ?) (lo' & li' & Hlo' & Hli' & ? & ? & ?).
  unfold inSubtree. rewrite Hlo, Hli, Hli'. simpl.
  apply andb_false_iff. left. apply Z.leb_gt. lia.
Qed.

Lemma numberedFrom_ancestor tree st (P : Z → NodeId → Prop)
    (visit : NodeId → list NodeId) cs :
  (∀ c k x, c ∈ cs → P k c → x ∈ visit c →
     inRange st x k (k + Z.of_nat (length (visit c)))) →
  (∀ c k u v, c ∈ cs → P k c → NoDup (visit c) → u ∈ visit c → v ∈ visit c →
     (inSubtree st v u = true ↔ descendant tree u v)) →
  (∀ c u v, c ∈ cs → u ∈ visit c → descendant tree u v → v ∈ visit c) →
  ∀ k u v, numberedFrom P (λ c, Z.of_nat (length (visit c))) k cs →
    NoDup (cs ≫= visit) → u ∈ cs ≫= visit → v ∈ cs ≫= visit →
    (inSubtree st v u = true ↔ descendant tree u v).
Proof.
  induction cs as [|c cs IH]; intros Hr Hanc Hclosed k u v;
    [by intros _ _ ?%elem_of_nil|].
  cbn [numberedFrom]. intros [Hc Hcs]. rewrite bind_cons. intros (Hndc & Hdisj & Hndcs)%NoDup_app.
  assert (∀ c' k' x, c' ∈ cs → P k' c' → x ∈ visit c' →
            inRange st x k' (k' + Z.of_nat (length (visit c')))) as Hr'.
  { intros c' k' x Hc'. apply Hr. by right. }
  assert (∀ x, x ∈ cs ≫= visit → ∀ y, descendant tree x y → y ∈ cs ≫= visit) as Hcl.
  { intros x (c' & Hx & Hc')%list_elem_of_bind y Hxy. apply list_elem_of_bind.
    exists c'. split; [|done]. eapply Hclosed; [by right|done..]. }
  rewrite !elem_of_app. intros [Hu|Hu] [Hv|Hv].
  - apply (Hanc c k); [by left|done..].
  - destruct (numberedFrom_range st P visit cs Hr' _ v Hcs Hv)
      as (lo & li & _ & Hli & ? & ? & _).
    rewrite (inSubtree_later st u v k (k + Z.of_nat (length (visit c))) li);
      [|apply Hr; [by left|done..]|done|lia].
    split; [done|]. intros Hdesc. exfalso. apply (Hdisj v); [|done].
    eapply Hclosed; [by left|done..].
  - rewrite (inSubtree_earlier st u v k (k + Z.of_nat (length (visit c)))
               (k + Z.of_nat (length (visit c)) + Z.of_nat (length (cs ≫= visit)))).
    + split; [done|]. intros Hdesc. exfalso. apply (Hdisj v); [done|].
      by apply (Hcl u).
    + by apply (numberedFrom_range st P visit cs Hr').
    + apply Hr; [by left|done..].
  - apply (IH Hr') with (k := (k + Z.of_nat (length (visit c)))%Z); try done.
    + intros c' k' u' v' Hc'. apply Hanc. by right.
    + intros c' u' v' Hc'. apply Hclosed. by right.
Qed.

Lemma numbered_ancestor fuel tree st : ∀ k n u v,
  withinDepth fuel tree n = true → NoDup (postorder fuel tree n) →
  numbered fuel tree st k n →
  u ∈ postorder fuel tree n → v ∈ postorder fuel tree n →
  (inSubtree st v u = true ↔ descendant tree u v).
Proof.
  induction fuel as [|fuel IH]; intros k n u v Hd Hnd Hnum Hu Hv; [done|].
  pose proof (numbered_range _ _ _ _ _ _ Hd Hnum Hu) as Hru.
  pose proof (numbered_range _ _ _ _ _ _ Hd Hnum Hv) as Hrv.
  destruct Hnum as (Hlo & Hli & Hcs).
  cbn [postorder] in Hnd, Hru, Hrv. rewrite length_app in Hru, Hrv. cbn [length] in Hru, Hrv.
  apply NoDup_app in Hnd as (Hndcs & Hdisj & _).
  assert (∀ c k' x, c ∈ successors tree n → numbered fuel tree st k' c →
            x ∈ postorder fuel tree c →
            inRange st x k' (k' + Z.of_nat (length (postorder fuel tree c)))) as Hr.
  { intros c k' x Hc. apply numbered_range. by eapply withinDepth_child. }
  cbn [postorder] in Hu, Hv.
  apply elem_of_app in Hu as [Hu| ->%list_elem_of_singleton].
  - apply elem_of_app in Hv as [Hv| ->%list_elem_of_singleton].
    + apply (numberedFrom_ancestor tree st (numbered fuel tree st)
               (postorder fuel tree) (successors tree n)) with (k := k); try done.
      * intros c k' u' v' Hc Hnum' Hnd'. apply (IH k'); [by eapply withinDepth_child|done..].
      * intros c u' v' Hc. apply postorder_closed. by eapply withinDepth_child.
    + pose proof (numberedFrom_range st _ _ _ Hr k u Hcs Hu) as Hru'.
      rewrite (inSubtree_later st u n k _ _ Hru' Hli) by lia.
      split; [done|]. intros Hdesc. exfalso. apply (Hdisj n); [|by left].
      apply list_elem_of_bind in Hu as (c & Hu & Hc). apply list_elem_of_bind.
      exists c. split; [|done].
      eapply postorder_closed; [by eapply withinDepth_child|done..].
  - split; [|intros _].
    + intros _. by eapply postorder_descendant.
    + destruct Hrv as (lo & li & _ & Hli' & ? & ? & ?).
      unfold inSubtree. rewrite Hlo, Hli, Hli'. simpl.
      apply andb_true_iff. split; apply Z.leb_le; lia.
Qed.

Lemma lowLimDfs_step fuel tree n st :
  lowLimDfs (S fuel) tree n st =
  let r := fold_left (lowLimChild fuel tree) (successors tree n) (st, Some st.2) in
  (storeUpd r.1.1 n (set_lowlim r.2 (Some r.1.2)), (r.1.2 + 1)%Z).
Proof.
  cbn [lowLimDfs]. fold (lowLimChild fuel tree).
  by destruct (fold_left _ _ _) as [[??]?].
Qed.

Lemma lowLimChildren fuel tree cs :
  (∀ n st k,
     withinDepth fuel tree n = true → NoDup (postorder fuel tree n) →
     (∀ x, x ∈ postorder fuel tree n → x ∈ st.*1) →
     (lowLimDfs fuel tree n (st, k)).2 = (k + Z.of_nat (length (postorder fuel tree n)))%Z ∧
     (lowLimDfs fuel tree n (st, k)).1.*1 = st.*1 ∧
     (∀ x, x ∉ postorder fuel tree n →
           assoc x (lowLimDfs fuel tree n (st, k)).1 = assoc x st) ∧
     numbered fuel tree (lowLimDfs fuel tree n (st, k)).1 k n) →
  ∀ st k lo,
    Forall (λ c, withinDepth fuel tree c = true) cs →
    NoDup (cs ≫= postorder fuel tree) →
    (∀ x, x ∈ cs ≫= postorder fuel tree → x ∈ st.*1) →
    (lo ≤ k)%Z →
    let r := fold_left (lowLimChild fuel tree) cs (st, k, Some lo) in
    r.2 = Some lo ∧
    r.1.2 = (k + Z.of_nat (length (cs ≫= postorder fuel tree)))%Z ∧
    r.1.1.*1 = st.*1 ∧
    (∀ x, x ∉ cs ≫= postorder fuel tree → assoc x r.1.1 = assoc x st) ∧
    numberedFrom (numbered fuel tree r.1.1)
      (λ c, Z.of_nat (length (postorder fuel tree c))) k cs.
Proof.
  intros Hdfs. induction cs as [|c cs IH]; intros st k lo Hd Hnd Hkeys Hlo.
  { cbn. split_and!; try done. lia. }
  apply Forall_cons in Hd as [Hdc Hd].
  rewrite bind_cons in Hnd, Hkeys. apply NoDup_app in Hnd as (Hndc & Hdisj & Hnd).
  destruct (Hdfs c st k Hdc Hndc) as (Hk1 & Hkeys1 & Hframe1 & Hnum1).
  { intros x Hx. apply Hkeys, elem_of_app. by left. }
  assert (lowIn (lowLimDfs fuel tree c (st, k)).1 c = Some k) as Hlow.
  { destruct fuel; [done|]. by destruct Hnum1 as [? _]. }
  cbn [fold_left].
  assert (lowLimChild fuel tree (st, k, Some lo) c
          = (lowLimDfs fuel tree c (st, k), Some lo)) as ->.
  { unfold lowLimChild. cbn [fst snd]. rewrite Hlow. cbn. by rewrite Z.min_l. }
  destruct (lowLimDfs fuel tree c (st, k)) as [st1 k1] eqn:Hc. cbn [fst snd] in *.
  destruct (IH st1 k1 lo Hd Hnd) as (Hlo2 & Hk2 & Hkeys2 & Hframe2 & Hnum2).
  { intros x Hx. rewrite Hkeys1. apply Hkeys, elem_of_app. by right. }
  { lia. }
  cbv zeta. rewrite bind_cons, length_app.
  set (r := fold_left (lowLimChild fuel tree) cs (st1, k1, Some lo)) in *.
  split_and!.
  - done.
  - rewrite Hk2, Hk1. lia.
  - congruence.
  - intros x [Hx1 Hx2]%not_elem_of_app. by rewrite Hframe2, Hframe1.
  - cbn [numberedFrom]. split.
    + eapply numbered_ext; [|exact Hnum1]. intros x Hx. apply Hframe2.
      intros Hx'. by apply (Hdisj x).
    + by rewrite <- Hk1.
Qed.

Lemma lowLimDfs_numbered tree fuel : ∀ n st k,
  withinDepth fuel tree n = true → NoDup (postorder fuel tree n) →
  (∀ x, x ∈ postorder fuel tree n → x ∈ st.*1) →
  (lowLimDfs fuel tree n (st, k)).2 = (k + Z.of_nat (length (postorder fuel tree n)))%Z ∧
  (lowLimDfs fuel tree n (st, k)).1.*1 = st.*1 ∧
  (∀ x, x ∉ postorder fuel tree n →
        assoc x (lowLimDfs fuel tree n (st, k)).1 = assoc x st) ∧
  numbered fuel tree (lowLimDfs fuel tree n (st, k)).1 k n.
Proof.
  induction fuel as [|fuel IH]; intros n st k Hd Hnd Hkeys; [done|].
  rewrite lowLimDfs_step. cbn [postorder] in Hnd, Hkeys.
  apply NoDup_app in Hnd as (Hndcs & Hdisj & _).
  destruct (lowLimChildren fuel tree (successors tree n) IH st k k)
    as (Hlo & Hk & Hkeys' & Hframe & Hnum); try done.
  - apply Forall_forall. intros c Hc. by eapply withinDepth_child.
  - intros x Hx. apply Hkeys, elem_of_app. by left.
  - cbv zeta. cbn [fst snd] in *.
    set (r := fold_left (lowLimChild fuel tree) (successors tree n) (st, k, Some k)) in *.
    assert (n ∉ successors tree n ≫= postorder fuel tree) as Hn.
    { intros Hin. apply (Hdisj n Hin). by left. }
    assert (n ∈ r.1.1.*1) as Hnk.
    { rewrite Hkeys'. apply Hkeys, elem_of_app. right. by left. }
    apply is_Some_assoc in Hnk as [a Ha].
    split_and!.
    + cbn [postorder]. rewrite length_app, Hk. cbn [length]. lia.
    + by rewrite storeUpd_keys.
    + intros x [Hx1 [Hx2 _]%not_elem_of_cons]%not_elem_of_app.
      rewrite assoc_storeUpd, (proj2 (String.eqb_neq n x)) by congruence.
      by apply Hframe.
    + cbn [numbered]. unfold lowIn, limIn.
      rewrite assoc_storeUpd, String.eqb_refl, Ha, Hlo, Hk. split_and!; [done..|].
      eapply numberedFrom_impl; [|exact Hnum]. intros c k' Hc.
      apply numbered_ext. intros x Hx.
      rewrite assoc_storeUpd, (proj2 (String.eqb_neq n x)); [done|].
      intros <-. apply Hn. apply list_elem_of_bind. by exists c.
Qed.

Lemma numberedFrom_lim st (P : Z → NodeId → Prop) (visit : NodeId → list NodeId) cs :
  (∀ c k i x, c ∈ cs → P k c → visit c !! i = Some x →
     limIn st x = Some (k + Z.of_nat i)%Z) →
  ∀ k i x, numberedFrom P (λ c, Z.of_nat (length (visit c))) k cs →
    (cs ≫= visit) !! i = Some x → limIn st x = Some (k + Z.of_nat i)%Z.
Proof.
  induction cs as [|c cs IH]; intros Hl k i x; [done|].
  cbn [numberedFrom]. intros [Hc Hcs]. rewrite bind_cons.
  intros [Hx|[Hi Hx]]%lookup_app_Some.
  - apply (Hl c); [by left|done..].
  - rewrite (IH (λ c' k' i' x' Hc', Hl c' k' i' x' (list_elem_of_further _ _ _ Hc'))
               _ _ x Hcs Hx). f_equal. lia.
Qed.

Lemma numbered_lim fuel tree st : ∀ k n i x,
  numbered fuel tree st k n → postorder fuel tree n !! i = Some x →
  limIn st x = Some (k + Z.of_nat i)%Z.
Proof.
  induction fuel as [|fuel IH]; intros k n i x; [done|].
  intros (Hlo & Hli & Hcs). cbn [postorder].
  intros [Hx|[Hi Hx]]%lookup_app_Some.
  - apply (numberedFrom_lim st (numbered fuel tree st) (postorder fuel tree)
             (successors tree n)); [|done..].
    intros c k' i' x' _. apply IH.
  - apply list_lookup_singleton_Some in Hx as [Hi' <-]. rewrite Hli. f_equal. lia.
Qed.

(** X16. [computeLowLim] labels the nodes for the ancestor test of
    [inSubtree].  When the tree edges below the root form a tree (the
    traversal from the root ends within a depth of the number of nodes
    and meets no node twice) and every node met has a value object,
    the store keeps its keys, the nodes that are not met keep their
    value objects, [lim] of a node is its number in post-order, and for
    nodes [u] and [v] of the tree [inSubtree(tree, v, u)] holds exactly
    when [v] is [u] or a descendant of [u]. *)
Theorem computeLowLim_ancestor tree store :
  withinDepth (length (t_nodes tree)) tree (t_root tree) = true →
  NoDup (postorderOf tree) →
  (∀ x, x ∈ postorderOf tree → x ∈ store.*1) →
  (computeLowLim tree store).*1 = store.*1 ∧
  (∀ x, x ∉ postorderOf tree → assoc x (computeLowLim tree store) = assoc x store) ∧
  (∀ i x, postorderOf tree !! i = Some x →
          limIn (computeLowLim tree store) x = Some (Z.of_nat i)) ∧
  (∀ u v, u ∈ postorderOf tree → v ∈ postorderOf tree →
          (inSubtree (computeLowLim tree store) v u = true ↔ descendant tree u v)).
Proof.
  unfold postorderOf, computeLowLim. intros Hd Hnd Hkeys.
  destruct (lowLimDfs_numbered tree _ _ store 0%Z Hd Hnd Hkeys)
    as (_ & Hk & Hframe & Hnum).
  split_and!; [done..| |].
  - intros i x Hx. by rewrite (numbered_lim _ _ _ _ _ _ _ Hnum Hx).
  - intros u v. by apply (numbered_ancestor _ _ _ 0%Z).
Qed.

Lemma computeLowLim_ancestor_witness :
  (inSubtree (computeLowLim smallTree smallStore) "d" "b" = true
   ↔ descendant smallTree "b" "d") ∧
  limIn (computeLowLim smallTree smallStore) "c" = Some 2%Z.
Proof.
  destruct (computeLowLim_ancestor smallTree smallStore) as (_ & _ & Hlim & Hanc).
  - reflexivity.
  - apply (bool_decide_unpack _). by vm_compute.
  - intros x Hx. apply (bool_decide_unpack _).
    vm_compute in Hx. vm_compute.
    repeat (apply elem_of_cons in Hx as [->|Hx]; [done|]). by apply elem_of_nil in Hx.
  - split.
    + apply Hanc; apply (bool_decide_unpack _); by vm_compute.
    + by apply (Hlim 2).
Defined.


(** ** feasibleTree and connected graphs *)

Lemma findMinSlack_None store remaining minLen mle :
  findMinSlack store remaining minLen = None →
  mle ∈ minLen → crossing remaining mle → slack store mle = None.
Proof.
  unfold findMinSlack.
  set (Q := λ (seen : list MinLenEntry) (st : option MinSlack * option Z),
    st.1 = None →
    st.2 = None ∧ ∀ mle, mle ∈ seen → crossing remaining mle → slack store mle = None).
  assert (∀ l seen st, Q seen st →
            Q (seen ++ l) (fold_left (findMinSlackStep store remaining) l st)) as Hfold.
  { induction l as [|m l IH]; intros seen st Hst; cbn [fold_left].
    - by rewrite app_nil_r.
    - rewrite (cons_middle m seen l), app_assoc. apply IH.
      destruct st as [result eSlack]. unfold findMinSlackStep.
      destruct (Bool.eqb (has remaining (mle_u m)) (has remaining (mle_v m))) eqn:Heq;
        cbn [negb].
      + intros Hn. destruct (Hst Hn) as [He Hseen]. split; [done|].
        intros m' [Hm'| ->%list_elem_of_singleton]%elem_of_app Hcross; [by apply Hseen|].
        apply Bool.eqb_prop in Heq. done.
      + destruct (lessThan (slack store m) eSlack) eqn:Hlt; [done|].
        intros Hn. destruct (Hst Hn) as [He Hseen]. split; [done|].
        intros m' [Hm'| ->%list_elem_of_singleton]%elem_of_app Hcross; [by apply Hseen|].
        cbn [snd] in He. subst eSlack. unfold lessThan in Hlt.
        by destruct (slack store m). }
  intros Hnone Hin Hcross.
  destruct (Hfold minLen [] (None, None)) as [_ Hall].
  - intros _. split; [done|]. by intros ? ?%elem_of_nil.
  - done.
  - by apply Hall.
Qed.

Lemma linked_sym es u v : linked es u v → linked es v u.
Proof.
  intros (ed & Hed & Hs). exists ed. split; [done|].
  unfold sameEnds in *. tauto.
Qed.

Lemma crossing_exists es root (remaining : list NodeId) v :
  connectedTo es root v → root ∉ remaining → v ∈ remaining →
  ∃ a b, linked es a b ∧ (a ∉ remaining) ∧ b ∈ remaining.
Proof.
  intros Hconn Hroot. induction Hconn as [|w v _ IH Hl]; [done|].
  intros Hv. destruct (decide (w ∈ remaining)) as [Hw|Hw]; [by apply IH|].
  by exists w, v.
Qed.

Lemma filter_ne_length (x : NodeId) (l : list NodeId) :
  x ∈ l → length (filter (λ u, u ≠ x) l) < length l.
Proof.
  induction l as [|y l IH]; [by intros ?%elem_of_nil|].
  intros Hx. destruct (decide (y = x)) as [->|Hne].
  - rewrite filter_cons_False by (intros ?; done).
    pose proof (length_filter (λ u, u ≠ x) l). simpl. lia.
  - rewrite filter_cons_True by done. simpl.
    apply elem_of_cons in Hx as [?|Hx]; [done|]. specialize (IH Hx). lia.
Qed.

Lemma feasibleTreeLoop_total es root (vnodes : list NodeId) minLen fuel :
  (∀ u, u ∈ vnodes → connectedTo es root u) →
  (∀ ed, ed ∈ es → esource ed ∈ vnodes ∧ etarget ed ∈ vnodes) →
  (∀ ed, ed ∈ es → ∃ mle, mle ∈ minLen ∧ sameEnds (mle_u mle) (mle_v mle) ed) →
  ∀ store remaining tree,
    NoDup remaining → length remaining ≤ fuel → root ∉ remaining →
    (∀ u, u ∈ remaining → u ∈ vnodes) →
    (∀ u, u ∈ vnodes → is_Some (rankIn store u)) →
    ∃ st, feasibleTreeLoop fuel minLen store remaining tree = Ok st.
Proof.
  intros Hconn Hclosed Hcover.
  induction fuel as [|fuel IH]; intros store remaining tree Hnd Hlen Hroot Hsub Hranks.
  - destruct remaining; [by eexists|simpl in Hlen; lia].
  - cbn [feasibleTreeLoop]. destruct remaining as [|r0 rs] eqn:Hrem; [by eexists|].
    rewrite <- Hrem in *.
    assert (r0 ∈ remaining) as Hr0 by (rewrite Hrem; by left).
    destruct (findMinSlack store remaining minLen) as [res|] eqn:Hfind.
    + destruct (findMinSlack_Some _ _ _ _ Hfind)
        as (Hin & Htree & Hgraph & Hends & [s Hs]).
      destruct (slack_Some store (ms_mle res)) as (ru & rv & Hru & Hrv); [by eexists|].
      apply IH.
      * by apply NoDup_filter.
      * pose proof (filter_ne_length _ _ Hgraph). lia.
      * by intros [_ Hin']%list_elem_of_filter.
      * intros u [_ Hu]%list_elem_of_filter. by apply Hsub.
      * intros u Hu. rewrite rankIn_storeUpd.
        destruct (String.eqb_spec (ms_graphNode res) u) as [<-|Hne]; [|by apply Hranks].
        destruct (Hranks _ (Hsub _ Hgraph)) as [r Hr]. unfold rankIn in Hr.
        destruct (assoc (ms_graphNode res) store) as [a|]; [|done]. simpl.
        destruct Hends as [(-> & _ & _)|(-> & _ & _)]; [rewrite Hru|rewrite Hrv]; by eexists.
    + exfalso.
      destruct (crossing_exists es root remaining r0 (Hconn _ (Hsub _ Hr0)) Hroot Hr0)
        as (a & b & (ed & Hed & Hab) & Ha & Hb).
      destruct (Hcover ed Hed) as (mle & Hmle & Hsame).
      destruct (Hclosed ed Hed) as [Hs Ht].
      assert (crossing remaining mle) as Hcross.
      { unfold crossing, has. unfold sameEnds in Hab, Hsame.
        destruct Hab as [[<- <-]|[<- <-]], Hsame as [[Hu Hv]|[Hu Hv]];
          rewrite <- Hu, <- Hv;
          rewrite (bool_decide_eq_true_2 _ Hb), (bool_decide_eq_false_2 _ Ha); done. }
      pose proof (findMinSlack_None _ _ _ mle Hfind Hmle Hcross) as Hnone.
      assert (mle_u mle ∈ vnodes ∧ mle_v mle ∈ vnodes) as [Hu Hv].
      { unfold sameEnds in Hsame. destruct Hsame as [[<- <-]|[<- <-]]; done. }
      destruct (Hranks _ Hu) as [ru Hru]. destruct (Hranks _ Hv) as [rv Hrv].
      by rewrite (slack_zero store mle ru rv) in Hnone.
Qed.

Lemma feasibleTreeLoop_connected es root (vnodes : list NodeId) minLen fuel :
  (∀ mle, mle ∈ minLen →
     linked es (mle_u mle) (mle_v mle) ∧ mle_u mle ∈ vnodes ∧ mle_v mle ∈ vnodes) →
  ∀ store remaining tree st,
    (∀ u, u ∈ vnodes → u ∈ t_nodes tree ∨ u ∈ remaining) →
    (∀ u, u ∈ t_nodes tree → connectedTo es root u) →
    feasibleTreeLoop fuel minLen store remaining tree = Ok st →
    ∀ u, u ∈ vnodes → connectedTo es root u.
Proof.
  intros Hml.
  induction fuel as [|fuel IH]; intros store remaining tree st Hcover Hconn.
  - simpl. destruct remaining; [|done]. intros _ u Hu.
    destruct (Hcover u Hu) as [?|?%elem_of_nil]; [by apply Hconn|done].
  - cbn [feasibleTreeLoop]. destruct remaining as [|r0 rs] eqn:Hrem.
    { intros _ u Hu. destruct (Hcover u Hu) as [?|?%elem_of_nil]; [by apply Hconn|done]. }
    rewrite <- Hrem in *.
    destruct (findMinSlack store remaining minLen) as [res|] eqn:Hfind; [|done].
    destruct (findMinSlack_Some _ _ _ _ Hfind) as (Hin & Htree & Hgraph & Hends & _).
    destruct (Hml _ Hin) as (Hl & Hu & Hv).
    assert (linked es (ms_treeNode res) (ms_graphNode res) ∧ ms_treeNode res ∈ vnodes)
      as [Hlink HtreeN].
    { destruct Hends as [(-> & -> & _)|(-> & -> & _)]; [done|].
      split; [by apply linked_sym|done]. }
    apply IH; cbn [t_nodes].
    + intros u Hu'. rewrite elem_of_app, list_elem_of_singleton, list_elem_of_filter.
      destruct (Hcover u Hu') as [?|?]; [tauto|].
      destruct (decide (u = ms_graphNode res)); tauto.
    + intros u [Hu'| ->%list_elem_of_singleton]%elem_of_app; [by apply Hconn|].
      eapply connected_step; [|exact Hlink]. apply Hconn.
      by destruct (Hcover _ HtreeN).
Qed.

Lemma feasibleTreeLoop_cases minLen fuel : ∀ store remaining tree,
  length remaining ≤ fuel →
  (∃ st, feasibleTreeLoop fuel minLen store remaining tree = Ok st) ∨
  feasibleTreeLoop fuel minLen store remaining tree = Err TypeError.
Proof.
  induction fuel as [|fuel IH]; intros store remaining tree Hlen.
  - destruct remaining; [left; by eexists|simpl in Hlen; lia].
  - cbn [feasibleTreeLoop]. destruct remaining as [|r0 rs] eqn:Hrem; [left; by eexists|].
    rewrite <- Hrem in *.
    destruct (findMinSlack store remaining minLen) as [res|] eqn:Hfind; [|by right].
    destruct (findMinSlack_Some _ _ _ _ Hfind) as (_ & _ & Hgraph & _).
    apply IH. pose proof (filter_ne_length _ _ Hgraph). lia.
Qed.

(** X17. [feasibleTree] returns a tree exactly for a connected graph.
    On a graph whose edges join its nodes: when every node is reached
    from the first node along edges, taken in either direction, and
    every node has a rank, [feasibleTree] returns; when some node is not
    reached from the first node, [findMinSlack] at last returns
    [undefined] and [result.graphNode] raises a TypeError. *)
Theorem feasibleTree_connected g vals store root :
  wfView g → head (v_nodes g) = Some root →
  ((∀ u, u ∈ v_nodes g → connectedTo (v_edges g) root u) →
   (∀ u, u ∈ v_nodes g → is_Some (rankIn store u)) →
   ∃ st, feasibleTree g vals store = Ok st)
  ∧ ((∃ u, u ∈ v_nodes g ∧ ¬ connectedTo (v_edges g) root u) →
     feasibleTree g vals store = Err TypeError).
Proof.
  intros [Hndg Hclosed] Hroot. unfold feasibleTree.
  rewrite Forall_forall in Hclosed.
  destruct (v_nodes g) as [|root' rest] eqn:Hnodes; [done|].
  injection Hroot as ->.
  destruct (collapseInv_all vals (v_edges g)) as (_ & Hid & Hcov & Hent).
  set (l := fold_left (collapseEdge vals) (v_edges g) []) in *.
  assert (length (filter (λ u, u ≠ root) (root :: rest)) ≤ length (root :: rest))
    as Hlen by apply length_filter.
  split.
  - intros Hconn Hranks.
    apply (feasibleTreeLoop_total (v_edges g) root (root :: rest)); try done.
    + intros ed Hed. destruct (Hcov ed Hed) as (mle & Hin & _).
      exists mle. split; [apply elem_of_snd; by eexists|].
      apply Hid, incidenceId_inv in Hin. unfold sameEnds. tauto.
    + by apply NoDup_filter.
    + by intros [? _]%list_elem_of_filter.
    + by intros u [_ ?]%list_elem_of_filter.
  - intros (u & Hu & Hnot).
    destruct (feasibleTreeLoop_cases l.*2 (length (root :: rest)) store
                (filter (λ u, u ≠ root) (root :: rest)) (mkTree [root] [] root) Hlen)
      as [[st Hst]|Herr]; [|done].
    exfalso. apply Hnot.
    apply (feasibleTreeLoop_connected (v_edges g) root (root :: rest) l.*2 _)
      with (u := u) in Hst; try done.
    + intros mle [id Hin]%elem_of_snd.
      destruct (Hent id mle Hin) as (_ & (ed & Hed & _ & -> & ->) & _).
      split; [|by apply Hclosed]. exists ed. split; [done|by left].
    + intros x Hx. cbn [t_nodes]. rewrite list_elem_of_singleton, list_elem_of_filter.
      destruct (decide (x = root)); tauto.
    + intros x ->%list_elem_of_singleton. constructor.
Qed.

Lemma feasibleTree_connected_witness :
  ∃ st, feasibleTree twoNodes [emptyValue] twoRanks = Ok st.
Proof.
  destruct (feasibleTree_connected twoNodes [emptyValue] twoRanks "a") as [Hok _].
  - split; [apply (bool_decide_unpack _); by vm_compute|].
    apply Forall_singleton. split; apply (bool_decide_unpack _); by vm_compute.
  - reflexivity.
  - apply Hok.
    + intros u [->|[->|[]%elem_of_nil]%elem_of_cons]%elem_of_cons; [constructor|].
      eapply connected_step; [constructor|].
      exists (mkEdge "ab" "a" "b" 0). split; [by left|by left].
    + intros u [->|[->|[]%elem_of_nil]%elem_of_cons]%elem_of_cons; by eexists.
Defined.


(** ** computeLowLim on the tree of feasibleTree *)

Lemma successors_snoc T T' te n :
  t_edges T' = t_edges T ++ [te] →
  successors T' n
  = successors T n ++ (if decide (te_source te = n) then [te_target te] else []).
Proof.
  intros He. unfold successors. rewrite He, filter_app, fmap_app. f_equal.
  rewrite filter_cons, filter_nil. by destruct (decide (te_source te = n)).
Qed.

Lemma grown_ends root nodes edges :
  grown root nodes edges →
  ∀ te, te ∈ edges → te_source te ∈ nodes ∧ te_target te ∈ nodes.
Proof.
  induction 1 as [|nodes edges te0 _ IH Hs Ht]; [by intros ? ?%elem_of_nil|].
  intros te [Hte| ->%list_elem_of_singleton]%elem_of_app.
  - destruct (IH te Hte). split; apply elem_of_app; by left.
  - split; apply elem_of_app; [by left|right; by left].
Qed.

Lemma successors_elem T n c :
  c ∈ successors T n ↔ ∃ te, te ∈ t_edges T ∧ te_source te = n ∧ te_target te = c.
Proof.
  unfold successors. rewrite list_elem_of_fmap. split.
  - intros (te & -> & [Hs Hin]%list_elem_of_filter). by exists te.
  - intros (te & Hin & Hs & <-). exists te. split; [done|].
    by apply list_elem_of_filter.
Qed.

Lemma withinDepth_mono fuel T : ∀ n,
  withinDepth fuel T n = true →
  withinDepth (S fuel) T n = true ∧ postorder (S fuel) T n = postorder fuel T n.
Proof.
  induction fuel as [|fuel IH]; intros n Hd; [done|].
  cbn [withinDepth] in Hd. rewrite forallb_forall in Hd.
  split.
  - change (forallb (withinDepth (S fuel) T) (successors T n) = true).
    apply forallb_forall. intros c Hc. by apply IH, Hd.
  - change ((successors T n ≫= postorder (S fuel) T) ++ [n]
            = (successors T n ≫= postorder fuel T) ++ [n]).
    f_equal. apply Forall_bind_ext, Forall_forall. intros c Hc.
    apply IH, Hd. by apply list_elem_of_In.
Qed.

Section leaf.
Variables (T T' : Tree) (te : TEdge).
Hypothesis Hedges : t_edges T' = t_edges T ++ [te].
Hypothesis Hfresh : ∀ te', te' ∈ t_edges T →
  te_source te' ≠ te_target te ∧ te_target te' ≠ te_target te.
Hypothesis Hne : te_source te ≠ te_target te.

Lemma leaf_successors : successors T' (te_target te) = [].
Proof using Type*.
  rewrite (successors_snoc T T' te _ Hedges).
  rewrite decide_False by done. rewrite app_nil_r.
  destruct (successors T (te_target te)) as [|c cs] eqn:Hs; [done|].
  assert (c ∈ successors T (te_target te)) as Hc by (rewrite Hs; by left).
  apply successors_elem in Hc as (te' & Hin & Hsrc & _).
  by destruct (Hfresh te' Hin).
Qed.

Lemma leaf_postorder fuel : postorder (S fuel) T' (te_target te) = [te_target te].
Proof using Type*. cbn [postorder]. by rewrite leaf_successors. Qed.

Lemma leaf_withinDepth fuel : ∀ n,
  withinDepth fuel T n = true → withinDepth (S fuel) T' n = true.
Proof using Type*.
  induction fuel as [|fuel IH]; intros n Hd; [done|].
  cbn [withinDepth] in Hd. rewrite forallb_forall in Hd.
  change (forallb (withinDepth (S fuel) T') (successors T' n) = true).
  apply forallb_forall. intros c Hc. apply list_elem_of_In in Hc.
  rewrite (successors_snoc T T' te n Hedges) in Hc.
  apply elem_of_app in Hc as [Hc|Hc].
  - apply IH, Hd. by apply list_elem_of_In.
  - destruct (decide (te_source te = n)); [|by apply elem_of_nil in Hc].
    apply list_elem_of_singleton in Hc as ->.
    cbn [withinDepth]. by rewrite leaf_successors.
Qed.

Lemma leaf_elem fuel : ∀ n y,
  withinDepth fuel T n = true →
  y ∈ postorder (S fuel) T' n ↔
  y ∈ postorder fuel T n ∨ (y = te_target te ∧ te_source te ∈ postorder fuel T n).
Proof using Type*.
  induction fuel as [|fuel IH]; intros n y Hd; [done|].
  pose proof Hd as Hd'. cbn [withinDepth] in Hd'. rewrite forallb_forall in Hd'.
  rewrite (postorder_elem (S fuel) T' n y), !(postorder_elem fuel T n).
  split.
  - intros [->|(c & Hc & Hy)]; [tauto|].
    rewrite (successors_snoc T T' te n Hedges) in Hc.
    apply elem_of_app in Hc as [Hc|Hc].
    + apply IH in Hy; [|by apply Hd', list_elem_of_In].
      destruct Hy as [Hy|[-> Hp]]; [left; right; by exists c|].
      right. split; [done|]. right. by exists c.
    + destruct (decide (te_source te = n)) as [Heq|]; [|by apply elem_of_nil in Hc].
      apply list_elem_of_singleton in Hc as ->.
      rewrite leaf_postorder in Hy. apply list_elem_of_singleton in Hy as ->.
      right. split; [done|]. by left.
  - intros [[->|(c & Hc & Hy)]|[-> [Hp|(c & Hc & Hp)]]].
    + by left.
    + right. exists c. split.
      * rewrite (successors_snoc T T' te n Hedges). apply elem_of_app. by left.
      * apply IH; [by apply Hd', list_elem_of_In|]. by left.
    + right. exists (te_target te). split.
      * rewrite (successors_snoc T T' te n Hedges). apply elem_of_app. right.
        rewrite decide_True by done. by left.
      * rewrite leaf_postorder. by left.
    + right. exists c. split.
      * rewrite (successors_snoc T T' te n Hedges). apply elem_of_app. by left.
      * apply IH; [by apply Hd', list_elem_of_In|]. by right.
Qed.

Lemma leaf_NoDup_children fuel cs :
  (∀ n, withinDepth fuel T n = true → NoDup (postorder fuel T n) →
        te_target te ∉ postorder fuel T n → NoDup (postorder (S fuel) T' n)) →
  Forall (λ c, withinDepth fuel T c = true) cs →
  NoDup (cs ≫= postorder fuel T) →
  te_target te ∉ cs ≫= postorder fuel T →
  NoDup (cs ≫= postorder (S fuel) T').
Proof using Type*.
  intros IH. induction cs as [|c cs IHcs]; intros Hd Hnd Hx; [constructor|].
  apply Forall_cons in Hd as [Hdc Hd].
  rewrite bind_cons in Hnd, Hx. rewrite bind_cons.
  apply NoDup_app in Hnd as (Hndc & Hdisj & Hndcs).
  apply not_elem_of_app in Hx as [Hxc Hxcs].
  apply NoDup_app. split_and!.
  - by apply IH.
  - intros y Hy (c2 & Hy2 & Hc2)%list_elem_of_bind.
    rewrite Forall_forall in Hd.
    apply leaf_elem in Hy; [|done]. apply leaf_elem in Hy2; [|by apply Hd].
    assert (∀ z, z ∈ postorder fuel T c2 → z ∈ cs ≫= postorder fuel T) as Hin.
    { intros z Hz. apply list_elem_of_bind. by exists c2. }
    destruct Hy as [Hy|[-> Hp]], Hy2 as [Hy2|[Heq Hp2]].
    + by apply (Hdisj y Hy), Hin.
    + by subst y.
    + by apply Hxcs, Hin.
    + by apply (Hdisj _ Hp), Hin.
  - by apply IHcs.
Qed.

Lemma leaf_NoDup fuel : ∀ n,
  withinDepth fuel T n = true → NoDup (postorder fuel T n) →
  te_target te ∉ postorder fuel T n → NoDup (postorder (S fuel) T' n).
Proof using Type*.
  induction fuel as [|fuel IH]; intros n Hd Hnd Hx; [done|].
  pose proof Hd as Hd'. cbn [withinDepth] in Hd'. rewrite forallb_forall in Hd'.
  assert (Forall (λ c, withinDepth fuel T c = true) (successors T n)) as Hall.
  { apply Forall_forall. intros c Hc. by apply Hd', list_elem_of_In. }
  change (NoDup ((successors T' n ≫= postorder (S fuel) T') ++ [n])).
  change (NoDup ((successors T n ≫= postorder fuel T) ++ [n])) in Hnd.
  change (te_target te ∉ (successors T n ≫= postorder fuel T) ++ [n]) in Hx.
  apply NoDup_app in Hnd as (Hndcs & Hdisj & _).
  apply not_elem_of_app in Hx as [Hxcs Hxn].
  rewrite (successors_snoc T T' te n Hedges), bind_app.
  assert (∀ y, y ∈ successors T n ≫= postorder (S fuel) T' →
            y ∈ successors T n ≫= postorder fuel T ∨
            (y = te_target te ∧ te_source te ∈ successors T n ≫= postorder fuel T))
    as Hmem.
  { intros y (c & Hy & Hc)%list_elem_of_bind.
    rewrite Forall_forall in Hall. apply leaf_elem in Hy; [|by apply Hall].
    destruct Hy as [Hy|[-> Hp]]; [left|right; split; [done|]];
      apply list_elem_of_bind; by exists c. }
  assert (n ≠ te_target te) as Hnx.
  { intros ->. apply Hxn. by left. }
  apply NoDup_app. split_and!; [apply NoDup_app; split_and!| |apply NoDup_singleton].
  - by apply leaf_NoDup_children.
  - intros y Hy Hy2. apply Hmem in Hy.
    destruct (decide (te_source te = n)) as [Heq|]; [|by apply elem_of_nil in Hy2].
    rewrite bind_singleton, leaf_postorder in Hy2.
    apply list_elem_of_singleton in Hy2 as ->.
    destruct Hy as [Hy|[_ Hp]]; [done|].
    apply (Hdisj _ Hp). rewrite Heq. by left.
  - destruct (decide (te_source te = n)); [|constructor].
    rewrite bind_singleton, leaf_postorder. apply NoDup_singleton.
  - intros y [Hy|Hy]%elem_of_app ->%list_elem_of_singleton.
    + apply Hmem in Hy as [Hy|[? _]]; [|done]. apply (Hdisj _ Hy). by left.
    + destruct (decide (te_source te = n)); [|by apply elem_of_nil in Hy].
      rewrite bind_singleton, leaf_postorder in Hy.
      by apply list_elem_of_singleton in Hy.
Qed.

End leaf.

Lemma grown_postorder root nodes edges :
  grown root nodes edges →
  withinDepth (length nodes) (mkTree nodes edges root) root = true ∧
  NoDup (postorder (length nodes) (mkTree nodes edges root) root) ∧
  ∀ u, u ∈ postorder (length nodes) (mkTree nodes edges root) root ↔ u ∈ nodes.
Proof.
  intros Hg. induction Hg as [|nodes edges te Hg (Hd & Hnd & Hall) Hs Ht].
  - split_and!; [done|apply NoDup_singleton|done].
  - set (T := mkTree nodes edges root) in *.
    set (T' := mkTree (nodes ++ [te_target te]) (edges ++ [te]) root).
    assert (t_edges T' = t_edges T ++ [te]) as Hedges by done.
    assert (∀ te', te' ∈ t_edges T →
              te_source te' ≠ te_target te ∧ te_target te' ≠ te_target te) as Hfresh.
    { intros te' Hin. destruct (grown_ends _ _ _ Hg te' Hin) as [H1 H2].
      split; intros Heq; apply Ht; by rewrite <- Heq. }
    assert (te_source te ≠ te_target te) as Hne.
    { intros Heq. apply Ht. by rewrite <- Heq. }
    rewrite length_app. cbn [length]. rewrite Nat.add_1_r.
    split_and!.
    + by apply (leaf_withinDepth T T' te Hedges Hfresh Hne).
    + apply (leaf_NoDup T T' te Hedges Hfresh Hne); [done..|]. by rewrite Hall.
    + intros u. rewrite (leaf_elem T T' te Hedges Hfresh Hne) by done.
      rewrite !Hall, elem_of_app, list_elem_of_singleton. tauto.
Qed.

Lemma feasibleTreeLoop_grown (vnodes : list NodeId) minLen fuel :
  (∀ mle, mle ∈ minLen → mle_u mle ∈ vnodes ∧ mle_v mle ∈ vnodes) →
  ∀ store remaining tree st,
    (∀ u, u ∈ t_nodes tree → u ∉ remaining) →
    (∀ u, u ∈ vnodes ↔ u ∈ t_nodes tree ∨ u ∈ remaining) →
    grown (t_root tree) (t_nodes tree) (t_edges tree) →
    feasibleTreeLoop fuel minLen store remaining tree = Ok st →
    grown (t_root st.2) (t_nodes st.2) (t_edges st.2) ∧
    (∀ u, u ∈ vnodes ↔ u ∈ t_nodes st.2).
Proof.
  intros Hml.
  induction fuel as [|fuel IH]; intros store remaining tree st Hdisj Hcover Hg.
  - simpl. destruct remaining; [|done]. intros [= <-]. split; [done|].
    intros u. rewrite Hcover, elem_of_nil. tauto.
  - cbn [feasibleTreeLoop]. destruct remaining as [|r0 rs] eqn:Hrem.
    { intros [= <-]. split; [done|]. intros u. rewrite Hcover, elem_of_nil. tauto. }
    rewrite <- Hrem in *.
    destruct (findMinSlack store remaining minLen) as [res|] eqn:Hfind; [|done].
    destruct (findMinSlack_Some _ _ _ _ Hfind) as (Hin & Htree & Hgraph & Hends & _).
    destruct (Hml _ Hin) as (Hu & Hv).
    assert (ms_treeNode res ∈ t_nodes tree) as HtreeN.
    { assert (ms_treeNode res ∈ vnodes) as Hvn
        by (destruct Hends as [(-> & _)|(-> & _)]; done).
      apply Hcover in Hvn as [?|?]; done. }
    assert (ms_graphNode res ∉ t_nodes tree) as HgraphN.
    { intros Hin'. by apply (Hdisj _ Hin'). }
    intros Hloop. apply IH in Hloop; [done|..]; cbn [t_nodes t_edges t_root].
    + intros u [Hu'| ->%list_elem_of_singleton]%elem_of_app
        [Hne Hin']%list_elem_of_filter; [by apply (Hdisj u)|done].
    + intros u. rewrite Hcover, elem_of_app, list_elem_of_singleton,
        list_elem_of_filter.
      destruct (decide (u = ms_graphNode res)) as [->|]; tauto.
    + by apply (grown_leaf _ _ _
                  (mkTEdge (mle_e (ms_mle res)) (ms_treeNode res) (ms_graphNode res) None)).
Qed.

(** X18. [computeLowLim] on the tree of [feasibleTree].  When
    [feasibleTree] returns on a well-formed graph whose nodes all have
    value objects, [computeLowLim] numbers every node of the
    graph once: the nodes in the order of their [lim] are a permutation
    of the nodes of the graph, and for nodes [u] and [v] of the graph
    [inSubtree(tree, v, u)] holds exactly when [v] is [u] or is reached
    from [u] along tree edges. *)
Theorem feasibleTree_lowLim g vals store store' tree :
  wfView g →
  (∀ u, u ∈ v_nodes g → u ∈ store.*1) →
  feasibleTree g vals store = Ok (store', tree) →
  postorderOf tree ≡ₚ v_nodes g ∧
  (∀ i x, postorderOf tree !! i = Some x →
          limIn (computeLowLim tree store') x = Some (Z.of_nat i)) ∧
  (∀ u v, u ∈ v_nodes g → v ∈ v_nodes g →
          (inSubtree (computeLowLim tree store') v u = true ↔ descendant tree u v)).
Proof.
  intros [Hndg Hclosed] Hkeys Hft. unfold feasibleTree in Hft.
  rewrite Forall_forall in Hclosed.
  destruct (v_nodes g) as [|root rest] eqn:Hnodes; [done|].
  destruct (collapseInv_all vals (v_edges g)) as (_ & _ & _ & Hent).
  set (l := fold_left (collapseEdge vals) (v_edges g) []) in *.
  pose proof (feasibleTreeLoop_rankOnly _ _ _ _ _ _ Hft) as Hro.
  apply rankOnly_keys in Hro. cbn [fst] in Hro.
  apply (feasibleTreeLoop_grown (root :: rest)) in Hft as [Hg Hcover];
    cbn [t_nodes t_edges t_root snd] in *.
  - destruct tree as [nodes edges troot]. cbn [t_nodes t_edges t_root] in *.
    destruct (grown_postorder _ _ _ Hg) as (Hd & Hnd & Hall).
    unfold postorderOf, computeLowLim. cbn [t_nodes t_root].
    set (T := mkTree nodes edges troot) in *.
    destruct (lowLimDfs_numbered T (length nodes) troot store' 0%Z Hd Hnd)
      as (_ & _ & _ & Hnum).
    { intros x Hx. rewrite Hro. apply Hkeys, Hcover, Hall, Hx. }
    split_and!.
    + apply NoDup_Permutation; [done..|]. intros x. by rewrite Hall, Hcover.
    + intros i x Hx. by rewrite (numbered_lim _ _ _ _ _ _ _ Hnum Hx).
    + intros u v Hu Hv.
      apply (numbered_ancestor (length nodes) T _ 0%Z troot); [done..| |];
        by apply Hall, Hcover.
  - intros mle [id Hin]%elem_of_snd.
    destruct (Hent id mle Hin) as (_ & (ed & Hed & _ & -> & ->) & _).
    by apply Hclosed.
  - intros u ->%list_elem_of_singleton [Hne _]%list_elem_of_filter. done.
  - intros u. rewrite list_elem_of_singleton, list_elem_of_filter.
    destruct (decide (u = root)) as [->|]; [|tauto].
    split; [tauto|]. intros _. by left.
  - constructor.
Qed.

Lemma feasibleTree_lowLim_witness :
  ∃ store' tree,
    feasibleTree twoNodes [emptyValue] twoRanks = Ok (store', tree) ∧
    (inSubtree (computeLowLim tree store') "b" "a" = true ↔ descendant tree "a" "b").
Proof.
  destruct (feasibleTree twoNodes [emptyValue] twoRanks) as [[store' tree]|] eqn:Hft;
    [|by vm_compute in Hft].
  exists store', tree. split; [done|].
  destruct (feasibleTree_lowLim twoNodes [emptyValue] twoRanks store' tree)
    as (_ & _ & Hanc).
  - split; [apply (bool_decide_unpack _); by vm_compute|].
    apply Forall_singleton. split; apply (bool_decide_unpack _); by vm_compute.
  - intros u Hu. apply (bool_decide_unpack _). vm_compute in Hu. vm_compute.
    repeat (apply elem_of_cons in Hu as [->|Hu]; [done|]). by apply elem_of_nil in Hu.
  - exact Hft.
  - apply Hanc; apply (bool_decide_unpack _); by vm_compute.
Defined.


(** ** combineRanks *)

Lemma redirectIn_nodes rank newU es : ∀ g,
  v_nodes (fold_left (redirectIn rank newU) es g) = v_nodes g.
Proof.
  induction es as [|e es IH]; intros g; cbn [fold_left]; [done|].
  rewrite IH. unfold redirectIn. by destruct (isStr rank "min").
Qed.

Lemma redirectOut_nodes rank newU es : ∀ g,
  v_nodes (fold_left (redirectOut rank newU) es g) = v_nodes g.
Proof.
  induction es as [|e es IH]; intros g; cbn [fold_left]; [done|].
  rewrite IH. unfold redirectOut. by destruct (isStr rank "max").
Qed.

Lemma addZeroEdge_nodes mk us : ∀ g vals,
  v_nodes (fold_left (addZeroEdge mk) us (g, vals)).1 = v_nodes g.
Proof.
  induction us as [|u us IH]; intros g vals; cbn [fold_left]; [done|].
  unfold addZeroEdge at 2. by rewrite IH.
Qed.

Lemma combineNode_nodes g store m u :
  v_nodes (combineNode (g, store, m) u).1.1 =
  match prefIn store u with
  | None => v_nodes g
  | Some rank =>
    filter (λ v, v ≠ u)
      (v_nodes g ++ match assoc (prefKey rank) m with
                    | Some _ => []
                    | None => [autoId (S (v_nextId g))]
                    end)
  end ∧
  (combineNode (g, store, m) u).2 =
  match prefIn store u with
  | None => m
  | Some rank =>
    match assoc (prefKey rank) m with
    | Some _ => m
    | None => m ++ [(prefKey rank, autoId (S (v_nextId g)))]
    end
  end.
Proof.
  unfold combineNode, prefIn.
  destruct (assoc u store ≫= nv_prefRank) as [rank|]; [|done].
  destruct (assoc (prefKey rank) m) as [c|]; cbn [fst snd vDelNode v_nodes].
  - by rewrite redirectOut_nodes, redirectIn_nodes, app_nil_r.
  - by rewrite redirectOut_nodes, redirectIn_nodes.
Qed.

Lemma filter_ne_absent (u : NodeId) (l : list NodeId) :
  u ∉ l → filter (λ v, v ≠ u) l = l.
Proof.
  intros Hu. apply filter_all, Forall_forall. intros x Hx ->. done.
Qed.

Lemma combineNodes_nodes store0 :
  userIds store0.*1 →
  ∀ us seen st,
    NoDup (seen ++ us) → (∀ u, u ∈ seen ++ us → u ∈ store0.*1) →
    combineInv store0 seen st →
    v_nodes st.1.1 = unranked store0 seen ++ us ++ st.2.*2 →
    combineInv store0 (seen ++ us) (fold_left combineNode us st) ∧
    v_nodes (fold_left combineNode us st).1.1
    = unranked store0 (seen ++ us) ++ (fold_left combineNode us st).2.*2.
Proof.
  intros Hus. induction us as [|u us IH]; intros seen st Hnd Hin Hinv Hnodes.
  { cbn [fold_left]. rewrite app_nil_r. split; [done|]. by rewrite Hnodes. }
  cbn [fold_left].
  replace (seen ++ u :: us) with ((seen ++ [u]) ++ us) in * by by rewrite <- app_assoc.
  assert (u ∈ store0.*1) as Hu.
  { apply Hin. rewrite !elem_of_app, list_elem_of_singleton. tauto. }
  apply IH; [done|done|by apply combineInv_step|].
  destruct st as [[g store] m]. cbn [fst snd] in Hnodes.
  destruct Hinv as (cstore & ns & Hst & _ & _ & _ & Hm2 & _). cbn [fst snd] in Hst, Hm2.
  destruct (combineNode_nodes g store m u) as [Hn Hm]. rewrite Hn, Hm. clear Hn Hm.
  rewrite Hst, (prefIn_app_l store0 cstore u Hu).
  apply NoDup_app in Hnd as (Hnd1 & Hdisj & _).
  apply NoDup_app in Hnd1 as (_ & Hdisj1 & _).
  assert (u ∉ seen) as Hu1.
  { intros Hx. apply (Hdisj1 u Hx). by left. }
  assert (u ∉ us) as Hu2.
  { intros Hx. apply (Hdisj u); [|done]. apply elem_of_app. right. by left. }
  assert (∀ n, u ≠ autoId n) as Hu3.
  { intros n ->. by apply (userIds_not_auto _ n Hus). }
  assert (u ∉ m.*2) as Hu4.
  { rewrite Hm2. intros (n & -> & _)%list_elem_of_fmap. by apply (Hu3 n). }
  unfold unranked in *. rewrite filter_app, Hnodes.
  destruct (prefIn store0 u) as [rank|] eqn:Hp.
  - rewrite (filter_cons_False _ u) by (by rewrite Hp). rewrite filter_nil, app_nil_r.
    rewrite !filter_app, filter_cons_False by (intros H; by apply H).
    rewrite !filter_ne_absent.
    + destruct (assoc (prefKey rank) m); [by rewrite app_nil_r|].
      rewrite fmap_app. cbn [fmap list_fmap snd]. by rewrite <- !app_assoc.
    + destruct (assoc (prefKey rank) m); [apply not_elem_of_nil|].
      intros ->%list_elem_of_singleton. by apply (Hu3 (S (v_nextId g))).
    + done.
    + done.
    + intros Hx%list_elem_of_filter. tauto.
  - rewrite (filter_cons_True _ u) by done. rewrite filter_nil.
    by rewrite <- !app_assoc.
Qed.

(** X19. The reduced graph of [combineRanks].  For a graph with unique
    node ids that do not start with an underscore: when no node has a
    [prefRank], [combineRanks] returns the graph as it is.  When some
    node has one and [combineRanks] returns, the reduced graph has the
    nodes without [prefRank], in their order, followed by the compound
    nodes, one for each [prefRank] that occurs (as [prefRankToNode]
    keys them); the compound nodes get value objects after those of the
    graph, and the [originalNodes] of a compound node are the nodes of
    the graph that have its [prefRank]. *)
Theorem combineRanks_reduced acy g0 store0 vals :
  userIds store0.*1 → NoDup store0.*1 → v_nodes g0 = store0.*1 →
  ((∀ u, u ∈ v_nodes g0 → prefIn store0 u = None) →
   combineRanks acy g0 store0 vals = Ok (g0, store0, vals)) ∧
  (∀ reduced store1 vals1,
     (∃ u, u ∈ v_nodes g0 ∧ is_Some (prefIn store0 u)) →
     combineRanks acy g0 store0 vals = Ok (reduced, store1, vals1) →
     ∃ m : list (string * NodeId),
       v_compoundNodes reduced = Some m.*2 ∧
       v_nodes reduced = unranked store0 (v_nodes g0) ++ m.*2 ∧
       store1.*1 = store0.*1 ++ m.*2 ∧
       NoDup m.*1 ∧ NoDup m.*2 ∧
       (∀ o r, o ∈ v_nodes g0 → prefIn store0 o = Some r →
               ∃ c, (prefKey r, c) ∈ m) ∧
       (∀ key c o, (key, c) ∈ m →
          o ∈ originalsIn store1 c ↔
          o ∈ v_nodes g0 ∧ prefKey <$> prefIn store0 o = Some key)).
Proof.
  intros Hus Hnd Hnodes. split.
  - intros Hnone. unfold combineRanks.
    match goal with
    | |- context [existsb ?f ?l] => assert (existsb f l = false) as ->; [|done]
    end.
    apply not_true_iff_false. intros (u & Hu & Hp)%existsb_exists.
    apply bool_decide_eq_true_1 in Hp. apply list_elem_of_In in Hu.
    specialize (Hnone u Hu). unfold prefIn in Hnone. rewrite Hnone in Hp.
    by destruct Hp.
  - intros reduced store1 vals1 (u & Hu & Hp) Hcomb. unfold combineRanks in Hcomb.
    match type of Hcomb with
    | context [existsb ?f ?l] => assert (existsb f l = true) as Hneeds
    end.
    { apply existsb_exists. exists u. split; [by apply list_elem_of_In|].
      by apply bool_decide_eq_true_2. }
    rewrite Hneeds in Hcomb. cbn [negb] in Hcomb. cbv zeta in Hcomb.
    cbn [v_nodes] in Hcomb.
    match type of Hcomb with
    | context [fold_left combineNode ?us ?st0] =>
      destruct (combineNodes_nodes store0 Hus us [] st0) as [Hinv Hn];
        [| | | |destruct (fold_left combineNode us st0) as [[g1 store1'] m]]
    end.
    { by rewrite app_nil_l, Hnodes. }
    { intros x. by rewrite app_nil_l, Hnodes. }
    { exists [], []. simpl. rewrite app_nil_r.
      split_and!; try done; try constructor.
      all: try (match goal with H : _ ∈ [] |- _ => by apply elem_of_nil in H end).
      intros ?? []%elem_of_nil. }
    { cbn [fst snd v_nodes fmap list_fmap]. unfold unranked.
      by rewrite filter_nil, app_nil_l, app_nil_r. }
    rewrite app_nil_l in Hinv, Hn. cbn [fst snd] in Hn.
    destruct Hinv as (cstore & ns & Hst & Hkeys & HcN & Hndm & Hm2 & _ & Hndns & Horig & Hseen).
    cbn [fst snd] in *. subst store1'.
    assert (∃ g3 vals3, v_compoundNodes g3 = Some m.*2 ∧ v_nodes g3 = v_nodes g1 ∧
              (r ← acy (v_nodes g3) (v_edges g3) vals3;
               Ok (mkView (v_nodes g3) r.1 (v_compoundNodes g3) (v_nextId g3),
                   store0 ++ cstore, r.2)) = Ok (reduced, store1, vals1))
      as (g3 & vals3 & HcN3 & Hn3 & Hacy).
    { destruct (assoc "min" m) as [minNode|];
        destruct (assoc "max" m) as [maxNode|];
        repeat match type of Hcomb with
               | context [fold_left (addZeroEdge ?mk) ?us (?g, ?vs)] =>
                 let H := fresh "Hz" in
                 let H' := fresh "Hz" in
                 pose proof (addZeroEdge_fold mk us g vs) as H;
                 pose proof (addZeroEdge_nodes mk us g vs) as H';
                 destruct (fold_left (addZeroEdge mk) us (g, vs)) as [? ?];
                 cbn [fst] in H, H'
               end;
        eexists _, _; (split_and!; [| |exact Hcomb]); congruence. }
    destruct (acy _ _ _) as [res|]; [|done]. simpl in Hacy.
    injection Hacy as <- <- <-. cbn [v_nodes v_compoundNodes].
    exists m. split_and!; try done.
    + by rewrite Hn3, Hn.
    + by rewrite fmap_app, Hkeys.
    + rewrite Hm2. apply NoDup_fmap_2; [|done]. intros ??. apply autoId_inj.
Qed.

Lemma combineRanks_reduced_witness :
  ∃ reduced store1 vals1,
    combineRanks acyclic
      (mkView (nodeIds (initLayoutGraph sameRankInput))
         (edges (initLayoutGraph sameRankInput)) None
         (nextId (initLayoutGraph sameRankInput)))
      (nodes (initLayoutGraph sameRankInput))
      (values (initLayoutGraph sameRankInput)) = Ok (reduced, store1, vals1) ∧
    ∃ c, v_nodes reduced = ["b"; "d"; c].
Proof.
  set (g := initLayoutGraph sameRankInput).
  destruct (combineRanks acyclic (mkView (nodeIds g) (edges g) None (nextId g))
              (nodes g) (values g)) as [[[reduced store1] vals1]|] eqn:Hcomb;
    [|by vm_compute in Hcomb].
  exists reduced, store1, vals1. split; [done|].
  destruct (combineRanks_reduced acyclic (mkView (nodeIds g) (edges g) None (nextId g))
              (nodes g) (values g)) as [_ Hred].
  - vm_compute. repeat constructor.
  - apply (bool_decide_unpack _). by vm_compute.
  - reflexivity.
  - destruct (Hred reduced store1 vals1) as (m & _ & Hn & _); [|exact Hcomb|].
    + exists "a". split; [apply (bool_decide_unpack _); by vm_compute|by eexists].
    + vm_compute in Hcomb. injection Hcomb as <- _ _. by eexists.
Defined.

(** ** C7: initRank raises NotAcyclic exactly on a cycle *)

Lemma path_last es u v :
  path es u v →
  ∃ e, e ∈ es ∧ etarget e = v ∧ (esource e = u ∨ path es u (esource e)).
Proof.
  induction 1 as [e He|e v He Hp (e' & He' & Ht & Hs)].
  - exists e. split_and!; [done..|by left].
  - exists e'. split_and!; [done..|]. right.
    destruct Hs as [Hs|Hs]; [rewrite Hs; by apply path_edge|by apply path_cons].
Qed.

Lemma cycle_pred es w :
  path es w w → ∃ e, e ∈ es ∧ etarget e = w ∧ path es (esource e) (esource e).
Proof.
  intros Hp. destruct (path_last es w w Hp) as (e & He & Ht & Hs).
  exists e. split_and!; [done..|].
  destruct Hs as [Hs|Hs].
  - pose proof (path_edge es e He) as Hpe. by rewrite Ht, <- Hs in Hpe.
  - apply path_cons; [done|]. by rewrite Ht.
Qed.

Lemma initRankLoop_cyclic fuel g vals : ∀ store minRank pq,
  kahnInv g store minRank pq → length pq ≤ fuel →
  (∃ w, path (v_edges g) w w) →
  (∀ w, path (v_edges g) w w → w ∈ pq.*1) →
  initRankLoop fuel g vals store minRank pq = Err NotAcyclic.
Proof.
  induction fuel as [|fuel IH]; intros store minRank pq Hk Hlen [w0 Hw0] Hcyc.
  - destruct pq; [|simpl in Hlen; lia].
    by apply Hcyc, elem_of_nil in Hw0.
  - cbn [initRankLoop]. destruct (pqMin pq) as [m|] eqn:Hmin; cycle 1.
    { apply pqMin_None in Hmin as ->. by apply Hcyc, elem_of_nil in Hw0. }
    destruct (Z.ltb_spec 0 (pqPriority pq m)) as [|Hle]; [done|].
    pose proof Hk as (Hnd & _ & Hprio & _).
    destruct (pqMin_spec pq m Hnd Hmin) as [Hm _].
    assert (inFrom (v_edges g) pq.*1 m = []) as Hnone.
    { rewrite (Hprio m Hm) in Hle. apply length_zero_iff_nil. lia. }
    destruct (fold_left _ _ _) as [mr' pq'] eqn:Hfold.
    destruct (kahnInv_step g vals store minRank pq m mr' pq' Hk Hmin)
      as (Hk' & Hkeys & _ & _); [rewrite (Hprio m Hm), Hnone; done|done|].
    apply IH; [done| |by exists w0|].
    + assert (length pq' = length pq'.*1) as -> by by rewrite length_fmap.
      rewrite Hkeys.
      pose proof (length_filter_lt (λ u, u ≠ m) pq.*1 m Hm ltac:(tauto)) as Hlt.
      rewrite length_fmap in Hlt. lia.
    + intros w Hw. rewrite Hkeys. apply list_elem_of_filter. split; [|by apply Hcyc].
      intros ->. destruct (cycle_pred _ _ Hw) as (e & He & Ht & Hp).
      assert (e ∈ inFrom (v_edges g) pq.*1 m) as Hin.
      { apply list_elem_of_filter. split; [|done]. split; [done|by apply Hcyc]. }
      rewrite Hnone in Hin. by apply elem_of_nil in Hin.
Qed.

Lemma initRank_rankInv g vals store store' :
  wfView g → (∀ u, u ∈ v_nodes g → u ∈ store.*1) →
  initRank g vals store = Ok store' →
  ∃ minRank, rankInv g vals store' minRank [].
Proof.
  intros Hwf Hstore Hinit. unfold initRank in Hinit.
  pose proof (kahnInv_init g store Hwf Hstore) as Hk.
  set (pq0 := fold_left _ (v_nodes g) []) in *.
  set (mr0 := (λ u, (u, Some 0%Z)) <$> v_nodes g) in *.
  assert (pq0.*1 = v_nodes g) as Hkeys.
  { unfold pq0. rewrite pqAdd_fold. simpl. rewrite <- list_fmap_compose.
    apply list_fmap_id. }
  pose proof Hwf as [Hnd Hclosed]. rewrite Forall_forall in Hclosed.
  apply (initRankLoop_feasible (length (v_nodes g)) g vals Hwf store mr0 pq0 store' Hk);
    [|done].
  unfold rankInv. rewrite Hkeys. split_and!.
  - intros u Hu Hn. done.
  - intros e He Hn. by destruct (Hclosed e He) as [Hs _].
  - intros u Hu. exists 0%Z. split_and!; [|done|by left].
    unfold minRankOf, mr0. rewrite (assoc_NoDup _ u (Some 0%Z)); [done| |].
    + rewrite <- list_fmap_compose. by rewrite list_fmap_id.
    + apply list_elem_of_fmap. by exists u.
Qed.

(** C7. In the loop of [initRank], when the queue is not empty and the
    priority of its minimum is positive, the result is the error
    [NotAcyclic], and then [rank] returns this error and no graph.  For a
    graph whose edges join its nodes, all with a value object, the error
    is raised exactly when the graph has a directed cycle: with a cycle
    [initRank] ends in [NotAcyclic], whatever else the graph holds; on an
    acyclic graph [initRank] returns, within the fuel given by the number
    of nodes, and every node has a rank, which is 0 or the rank of a
    predecessor plus the [minLen] of the edge from it, and is not below
    that sum for any incoming edge. *)
Theorem initRank_acyclic :
  (∀ fuel g vals store minRank pq minId,
     pqMin pq = Some minId → (0 < pqPriority pq minId)%Z →
     initRankLoop (S fuel) g vals store minRank pq = Err NotAcyclic)
  ∧ (∀ acy g reduced store vals,
       combineRanks acy (mkView (nodeIds g) (edges g) None (nextId g)) (nodes g)
         (values g) = Ok (reduced, store, vals) →
       initRank reduced vals store = Err NotAcyclic →
       rank acy g = Err NotAcyclic)
  ∧ (∀ g vals store,
       wfView g → (∀ u, u ∈ v_nodes g → u ∈ store.*1) →
       ((∃ w, path (v_edges g) w w) → initRank g vals store = Err NotAcyclic)
       ∧ (noCycle (v_edges g) →
          ∃ store', initRank g vals store = Ok store' ∧
            (∀ u, u ∈ v_nodes g →
               ∃ r, rankIn store' u = Some r ∧ (0 ≤ r)%Z ∧
                    (r = 0%Z ∨
                     ∃ e ru, e ∈ v_edges g ∧ etarget e = u ∧
                             rankIn store' (esource e) = Some ru ∧
                             r = (ru + minLenOf vals e)%Z)) ∧
            (∀ e, e ∈ v_edges g →
               ∃ ru rv, rankIn store' (esource e) = Some ru ∧
                        rankIn store' (etarget e) = Some rv ∧
                        (ru + minLenOf vals e ≤ rv)%Z))).
Proof.
  split_and!.
  - intros fuel g vals store minRank pq minId Hmin Hpos. simpl. rewrite Hmin.
    apply Z.ltb_lt in Hpos. by rewrite Hpos.
  - intros acy g reduced store vals Hcomb Hinit. unfold rank.
    rewrite Hcomb. simpl. by rewrite Hinit.
  - intros g vals store Hwf Hstore.
    assert ((fold_left (λ pq u, pqAdd pq u (Z.of_nat (length (inEdges (v_edges g) u))))
               (v_nodes g) []).*1 = v_nodes g) as Hkeys.
    { rewrite pqAdd_fold. simpl. rewrite <- list_fmap_compose. apply list_fmap_id. }
    split.
    + intros Hcyc. unfold initRank.
      apply initRankLoop_cyclic; [by apply kahnInv_init| |done|].
      * rewrite pqAdd_fold. simpl. by rewrite length_fmap.
      * intros w Hw. rewrite Hkeys.
        destruct (cycle_pred _ _ Hw) as (e & He & <- & _).
        destruct Hwf as [_ Hclosed]. rewrite Forall_forall in Hclosed.
        by apply Hclosed.
    + intros Hdag.
      destruct (initRankLoop_total (length (v_nodes g)) g vals store
                  ((λ u, (u, Some 0%Z)) <$> v_nodes g)
                  (fold_left (λ pq u, pqAdd pq u
                     (Z.of_nat (length (inEdges (v_edges g) u)))) (v_nodes g) []))
        as (store' & Hinit & _); [done|done|by apply kahnInv_init| |].
      { rewrite pqAdd_fold. simpl. by rewrite length_fmap. }
      exists store'. split; [exact Hinit|].
      destruct (initRank_rankInv g vals store store' Hwf Hstore Hinit)
        as (mr & Hdone & Hedge & Hmin).
      destruct Hwf as [_ Hclosed]. rewrite Forall_forall in Hclosed.
      split.
      * intros u Hu. destruct (Hmin u Hu) as (t & Ht & Hpos & Hwit).
        destruct (Hdone u Hu (not_elem_of_nil _)) as [Hru _].
        exists t. rewrite Hru. split_and!; [done..|].
        destruct Hwit as [->|(e & r & He & Hte & _ & Hr' & ->)]; [by left|].
        right. by exists e, r.
      * intros e He. destruct (Hclosed e He) as [_ Ht].
        destruct (Hedge e He (not_elem_of_nil _)) as (r & t & Hr' & Ht' & Hle).
        destruct (Hdone (etarget e) Ht (not_elem_of_nil _)) as [Hrt _].
        exists r, t. by rewrite Hrt.
Qed.

Lemma initRank_acyclic_witness :
  let g := initLayoutGraph fourNodes in
  let c := initLayoutGraph twoCycle in
  let i := initLayoutGraph isolatedCycle in
  initRankLoop 2 (viewOf c) (values c) (nodes c) [("a", Some 0%Z); ("b", Some 0%Z)]
    [("a", 1%Z); ("b", 1%Z)] = Err NotAcyclic
  ∧ rank keepEdges c = Err NotAcyclic
  ∧ initRank (viewOf i) (values i) (nodes i) = Err NotAcyclic
  ∧ ∃ store', initRank (viewOf g) (values g) (nodes g) = Ok store' ∧
              rankIn store' "n" = Some 4%Z.
Proof.
  intros g c i. destruct initRank_acyclic as (H1 & H2 & H3). split_and!.
  - apply (H1 1 (viewOf c) (values c) (nodes c) _ _ "a"); [reflexivity | reflexivity].
  - apply (H2 keepEdges c (viewOf c) (nodes c) (values c)); vm_compute; reflexivity.
  - apply (H3 (viewOf i) (values i) (nodes i)).
    + split; apply (bool_decide_unpack _); by vm_compute.
    + intros u Hu. exact Hu.
    + exists "b".
      apply (path_cons _ (mkEdge "_1" "b" "c" 0)); [by left|].
      apply (path_edge _ (mkEdge "_2" "c" "b" 1)). right. by left.
  - destruct (H3 (viewOf g) (values g) (nodes g)) as [_ Hok].
    + exact fourNodes_wfView.
    + intros u Hu. exact Hu.
    + destruct (Hok fourNodes_noCycle) as (store' & Hinit & _).
      exists store'. split; [exact Hinit|].
      vm_compute in Hinit. by injection Hinit as <-.
Defined.
